(** * ba_solver: cardinality / pseudo-Boolean / xor extension of the SAT core

    A shallow embedding of [src/sat/ba_solver.cpp].  The solver object is a
    record, member functions are computations in a state monad whose result
    type also records C++ exceptions, [exit] and undefined behaviour
    (out-of-range element access).  Unsigned 32-bit data is carried in [Z]
    with the wrap-around written out; [int64] data is carried in [Z]. *)

From Stdlib Require Import String.
From Stdlib Require Import ZArith List Bool Lia Permutation Sorted.
From Stdlib Require Import Znumtheory.
Import ListNotations.
Local Open Scope Z_scope.

(** ** Machine integers *)

Definition UINT_MAX : Z := 4294967295.
Definition INT_MAX : Z := 2147483647.
Definition INT_MIN : Z := -2147483648.

(** Result of an [unsigned] operation: reduction modulo 2^32. *)
Definition u32 (z : Z) : Z := z mod 4294967296.

(** [static_cast<int>] of an unsigned value. *)
Definition to_int (z : Z) : Z :=
  if u32 z <=? INT_MAX then u32 z else u32 z - 4294967296.

Definition is_u32 (z : Z) : Prop := 0 <= z <= UINT_MAX.

Lemma u32_range z : 0 <= u32 z <= UINT_MAX.
Proof.
  unfold u32, UINT_MAX.
  pose proof (Z.mod_pos_bound z 4294967296 ltac:(lia)). lia.
Qed.

Lemma u32_id z : is_u32 z -> u32 z = z.
Proof. unfold is_u32, u32, UINT_MAX. intros H. apply Z.mod_small. lia. Qed.

Lemma u32_idem z : u32 (u32 z) = u32 z.
Proof. apply u32_id, u32_range. Qed.

(** ** Types imported from the SAT core *)

(** Modelled from the spec: [bool_var], [literal] and [lbool] are declared
    in the SAT core's headers, which are not part of the sources.  A literal
    is a boolean variable plus a sign bit; [null_literal] is the positive
    literal of [null_bool_var]. *)
Definition bool_var := Z.
Definition null_bool_var : bool_var := 2147483647.

Record literal := mk_literal { var : bool_var; sign : bool }.

Definition null_literal : literal := mk_literal null_bool_var false.

(** [l.neg()] and [~l]. *)
Definition neg (l : literal) : literal := mk_literal (var l) (negb (sign l)).

Definition literal_eqb (l1 l2 : literal) : bool :=
  (var l1 =? var l2) && Bool.eqb (sign l1) (sign l2).

Inductive lbool := l_false | l_undef | l_true.

Definition lbool_eqb (a b : lbool) : bool :=
  match a, b with
  | l_false, l_false | l_undef, l_undef | l_true, l_true => true
  | _, _ => false
  end.

(** [~] on [lbool]. *)
Definition lneg (a : lbool) : lbool :=
  match a with l_false => l_true | l_undef => l_undef | l_true => l_false end.

Lemma literal_eqb_spec l1 l2 : reflect (l1 = l2) (literal_eqb l1 l2).
Proof.
  destruct l1 as [v1 s1], l2 as [v2 s2]. unfold literal_eqb. simpl.
  destruct (Z.eqb_spec v1 v2) as [->|Hv]; simpl.
  - destruct s1, s2; simpl; constructor; congruence.
  - constructor. congruence.
Qed.

Lemma literal_eqb_refl l : literal_eqb l l = true.
Proof. destruct (literal_eqb_spec l l); congruence. Qed.

Lemma neg_involutive l : neg (neg l) = l.
Proof. destruct l as [v s]. unfold neg. simpl. now rewrite negb_involutive. Qed.

Lemma lbool_eqb_spec a b : reflect (a = b) (lbool_eqb a b).
Proof. destruct a, b; simpl; constructor; congruence. Qed.

(** ** Constraints *)

(** A weighted literal: [std::pair<unsigned, literal>]. *)
Definition wliteral := (Z * literal)%type.

(** The fields of the base class [constraint] ([c_lit] is its [m_lit], and
    so on).  The number of terms
    ([m_size]) is the length of the body; only [simplify] and [recompile]
    shrink it, and they are not part of this development. *)
Record header := mk_header {
  c_id : Z;
  c_lit : literal;
  c_removed : bool;
  c_learned : bool;
  c_glue : Z;
  c_psm : Z
}.

Record card := mk_card {
  card_hd : header;
  card_k : Z;
  card_lits : list literal
}.

Record pb := mk_pb {
  pb_hd : header;
  pb_k : Z;
  pb_slack : Z;
  pb_num_watch : nat;
  pb_max_sum : Z;
  pb_wlits : list wliteral
}.

Record xor := mk_xor {
  xor_hd : header;
  xor_lits : list literal
}.

Inductive constraint :=
| Card (c : card)
| Pb (p : pb)
| Xor (x : xor).

Definition hd_of (c : constraint) : header :=
  match c with Card c => card_hd c | Pb p => pb_hd p | Xor x => xor_hd x end.

Definition lit (c : constraint) : literal := c_lit (hd_of c).
Definition learned (c : constraint) : bool := c_learned (hd_of c).

Definition card_size (c : card) : nat := length (card_lits c).
Definition pb_size (p : pb) : nat := length (pb_wlits p).
Definition xor_size (x : xor) : nat := length (xor_lits x).

Definition size (c : constraint) : nat :=
  match c with Card c => card_size c | Pb p => pb_size p | Xor x => xor_size x end.

Definition hd_neg_lit (h : header) : header :=
  mk_header (c_id h) (neg (c_lit h)) (c_removed h) (c_learned h) (c_glue h) (c_psm h).

Definition hd_set_learned (b : bool) (h : header) : header :=
  mk_header (c_id h) (c_lit h) (c_removed h) b (c_glue h) (c_psm h).

Definition hd_set_glue (g : Z) (h : header) : header :=
  mk_header (c_id h) (c_lit h) (c_removed h) (c_learned h) g (c_psm h).

(** [card::negate]. *)
Definition card_negate (c : card) : card :=
  mk_card (hd_neg_lit (card_hd c))
          (u32 (Z.of_nat (card_size c) - card_k c + 1))
          (map neg (card_lits c)).

(** The weight sum [w] accumulated by the loop of [pb::negate]. *)
Definition pb_weight_sum (wl : list wliteral) : Z :=
  fold_left (fun w x => u32 (w + fst x)) wl 0.

(** [pb::negate]. *)
Definition pb_negate (p : pb) : pb :=
  mk_pb (hd_neg_lit (pb_hd p))
        (u32 (pb_weight_sum (pb_wlits p) - pb_k p + 1))
        (pb_slack p) (pb_num_watch p) (pb_max_sum p)
        (map (fun x => (fst x, neg (snd x))) (pb_wlits p)).

(** Element assignment [v[i] = x] on a vector held as a list. *)
Fixpoint list_set {A} (i : nat) (x : A) (l : list A) : list A :=
  match l, i with
  | [], _ => []
  | _ :: t, O => x :: t
  | h :: t, S i' => h :: list_set i' x t
  end.

(** [std::swap(m_lits[i], m_lits[j])]; [None] when an index is out of
    range. *)
Definition swap_list {A} (i j : nat) (l : list A) : option (list A) :=
  match nth_error l i, nth_error l j with
  | Some a, Some b => Some (list_set j a (list_set i b l))
  | _, _ => None
  end.

(** ** The SAT core *)

Inductive justification :=
| NONE
| BINARY (l : literal)
| TERNARY (l1 l2 : literal)
| CLAUSE (cls_off : Z)
| EXT_JUSTIFICATION (idx : Z).

(** Modelled from the spec: the CDCL core ([sat::solver]) is a collaborator
    whose sources are absent.  Its state, as far as the extension reads or
    writes it: the assignment ([value]), decision levels ([lvl]), reasons,
    the trail, the marks, the conflict record, the lemma buffer, the clause
    store, the watch lists (entries of kind "external constraint" only) and
    the external flags. *)
Module solver.
Record t := mk {
  m_assignment : bool_var -> lbool;
  m_level : bool_var -> Z;
  m_justification : bool_var -> justification;
  m_trail : list literal;
  m_mark : bool_var -> bool;
  m_inconsistent : bool;
  m_conflict : justification;
  m_not_l : literal;
  m_scope_lvl : Z;
  m_lemma : list literal;
  m_cls_allocator : Z -> option (list literal);
  m_clauses : list (list literal * bool);
  m_watches : literal -> list Z;
  m_external : bool_var -> bool
}.

Definition upd {A} (f : Z -> A) (k : Z) (x : A) : Z -> A :=
  fun k' => if k' =? k then x else f k'.

Definition upd_lit {A} (f : literal -> A) (k : literal) (x : A) : literal -> A :=
  fun k' => if literal_eqb k' k then x else f k'.

Definition value (s : t) (l : literal) : lbool :=
  if sign l then lneg (m_assignment s (var l)) else m_assignment s (var l).

Definition lvl (s : t) (v : bool_var) : Z := m_level s v.

Definition at_base_lvl (s : t) : bool := m_scope_lvl s =? 0.

(** [assign_core]: the literal becomes true at the current scope level,
    with the given reason, and is enqueued on the trail. *)
Definition assign_core (l : literal) (j : justification) (s : t) : t :=
  mk (upd (m_assignment s) (var l) (if sign l then l_false else l_true))
     (upd (m_level s) (var l) (m_scope_lvl s))
     (upd (m_justification s) (var l) j)
     (m_trail s ++ [l])
     (m_mark s) (m_inconsistent s) (m_conflict s) (m_not_l s)
     (m_scope_lvl s) (m_lemma s) (m_cls_allocator s) (m_clauses s)
     (m_watches s) (m_external s).

(** [set_conflict(c, not_l)]: the first conflict is kept. *)
Definition set_conflict (c : justification) (not_l : literal) (s : t) : t :=
  if m_inconsistent s then s
  else mk (m_assignment s) (m_level s) (m_justification s) (m_trail s)
          (m_mark s) true c not_l
          (m_scope_lvl s) (m_lemma s) (m_cls_allocator s) (m_clauses s)
          (m_watches s) (m_external s).

(** [assign(l, j)]. *)
Definition assign (l : literal) (j : justification) (s : t) : t :=
  match value s l with
  | l_false => set_conflict j (neg l) s
  | l_undef => assign_core l j s
  | l_true => s
  end.

Definition set_mark (v : bool_var) (b : bool) (s : t) : t :=
  mk (m_assignment s) (m_level s) (m_justification s) (m_trail s)
     (upd (m_mark s) v b) (m_inconsistent s) (m_conflict s) (m_not_l s)
     (m_scope_lvl s) (m_lemma s) (m_cls_allocator s) (m_clauses s)
     (m_watches s) (m_external s).

Definition mark (v : bool_var) : t -> t := set_mark v true.
Definition reset_mark (v : bool_var) : t -> t := set_mark v false.
Definition is_marked (s : t) (v : bool_var) : bool := m_mark s v.

Definition set_lemma (ls : list literal) (s : t) : t :=
  mk (m_assignment s) (m_level s) (m_justification s) (m_trail s)
     (m_mark s) (m_inconsistent s) (m_conflict s) (m_not_l s)
     (m_scope_lvl s) ls (m_cls_allocator s) (m_clauses s)
     (m_watches s) (m_external s).

(** [mk_clause(lits, learned)]: the clause is handed to the core. *)
Definition mk_clause (ls : list literal) (lrn : bool) (s : t) : t :=
  mk (m_assignment s) (m_level s) (m_justification s) (m_trail s)
     (m_mark s) (m_inconsistent s) (m_conflict s) (m_not_l s)
     (m_scope_lvl s) (m_lemma s) (m_cls_allocator s)
     (m_clauses s ++ [(ls, lrn)])
     (m_watches s) (m_external s).

Definition set_wlist (l : literal) (w : list Z) (s : t) : t :=
  mk (m_assignment s) (m_level s) (m_justification s) (m_trail s)
     (m_mark s) (m_inconsistent s) (m_conflict s) (m_not_l s)
     (m_scope_lvl s) (m_lemma s) (m_cls_allocator s) (m_clauses s)
     (upd_lit (m_watches s) l w) (m_external s).

Definition get_wlist (s : t) (l : literal) : list Z := m_watches s l.

Definition set_external (v : bool_var) (s : t) : t :=
  mk (m_assignment s) (m_level s) (m_justification s) (m_trail s)
     (m_mark s) (m_inconsistent s) (m_conflict s) (m_not_l s)
     (m_scope_lvl s) (m_lemma s) (m_cls_allocator s) (m_clauses s)
     (m_watches s) (upd (m_external s) v true).
End solver.

(** ** The extension

    The solver object.  Constraints live in the allocator's heap and are
    referred to by their address, which is also their
    [ext_constraint_idx] ([constraint::index]); [m_constraints],
    [m_learned] and [m_constraint_to_reinit] hold such addresses.  The
    statistics counters and the DRAT log are not modelled: nothing reads
    them.  [debug_conflict] is the file-level static [_debug_conflict].

    [overflow_latched] is a ghost field, read by no computation of the
    source: it is set wherever [m_overflow] is set, and cleared where
    [resolve_conflict] clears [m_overflow] on entry, but not at its
    [bail_out] label; around the diagnostic re-run of [resolve_conflict] at
    [bail_out] its value is kept, so that after a call it tells whether the
    flag was latched at any point during that call, the re-run included. *)
Record ba_solver := mk_ba_solver {
  m_solver : solver.t;
  m_allocator : Z -> option constraint;
  m_alloc_top : Z;
  m_constraint_id : Z;
  m_constraints : list Z;
  m_learned : list Z;
  m_constraint_to_reinit : list Z;
  m_constraint_to_reinit_lim : list nat;
  m_constraint_to_reinit_last_sz : nat;
  m_num_propagations_since_pop : Z;
  m_a_max : Z;
  m_pb_undef : list nat;
  m_lemma : list literal;
  m_wlits : list wliteral;
  m_parity_marks : bool_var -> Z;
  m_parity_trail : list literal;
  m_coeffs : bool_var -> Z;
  m_active_vars : list bool_var;
  m_bound : Z;
  m_overflow : bool;
  m_num_marks : Z;
  m_conflict_lvl : Z;
  overflow_latched : bool;
  debug_conflict : bool
}.

Definition set_m_solver (x : solver.t) (s : ba_solver) : ba_solver :=
  mk_ba_solver x (m_allocator s) (m_alloc_top s) (m_constraint_id s)
    (m_constraints s) (m_learned s) (m_constraint_to_reinit s)
    (m_constraint_to_reinit_lim s) (m_constraint_to_reinit_last_sz s)
    (m_num_propagations_since_pop s) (m_a_max s) (m_pb_undef s) (m_lemma s)
    (m_wlits s) (m_parity_marks s) (m_parity_trail s) (m_coeffs s)
    (m_active_vars s) (m_bound s) (m_overflow s) (m_num_marks s)
    (m_conflict_lvl s) (overflow_latched s) (debug_conflict s).

Definition set_m_allocator (x : Z -> option constraint) (s : ba_solver) : ba_solver :=
  mk_ba_solver (m_solver s) x (m_alloc_top s) (m_constraint_id s)
    (m_constraints s) (m_learned s) (m_constraint_to_reinit s)
    (m_constraint_to_reinit_lim s) (m_constraint_to_reinit_last_sz s)
    (m_num_propagations_since_pop s) (m_a_max s) (m_pb_undef s) (m_lemma s)
    (m_wlits s) (m_parity_marks s) (m_parity_trail s) (m_coeffs s)
    (m_active_vars s) (m_bound s) (m_overflow s) (m_num_marks s)
    (m_conflict_lvl s) (overflow_latched s) (debug_conflict s).

Definition set_m_alloc_top (x : Z) (s : ba_solver) : ba_solver :=
  mk_ba_solver (m_solver s) (m_allocator s) x (m_constraint_id s)
    (m_constraints s) (m_learned s) (m_constraint_to_reinit s)
    (m_constraint_to_reinit_lim s) (m_constraint_to_reinit_last_sz s)
    (m_num_propagations_since_pop s) (m_a_max s) (m_pb_undef s) (m_lemma s)
    (m_wlits s) (m_parity_marks s) (m_parity_trail s) (m_coeffs s)
    (m_active_vars s) (m_bound s) (m_overflow s) (m_num_marks s)
    (m_conflict_lvl s) (overflow_latched s) (debug_conflict s).

Definition set_m_constraint_id (x : Z) (s : ba_solver) : ba_solver :=
  mk_ba_solver (m_solver s) (m_allocator s) (m_alloc_top s) x (m_constraints
    s) (m_learned s) (m_constraint_to_reinit s) (m_constraint_to_reinit_lim
    s) (m_constraint_to_reinit_last_sz s) (m_num_propagations_since_pop s)
    (m_a_max s) (m_pb_undef s) (m_lemma s) (m_wlits s) (m_parity_marks s)
    (m_parity_trail s) (m_coeffs s) (m_active_vars s) (m_bound s)
    (m_overflow s) (m_num_marks s) (m_conflict_lvl s) (overflow_latched s)
    (debug_conflict s).

Definition set_m_constraints (x : list Z) (s : ba_solver) : ba_solver :=
  mk_ba_solver (m_solver s) (m_allocator s) (m_alloc_top s) (m_constraint_id
    s) x (m_learned s) (m_constraint_to_reinit s)
    (m_constraint_to_reinit_lim s) (m_constraint_to_reinit_last_sz s)
    (m_num_propagations_since_pop s) (m_a_max s) (m_pb_undef s) (m_lemma s)
    (m_wlits s) (m_parity_marks s) (m_parity_trail s) (m_coeffs s)
    (m_active_vars s) (m_bound s) (m_overflow s) (m_num_marks s)
    (m_conflict_lvl s) (overflow_latched s) (debug_conflict s).

Definition set_m_learned (x : list Z) (s : ba_solver) : ba_solver :=
  mk_ba_solver (m_solver s) (m_allocator s) (m_alloc_top s) (m_constraint_id
    s) (m_constraints s) x (m_constraint_to_reinit s)
    (m_constraint_to_reinit_lim s) (m_constraint_to_reinit_last_sz s)
    (m_num_propagations_since_pop s) (m_a_max s) (m_pb_undef s) (m_lemma s)
    (m_wlits s) (m_parity_marks s) (m_parity_trail s) (m_coeffs s)
    (m_active_vars s) (m_bound s) (m_overflow s) (m_num_marks s)
    (m_conflict_lvl s) (overflow_latched s) (debug_conflict s).

Definition set_m_constraint_to_reinit (x : list Z) (s : ba_solver) : ba_solver :=
  mk_ba_solver (m_solver s) (m_allocator s) (m_alloc_top s) (m_constraint_id
    s) (m_constraints s) (m_learned s) x (m_constraint_to_reinit_lim s)
    (m_constraint_to_reinit_last_sz s) (m_num_propagations_since_pop s)
    (m_a_max s) (m_pb_undef s) (m_lemma s) (m_wlits s) (m_parity_marks s)
    (m_parity_trail s) (m_coeffs s) (m_active_vars s) (m_bound s)
    (m_overflow s) (m_num_marks s) (m_conflict_lvl s) (overflow_latched s)
    (debug_conflict s).

Definition set_m_constraint_to_reinit_lim (x : list nat) (s : ba_solver) : ba_solver :=
  mk_ba_solver (m_solver s) (m_allocator s) (m_alloc_top s) (m_constraint_id
    s) (m_constraints s) (m_learned s) (m_constraint_to_reinit s) x
    (m_constraint_to_reinit_last_sz s) (m_num_propagations_since_pop s)
    (m_a_max s) (m_pb_undef s) (m_lemma s) (m_wlits s) (m_parity_marks s)
    (m_parity_trail s) (m_coeffs s) (m_active_vars s) (m_bound s)
    (m_overflow s) (m_num_marks s) (m_conflict_lvl s) (overflow_latched s)
    (debug_conflict s).

Definition set_m_constraint_to_reinit_last_sz (x : nat) (s : ba_solver) : ba_solver :=
  mk_ba_solver (m_solver s) (m_allocator s) (m_alloc_top s) (m_constraint_id
    s) (m_constraints s) (m_learned s) (m_constraint_to_reinit s)
    (m_constraint_to_reinit_lim s) x (m_num_propagations_since_pop s)
    (m_a_max s) (m_pb_undef s) (m_lemma s) (m_wlits s) (m_parity_marks s)
    (m_parity_trail s) (m_coeffs s) (m_active_vars s) (m_bound s)
    (m_overflow s) (m_num_marks s) (m_conflict_lvl s) (overflow_latched s)
    (debug_conflict s).

Definition set_m_num_propagations_since_pop (x : Z) (s : ba_solver) : ba_solver :=
  mk_ba_solver (m_solver s) (m_allocator s) (m_alloc_top s) (m_constraint_id
    s) (m_constraints s) (m_learned s) (m_constraint_to_reinit s)
    (m_constraint_to_reinit_lim s) (m_constraint_to_reinit_last_sz s) x
    (m_a_max s) (m_pb_undef s) (m_lemma s) (m_wlits s) (m_parity_marks s)
    (m_parity_trail s) (m_coeffs s) (m_active_vars s) (m_bound s)
    (m_overflow s) (m_num_marks s) (m_conflict_lvl s) (overflow_latched s)
    (debug_conflict s).

Definition set_m_a_max (x : Z) (s : ba_solver) : ba_solver :=
  mk_ba_solver (m_solver s) (m_allocator s) (m_alloc_top s) (m_constraint_id
    s) (m_constraints s) (m_learned s) (m_constraint_to_reinit s)
    (m_constraint_to_reinit_lim s) (m_constraint_to_reinit_last_sz s)
    (m_num_propagations_since_pop s) x (m_pb_undef s) (m_lemma s) (m_wlits
    s) (m_parity_marks s) (m_parity_trail s) (m_coeffs s) (m_active_vars s)
    (m_bound s) (m_overflow s) (m_num_marks s) (m_conflict_lvl s)
    (overflow_latched s) (debug_conflict s).

Definition set_m_pb_undef (x : list nat) (s : ba_solver) : ba_solver :=
  mk_ba_solver (m_solver s) (m_allocator s) (m_alloc_top s) (m_constraint_id
    s) (m_constraints s) (m_learned s) (m_constraint_to_reinit s)
    (m_constraint_to_reinit_lim s) (m_constraint_to_reinit_last_sz s)
    (m_num_propagations_since_pop s) (m_a_max s) x (m_lemma s) (m_wlits s)
    (m_parity_marks s) (m_parity_trail s) (m_coeffs s) (m_active_vars s)
    (m_bound s) (m_overflow s) (m_num_marks s) (m_conflict_lvl s)
    (overflow_latched s) (debug_conflict s).

Definition set_m_lemma (x : list literal) (s : ba_solver) : ba_solver :=
  mk_ba_solver (m_solver s) (m_allocator s) (m_alloc_top s) (m_constraint_id
    s) (m_constraints s) (m_learned s) (m_constraint_to_reinit s)
    (m_constraint_to_reinit_lim s) (m_constraint_to_reinit_last_sz s)
    (m_num_propagations_since_pop s) (m_a_max s) (m_pb_undef s) x (m_wlits
    s) (m_parity_marks s) (m_parity_trail s) (m_coeffs s) (m_active_vars s)
    (m_bound s) (m_overflow s) (m_num_marks s) (m_conflict_lvl s)
    (overflow_latched s) (debug_conflict s).

Definition set_m_wlits (x : list wliteral) (s : ba_solver) : ba_solver :=
  mk_ba_solver (m_solver s) (m_allocator s) (m_alloc_top s) (m_constraint_id
    s) (m_constraints s) (m_learned s) (m_constraint_to_reinit s)
    (m_constraint_to_reinit_lim s) (m_constraint_to_reinit_last_sz s)
    (m_num_propagations_since_pop s) (m_a_max s) (m_pb_undef s) (m_lemma s)
    x (m_parity_marks s) (m_parity_trail s) (m_coeffs s) (m_active_vars s)
    (m_bound s) (m_overflow s) (m_num_marks s) (m_conflict_lvl s)
    (overflow_latched s) (debug_conflict s).

Definition set_m_parity_marks (x : bool_var -> Z) (s : ba_solver) : ba_solver :=
  mk_ba_solver (m_solver s) (m_allocator s) (m_alloc_top s) (m_constraint_id
    s) (m_constraints s) (m_learned s) (m_constraint_to_reinit s)
    (m_constraint_to_reinit_lim s) (m_constraint_to_reinit_last_sz s)
    (m_num_propagations_since_pop s) (m_a_max s) (m_pb_undef s) (m_lemma s)
    (m_wlits s) x (m_parity_trail s) (m_coeffs s) (m_active_vars s) (m_bound
    s) (m_overflow s) (m_num_marks s) (m_conflict_lvl s) (overflow_latched
    s) (debug_conflict s).

Definition set_m_parity_trail (x : list literal) (s : ba_solver) : ba_solver :=
  mk_ba_solver (m_solver s) (m_allocator s) (m_alloc_top s) (m_constraint_id
    s) (m_constraints s) (m_learned s) (m_constraint_to_reinit s)
    (m_constraint_to_reinit_lim s) (m_constraint_to_reinit_last_sz s)
    (m_num_propagations_since_pop s) (m_a_max s) (m_pb_undef s) (m_lemma s)
    (m_wlits s) (m_parity_marks s) x (m_coeffs s) (m_active_vars s) (m_bound
    s) (m_overflow s) (m_num_marks s) (m_conflict_lvl s) (overflow_latched
    s) (debug_conflict s).

Definition set_m_coeffs (x : bool_var -> Z) (s : ba_solver) : ba_solver :=
  mk_ba_solver (m_solver s) (m_allocator s) (m_alloc_top s) (m_constraint_id
    s) (m_constraints s) (m_learned s) (m_constraint_to_reinit s)
    (m_constraint_to_reinit_lim s) (m_constraint_to_reinit_last_sz s)
    (m_num_propagations_since_pop s) (m_a_max s) (m_pb_undef s) (m_lemma s)
    (m_wlits s) (m_parity_marks s) (m_parity_trail s) x (m_active_vars s)
    (m_bound s) (m_overflow s) (m_num_marks s) (m_conflict_lvl s)
    (overflow_latched s) (debug_conflict s).

Definition set_m_active_vars (x : list bool_var) (s : ba_solver) : ba_solver :=
  mk_ba_solver (m_solver s) (m_allocator s) (m_alloc_top s) (m_constraint_id
    s) (m_constraints s) (m_learned s) (m_constraint_to_reinit s)
    (m_constraint_to_reinit_lim s) (m_constraint_to_reinit_last_sz s)
    (m_num_propagations_since_pop s) (m_a_max s) (m_pb_undef s) (m_lemma s)
    (m_wlits s) (m_parity_marks s) (m_parity_trail s) (m_coeffs s) x
    (m_bound s) (m_overflow s) (m_num_marks s) (m_conflict_lvl s)
    (overflow_latched s) (debug_conflict s).

Definition set_m_bound (x : Z) (s : ba_solver) : ba_solver :=
  mk_ba_solver (m_solver s) (m_allocator s) (m_alloc_top s) (m_constraint_id
    s) (m_constraints s) (m_learned s) (m_constraint_to_reinit s)
    (m_constraint_to_reinit_lim s) (m_constraint_to_reinit_last_sz s)
    (m_num_propagations_since_pop s) (m_a_max s) (m_pb_undef s) (m_lemma s)
    (m_wlits s) (m_parity_marks s) (m_parity_trail s) (m_coeffs s)
    (m_active_vars s) x (m_overflow s) (m_num_marks s) (m_conflict_lvl s)
    (overflow_latched s) (debug_conflict s).

Definition set_m_overflow (x : bool) (s : ba_solver) : ba_solver :=
  mk_ba_solver (m_solver s) (m_allocator s) (m_alloc_top s) (m_constraint_id
    s) (m_constraints s) (m_learned s) (m_constraint_to_reinit s)
    (m_constraint_to_reinit_lim s) (m_constraint_to_reinit_last_sz s)
    (m_num_propagations_since_pop s) (m_a_max s) (m_pb_undef s) (m_lemma s)
    (m_wlits s) (m_parity_marks s) (m_parity_trail s) (m_coeffs s)
    (m_active_vars s) (m_bound s) x (m_num_marks s) (m_conflict_lvl s)
    (overflow_latched s) (debug_conflict s).

Definition set_m_num_marks (x : Z) (s : ba_solver) : ba_solver :=
  mk_ba_solver (m_solver s) (m_allocator s) (m_alloc_top s) (m_constraint_id
    s) (m_constraints s) (m_learned s) (m_constraint_to_reinit s)
    (m_constraint_to_reinit_lim s) (m_constraint_to_reinit_last_sz s)
    (m_num_propagations_since_pop s) (m_a_max s) (m_pb_undef s) (m_lemma s)
    (m_wlits s) (m_parity_marks s) (m_parity_trail s) (m_coeffs s)
    (m_active_vars s) (m_bound s) (m_overflow s) x (m_conflict_lvl s)
    (overflow_latched s) (debug_conflict s).

Definition set_m_conflict_lvl (x : Z) (s : ba_solver) : ba_solver :=
  mk_ba_solver (m_solver s) (m_allocator s) (m_alloc_top s) (m_constraint_id
    s) (m_constraints s) (m_learned s) (m_constraint_to_reinit s)
    (m_constraint_to_reinit_lim s) (m_constraint_to_reinit_last_sz s)
    (m_num_propagations_since_pop s) (m_a_max s) (m_pb_undef s) (m_lemma s)
    (m_wlits s) (m_parity_marks s) (m_parity_trail s) (m_coeffs s)
    (m_active_vars s) (m_bound s) (m_overflow s) (m_num_marks s) x
    (overflow_latched s) (debug_conflict s).

Definition set_overflow_latched (x : bool) (s : ba_solver) : ba_solver :=
  mk_ba_solver (m_solver s) (m_allocator s) (m_alloc_top s) (m_constraint_id
    s) (m_constraints s) (m_learned s) (m_constraint_to_reinit s)
    (m_constraint_to_reinit_lim s) (m_constraint_to_reinit_last_sz s)
    (m_num_propagations_since_pop s) (m_a_max s) (m_pb_undef s) (m_lemma s)
    (m_wlits s) (m_parity_marks s) (m_parity_trail s) (m_coeffs s)
    (m_active_vars s) (m_bound s) (m_overflow s) (m_num_marks s)
    (m_conflict_lvl s) x (debug_conflict s).

Definition set_debug_conflict (x : bool) (s : ba_solver) : ba_solver :=
  mk_ba_solver (m_solver s) (m_allocator s) (m_alloc_top s) (m_constraint_id
    s) (m_constraints s) (m_learned s) (m_constraint_to_reinit s)
    (m_constraint_to_reinit_lim s) (m_constraint_to_reinit_last_sz s)
    (m_num_propagations_since_pop s) (m_a_max s) (m_pb_undef s) (m_lemma s)
    (m_wlits s) (m_parity_marks s) (m_parity_trail s) (m_coeffs s)
    (m_active_vars s) (m_bound s) (m_overflow s) (m_num_marks s)
    (m_conflict_lvl s) (overflow_latched s) x.

(** ** The computation monad *)

Inductive result (A : Type) : Type :=
| Ret (a : A) (s : ba_solver)        (* normal return *)
| Throw (msg : string) (s : ba_solver) (* a C++ exception is raised *)
| Exit (code : Z)                    (* the process exits *)
| Undefined                          (* undefined behaviour *)
| OutOfFuel.                         (* the model's loop bound was too small *)

Arguments Ret {A} a s.
Arguments Throw {A} msg s.
Arguments Exit {A} code.
Arguments Undefined {A}.
Arguments OutOfFuel {A}.

Definition M (A : Type) : Type := ba_solver -> result A.

Definition ret {A} (a : A) : M A := fun s => Ret a s.

Definition bind {A B} (m : M A) (f : A -> M B) : M B :=
  fun s =>
    match m s with
    | Ret a s' => f a s'
    | Throw e s' => Throw e s'
    | Exit c => Exit c
    | Undefined => Undefined
    | OutOfFuel => OutOfFuel
    end.

Notation "x <- m ;; k" := (bind m (fun x => k))
  (at level 61, m at next level, right associativity).
Notation "m ;; k" := (bind m (fun _ => k))
  (at level 61, right associativity).

Definition gets {A} (f : ba_solver -> A) : M A := fun s => Ret (f s) s.
Definition modify (f : ba_solver -> ba_solver) : M unit := fun s => Ret tt (f s).
Definition undefined {A} : M A := fun _ => Undefined.
Definition throw {A} (msg : string) : M A := fun s => Throw msg s.
Definition exit_ {A} (code : Z) : M A := fun _ => Exit code.
Definition out_of_fuel {A} : M A := fun _ => OutOfFuel.
Definition when (b : bool) (m : M unit) : M unit := if b then m else ret tt.

(** [for (x : l) f(x)] over a snapshot of the range. *)
Fixpoint for_each {A} (l : list A) (f : A -> M unit) : M unit :=
  match l with
  | [] => ret tt
  | x :: l' => f x ;; for_each l' f
  end.

(** The indices [a], [a+1], ..., [b-1]. *)
Definition range (a b : nat) : list nat := seq a (b - a).

(** The indices [i < sz] with [a <= i], for a loop
    [for (unsigned i = a; i < sz; ++i)] whose start is an unsigned value. *)
Definition range_from (a : Z) (sz : nat) : list nat :=
  filter (fun i => a <=? Z.of_nat i) (seq 0 sz).

(** [vector::erase(elem)]: the first occurrence is removed. *)
Fixpoint erase (x : Z) (l : list Z) : list Z :=
  match l with
  | [] => []
  | y :: l' => if y =? x then l' else y :: erase x l'
  end.

Definition contains (x : Z) (l : list Z) : bool := existsb (Z.eqb x) l.

(** ** Access to the core and to the heap *)

Definition s_modify (f : solver.t -> solver.t) : M unit :=
  modify (fun s => set_m_solver (f (m_solver s)) s).

Definition value (s : ba_solver) (l : literal) : lbool := solver.value (m_solver s) l.
Definition lvl (s : ba_solver) (l : literal) : Z := solver.lvl (m_solver s) (var l).
Definition inconsistent (s : ba_solver) : bool := solver.m_inconsistent (m_solver s).
Definition is_null (l : literal) : bool := literal_eqb l null_literal.

(** [index2constraint]: dereferencing an address that holds no constraint
    is undefined. *)
Definition index2constraint (idx : Z) : M constraint :=
  s <- gets (fun s => m_allocator s idx) ;;
  match s with Some c => ret c | None => undefined end.

Definition put_constraint (idx : Z) (c : constraint) : M unit :=
  modify (fun s => set_m_allocator (solver.upd (m_allocator s) idx (Some c)) s).

Definition to_card (idx : Z) : M card :=
  c <- index2constraint idx ;;
  match c with Card c => ret c | _ => undefined end.

Definition to_pb (idx : Z) : M pb :=
  c <- index2constraint idx ;;
  match c with Pb p => ret p | _ => undefined end.

Definition to_xor (idx : Z) : M xor :=
  c <- index2constraint idx ;;
  match c with Xor x => ret x | _ => undefined end.

(** [c[i]] for an index given as an unsigned value. *)
Definition at_ {A} (l : list A) (i : Z) : M A :=
  if (0 <=? i) && (i <? Z.of_nat (length l)) then
    match nth_error l (Z.to_nat i) with Some x => ret x | None => undefined end
  else undefined.

Definition card_at (idx : Z) (i : nat) : M literal :=
  c <- to_card idx ;; at_ (card_lits c) (Z.of_nat i).

Definition pb_at (idx : Z) (i : nat) : M wliteral :=
  p <- to_pb idx ;; at_ (pb_wlits p) (Z.of_nat i).

Definition xor_at (idx : Z) (i : nat) : M literal :=
  x <- to_xor idx ;; at_ (xor_lits x) (Z.of_nat i).

Definition card_swap (idx : Z) (i j : nat) : M unit :=
  c <- to_card idx ;;
  match swap_list i j (card_lits c) with
  | Some ls => put_constraint idx (Card (mk_card (card_hd c) (card_k c) ls))
  | None => undefined
  end.

Definition pb_with_wlits (p : pb) (ws : list wliteral) : pb :=
  mk_pb (pb_hd p) (pb_k p) (pb_slack p) (pb_num_watch p) (pb_max_sum p) ws.

Definition pb_swap (idx : Z) (i j : nat) : M unit :=
  p <- to_pb idx ;;
  match swap_list i j (pb_wlits p) with
  | Some ws => put_constraint idx (Pb (pb_with_wlits p ws))
  | None => undefined
  end.

Definition xor_swap (idx : Z) (i j : nat) : M unit :=
  x <- to_xor idx ;;
  match swap_list i j (xor_lits x) with
  | Some ls => put_constraint idx (Xor (mk_xor (xor_hd x) ls))
  | None => undefined
  end.

Definition set_slack (idx : Z) (slack : Z) : M unit :=
  p <- to_pb idx ;;
  put_constraint idx
    (Pb (mk_pb (pb_hd p) (pb_k p) slack (pb_num_watch p) (pb_max_sum p) (pb_wlits p))).

Definition set_num_watch (idx : Z) (n : nat) : M unit :=
  p <- to_pb idx ;;
  put_constraint idx
    (Pb (mk_pb (pb_hd p) (pb_k p) (pb_slack p) n (pb_max_sum p) (pb_wlits p))).

(** ** Watches, conflicts and propagation *)

(** [ba_solver::watch_literal(literal, constraint&)]. *)
Definition watch_literal (l : literal) (idx : Z) : M unit :=
  s_modify (fun s => solver.set_wlist (neg l) (solver.get_wlist s (neg l) ++ [idx]) s).

(** [ba_solver::unwatch_literal]. *)
Definition unwatch_literal (l : literal) (idx : Z) : M unit :=
  s_modify (fun s => solver.set_wlist (neg l) (erase idx (solver.get_wlist s (neg l))) s).

(** [ba_solver::is_watched]. *)
Definition is_watched (s : ba_solver) (l : literal) (idx : Z) : bool :=
  contains idx (solver.get_wlist (m_solver s) (neg l)).

(** [ba_solver::set_conflict(constraint&, literal)]. *)
Definition set_conflict (idx : Z) (l : literal) : M unit :=
  c <- index2constraint idx ;;
  v <- gets (fun s => value s l) ;;
  let l := match c with
           | Xor _ => if lbool_eqb v l_true then neg l else l
           | _ => l
           end in
  s_modify (solver.set_conflict (EXT_JUSTIFICATION idx) (neg l)).

(** [ba_solver::assign(constraint&, literal)]. *)
Definition assign (idx : Z) (l : literal) : M unit :=
  inc <- gets inconsistent ;;
  if inc then ret tt
  else
    v <- gets (fun s => value s l) ;;
    match v with
    | l_true => ret tt
    | l_false => set_conflict idx l
    | l_undef =>
        modify (fun s => set_m_num_propagations_since_pop
                           (u32 (m_num_propagations_since_pop s + 1)) s) ;;
        s_modify (solver.assign l (EXT_JUSTIFICATION idx))
    end.

(** ** Collaborators outside the sources

    What the code calls but the sources do not define: queries of the SAT
    core that walk its own data ([get_max_lvl], [num_diff_levels],
    [num_diff_false_levels_below]), the inline [xor::negate] of the header,
    whether the macro [UNREACHABLE] ends the process in this build, and
    [std::sort] with [compare_wlit], of which only the contract is known:
    the result is a permutation in non-increasing weight order (the order
    of equal weights is unspecified). *)
Class externals := {
  get_max_lvl : ba_solver -> literal -> justification -> Z;
  num_diff_levels : solver.t -> list literal -> Z;
  num_diff_false_levels_below : solver.t -> list literal -> Z -> option Z;
  xor_negate : xor -> xor;
  unreachable_exits : bool;
  sort_wlits : list wliteral -> list wliteral;
  sort_wlits_perm : forall l, Permutation (sort_wlits l) l;
  sort_wlits_sorted :
    forall l, StronglySorted (fun a b : wliteral => fst b <= fst a) (sort_wlits l)
}.

Section BaSolver.
Context {E : externals}.

Definition UNREACHABLE : M unit :=
  if unreachable_exits then exit_ 110 else ret tt.

(** *** Cardinality constraints *)

(** [ba_solver::clear_watch(card&)]. *)
Definition clear_watch_card (idx : Z) : M unit :=
  c <- to_card idx ;;
  let sz := Z.to_nat (Z.min (u32 (card_k c + 1)) (Z.of_nat (card_size c))) in
  for_each (range 0 sz) (fun i => l <- card_at idx i ;; unwatch_literal l idx).

(** First loop of [init_watch(card&)]: the non-false literals are moved to
    the head; the result is their number [j]. *)
Fixpoint init_watch_card_partition (idx : Z) (ix : list nat) (j : nat) : M nat :=
  match ix with
  | [] => ret j
  | i :: ix' =>
      l <- card_at idx i ;;
      v <- gets (fun s => value s l) ;;
      if negb (lbool_eqb v l_false) then
        when (negb (Nat.eqb j i)) (card_swap idx i j) ;;
        init_watch_card_partition idx ix' (S j)
      else init_watch_card_partition idx ix' j
  end.

(** Conflict branch of [init_watch(card&)]: a false literal of maximal
    level is swapped to position [j]. *)
Fixpoint init_watch_card_alit (idx : Z) (j : nat) (ix : list nat) (alit : literal)
  : M literal :=
  match ix with
  | [] => ret alit
  | i :: ix' =>
      ci <- card_at idx i ;;
      la <- gets (fun s => lvl s alit) ;;
      lc <- gets (fun s => lvl s ci) ;;
      if la <? lc then
        card_swap idx i j ;;
        alit' <- card_at idx j ;;
        init_watch_card_alit idx j ix' alit'
      else init_watch_card_alit idx j ix' alit
  end.

(** [ba_solver::init_watch(card&, bool)]. *)
Definition init_watch_card (idx : Z) (is_true : bool) : M bool :=
  clear_watch_card idx ;;
  c <- to_card idx ;;
  when (negb (is_null (c_lit (card_hd c))) && Bool.eqb (sign (c_lit (card_hd c))) is_true)
       (put_constraint idx (Card (card_negate c))) ;;
  c <- to_card idx ;;
  let sz := card_size c in
  let bound := card_k c in
  if bound =? Z.of_nat sz then
    for_each (card_lits c) (fun l => assign idx l) ;;
    ret false
  else
    j <- init_watch_card_partition idx (range 0 sz) 0 ;;
    if Z.of_nat j <? bound then
      alit <- card_at idx j ;;
      alit <- init_watch_card_alit idx j (range_from bound sz) alit ;;
      set_conflict idx alit ;;
      ret false
    else if Z.of_nat j =? bound then
      for_each (range 0 (Z.to_nat bound))
               (fun i => l <- card_at idx i ;; assign idx l) ;;
      ret false
    else
      for_each (range 0 (S (Z.to_nat bound)))
               (fun i => l <- card_at idx i ;; watch_literal l idx) ;;
      ret true.

(** The search [for (index = 0; index <= bound; ++index)] of
    [add_assign(card&)] for the position of [alit]; [ix] enumerates
    [0 .. size]. *)
Fixpoint add_assign_card_find (idx : Z) (alit : literal) (bound : Z) (ix : list nat)
  : M nat :=
  match ix with
  | [] => undefined
  | index :: ix' =>
      if Z.of_nat index <=? bound then
        l <- card_at idx index ;;
        if literal_eqb l alit then ret index
        else add_assign_card_find idx alit bound ix'
      else ret index
  end.

(** The search of [add_assign(card&)] for a non-false literal in the
    unwatched tail; [true] when one was swapped in. *)
Fixpoint add_assign_card_swap (idx : Z) (index : nat) (ix : list nat) : M bool :=
  match ix with
  | [] => ret false
  | i :: ix' =>
      lit2 <- card_at idx i ;;
      v <- gets (fun s => value s lit2) ;;
      if negb (lbool_eqb v l_false) then
        card_swap idx index i ;;
        watch_literal lit2 idx ;;
        ret true
      else add_assign_card_swap idx index ix'
  end.

Definition set_glue (idx : Z) (g : Z) : M unit :=
  c <- index2constraint idx ;;
  put_constraint idx
    match c with
    | Card c => Card (mk_card (hd_set_glue g (card_hd c)) (card_k c) (card_lits c))
    | Pb p => Pb (mk_pb (hd_set_glue g (pb_hd p)) (pb_k p) (pb_slack p)
                        (pb_num_watch p) (pb_max_sum p) (pb_wlits p))
    | Xor x => Xor (mk_xor (hd_set_glue g (xor_hd x)) (xor_lits x))
    end.

(** [ba_solver::add_assign(card&, literal)]: [alit] was assigned false. *)
Definition add_assign_card (idx : Z) (alit : literal) : M lbool :=
  c <- to_card idx ;;
  let sz := card_size c in
  let bound := card_k c in
  if bound =? Z.of_nat sz then
    set_conflict idx alit ;;
    ret l_false
  else
    index <- add_assign_card_find idx alit bound (range 0 (S sz)) ;;
    if Z.of_nat index =? u32 (bound + 1) then ret l_undef
    else
      swapped <- add_assign_card_swap idx index (range_from (u32 (bound + 1)) sz) ;;
      if swapped then ret l_undef
      else
        is_conflict <-
          (if negb (bound =? Z.of_nat index) then
             c <- to_card idx ;;
             cb <- at_ (card_lits c) bound ;;
             v <- gets (fun s => value s cb) ;;
             ret (lbool_eqb v l_false)
           else ret false) ;;
        if is_conflict then
          set_conflict idx alit ;;
          ret l_false
        else
          when (negb (Z.of_nat index =? bound)) (card_swap idx index (Z.to_nat bound)) ;;
          for_each (range 0 (Z.to_nat bound))
                   (fun i => l <- card_at idx i ;; assign idx l) ;;
          c <- to_card idx ;;
          when (c_learned (card_hd c) && (2 <? c_glue (card_hd c)))
               (g <- gets (fun s => num_diff_false_levels_below (m_solver s)
                                      (card_lits c) (u32 (c_glue (card_hd c) - 1))) ;;
                match g with Some glue => set_glue idx glue | None => ret tt end) ;;
          inc <- gets inconsistent ;;
          ret (if inc then l_false else l_true).

(** *** Pseudo-Boolean constraints *)

(** [pb::update_max_sum]: the coefficients are clipped to [k] and summed;
    [None] when the sum wraps, where the code throws. *)
Fixpoint update_max_sum_loop (k : Z) (ws : list wliteral) (max_sum : Z)
  : option (list wliteral * Z) :=
  match ws with
  | [] => Some ([], max_sum)
  | (a, l) :: ws' =>
      let a' := Z.min k a in
      if u32 (max_sum + a') <? max_sum then None
      else
        match update_max_sum_loop k ws' (u32 (max_sum + a')) with
        | Some (r, m) => Some ((a', l) :: r, m)
        | None => None
        end
  end.

Definition update_max_sum (p : pb) : option pb :=
  match update_max_sum_loop (pb_k p) (pb_wlits p) 0 with
  | Some (ws, m) => Some (mk_pb (pb_hd p) (pb_k p) (pb_slack p) (pb_num_watch p) m ws)
  | None => None
  end.

(** [ba_solver::clear_watch(pb&)]. *)
Definition clear_watch_pb (idx : Z) : M unit :=
  p <- to_pb idx ;;
  for_each (range 0 (pb_num_watch p))
           (fun i => wl <- pb_at idx i ;; unwatch_literal (snd wl) idx) ;;
  set_num_watch idx 0.

(** The loop state of [init_watch(pb&)]. *)
Record pb_init := mk_pb_init {
  pi_slack : Z; pi_slack1 : Z; pi_num_watch : nat; pi_j : nat
}.

Fixpoint init_watch_pb_partition (idx : Z) (bound : Z) (ix : list nat) (st : pb_init)
  : M pb_init :=
  match ix with
  | [] => ret st
  | i :: ix' =>
      wl <- pb_at idx i ;;
      v <- gets (fun s => value s (snd wl)) ;;
      if negb (lbool_eqb v l_false) then
        let j := pi_j st in
        when (negb (Nat.eqb j i)) (pb_swap idx i j) ;;
        wj <- pb_at idx j ;;
        init_watch_pb_partition idx bound ix'
          (if pi_slack st <=? bound then
             mk_pb_init (u32 (pi_slack st + fst wj)) (pi_slack1 st)
                        (S (pi_num_watch st)) (S j)
           else
             mk_pb_init (pi_slack st) (u32 (pi_slack1 st + fst wj))
                        (pi_num_watch st) (S j))
      else init_watch_pb_partition idx bound ix' st
  end.

Fixpoint init_watch_pb_conflict_lit (idx : Z) (ix : list nat) (l : literal) : M literal :=
  match ix with
  | [] => ret l
  | i :: ix' =>
      wl <- pb_at idx i ;;
      la <- gets (fun s => lvl s l) ;;
      lc <- gets (fun s => lvl s (snd wl)) ;;
      init_watch_pb_conflict_lit idx ix' (if la <? lc then snd wl else l)
  end.

(** [ba_solver::init_watch(pb&, bool)]: watch a prefix of literals such
    that the slack of these is at least [k]. *)
Definition init_watch_pb (idx : Z) (is_true : bool) : M bool :=
  clear_watch_pb idx ;;
  p <- to_pb idx ;;
  when (negb (is_null (c_lit (pb_hd p))) && Bool.eqb (sign (c_lit (pb_hd p))) is_true)
       (put_constraint idx (Pb (pb_negate p))) ;;
  p <- to_pb idx ;;
  let sz := pb_size p in
  let bound := pb_k p in
  st <- init_watch_pb_partition idx bound (range 0 sz) (mk_pb_init 0 0 0 0) ;;
  let slack := pi_slack st in
  let slack1 := pi_slack1 st in
  let num_watch := pi_num_watch st in
  let j := pi_j st in
  if slack <? bound then
    wl <- pb_at idx j ;;
    l <- init_watch_pb_conflict_lit idx (range (S j) sz) (snd wl) ;;
    set_conflict idx l ;;
    ret false
  else
    for_each (range 0 num_watch)
             (fun i => wl <- pb_at idx i ;; watch_literal (snd wl) idx) ;;
    set_slack idx slack ;;
    set_num_watch idx num_watch ;;
    when (u32 (slack + slack1) =? bound)
         (for_each (range 0 j) (fun i => wl <- pb_at idx i ;; assign idx (snd wl))) ;;
    ret true.

(** [ba_solver::add_index]. *)
Definition add_index (idx : Z) (index : nat) (l : literal) : M unit :=
  v <- gets (fun s => value s l) ;;
  if lbool_eqb v l_undef then
    modify (fun s => set_m_pb_undef (m_pb_undef s ++ [index]) s) ;;
    wl <- pb_at idx index ;;
    a_max <- gets m_a_max ;;
    when (a_max <? fst wl) (modify (set_m_a_max (fst wl)))
  else ret tt.

(** First loop of [add_assign(pb&)]: the position of [alit] among the
    watched terms ([num_watch] when it is not there). *)
Fixpoint add_assign_pb_find (idx : Z) (alit : literal) (num_watch : nat) (ix : list nat)
  : M nat :=
  match ix with
  | [] => ret num_watch
  | index :: ix' =>
      wl <- pb_at idx index ;;
      if literal_eqb (snd wl) alit then ret index
      else add_index idx index (snd wl) ;; add_assign_pb_find idx alit num_watch ix'
  end.

(** Second loop: [for (; m_a_max == 0 && index1 < num_watch; ++index1)]. *)
Fixpoint add_assign_pb_amax (idx : Z) (ix : list nat) : M unit :=
  match ix with
  | [] => ret tt
  | index1 :: ix' =>
      a_max <- gets m_a_max ;;
      if a_max =? 0 then
        wl <- pb_at idx index1 ;;
        add_index idx index1 (snd wl) ;;
        add_assign_pb_amax idx ix'
      else ret tt
  end.

(** Third loop: non-false terms of the unwatched tail are pulled into the
    watched prefix while [slack < bound + m_a_max]; the result is the new
    slack and number of watched terms. *)
Fixpoint add_assign_pb_pull (idx : Z) (bound : Z) (ix : list nat) (slack : Z)
  (num_watch : nat) : M (Z * nat) :=
  match ix with
  | [] => ret (slack, num_watch)
  | j :: ix' =>
      a_max <- gets m_a_max ;;
      if slack <? u32 (bound + a_max) then
        wl <- pb_at idx j ;;
        v <- gets (fun s => value s (snd wl)) ;;
        if negb (lbool_eqb v l_false) then
          watch_literal (snd wl) idx ;;
          pb_swap idx num_watch j ;;
          add_index idx num_watch (snd wl) ;;
          add_assign_pb_pull idx bound ix' (u32 (slack + fst wl)) (S num_watch)
        else add_assign_pb_pull idx bound ix' slack num_watch
      else ret (slack, num_watch)
  end.

(** [ba_solver::validate_watch(pb const&)]. *)
Definition validate_watch (idx : Z) : M bool :=
  p <- to_pb idx ;;
  s <- gets (fun s => s) ;;
  if forallb (fun iw : nat * wliteral =>
                negb (negb (lvl s (snd (snd iw)) =? 0) &&
                      negb (Bool.eqb (is_watched s (snd (snd iw)) idx)
                                     (Nat.ltb (fst iw) (pb_num_watch p)))))
             (combine (seq 0 (pb_size p)) (pb_wlits p))
  then ret true
  else UNREACHABLE ;; ret false.

(** [ba_solver::add_assign(pb&, literal)]: propagate the assignment of
    [alit] (now false) in the constraint. *)
Definition add_assign_pb (idx : Z) (alit : literal) : M lbool :=
  p <- to_pb idx ;;
  let sz := pb_size p in
  let bound := pb_k p in
  let num_watch := pb_num_watch p in
  let slack := pb_slack p in
  modify (set_m_a_max 0) ;;
  modify (set_m_pb_undef []) ;;
  index <- add_assign_pb_find idx alit num_watch (range 0 num_watch) ;;
  if Nat.eqb index num_watch || Nat.eqb num_watch 0 then exit_ 0
  else
    add_assign_pb_amax idx (range (S index) num_watch) ;;
    wl <- pb_at idx index ;;
    let val := fst wl in
    let slack := u32 (slack - val) in
    r <- add_assign_pb_pull idx bound (range num_watch sz) slack num_watch ;;
    let slack := fst r in
    let num_watch := snd r in
    if slack <? bound then
      let slack := u32 (slack + val) in
      set_slack idx slack ;;
      set_num_watch idx num_watch ;;
      validate_watch idx ;;
      set_conflict idx alit ;;
      ret l_false
    else
      let num_watch := Nat.pred num_watch in
      set_slack idx slack ;;
      set_num_watch idx num_watch ;;
      pb_swap idx num_watch index ;;
      a_max <- gets m_a_max ;;
      when (slack <? u32 (bound + a_max))
           (undef <- gets m_pb_undef ;;
            for_each undef
              (fun index1 =>
                 let index1 := if Nat.eqb index1 num_watch then index else index1 in
                 wl <- pb_at idx index1 ;;
                 when (slack <? u32 (bound + fst wl)) (assign idx (snd wl)))) ;;
      ret l_undef.

(** *** Parity constraints *)

(** [ba_solver::clear_watch(xor&)]. *)
Definition clear_watch_xor (idx : Z) : M unit :=
  x0 <- xor_at idx 0 ;;
  unwatch_literal x0 idx ;;
  x1 <- xor_at idx 1 ;;
  unwatch_literal x1 idx ;;
  unwatch_literal (neg x0) idx ;;
  unwatch_literal (neg x1) idx.

(** [ba_solver::parity(xor const&, unsigned offset)]. *)
Definition parity (idx : Z) (offset : nat) : M bool :=
  x <- to_xor idx ;;
  s <- gets (fun s => s) ;;
  ret (fold_left (fun odd l => if lbool_eqb (value s l) l_true then negb odd else odd)
                 (skipn offset (xor_lits x)) false).

Fixpoint init_watch_xor_partition (idx : Z) (ix : list nat) (j : nat) : M nat :=
  match ix with
  | [] => ret j
  | i :: ix' =>
      if Nat.ltb j 2 then
        l <- xor_at idx i ;;
        v <- gets (fun s => value s l) ;;
        if lbool_eqb v l_undef then
          xor_swap idx i j ;;
          init_watch_xor_partition idx ix' (S j)
        else init_watch_xor_partition idx ix' j
      else ret j
  end.

Fixpoint init_watch_xor_max_lvl (idx : Z) (ix : list nat) (j : nat) (l : Z) : M nat :=
  match ix with
  | [] => ret j
  | i :: ix' =>
      xi <- xor_at idx i ;;
      li <- gets (fun s => lvl s xi) ;;
      if l <? li then init_watch_xor_max_lvl idx ix' i li
      else init_watch_xor_max_lvl idx ix' j l
  end.

(** [ba_solver::init_watch(xor&, bool)]. *)
Definition init_watch_xor (idx : Z) (is_true : bool) : M bool :=
  clear_watch_xor idx ;;
  x <- to_xor idx ;;
  when (negb (is_null (c_lit (xor_hd x))) && Bool.eqb (sign (c_lit (xor_hd x))) is_true)
       (put_constraint idx (Xor (xor_negate x))) ;;
  x <- to_xor idx ;;
  let sz := xor_size x in
  j <- init_watch_xor_partition idx (range 0 sz) 0 ;;
  match j with
  | O =>
      odd <- parity idx 0 ;;
      when (negb odd)
           (x0 <- xor_at idx 0 ;;
            l <- gets (fun s => lvl s x0) ;;
            j <- init_watch_xor_max_lvl idx (range 1 sz) 1 l ;;
            xj <- xor_at idx j ;;
            set_conflict idx xj) ;;
      ret false
  | S O =>
      odd <- parity idx 1 ;;
      x0 <- xor_at idx 0 ;;
      assign idx (if odd then neg x0 else x0) ;;
      ret false
  | _ =>
      x0 <- xor_at idx 0 ;;
      watch_literal x0 idx ;;
      x1 <- xor_at idx 1 ;;
      watch_literal x1 idx ;;
      x0 <- xor_at idx 0 ;;
      watch_literal (neg x0) idx ;;
      x1 <- xor_at idx 1 ;;
      watch_literal (neg x1) idx ;;
      ret true
  end.

Fixpoint add_assign_xor_find (idx : Z) (alit : literal) (ix : list nat) : M nat :=
  match ix with
  | [] => ret 3%nat
  | index :: ix' =>
      l <- xor_at idx index ;;
      if var l =? var alit then ret index
      else add_assign_xor_find idx alit ix'
  end.

Fixpoint add_assign_xor_swap (idx : Z) (index : nat) (ix : list nat) : M bool :=
  match ix with
  | [] => ret false
  | i :: ix' =>
      lit2 <- xor_at idx i ;;
      v <- gets (fun s => value s lit2) ;;
      if lbool_eqb v l_undef then
        xor_swap idx index i ;;
        watch_literal lit2 idx ;;
        ret true
      else add_assign_xor_swap idx index ix'
  end.

(** [ba_solver::add_assign(xor&, literal)]. *)
Definition add_assign_xor (idx : Z) (alit : literal) : M lbool :=
  x <- to_xor idx ;;
  let sz := xor_size x in
  index <- add_assign_xor_find idx alit [0; 1; 2]%nat ;;
  if Nat.eqb index 2 then UNREACHABLE ;; ret l_undef
  else
    swapped <- add_assign_xor_swap idx index (range 2 sz) ;;
    if swapped then ret l_undef
    else
      when (Nat.eqb index 0) (xor_swap idx 0 1) ;;
      x0 <- xor_at idx 0 ;;
      v0 <- gets (fun s => value s x0) ;;
      (if lbool_eqb v0 l_undef then
         p <- parity idx 1 ;;
         x0 <- xor_at idx 0 ;;
         assign idx (if p then neg x0 else x0)
       else
         p <- parity idx 0 ;;
         when (negb p) (x1 <- xor_at idx 1 ;; set_conflict idx (neg x1))) ;;
      inc <- gets inconsistent ;;
      ret (if inc then l_false else l_true).

(** *** Generic entry points *)

(** [ba_solver::init_watch(constraint&, bool)]. *)
Definition init_watch (idx : Z) (is_true : bool) : M bool :=
  inc <- gets inconsistent ;;
  if inc then ret false
  else
    c <- index2constraint idx ;;
    match c with
    | Card _ => init_watch_card idx is_true
    | Pb _ => init_watch_pb idx is_true
    | Xor _ => init_watch_xor idx is_true
    end.

(** [ba_solver::add_assign(constraint&, literal)]. *)
Definition add_assign (idx : Z) (l : literal) : M lbool :=
  c <- index2constraint idx ;;
  match c with
  | Card _ => add_assign_card idx l
  | Pb _ => add_assign_pb idx l
  | Xor _ => add_assign_xor idx l
  end.

(** [m_allocator.allocate]: a fresh address. *)
Definition allocate : M Z :=
  a <- gets m_alloc_top ;;
  modify (set_m_alloc_top (a + 1)) ;;
  ret a.

(** [next_id]. *)
Definition next_id : M Z :=
  i <- gets m_constraint_id ;;
  modify (set_m_constraint_id (u32 (i + 1))) ;;
  ret i.

(** [ba_solver::add_constraint]. *)
Definition add_constraint (idx : Z) : M unit :=
  c <- index2constraint idx ;;
  (if learned c then modify (fun s => set_m_learned (m_learned s ++ [idx]) s)
   else modify (fun s => set_m_constraints (m_constraints s ++ [idx]) s)) ;;
  let l := lit c in
  base <- gets (fun s => solver.at_base_lvl (m_solver s)) ;;
  if learned c && negb base then
    modify (fun s => set_m_constraint_to_reinit (m_constraint_to_reinit s ++ [idx]) s)
  else if is_null l then
    init_watch idx true ;; ret tt
  else
    s_modify (solver.set_external (var l)) ;;
    s_modify (fun s => solver.set_wlist l (solver.get_wlist s l ++ [idx]) s) ;;
    s_modify (fun s => solver.set_wlist (neg l) (solver.get_wlist s (neg l) ++ [idx]) s).

(** The fields set by the constructor of [constraint]. *)
Definition new_header (id : Z) (l : literal) : header :=
  mk_header id l false false 0 0.

(** [ba_solver::add_at_least(literal, literal_vector const&, unsigned, bool)];
    the result is the address of the new constraint, [None] for the null
    pointer. *)
Definition add_at_least (l : literal) (lits : list literal) (k : Z) (lrn : bool)
  : M (option Z) :=
  if (k =? 1) && is_null l then
    s_modify (solver.mk_clause lits lrn) ;;
    ret None
  else
    mem <- allocate ;;
    id <- next_id ;;
    put_constraint mem
      (Card (mk_card (hd_set_learned lrn (new_header id l)) k lits)) ;;
    add_constraint mem ;;
    ret (Some mem).

(** [ba_solver::add_pb_ge(literal, svector<wliteral> const&, unsigned, bool)]. *)
Definition add_pb_ge (l : literal) (wlits : list wliteral) (k : Z) (lrn : bool)
  : M (option Z) :=
  let units := forallb (fun wl : wliteral => fst wl =? 1) wlits in
  if (k =? 0) && is_null l then ret None
  else if units || (k =? 1) then
    add_at_least l (map snd wlits) k lrn
  else
    mem <- allocate ;;
    id <- next_id ;;
    match update_max_sum (mk_pb (new_header id l) k 0 0 0 wlits) with
    | None => throw "addition of pb coefficients overflows"
    | Some p =>
        put_constraint mem
          (Pb (mk_pb (hd_set_learned lrn (pb_hd p)) (pb_k p) (pb_slack p)
                     (pb_num_watch p) (pb_max_sum p) (pb_wlits p))) ;;
        add_constraint mem ;;
        ret (Some mem)
    end.

(** [ba_solver::propagate(literal, ext_constraint_idx)]: the result tells
    the core whether to keep the watch. *)
Definition propagate (l : literal) (idx : Z) : M bool :=
  c <- index2constraint idx ;;
  v <- gets (fun s => value s (lit c)) ;;
  if negb (is_null (lit c)) && (var l =? var (lit c)) then
    init_watch idx (negb (sign l)) ;;
    ret true
  else if negb (is_null (lit c)) && negb (lbool_eqb v l_true) then
    ret true
  else
    r <- add_assign idx (neg l) ;;
    ret (negb (lbool_eqb l_undef r)).

(** [ba_solver::push]. *)
Definition push : M unit :=
  modify (fun s => set_m_constraint_to_reinit_lim
                     (m_constraint_to_reinit_lim s ++ [length (m_constraint_to_reinit s)]) s).

(** [ba_solver::pop]. *)
Definition pop (n : Z) : M unit :=
  lim <- gets m_constraint_to_reinit_lim ;;
  let new_lim := u32 (Z.of_nat (length lim) - n) in
  last_sz <- at_ lim new_lim ;;
  modify (set_m_constraint_to_reinit_last_sz last_sz) ;;
  modify (set_m_constraint_to_reinit_lim (firstn (Z.to_nat new_lim) lim)) ;;
  modify (set_m_num_propagations_since_pop 0).

(** ** Conflict resolution *)

(** [ba_solver::get_coeff]. *)
Definition get_coeff (s : ba_solver) (v : bool_var) : Z := m_coeffs s v.

Definition set_coeff (v : bool_var) (c : Z) : M unit :=
  modify (fun s => set_m_coeffs (solver.upd (m_coeffs s) v c) s).

(** Every assignment [m_overflow = true]. *)
Definition latch_overflow : M unit :=
  modify (fun s => set_overflow_latched true (set_m_overflow true s)).

(** The loop of [normalize_active_coeffs]: [seen] is [m_active_var_set]. *)
Fixpoint normalize_loop (coeffs : bool_var -> Z) (vs seen : list bool_var)
  : list bool_var :=
  match vs with
  | [] => []
  | v :: vs' =>
      if negb (contains v seen) && negb (coeffs v =? 0)
      then v :: normalize_loop coeffs vs' (v :: seen)
      else normalize_loop coeffs vs' seen
  end.

(** [ba_solver::normalize_active_coeffs]. *)
Definition normalize_active_coeffs : M unit :=
  modify (fun s => set_m_active_vars (normalize_loop (m_coeffs s) (m_active_vars s) []) s).

(** [ba_solver::inc_bound(int64)]. *)
Definition inc_bound (i : Z) : M unit :=
  if (i <? INT_MIN) || (INT_MAX <? i) then latch_overflow
  else
    b <- gets m_bound ;;
    let new_bound := b + i in
    if new_bound <? 0 then latch_overflow
    else if UINT_MAX <? new_bound then latch_overflow
    else modify (set_m_bound new_bound).

Definition in_int64 (z : Z) : bool :=
  (-9223372036854775808 <=? z) && (z <=? 9223372036854775807).

(** [ba_solver::inc_coeff(literal, unsigned)]. *)
Definition inc_coeff (l : literal) (offset : Z) : M unit :=
  let v := var l in
  coeff0 <- gets (fun s => m_coeffs s v) ;;
  when (coeff0 =? 0) (modify (fun s => set_m_active_vars (m_active_vars s ++ [v]) s)) ;;
  let loffset := offset in
  let inc := if sign l then - loffset else loffset in
  let coeff1 := inc + coeff0 in
  if negb (in_int64 coeff1) then undefined
  else
    set_coeff v coeff1 ;;
    if (INT_MAX <? coeff1) || (coeff1 <? INT_MIN) then latch_overflow
    else
      (if (0 <? coeff0) && (inc <? 0) then inc_bound (Z.max 0 coeff1 - coeff0)
       else if (coeff0 <? 0) && (0 <? inc) then inc_bound (coeff0 - Z.min 0 coeff1)
       else ret tt) ;;
      (* reduce coefficient to be no larger than bound. *)
      b <- gets m_bound ;;
      if b <? coeff1 then set_coeff v b
      else if (coeff1 <? 0) && (b <? - coeff1) then set_coeff v b
      else ret tt.

(** [ba_solver::get_abs_coeff]. *)
Definition get_abs_coeff (v : bool_var) : M Z :=
  c <- gets (fun s => get_coeff s v) ;;
  if (c <? INT_MIN + 1) || (UINT_MAX <? c) then latch_overflow ;; ret UINT_MAX
  else ret (Z.abs c).

(** [ba_solver::get_int_coeff]. *)
Definition get_int_coeff (v : bool_var) : M Z :=
  c <- gets (fun s => get_coeff s v) ;;
  if (c <? INT_MIN) || (INT_MAX <? c) then latch_overflow ;; ret 0
  else ret c.

(** [ba_solver::reset_coeffs]. *)
Definition reset_coeffs : M unit :=
  vs <- gets m_active_vars ;;
  for_each vs (fun v => set_coeff v 0) ;;
  modify (set_m_active_vars []).

(** [ba_solver::process_antecedent]. *)
Definition process_antecedent (l : literal) (offset : Z) : M unit :=
  let v := var l in
  s <- gets (fun s => s) ;;
  let level := lvl s l in
  when ((0 <? level) && negb (solver.is_marked (m_solver s) v) &&
        (level =? m_conflict_lvl s))
       (s_modify (solver.mark v) ;;
        modify (fun s => set_m_num_marks (u32 (m_num_marks s + 1)) s)) ;;
  inc_coeff l offset.

(** [ba_solver::process_card]. *)
Definition process_card (idx : Z) (offset : Z) : M unit :=
  c <- to_card idx ;;
  let l := c_lit (card_hd c) in
  for_each (range_from (card_k c) (card_size c))
           (fun i => ci <- card_at idx i ;; process_antecedent ci offset) ;;
  for_each (range 0 (Z.to_nat (Z.min (card_k c) (Z.of_nat (S (card_size c))))))
           (fun i => ci <- card_at idx i ;; inc_coeff ci offset) ;;
  if negb (is_null l) then
    let offset1 := offset * card_k c in
    if UINT_MAX <? offset1 then latch_overflow
    else process_antecedent (neg l) offset1
  else ret tt.

(** The two scans of [get_antecedents(literal, pb const&, literal_vector&)];
    the result is what the code appends to [r]. *)
Fixpoint pb_antecedents_scan (k : Z) (ws : list wliteral) (keep : wliteral -> bool)
  (slack : Z) : list literal :=
  match ws with
  | [] => []
  | wl :: ws' =>
      if keep wl then
        if u32 (slack + fst wl) <? k
        then pb_antecedents_scan k ws' keep (u32 (slack + fst wl))
        else neg (snd wl) :: pb_antecedents_scan k ws' keep slack
      else pb_antecedents_scan k ws' keep slack
  end.

(** The position of the first term of [ws] whose literal is [l], its
    coefficient, or the size and [0]. *)
Fixpoint pb_find_coeff (l : literal) (ws : list wliteral) (j : nat) : nat * Z :=
  match ws with
  | [] => (j, 0)
  | wl :: ws' =>
      if literal_eqb (snd wl) l then (j, fst wl) else pb_find_coeff l ws' (S j)
  end.

(** [ba_solver::get_antecedents(literal, pb const&, literal_vector&)]. *)
Definition get_antecedents_pb (s : ba_solver) (l : literal) (p : pb) : list literal :=
  let k := pb_k p in
  (if negb (is_null (c_lit (pb_hd p))) then [c_lit (pb_hd p)] else []) ++
  if lbool_eqb (value s l) l_false then
    let slack :=
      fold_left (fun sl wl => if negb (lbool_eqb (value s (snd wl)) l_false)
                              then u32 (sl + fst wl) else sl)
                (pb_wlits p) 0 in
    pb_antecedents_scan k (pb_wlits p)
      (fun wl => negb (literal_eqb (snd wl) l) && lbool_eqb (value s (snd wl)) l_false)
      slack
  else
    let '(j, coeff) := pb_find_coeff l (pb_wlits p) 0 in
    let j := S j in
    let j := if Nat.ltb j (pb_num_watch p) then pb_num_watch p else j in
    let slack := u32 (pb_slack p - coeff) in
    let j := Nat.max (S j) (pb_num_watch p) in
    pb_antecedents_scan k (skipn j (pb_wlits p)) (fun _ => true) slack.

(** Parity marks. *)
Definition get_parity (s : ba_solver) (v : bool_var) : Z := m_parity_marks s v.

Definition inc_parity (v : bool_var) : M unit :=
  modify (fun s => set_m_parity_marks
                     (solver.upd (m_parity_marks s) v (u32 (m_parity_marks s v + 1))) s).

Definition reset_parity (v : bool_var) : M unit :=
  modify (fun s => set_m_parity_marks (solver.upd (m_parity_marks s) v 0) s).

Definition trail_at (index : Z) : M literal :=
  t <- gets (fun s => solver.m_trail (m_solver s)) ;;
  at_ t index.

(** The inner loop [while (num_marks > 0)] of [get_xor_antecedents]: the
    result is the literal, [num_marks] and [index] on leaving it.  Every
    iteration but the last reads the trail at a smaller index, so the
    length of the trail plus two bounds the number of iterations. *)
Fixpoint xor_antecedents_walk (fuel : nat) (l : literal) (num_marks index : Z)
  : M (literal * Z * Z) :=
  if 0 <? num_marks then
    match fuel with
    | O => out_of_fuel
    | S fuel' =>
        l' <- trail_at index ;;
        let v := var l' in
        n <- gets (fun s => get_parity s v) ;;
        if 0 <? n then
          reset_parity v ;;
          if n mod 2 =? 1 then ret (l', num_marks, index)
          else xor_antecedents_walk fuel' l' (u32 (num_marks - 1)) (u32 (index - 1))
        else xor_antecedents_walk fuel' l' num_marks (u32 (index - 1))
    end
  else ret (l, num_marks, index).

(** The outer loop [while (true)] of [get_xor_antecedents]; the literals
    appended to [r] are accumulated in [m_lemma], which is the [r] of its
    only caller. *)
Fixpoint xor_antecedents_loop (fuel : nat) (l : literal) (num_marks index : Z)
  (js : justification) : M unit :=
  match fuel with
  | O => out_of_fuel
  | S fuel' =>
      let push (x : literal) := modify (fun s => set_m_lemma (m_lemma s ++ [x]) s) in
      num_marks <-
        match js with
        | EXT_JUSTIFICATION cidx =>
            c <- index2constraint cidx ;;
            match c with
            | Xor x =>
                lx <- gets (fun s => lvl s (c_lit (xor_hd x))) ;;
                when (negb (is_null (c_lit (xor_hd x))) && (0 <? lx))
                     (push (c_lit (xor_hd x))) ;;
                x1 <- xor_at cidx 1 ;;
                when (var x1 =? var l) (xor_swap cidx 0 1) ;;
                x <- to_xor cidx ;;
                s <- gets (fun s => s) ;;
                for_each (skipn 1 (xor_lits x))
                  (fun xi =>
                     let lit := if lbool_eqb (value s xi) l_true then xi else neg xi in
                     inc_parity (var lit)) ;;
                ret (u32 (num_marks + Z.of_nat (length (skipn 1 (xor_lits x)))))
            | _ => push l ;; ret num_marks
            end
        | _ => push l ;; ret num_marks
        end ;;
      n <- gets (fun s => length (solver.m_trail (m_solver s))) ;;
      r <- xor_antecedents_walk (S (S n)) l num_marks index ;;
      let '(l, num_marks, index) := r in
      if num_marks =? 0 then ret tt
      else
        js <- gets (fun s => solver.m_justification (m_solver s) (var l)) ;;
        xor_antecedents_loop fuel' l (u32 (num_marks - 1)) (u32 (index - 1)) js
  end.

(** [ba_solver::get_xor_antecedents]: parity resolution on xor premises. *)
Definition get_xor_antecedents (l : literal) (index : Z) (js : justification) : M unit :=
  n <- gets (fun s => length (solver.m_trail (m_solver s))) ;;
  xor_antecedents_loop (S (S n)) l 0 index js ;;
  pt <- gets m_parity_trail ;;
  for_each pt
    (fun lit =>
       n <- gets (fun s => get_parity s (var lit)) ;;
       when (n mod 2 =? 1) (modify (fun s => set_m_lemma (m_lemma s ++ [lit]) s)) ;;
       reset_parity (var lit)) ;;
  modify (set_m_parity_trail []).

(** Modelled from the spec: [u_gcd] is defined outside the sources; it
    computes the greatest common divisor of two unsigned values. *)
Definition u_gcd (u v : Z) : Z := Z.gcd u v.

(** First loop of [cut]: is there a unit coefficient? *)
Fixpoint cut_has_unit (vs : list bool_var) : M bool :=
  match vs with
  | [] => ret false
  | v :: vs' =>
      c <- get_abs_coeff v ;;
      if 1 =? c then ret true else cut_has_unit vs'
  end.

(** Second loop of [cut]: coefficients above the bound are clipped to it
    and the gcd [g] is accumulated; the loop stops when [g] is [1]. *)
Fixpoint cut_gcd (vs : list bool_var) (g : Z) : M Z :=
  match vs with
  | [] => ret g
  | v :: vs' =>
      if g =? 1 then ret g
      else
        coeff <- get_abs_coeff v ;;
        if coeff =? 0 then cut_gcd vs' g
        else
          b <- gets m_bound ;;
          coeff <-
            (if b <? coeff then
               c <- gets (fun s => get_coeff s v) ;;
               set_coeff v (if 0 <? c then b else - b) ;;
               ret b
             else ret coeff) ;;
          cut_gcd vs' (if g =? 0 then coeff else u_gcd g coeff)
  end.

(** [ba_solver::cut]: compute a cut for the current resolvent. *)
Definition cut : M unit :=
  vs <- gets m_active_vars ;;
  unit <- cut_has_unit vs ;;
  if unit then ret tt
  else
    g <- cut_gcd vs 0 ;;
    if 2 <=? g then
      normalize_active_coeffs ;;
      vs <- gets m_active_vars ;;
      for_each vs (fun v => c <- gets (fun s => get_coeff s v) ;;
                            set_coeff v (Z.quot c (to_int g))) ;;
      modify (fun s => set_m_bound (u32 (m_bound s + g - 1) / g) s)
    else ret tt.

(** The loop state of [create_asserting_lemma]. *)
Record asserting := mk_asserting {
  as_slack : Z; as_coeff : Z; as_lemma0 : literal; as_rest : list literal
}.

(** Main loop of [create_asserting_lemma] over the active variables;
    [as_lemma0] is [m_lemma[0]] and [as_rest] the literals pushed after
    it. *)
Fixpoint create_asserting_lemma_loop (vs : list bool_var) (st : asserting) : M asserting :=
  match vs with
  | [] => ret st
  | v :: vs' =>
      if 0 <=? as_slack st then
        s <- gets (fun s => s) ;;
        let coeff := get_coeff s v in
        let val := value s (mk_literal v false) in
        let is_true := lbool_eqb val l_true in
        let append := negb (coeff =? 0) && negb (lbool_eqb val l_undef) &&
                      Bool.eqb (coeff <? 0) is_true in
        if append then
          let lit := mk_literal v (negb is_true) in
          get_abs_coeff v ;;
          if lvl s lit =? m_conflict_lvl s then
            if is_null (as_lemma0 st) then
              create_asserting_lemma_loop vs'
                (mk_asserting (as_slack st - Z.abs coeff) (Z.abs coeff) (neg lit)
                              (as_rest st))
            else if as_coeff st <? Z.abs coeff then
              create_asserting_lemma_loop vs'
                (mk_asserting (as_slack st - (Z.abs coeff - as_coeff st)) (Z.abs coeff)
                              (neg lit) (as_rest st))
            else create_asserting_lemma_loop vs' st
          else
            create_asserting_lemma_loop vs'
              (mk_asserting (as_slack st - Z.abs coeff) (as_coeff st) (as_lemma0 st)
                            (as_rest st ++ [neg lit]))
        else create_asserting_lemma_loop vs' st
      else ret st
  end.

Fixpoint sum_abs_coeffs (vs : list bool_var) (slack : Z) : M Z :=
  match vs with
  | [] => ret slack
  | v :: vs' => c <- get_abs_coeff v ;; sum_abs_coeffs vs' (slack + c)
  end.

(** [ba_solver::create_asserting_lemma]; [fuel] bounds the number of
    passes through the label [adjust_conflict_level]. *)
Fixpoint create_asserting_lemma_from (fuel : nat) : M bool :=
  match fuel with
  | O => out_of_fuel
  | S fuel' =>
      vs <- gets m_active_vars ;;
      b <- gets m_bound ;;
      slack <- sum_abs_coeffs vs (- b) ;;
      modify (set_m_lemma [null_literal]) ;;
      st <- create_asserting_lemma_loop vs (mk_asserting slack 0 null_literal []) ;;
      modify (set_m_lemma (as_lemma0 st :: as_rest st)) ;;
      if 0 <=? as_slack st then ret false
      else if is_null (as_lemma0 st) then
        match as_rest st with
        | [] => s_modify (solver.set_conflict NONE null_literal) ;; ret false
        | rest =>
            s <- gets (fun s => s) ;;
            modify (set_m_conflict_lvl
                      (fold_left (fun m l => Z.max m (lvl s l)) rest 0)) ;;
            create_asserting_lemma_from fuel'
        end
      else ret true
  end.

Definition create_asserting_lemma : M bool := create_asserting_lemma_from 2.

(** The loop of [active2card] that counts the terms of the sorted
    inequality until their sum reaches the bound; the result is [k] and
    [sum0], the sum of the first [k-1] weights. *)
Fixpoint active2card_prefix (bound : Z) (ws : list wliteral) (k sum sum0 : Z)
  : Z * Z :=
  match ws with
  | [] => (k, sum0)
  | wl :: ws' =>
      if bound <=? sum then (k, sum0)
      else active2card_prefix bound ws' (u32 (k + 1)) (sum + fst wl) sum
  end.

(** The loop of [active2card] that drops terms from the back; the
    argument is the reversed vector. *)
Fixpoint active2card_trim (bound : Z) (rev_ws : list wliteral) (sum0 : Z)
  : list wliteral :=
  match rev_ws with
  | [] => []
  | wl :: rest =>
      if bound <=? fst wl + sum0 then rev_ws
      else active2card_trim bound rest (sum0 + fst wl)
  end.

Fixpoint active2card_wlits (vs : list bool_var) : M (list wliteral) :=
  match vs with
  | [] => ret []
  | v :: vs' =>
      coeff <- get_int_coeff v ;;
      a <- get_abs_coeff v ;;
      r <- active2card_wlits vs' ;;
      ret ((a, mk_literal v (coeff <? 0)) :: r)
  end.

(** [ba_solver::active2card]. *)
Definition active2card : M (option Z) :=
  normalize_active_coeffs ;;
  vs <- gets m_active_vars ;;
  ws <- active2card_wlits vs ;;
  modify (set_m_wlits (sort_wlits ws)) ;;
  ws <- gets m_wlits ;;
  b <- gets m_bound ;;
  let '(k, sum0) := active2card_prefix b ws 0 0 0 in
  if k =? 1 then ret None
  else
    modify (set_m_wlits (rev (active2card_trim b (rev ws) sum0))) ;;
    ws <- gets m_wlits ;;
    s <- gets (fun s => s) ;;
    let slack :=
      Z.of_nat (length (filter (fun wl : wliteral =>
                                  negb (lbool_eqb (value s (snd wl)) l_false)) ws)) in
    if m_overflow s then ret None
    else if k <=? slack then ret None
    else
      (* produce asserting cardinality constraint *)
      c <- add_at_least null_literal (map snd ws) k true ;;
      match c with
      | Some cidx =>
          s <- gets (fun s => s) ;;
          let lits := filter (fun l => lbool_eqb (value s l) l_false) (map snd ws) in
          set_glue cidx (num_diff_levels (m_solver s) lits) ;;
          ret (Some cidx)
      | None => ret None
      end.

Fixpoint active2constraint_wlits (vs seen : list bool_var) (sum : Z)
  : M (list wliteral * Z) :=
  match vs with
  | [] => ret ([], sum)
  | v :: vs' =>
      coeff <- get_int_coeff v ;;
      if contains v seen || (coeff =? 0) then active2constraint_wlits vs' seen sum
      else
        a <- get_abs_coeff v ;;
        a' <- get_abs_coeff v ;;
        r <- active2constraint_wlits vs' (v :: seen) (sum + a') ;;
        ret ((a, mk_literal v (coeff <? 0)) :: fst r, snd r)
  end.

(** [ba_solver::active2constraint]; its only call site, in [active2card],
    is compiled out ([#if 0]). *)
Definition active2constraint : M (option Z) :=
  modify (set_m_wlits []) ;;
  b <- gets m_bound ;;
  ovf <- gets m_overflow ;;
  if b =? 1 then ret None
  else if ovf then ret None
  else
    vs <- gets m_active_vars ;;
    r <- active2constraint_wlits vs [] 0 ;;
    modify (set_m_wlits (fst r)) ;;
    ovf <- gets m_overflow ;;
    if ovf || (UINT_MAX / 2 <=? snd r) then ret None
    else add_pb_ge null_literal (fst r) b true.

(** How the main loop of [resolve_conflict] is left: through its
    condition, or by [goto bail_out]; both with the current [idx]. *)
Inductive loop_exit :=
| Finished (idx : Z)
| BailOut (idx : Z).

(** The search for the next marked variable on the trail, downwards from
    position [n]; [None] when position [0] is reached without one
    ([goto bail_out] with [idx = 0]). *)
Fixpoint find_marked (n : nat) : M (option (nat * literal)) :=
  consequent <- trail_at (Z.of_nat n) ;;
  marked <- gets (fun s => solver.is_marked (m_solver s) (var consequent)) ;;
  if marked then ret (Some (n, consequent))
  else
    match n with
    | O => ret None
    | S n' => find_marked n'
    end.

Definition find_marked_from (idx : Z) : M (option (nat * literal)) :=
  n <- gets (fun s => length (solver.m_trail (m_solver s))) ;;
  if idx <? Z.of_nat n then find_marked (Z.to_nat idx) else undefined.

Definition get_clause (off : Z) : M (list literal) :=
  c <- gets (fun s => solver.m_cls_allocator (m_solver s) off) ;;
  match c with Some c => ret c | None => undefined end.

(** The [switch (js.get_kind())] of [resolve_conflict]: the reason [js] of
    [consequent] is added to the resolvent with multiplier [offset]. *)
Definition resolve_step (js : justification) (consequent : literal) (offset idx : Z)
  : M unit :=
  match js with
  | NONE => inc_bound offset
  | BINARY l =>
      inc_bound offset ;;
      inc_coeff consequent offset ;;
      process_antecedent l offset
  | TERNARY l1 l2 =>
      inc_bound offset ;;
      inc_coeff consequent offset ;;
      process_antecedent l1 offset ;;
      process_antecedent l2 offset
  | CLAUSE off =>
      inc_bound offset ;;
      c <- get_clause off ;;
      i <- (if negb (is_null consequent) then
              inc_coeff consequent offset ;;
              c0 <- at_ c 0 ;;
              if literal_eqb c0 consequent then ret 1%nat
              else process_antecedent c0 offset ;; ret 2%nat
            else ret 0%nat) ;;
      for_each (skipn i c) (fun l => process_antecedent l offset)
  | EXT_JUSTIFICATION cidx =>
      cnstr <- index2constraint cidx ;;
      match cnstr with
      | Card c =>
          inc_bound (offset * card_k c) ;;
          process_card cidx offset
      | Pb p =>
          modify (set_m_lemma []) ;;
          inc_bound offset ;;
          inc_coeff consequent offset ;;
          modify (fun s => set_m_lemma (m_lemma s ++ get_antecedents_pb s consequent p) s) ;;
          lemma <- gets m_lemma ;;
          for_each lemma (fun l => process_antecedent (neg l) offset)
      | Xor _ =>
          modify (set_m_lemma []) ;;
          inc_bound offset ;;
          inc_coeff consequent offset ;;
          get_xor_antecedents consequent idx js ;;
          lemma <- gets m_lemma ;;
          for_each lemma (fun l => process_antecedent (neg l) offset)
      end
  end.

(** The [do ... while (m_num_marks > 0)] loop of [resolve_conflict].  Each
    iteration that does not leave the loop moves [idx] down the trail. *)
Fixpoint resolve_loop (fuel : nat) (consequent : literal) (js : justification)
  (idx offset : Z) : M loop_exit :=
  match fuel with
  | O => out_of_fuel
  | S fuel' =>
      ovf <- gets m_overflow ;;
      if ovf || (4096 <? offset) then ret (BailOut idx)
      else
        when (negb (offset =? 0)) (resolve_step js consequent offset idx ;; cut) ;;
        (* process_next_resolvent *)
        r <- find_marked_from idx ;;
        match r with
        | None => ret (BailOut 0)
        | Some (n, consequent) =>
            let v := var consequent in
            s_modify (solver.reset_mark v) ;;
            let idx := u32 (Z.of_nat n - 1) in
            modify (fun s => set_m_num_marks (u32 (m_num_marks s - 1)) s) ;;
            js <- gets (fun s => solver.m_justification (m_solver s) v) ;;
            offset <- get_abs_coeff v ;;
            b <- gets m_bound ;;
            offset <-
              (if b <? offset then
                 c <- gets (fun s => get_coeff s v) ;;
                 set_coeff v (if c <? 0 then - b else b) ;;
                 ret b
               else ret offset) ;;
            nm <- gets m_num_marks ;;
            if 0 <? nm then resolve_loop fuel' consequent js idx offset
            else ret (Finished idx)
        end
  end.

(** The loop at the label [bail_out]: marks are cleared down the trail
    from [idx]; at position [0], once per process, all marks of the trail
    are cleared and [resolve_conflict] is run again ([rerun]) for its
    diagnostics.  The ghost [overflow_latched] of the caller is joined with
    that of the re-run. *)
Fixpoint bail_out_loop (rerun : M unit) (fuel : nat) (idx : Z) : M unit :=
  nm <- gets m_num_marks ;;
  if 0 <? nm then
    match fuel with
    | O => out_of_fuel
    | S fuel' =>
        l <- trail_at idx ;;
        let v := var l in
        marked <- gets (fun s => solver.is_marked (m_solver s) v) ;;
        when marked
             (s_modify (solver.reset_mark v) ;;
              modify (fun s => set_m_num_marks (u32 (m_num_marks s - 1)) s)) ;;
        dbg <- gets debug_conflict ;;
        when ((idx =? 0) && negb dbg)
             (modify (set_debug_conflict true) ;;
              lits <- gets (fun s => solver.m_trail (m_solver s)) ;;
              for_each lits
                (fun l =>
                   marked <- gets (fun s => solver.is_marked (m_solver s) (var l)) ;;
                   when marked (s_modify (solver.reset_mark (var l)))) ;;
              modify (set_m_num_marks 0) ;;
              latched <- gets overflow_latched ;;
              rerun ;;
              modify (fun s => set_overflow_latched (latched || overflow_latched s) s)) ;;
        bail_out_loop rerun fuel' (u32 (idx - 1))
    end
  else ret tt.

(** The body of [ba_solver::resolve_conflict]; [rerun] is its recursive
    call. *)
Definition resolve_conflict_body (rerun : M unit) : M lbool :=
  np <- gets m_num_propagations_since_pop ;;
  if 0 =? np then ret l_undef
  else
    modify (fun s => set_overflow_latched false (set_m_overflow false s)) ;;
    reset_coeffs ;;
    modify (set_m_num_marks 0) ;;
    modify (set_m_bound 0) ;;
    consequent <- gets (fun s => solver.m_not_l (m_solver s)) ;;
    js <- gets (fun s => solver.m_conflict (m_solver s)) ;;
    lv <- gets (fun s => get_max_lvl s consequent js) ;;
    modify (set_m_conflict_lvl lv) ;;
    consequent <-
      (if negb (is_null consequent) then
         process_antecedent (neg consequent) 1 ;; ret (neg consequent)
       else ret consequent) ;;
    n <- gets (fun s => length (solver.m_trail (m_solver s))) ;;
    let idx := u32 (Z.of_nat n - 1) in
    r <- resolve_loop (S (S n)) consequent js idx 1 ;;
    r <- match r with
         | BailOut idx => ret (BailOut idx)
         | Finished idx =>
             normalize_active_coeffs ;;
             ok <- create_asserting_lemma ;;
             if negb ok then ret (BailOut idx)
             else
               active2card ;;
               ovf <- gets m_overflow ;;
               if ovf then ret (BailOut idx) else ret (Finished idx)
         end ;;
    match r with
    | Finished _ =>
        lemma <- gets m_lemma ;;
        s_modify (solver.set_lemma lemma) ;;
        for_each (skipn 1 lemma) (fun l => s_modify (solver.mark (var l))) ;;
        ret l_true
    | BailOut idx =>
        modify (set_m_overflow false) ;;
        bail_out_loop rerun (S (S n)) idx ;;
        ret l_undef
    end.

(** [ba_solver::resolve_conflict].  The recursive call sits behind the
    static [_debug_conflict], which is set before the call and never
    cleared, so the recursion is at most one call deep. *)
Fixpoint resolve_conflict_rec (depth : nat) : M lbool :=
  match depth with
  | O => out_of_fuel
  | S depth' => resolve_conflict_body (resolve_conflict_rec depth' ;; ret tt)
  end.

Definition resolve_conflict : M lbool := resolve_conflict_rec 2.

End BaSolver.

(** ** A reference instance of the collaborators *)

Fixpoint insert_wlit (w : wliteral) (l : list wliteral) : list wliteral :=
  match l with
  | [] => [w]
  | x :: l' => if fst x <? fst w then w :: l else x :: insert_wlit w l'
  end.

Definition insertion_sort (l : list wliteral) : list wliteral :=
  fold_right insert_wlit [] l.

Lemma insert_wlit_perm w l : Permutation (insert_wlit w l) (w :: l).
Proof.
  induction l as [|x l IH]; simpl; auto.
  destruct (fst x <? fst w); auto.
  eapply perm_trans; [apply perm_skip, IH | apply perm_swap].
Qed.

Lemma insertion_sort_perm l : Permutation (insertion_sort l) l.
Proof.
  induction l as [|x l IH]; simpl; auto.
  eapply perm_trans; [apply insert_wlit_perm | auto].
Qed.

Lemma insert_wlit_sorted w l :
  StronglySorted (fun a b : wliteral => fst b <= fst a) l ->
  StronglySorted (fun a b : wliteral => fst b <= fst a) (insert_wlit w l).
Proof.
  induction 1 as [|x l Hs IH Hx]; simpl.
  - repeat constructor.
  - destruct (Z.ltb_spec (fst x) (fst w)).
    + constructor; [constructor; auto|].
      constructor; [lia|].
      rewrite Forall_forall in *. intros y Hy. specialize (Hx y Hy). lia.
    + constructor; auto.
      rewrite Forall_forall in *. intros y Hy.
      apply (Permutation_in _ (insert_wlit_perm w l)) in Hy.
      destruct Hy as [<-|Hy]; [lia | auto].
Qed.

Lemma insertion_sort_sorted l :
  StronglySorted (fun a b : wliteral => fst b <= fst a) (insertion_sort l).
Proof.
  induction l; simpl; [constructor | now apply insert_wlit_sorted].
Qed.

Definition max_lvl (s : solver.t) (ls : list literal) : Z :=
  fold_left (fun m l => Z.max m (solver.lvl s (var l))) ls 0.

Definition literals (c : constraint) : list literal :=
  match c with
  | Card c => card_lits c
  | Pb p => map snd (pb_wlits p)
  | Xor x => xor_lits x
  end.

(** The maximal level among the literals of the conflict. *)
Definition ref_get_max_lvl (s : ba_solver) (consequent : literal) (js : justification) : Z :=
  let c := m_solver s in
  let ls :=
    match js with
    | NONE => []
    | BINARY l => [l]
    | TERNARY l1 l2 => [l1; l2]
    | CLAUSE off => match solver.m_cls_allocator c off with Some ls => ls | None => [] end
    | EXT_JUSTIFICATION idx =>
        match m_allocator s idx with Some k => literals k | None => [] end
    end in
  max_lvl c (if literal_eqb consequent null_literal then ls else consequent :: ls).

Definition distinct_levels (s : solver.t) (ls : list literal) : list Z :=
  nodup Z.eq_dec (map (fun l => solver.lvl s (var l)) ls).

Definition ref_num_diff_levels (s : solver.t) (ls : list literal) : Z :=
  Z.of_nat (length (distinct_levels s ls)).

Definition ref_num_diff_false_levels_below (s : solver.t) (ls : list literal) (max_glue : Z)
  : option Z :=
  let g := ref_num_diff_levels s
             (filter (fun l => lbool_eqb (solver.value s l) l_false) ls) in
  if g <? max_glue then Some g else None.

Definition ref_xor_negate (x : xor) : xor :=
  mk_xor (xor_hd x)
         (match xor_lits x with [] => [] | l :: ls => neg l :: ls end).

#[export] Instance reference_externals : externals := {
  get_max_lvl := ref_get_max_lvl;
  num_diff_levels := ref_num_diff_levels;
  num_diff_false_levels_below := ref_num_diff_false_levels_below;
  xor_negate := ref_xor_negate;
  unreachable_exits := true;
  sort_wlits := insertion_sort;
  sort_wlits_perm := insertion_sort_perm;
  sort_wlits_sorted := insertion_sort_sorted
}.

(** The state of a fresh solver. *)
Definition empty_core : solver.t :=
  solver.mk (fun _ => l_undef) (fun _ => 0) (fun _ => NONE) []
            (fun _ => false) false NONE null_literal 0 [] (fun _ => None) []
            (fun _ => []) (fun _ => false).

Definition empty_solver : ba_solver :=
  mk_ba_solver empty_core (fun _ => None) 1 0 [] [] [] [] 0 0 0 [] [] []
               (fun _ => 0) [] (fun _ => 0) [] 0 false 0 0 false false.

(** ** The core's side of a propagation round *)

(** Modelled from the spec: the core's decision step is absent from the
    sources.  A decision opens a new scope level and assigns the literal
    without a reason. *)
Definition decide (l : literal) (s : ba_solver) : ba_solver :=
  let c := m_solver s in
  set_m_solver
    (solver.assign l NONE
       (solver.mk (solver.m_assignment c) (solver.m_level c) (solver.m_justification c)
                  (solver.m_trail c) (solver.m_mark c) (solver.m_inconsistent c)
                  (solver.m_conflict c) (solver.m_not_l c) (solver.m_scope_lvl c + 1)
                  (solver.m_lemma c) (solver.m_cls_allocator c) (solver.m_clauses c)
                  (solver.m_watches c) (solver.m_external c))) s.

(** Modelled from the spec: the core's propagation loop is absent from the
    sources.  For a watch entry [idx] in the watch list of the literal [l]
    that has become true it calls [propagate(l, idx)] and drops the entry
    when the answer ("keep watching") is [false]. *)
Definition core_propagate {E : externals} (l : literal) (idx : Z) : M bool :=
  keep <- propagate l idx ;;
  when (negb keep)
       (s_modify (fun s => solver.set_wlist l (erase idx (solver.get_wlist s l)) s)) ;;
  ret keep.

(** The literals, in trail order, that were assigned since the state [s0]. *)
Definition propagated_since (s0 s : ba_solver) : list literal :=
  skipn (length (solver.m_trail (m_solver s0))) (solver.m_trail (m_solver s)).

(** The literals of [ls] on whose falsification the constraint [idx] is
    called: [idx] is on the watch list of their negation. *)
Definition watched_among (s : ba_solver) (idx : Z) (ls : list literal) : list literal :=
  filter (fun l => is_watched s l idx) ls.

Definition x_ (i : Z) : literal := mk_literal i false.

(** * Properties *)

(** ** Reasoning about computations *)

Lemma bind_Ret {A B} (m : M A) (f : A -> M B) s b s' :
  bind m f s = Ret b s' -> exists a s1, m s = Ret a s1 /\ f a s1 = Ret b s'.
Proof.
  unfold bind. destruct (m s) as [a s1| | | |]; try discriminate. eauto.
Qed.

Lemma bind_eq {A B} (m : M A) (f : A -> M B) s a s1 :
  m s = Ret a s1 -> bind m f s = f a s1.
Proof. unfold bind. now intros ->. Qed.

(** ** Negation *)

Lemma u32_sub_sub w k : is_u32 k -> u32 (w - u32 (w - k + 1) + 1) = k.
Proof.
  intros Hk. unfold u32.
  rewrite <- Zplus_mod_idemp_l, Zminus_mod_idemp_r, Zplus_mod_idemp_l.
  replace (w - (w - k + 1) + 1) with k by lia.
  apply Z.mod_small. unfold is_u32, UINT_MAX in Hk. lia.
Qed.

Lemma hd_neg_lit_involutive h : hd_neg_lit (hd_neg_lit h) = h.
Proof. destruct h. unfold hd_neg_lit. simpl. now rewrite neg_involutive. Qed.

Lemma map_neg_involutive ls : map neg (map neg ls) = ls.
Proof.
  rewrite map_map. rewrite <- (map_id ls) at 2.
  apply map_ext. intros l. apply neg_involutive.
Qed.

Lemma pb_weight_sum_neg ws :
  pb_weight_sum (map (fun x : wliteral => (fst x, neg (snd x))) ws) = pb_weight_sum ws.
Proof.
  unfold pb_weight_sum. generalize 0.
  induction ws as [|x ws IH]; intros w; simpl; auto.
Qed.

Lemma map_wneg_involutive (ws : list wliteral) :
  map (fun x : wliteral => (fst x, neg (snd x)))
      (map (fun x : wliteral => (fst x, neg (snd x))) ws) = ws.
Proof.
  rewrite map_map. rewrite <- (map_id ws) at 2.
  apply map_ext. intros [a l]. simpl. now rewrite neg_involutive.
Qed.

Lemma card_negate_involutive c :
  is_u32 (card_k c) -> card_negate (card_negate c) = c.
Proof.
  intros Hk. destruct c as [h k ls]. unfold card_negate, card_size. simpl in *.
  rewrite hd_neg_lit_involutive, map_neg_involutive, length_map.
  now rewrite u32_sub_sub.
Qed.

Lemma pb_negate_involutive p :
  is_u32 (pb_k p) -> pb_negate (pb_negate p) = p.
Proof.
  intros Hk. destruct p as [h k sl nw ms ws]. unfold pb_negate. simpl in *.
  rewrite hd_neg_lit_involutive, map_wneg_involutive, pb_weight_sum_neg.
  now rewrite u32_sub_sub.
Qed.

(** C8 (P1, negation involution): for every cardinality constraint and
    every pb constraint whose threshold is an unsigned 32-bit value,
    [negate] applied twice restores the constraint: its size, its
    threshold, its literal sequence, for pb its weights, and the reifier. *)
Theorem negate_involution (c : card) (p : pb) :
  is_u32 (card_k c) -> is_u32 (pb_k p) ->
  (card_size (card_negate (card_negate c)) = card_size c /\
   card_k (card_negate (card_negate c)) = card_k c /\
   card_lits (card_negate (card_negate c)) = card_lits c /\
   card_negate (card_negate c) = c) /\
  (pb_size (pb_negate (pb_negate p)) = pb_size p /\
   pb_k (pb_negate (pb_negate p)) = pb_k p /\
   map snd (pb_wlits (pb_negate (pb_negate p))) = map snd (pb_wlits p) /\
   map fst (pb_wlits (pb_negate (pb_negate p))) = map fst (pb_wlits p) /\
   pb_negate (pb_negate p) = p).
Proof.
  intros Hc Hp.
  rewrite (card_negate_involutive c Hc), (pb_negate_involutive p Hp).
  repeat split; reflexivity.
Qed.

Definition example_card : card :=
  mk_card (new_header 0 (x_ 9)) 3 [x_ 1; x_ 2; x_ 3; x_ 4].

Definition example_pb : pb :=
  mk_pb (new_header 1 null_literal) 7 9 2 15
        [(5, x_ 1); (4, x_ 2); (3, x_ 3); (2, x_ 4); (1, x_ 5)].

Lemma negate_involution_witness :
  card_negate (card_negate example_card) = example_card /\
  pb_negate (pb_negate example_pb) = example_pb /\
  card_k (card_negate example_card) = 2 /\
  pb_k (pb_negate example_pb) = 9.
Proof.
  pose proof (negate_involution example_card example_pb) as H.
  destruct H as [(_ & _ & _ & Hc) (_ & _ & _ & _ & Hp)].
  - unfold is_u32, UINT_MAX. simpl. lia.
  - unfold is_u32, UINT_MAX. simpl. lia.
  - split; [exact Hc | split; [exact Hp | split; reflexivity]].
Defined.

(** ** [resolve_conflict] without extension propagations *)

Lemma pop_resets_propagations n s s' :
  pop n s = Ret tt s' -> m_num_propagations_since_pop s' = 0.
Proof.
  unfold pop. intros H.
  apply bind_Ret in H as (lim & s1 & H1 & H).
  apply bind_Ret in H as (last_sz & s2 & H2 & H).
  cbv [bind modify] in H. injection H as <-. reflexivity.
Qed.

(** C9: whenever the count of extension propagations since the last [pop]
    is zero, [resolve_conflict] returns [l_undef] at once and leaves the
    whole solver state, the resolver scratchpad (coefficients, active
    variables, bound, marks) included, as it was. *)
Theorem resolve_conflict_without_propagations {E : externals} (s : ba_solver) :
  m_num_propagations_since_pop s = 0 ->
  resolve_conflict s = Ret l_undef s.
Proof.
  intros H.
  unfold resolve_conflict, resolve_conflict_rec, resolve_conflict_body.
  unfold bind at 1. unfold gets at 1. rewrite H. reflexivity.
Qed.

(** ** [propagate] on a reified constraint *)

(** C10: for a reified constraint whose reifier is not true, [propagate]
    with a literal of another variable returns [true] (keep watching) and
    leaves the state unchanged, so [add_assign] is not invoked and nothing
    is propagated; with a literal of the reifier's variable it runs
    [init_watch] with polarity [!l.sign()] and returns [true]. *)
Theorem propagate_reified {E : externals} (s : ba_solver) (l : literal) (idx : Z) (c : constraint) :
  m_allocator s idx = Some c ->
  lit c <> null_literal ->
  (value s (lit c) <> l_true -> var l <> var (lit c) ->
   propagate l idx s = Ret true s) /\
  (var l = var (lit c) ->
   propagate l idx s = (init_watch idx (negb (sign l)) ;; ret true) s).
Proof.
  intros Hc Hnull.
  assert (Hn : is_null (lit c) = false).
  { unfold is_null. destruct (literal_eqb_spec (lit c) null_literal); congruence. }
  unfold propagate, index2constraint.
  cbv [bind gets]. rewrite Hc. cbv [ret]. rewrite Hn. simpl negb. cbv [andb].
  split.
  - intros Hval Hvar.
    assert (Hv : lbool_eqb (value s (lit c)) l_true = false).
    { destruct (lbool_eqb_spec (value s (lit c)) l_true); congruence. }
    apply Z.eqb_neq in Hvar. rewrite Hvar. rewrite Hv. reflexivity.
  - intros Hvar. apply Z.eqb_eq in Hvar. rewrite Hvar. reflexivity.
Qed.

Definition after_pop : ba_solver :=
  set_m_num_propagations_since_pop 0
    (set_m_constraint_to_reinit_lim []
       (set_m_num_propagations_since_pop 5 empty_solver)).

Lemma resolve_conflict_without_propagations_witness :
  (push ;; pop 1) (set_m_num_propagations_since_pop 5 empty_solver) = Ret tt after_pop /\
  resolve_conflict after_pop = Ret l_undef after_pop.
Proof.
  split; [reflexivity|].
  apply (resolve_conflict_without_propagations after_pop). reflexivity.
Defined.

(** A reified cardinality constraint [x9 <-> x1 + x2 + x3 >= 2], added at
    base level: both polarities of the reifier call it, nothing else is
    watched yet. *)
Definition reified_added : result (option Z) :=
  add_at_least (x_ 9) [x_ 1; x_ 2; x_ 3] 2 false empty_solver.

Definition reified_state : ba_solver :=
  match reified_added with Ret _ s => s | _ => empty_solver end.

Definition reified_card : constraint :=
  Card (mk_card (new_header 0 (x_ 9)) 2 [x_ 1; x_ 2; x_ 3]).

Lemma propagate_reified_witness :
  m_allocator reified_state 1 = Some reified_card /\
  propagate (neg (x_ 1)) 1 (decide (neg (x_ 1)) reified_state)
  = Ret true (decide (neg (x_ 1)) reified_state) /\
  propagate (neg (x_ 9)) 1 (decide (neg (x_ 9)) reified_state)
  = (init_watch 1 false ;; ret true) (decide (neg (x_ 9)) reified_state).
Proof.
  split; [reflexivity|]. split.
  - apply (propagate_reified (decide (neg (x_ 1)) reified_state) (neg (x_ 1)) 1 reified_card).
    + reflexivity.
    + discriminate.
    + discriminate.
    + simpl. lia.
  - apply (propagate_reified (decide (neg (x_ 9)) reified_state) (neg (x_ 9)) 1 reified_card).
    + reflexivity.
    + discriminate.
    + reflexivity.
Defined.

(** ** End-to-end scenario 1: cardinality propagation *)

Definition xs4 : list literal := [x_ 1; x_ 2; x_ 3; x_ 4].

(** [x1 + x2 + x3 + x4 >= k] is added, unreified, at the base level of a
    fresh solver: [add_constraint] runs [init_watch] on it, and its address
    is [1]. *)
Definition add_card4 {E : externals} (k : Z) : result (option Z) :=
  add_at_least null_literal xs4 k false empty_solver.

Definition card_body (s : ba_solver) : list literal :=
  match m_allocator s 1 with Some (Card c) => card_lits c | _ => [] end.

(** The core assigns [l] and visits the watch entry of the constraint. *)
Definition assign_and_visit {E : externals} (l : literal) (s : ba_solver) : result bool :=
  core_propagate l 1 (decide l s).

(** The scenario in the words of the specification: with threshold [3],
    [x1 = false] propagates nothing and leaves [{x1, x2, x3, x4}] watched
    with a non-false prefix of size 3; then [x2 = false] propagates
    [x3 = true] and [x4 = true]. *)
Definition card_scenario_as_stated {E : externals} : Prop :=
  exists s0 keep s2,
    add_card4 3 = Ret (Some 1) s0 /\
    assign_and_visit (neg (x_ 1)) s0 = Ret keep s2 /\
    propagated_since (decide (neg (x_ 1)) s0) s2 = [] /\
    watched_among s2 1 xs4 = xs4 /\
    forallb (fun l => negb (lbool_eqb (value s2 l) l_false)) (firstn 3 (card_body s2)) = true /\
    exists keep' s4,
      assign_and_visit (neg (x_ 2)) s2 = Ret keep' s4 /\
      Permutation (propagated_since (decide (neg (x_ 2)) s2) s4) [x_ 3; x_ 4].

(** C1, as stated, fails: with threshold [3] the assignment [x1 = false]
    does propagate. *)
Lemma card_scenario_counterexample : ~ @card_scenario_as_stated reference_externals.
Proof.
  intros (s0 & keep & s2 & H0 & H1 & H2 & _).
  vm_compute in H0. injection H0 as <-.
  vm_compute in H1. injection H1 as <- <-.
  vm_compute in H2. discriminate H2.
Qed.

(** C1, amended: for [x1 + x2 + x3 + x4 >= 3], all variables unassigned,
    [init_watch] watches all four literals; assigning [x1 = false] makes
    [add_assign] propagate [x4], [x2] and [x3] (in this order) to true, the
    answer to the core being "keep watching", and leaves the constraint
    watching [{x1, x2, x3, x4}] with the body [x4 x2 x3 x1], whose prefix of
    size 3 is non-false; [x2] is then true, so no assignment [x2 = false]
    follows.  What the specification describes is the constraint with
    threshold [2]: [init_watch] watches [x1, x2, x3]; [x1 = false]
    propagates nothing, [x4] replaces [x1] among the watched literals
    (body [x4 x2 x3 x1], a non-false prefix of size 3); [x2 = false] then
    propagates [x4 = true] and [x3 = true]. *)
Theorem card_scenario {E : externals} :
  (exists s0 s2,
     add_card4 3 = Ret (Some 1) s0 /\
     watched_among s0 1 xs4 = xs4 /\
     assign_and_visit (neg (x_ 1)) s0 = Ret true s2 /\
     propagated_since (decide (neg (x_ 1)) s0) s2 = [x_ 4; x_ 2; x_ 3] /\
     map (value s2) xs4 = [l_false; l_true; l_true; l_true] /\
     card_body s2 = [x_ 4; x_ 2; x_ 3; x_ 1] /\
     watched_among s2 1 xs4 = xs4 /\
     inconsistent s2 = false) /\
  (exists t0 t2 t4,
     add_card4 2 = Ret (Some 1) t0 /\
     watched_among t0 1 xs4 = [x_ 1; x_ 2; x_ 3] /\
     assign_and_visit (neg (x_ 1)) t0 = Ret false t2 /\
     propagated_since (decide (neg (x_ 1)) t0) t2 = [] /\
     card_body t2 = [x_ 4; x_ 2; x_ 3; x_ 1] /\
     map (value t2) (card_body t2) = [l_undef; l_undef; l_undef; l_false] /\
     watched_among t2 1 xs4 = [x_ 2; x_ 3; x_ 4] /\
     assign_and_visit (neg (x_ 2)) t2 = Ret true t4 /\
     propagated_since (decide (neg (x_ 2)) t2) t4 = [x_ 4; x_ 3] /\
     map (value t4) xs4 = [l_false; l_false; l_true; l_true] /\
     inconsistent t4 = false).
Proof.
  split.
  - eexists. eexists.
    split; [vm_compute; reflexivity|].
    split; [vm_compute; reflexivity|].
    split; [vm_compute; reflexivity|].
    repeat split; vm_compute; reflexivity.
  - eexists. eexists. eexists.
    split; [vm_compute; reflexivity|].
    split; [vm_compute; reflexivity|].
    split; [vm_compute; reflexivity|].
    split; [vm_compute; reflexivity|].
    split; [vm_compute; reflexivity|].
    split; [vm_compute; reflexivity|].
    split; [vm_compute; reflexivity|].
    split; [vm_compute; reflexivity|].
    repeat split; vm_compute; reflexivity.
Qed.

(** ** End-to-end scenario 2: growth of the watched prefix of a pb *)

Definition ws5 : list wliteral :=
  [(5, x_ 1); (4, x_ 2); (3, x_ 3); (2, x_ 4); (1, x_ 5)].

(** [5 x1 + 4 x2 + 3 x3 + 2 x4 + 1 x5 >= 7] is added, unreified, at the
    base level of a fresh solver; its address is [1]. *)
Definition add_pb5 {E : externals} : result (option Z) :=
  add_pb_ge null_literal ws5 7 false empty_solver.

Definition pb_at_1 (s : ba_solver) : pb :=
  match m_allocator s 1 with
  | Some (Pb p) => p
  | _ => mk_pb (new_header 0 null_literal) 0 0 0 0 []
  end.

(** The watched prefix: the first [num_watch] terms. *)
Definition pb_watched (s : ba_solver) : list wliteral :=
  firstn (pb_num_watch (pb_at_1 s)) (pb_wlits (pb_at_1 s)).

(** The scenario in the words of the specification. *)
Definition pb_scenario_as_stated {E : externals} : Prop :=
  exists s0 keep s2,
    add_pb5 = Ret (Some 1) s0 /\
    pb_watched s0 = [(5, x_ 1); (4, x_ 2)] /\
    pb_slack (pb_at_1 s0) = 9 /\
    assign_and_visit (neg (x_ 1)) s0 = Ret keep s2 /\
    Permutation (filter (fun wl => negb (lbool_eqb (value s2 (snd wl)) l_false))
                        (pb_watched s2))
                [(4, x_ 2); (3, x_ 3)] /\
    pb_slack (pb_at_1 s2) = 7 /\
    propagated_since (decide (neg (x_ 1)) s0) s2 = [] /\
    exists keep' s4,
      assign_and_visit (neg (x_ 2)) s2 = Ret keep' s4 /\
      inconsistent s4 = true.

(** C2, as stated, fails: on [x1 = false] the code pulls [x3], [x4] and
    [x5], not [x3] alone, and propagates [x2]. *)
Lemma pb_scenario_counterexample : ~ @pb_scenario_as_stated reference_externals.
Proof.
  intros (s0 & keep & s2 & H0 & _ & _ & H1 & _ & H2 & _).
  vm_compute in H0. injection H0 as <-.
  vm_compute in H1. injection H1 as <- <-.
  vm_compute in H2. discriminate H2.
Qed.

(** C2, amended: for [5 x1 + 4 x2 + 3 x3 + 2 x4 + 1 x5 >= 7], all variables
    unassigned, [init_watch] watches exactly [5 x1, 4 x2] with slack 9.
    Assigning [x1 = false] makes [add_assign] pull [x3], [x4] and [x5] into
    the watched prefix (the scan goes on while [slack < k + a_max = 11];
    the slack becomes [4 + 3 + 2 + 1 = 10]), take [x1] out of it and
    propagate [x2 = true], answering [l_undef]; no assignment [x2 = false]
    follows.  When [x2] is false as well at the time the constraint is
    visited for [x1], that visit pulls [x3], [x4], [x5] and propagates
    nothing, and the visit for [x2] reports a conflict, the remaining total
    [3 + 2 + 1 = 6] being below the bound [7]. *)
Theorem pb_scenario {E : externals} :
  (exists s0 s2,
     add_pb5 = Ret (Some 1) s0 /\
     pb_watched s0 = [(5, x_ 1); (4, x_ 2)] /\
     pb_slack (pb_at_1 s0) = 9 /\
     watched_among s0 1 (map snd ws5) = [x_ 1; x_ 2] /\
     assign_and_visit (neg (x_ 1)) s0 = Ret false s2 /\
     pb_watched s2 = [(1, x_ 5); (4, x_ 2); (3, x_ 3); (2, x_ 4)] /\
     pb_wlits (pb_at_1 s2) = [(1, x_ 5); (4, x_ 2); (3, x_ 3); (2, x_ 4); (5, x_ 1)] /\
     pb_slack (pb_at_1 s2) = 10 /\
     watched_among s2 1 (map snd ws5) = [x_ 2; x_ 3; x_ 4; x_ 5] /\
     propagated_since (decide (neg (x_ 1)) s0) s2 = [x_ 2] /\
     inconsistent s2 = false /\
     let s1' := decide (neg (x_ 2)) (decide (neg (x_ 1)) s0) in
     exists s3 s4,
       core_propagate (neg (x_ 1)) 1 s1' = Ret false s3 /\
       pb_watched s3 = [(1, x_ 5); (4, x_ 2); (3, x_ 3); (2, x_ 4)] /\
       propagated_since s1' s3 = [] /\
       inconsistent s3 = false /\
       core_propagate (neg (x_ 2)) 1 s3 = Ret true s4 /\
       propagated_since s1' s4 = [] /\
       inconsistent s4 = true /\
       solver.m_conflict (m_solver s4) = EXT_JUSTIFICATION 1 /\
       solver.m_not_l (m_solver s4) = neg (x_ 2)).
Proof.
  eexists. eexists.
  split; [vm_compute; reflexivity|].
  split; [vm_compute; reflexivity|].
  split; [vm_compute; reflexivity|].
  split; [vm_compute; reflexivity|].
  split; [vm_compute; reflexivity|].
  split; [vm_compute; reflexivity|].
  split; [vm_compute; reflexivity|].
  split; [vm_compute; reflexivity|].
  split; [vm_compute; reflexivity|].
  split; [vm_compute; reflexivity|].
  split; [vm_compute; reflexivity|].
  cbv zeta. eexists. eexists.
  split; [vm_compute; reflexivity|].
  split; [vm_compute; reflexivity|].
  split; [vm_compute; reflexivity|].
  split; [vm_compute; reflexivity|].
  split; [vm_compute; reflexivity|].
  repeat split; vm_compute; reflexivity.
Qed.

(** ** Specifications of computations

    [spec P m Q]: started in a state satisfying [P], the computation [m]
    raises no exception and does not exhaust the model's loop bounds; when
    it returns, [Q] holds of the result and the final state.  Undefined
    behaviour and process exit remain possible outcomes. *)

Definition spec {A} (P : ba_solver -> Prop) (m : M A) (Q : A -> ba_solver -> Prop) : Prop :=
  forall s, P s ->
    match m s with
    | Ret a s' => Q a s'
    | Exit _ | Undefined => True
    | Throw _ _ | OutOfFuel => False
    end.

(** [inv I m]: [m] preserves the invariant [I]. *)
Definition inv {A} (I : ba_solver -> Prop) (m : M A) : Prop :=
  spec I m (fun _ => I).

Lemma spec_bind {A B} P (m : M A) (f : A -> M B) R Q :
  spec P m R -> (forall a, spec (R a) (f a) Q) -> spec P (bind m f) Q.
Proof.
  intros Hm Hf s HP. unfold bind. specialize (Hm s HP).
  destruct (m s) as [a s1| | | |]; auto. exact (Hf a s1 Hm).
Qed.

Lemma spec_weaken {A} (P P' : ba_solver -> Prop) (m : M A) (Q Q' : A -> ba_solver -> Prop) :
  spec P' m Q' -> (forall s, P s -> P' s) -> (forall a s, Q' a s -> Q a s) ->
  spec P m Q.
Proof.
  intros Hm HP HQ s Hs. specialize (Hm s (HP s Hs)).
  destruct (m s); auto.
Qed.

Lemma spec_ret {A} (P : ba_solver -> Prop) (a : A) (Q : A -> ba_solver -> Prop) :
  (forall s, P s -> Q a s) -> spec P (ret a) Q.
Proof. intros H s HP. exact (H s HP). Qed.

Lemma spec_gets {A} (P : ba_solver -> Prop) (f : ba_solver -> A) (Q : A -> ba_solver -> Prop) :
  (forall s, P s -> Q (f s) s) -> spec P (gets f) Q.
Proof. intros H s HP. exact (H s HP). Qed.

Lemma spec_modify (P : ba_solver -> Prop) f (Q : unit -> ba_solver -> Prop) :
  (forall s, P s -> Q tt (f s)) -> spec P (modify f) Q.
Proof. intros H s HP. exact (H s HP). Qed.

Lemma spec_undefined {A} P (Q : A -> ba_solver -> Prop) : spec P undefined Q.
Proof. intros s _. exact I. Qed.

Lemma spec_exit {A} P c (Q : A -> ba_solver -> Prop) : spec P (exit_ c) Q.
Proof. intros s _. exact I. Qed.

Lemma spec_pre {A} (P : ba_solver -> Prop) (m : M A) Q :
  (forall s, P s -> spec (fun s' => s' = s) m Q) -> spec P m Q.
Proof. intros H s HP. exact (H s HP s eq_refl). Qed.

Lemma inv_bind {A B} I (m : M A) (f : A -> M B) :
  inv I m -> (forall a, inv I (f a)) -> inv I (bind m f).
Proof. intros Hm Hf. eapply spec_bind; [exact Hm | exact Hf]. Qed.

Lemma inv_ret {A} I (a : A) : inv I (ret a).
Proof. apply spec_ret. auto. Qed.

Lemma inv_gets {A} I (f : ba_solver -> A) : inv I (gets f).
Proof. apply spec_gets. auto. Qed.

Lemma inv_undefined {A} I : inv I (@undefined A).
Proof. apply spec_undefined. Qed.

Lemma inv_exit {A} I c : inv I (@exit_ A c).
Proof. apply spec_exit. Qed.

Lemma inv_modify I f : (forall s, I s -> I (f s)) -> inv I (modify f).
Proof. intros H. apply spec_modify. exact H. Qed.

Lemma inv_when I b m : inv I m -> inv I (when b m).
Proof. intros H. destruct b; simpl; [exact H | apply inv_ret]. Qed.

Lemma inv_for_each {A} I (l : list A) (f : A -> M unit) :
  (forall x, inv I (f x)) -> inv I (for_each l f).
Proof.
  intros H. induction l as [|x l IH]; simpl.
  - apply inv_ret.
  - apply inv_bind; auto.
Qed.

Lemma inv_at {A} I (l : list A) i : inv I (at_ l i).
Proof.
  unfold at_. destruct (_ && _); [|apply inv_undefined].
  destruct (nth_error _ _); [apply inv_ret | apply inv_undefined].
Qed.

(** The result of a computation that reads the state only. *)
Lemma spec_bind_gets {A B} P (g : ba_solver -> A) (f : A -> M B) Q :
  (forall s0, P s0 -> spec (fun s => s = s0) (f (g s0)) Q) ->
  spec P (bind (gets g) f) Q.
Proof. intros H s HP. exact (H s HP s eq_refl). Qed.

Create HintDb inv discriminated.

#[export] Hint Resolve inv_ret inv_gets inv_undefined inv_exit inv_at : inv.

(** Walks through a computation: binds are split, tests and matches on
    values are analysed by cases, leaves are closed from the hint
    database. *)
Ltac inv_step :=
  match goal with
  | |- inv _ (bind _ _) => apply inv_bind; [| intros ?]
  | |- inv _ (when _ _) => apply inv_when
  | |- inv _ (for_each _ _) => apply inv_for_each; intros ?
  | |- inv _ (if ?b then _ else _) => destruct b
  | |- inv _ (match ?x with _ => _ end) => destruct x
  | |- inv _ (let '(_, _) := ?x in _) => destruct x
  | |- inv _ _ => solve [eauto with inv]
  end.

Ltac inv_auto := repeat inv_step.

(** ** Propagation leaves the resolver's flags alone

    Adding a constraint and initialising its watches preserve every
    property of the state that depends only on the overflow flag, its
    ghost, the debug flag and the mark counter; in particular (for the
    trivial property) they raise no exception. *)

Definition flags_det (I : ba_solver -> Prop) : Prop :=
  forall s s',
    m_overflow s' = m_overflow s ->
    overflow_latched s' = overflow_latched s ->
    debug_conflict s' = debug_conflict s ->
    m_num_marks s' = m_num_marks s ->
    I s -> I s'.

Lemma inv_modify_flags I f :
  flags_det I ->
  (forall s, m_overflow (f s) = m_overflow s /\
             overflow_latched (f s) = overflow_latched s /\
             debug_conflict (f s) = debug_conflict s /\
             m_num_marks (f s) = m_num_marks s) ->
  inv I (modify f).
Proof.
  intros HI Hf. apply inv_modify. intros s Hs.
  destruct (Hf s) as (H1 & H2 & H3 & H4). exact (HI s (f s) H1 H2 H3 H4 Hs).
Qed.

Ltac flags_leaf :=
  apply inv_modify_flags; [assumption | intros; repeat split; reflexivity].

Section Propagation.
Context {E : externals}.
Context (I : ba_solver -> Prop) (HI : flags_det I).

Lemma inv_s_modify g : inv I (s_modify g).
Proof. unfold s_modify. flags_leaf. Qed.

Lemma inv_put_constraint idx c : inv I (put_constraint idx c).
Proof. unfold put_constraint. flags_leaf. Qed.

Hint Resolve inv_s_modify inv_put_constraint : inv.

Lemma inv_index2constraint idx : inv I (index2constraint idx).
Proof. unfold index2constraint. inv_auto. Qed.
Hint Resolve inv_index2constraint : inv.

Lemma inv_to_card idx : inv I (to_card idx).
Proof. unfold to_card. inv_auto. Qed.

Lemma inv_to_pb idx : inv I (to_pb idx).
Proof. unfold to_pb. inv_auto. Qed.

Lemma inv_to_xor idx : inv I (to_xor idx).
Proof. unfold to_xor. inv_auto. Qed.
Hint Resolve inv_to_card inv_to_pb inv_to_xor : inv.

Lemma inv_card_at idx i : inv I (card_at idx i).
Proof. unfold card_at. inv_auto. Qed.

Lemma inv_pb_at idx i : inv I (pb_at idx i).
Proof. unfold pb_at. inv_auto. Qed.

Lemma inv_xor_at idx i : inv I (xor_at idx i).
Proof. unfold xor_at. inv_auto. Qed.

Lemma inv_card_swap idx i j : inv I (card_swap idx i j).
Proof. unfold card_swap. inv_auto. Qed.

Lemma inv_pb_swap idx i j : inv I (pb_swap idx i j).
Proof. unfold pb_swap. inv_auto. Qed.

Lemma inv_xor_swap idx i j : inv I (xor_swap idx i j).
Proof. unfold xor_swap. inv_auto. Qed.

Lemma inv_set_slack idx x : inv I (set_slack idx x).
Proof. unfold set_slack. inv_auto. Qed.

Lemma inv_set_num_watch idx x : inv I (set_num_watch idx x).
Proof. unfold set_num_watch. inv_auto. Qed.

Lemma inv_set_glue idx g : inv I (set_glue idx g).
Proof. unfold set_glue. inv_auto. Qed.

Lemma inv_watch_literal l idx : inv I (watch_literal l idx).
Proof. unfold watch_literal. inv_auto. Qed.

Lemma inv_unwatch_literal l idx : inv I (unwatch_literal l idx).
Proof. unfold unwatch_literal. inv_auto. Qed.

Hint Resolve inv_card_at inv_pb_at inv_xor_at inv_card_swap inv_pb_swap inv_xor_swap
  inv_set_slack inv_set_num_watch inv_set_glue inv_watch_literal inv_unwatch_literal : inv.

Lemma inv_set_conflict idx l : inv I (set_conflict idx l).
Proof. unfold set_conflict. inv_auto. Qed.
Hint Resolve inv_set_conflict : inv.

Lemma inv_assign idx l : inv I (assign idx l).
Proof. unfold assign. inv_auto. flags_leaf. Qed.
Hint Resolve inv_assign : inv.

Lemma inv_UNREACHABLE : inv I UNREACHABLE.
Proof. unfold UNREACHABLE. inv_auto. Qed.
Hint Resolve inv_UNREACHABLE : inv.

Lemma inv_clear_watch_card idx : inv I (clear_watch_card idx).
Proof. unfold clear_watch_card. inv_auto. Qed.

Lemma inv_init_watch_card_partition idx ix j :
  inv I (init_watch_card_partition idx ix j).
Proof. revert j. induction ix as [|i ix IH]; intros j; simpl; inv_auto. Qed.

Lemma inv_init_watch_card_alit idx j ix alit :
  inv I (init_watch_card_alit idx j ix alit).
Proof. revert alit. induction ix as [|i ix IH]; intros alit; simpl; inv_auto. Qed.

Hint Resolve inv_clear_watch_card inv_init_watch_card_partition
  inv_init_watch_card_alit : inv.

Lemma inv_init_watch_card idx is_true : inv I (init_watch_card idx is_true).
Proof. unfold init_watch_card. inv_auto. Qed.

Lemma inv_clear_watch_pb idx : inv I (clear_watch_pb idx).
Proof. unfold clear_watch_pb. inv_auto. Qed.

Lemma inv_init_watch_pb_partition idx bound ix st :
  inv I (init_watch_pb_partition idx bound ix st).
Proof. revert st. induction ix as [|i ix IH]; intros st; simpl; inv_auto. Qed.

Lemma inv_init_watch_pb_conflict_lit idx ix l :
  inv I (init_watch_pb_conflict_lit idx ix l).
Proof. revert l. induction ix as [|i ix IH]; intros l; simpl; inv_auto. Qed.

Hint Resolve inv_clear_watch_pb inv_init_watch_pb_partition
  inv_init_watch_pb_conflict_lit : inv.

Lemma inv_init_watch_pb idx is_true : inv I (init_watch_pb idx is_true).
Proof. unfold init_watch_pb. inv_auto. Qed.

Lemma inv_clear_watch_xor idx : inv I (clear_watch_xor idx).
Proof. unfold clear_watch_xor. inv_auto. Qed.

Lemma inv_parity idx offset : inv I (parity idx offset).
Proof. unfold parity. inv_auto. Qed.

Lemma inv_init_watch_xor_partition idx ix j :
  inv I (init_watch_xor_partition idx ix j).
Proof. revert j. induction ix as [|i ix IH]; intros j; simpl; inv_auto. Qed.

Lemma inv_init_watch_xor_max_lvl idx ix j l :
  inv I (init_watch_xor_max_lvl idx ix j l).
Proof. revert j l. induction ix as [|i ix IH]; intros j l; simpl; inv_auto. Qed.

Hint Resolve inv_clear_watch_xor inv_parity inv_init_watch_xor_partition
  inv_init_watch_xor_max_lvl : inv.

Lemma inv_init_watch_xor idx is_true : inv I (init_watch_xor idx is_true).
Proof. unfold init_watch_xor. inv_auto. Qed.

Hint Resolve inv_init_watch_card inv_init_watch_pb inv_init_watch_xor : inv.

Lemma inv_init_watch idx is_true : inv I (init_watch idx is_true).
Proof. unfold init_watch. inv_auto. Qed.
Hint Resolve inv_init_watch : inv.

Lemma inv_add_constraint idx : inv I (add_constraint idx).
Proof. unfold add_constraint. inv_auto; flags_leaf. Qed.

Lemma inv_allocate : inv I allocate.
Proof. unfold allocate. inv_auto. flags_leaf. Qed.

Lemma inv_next_id : inv I next_id.
Proof. unfold next_id. inv_auto. flags_leaf. Qed.

Hint Resolve inv_add_constraint inv_allocate inv_next_id : inv.

Lemma inv_add_at_least l lits k lrn : inv I (add_at_least l lits k lrn).
Proof. unfold add_at_least. inv_auto. Qed.

End Propagation.

(** ** [add_pb_ge] and the exception of [update_max_sum] *)

(** The sum of the coefficients after clipping to [k], as an integer. *)
Definition clipped_sum (k : Z) (ws : list wliteral) : Z :=
  fold_right (fun wl acc => Z.min k (fst wl) + acc) 0 ws.

(** [add_pb_ge] builds a pb constraint (rather than returning null or
    delegating to [add_at_least]). *)
Definition builds_pb (l : literal) (ws : list wliteral) (k : Z) : bool :=
  negb ((k =? 0) && is_null l) &&
  negb (forallb (fun wl : wliteral => fst wl =? 1) ws || (k =? 1)).

Lemma clipped_sum_nonneg k ws :
  is_u32 k -> Forall (fun wl : wliteral => is_u32 (fst wl)) ws -> 0 <= clipped_sum k ws.
Proof.
  unfold is_u32. intros Hk Hws. induction Hws as [|wl ws Hw _ IH]; simpl; lia.
Qed.

Lemma update_max_sum_loop_None k ws m :
  is_u32 k -> Forall (fun wl : wliteral => is_u32 (fst wl)) ws -> is_u32 m ->
  (update_max_sum_loop k ws m = None <-> UINT_MAX < m + clipped_sum k ws).
Proof.
  intros Hk Hws. revert m.
  induction Hws as [|[a l] ws Hw Hws IH]; intros m Hm; simpl.
  - unfold is_u32 in Hm. split; [discriminate | lia].
  - simpl in Hw. pose proof (clipped_sum_nonneg k ws Hk Hws) as Hnn.
    unfold is_u32, UINT_MAX in *.
    destruct (Z_le_gt_dec (m + Z.min k a) 4294967295) as [Hle|Hgt].
    + assert (Hu : u32 (m + Z.min k a) = m + Z.min k a).
      { apply u32_id. unfold is_u32, UINT_MAX. lia. }
      rewrite Hu. destruct (Z.ltb_spec (m + Z.min k a) m) as [Hlt|_]; [lia|].
      specialize (IH (m + Z.min k a) ltac:(lia)).
      destruct (update_max_sum_loop k ws (m + Z.min k a)) as [[r m']|].
      * split; [discriminate|]. intros H.
        assert (Hc : (Some (r, m') : option (list wliteral * Z)) = None)
          by (apply IH; lia).
        discriminate Hc.
      * split; [|reflexivity]. intros _. apply proj1 in IH. specialize (IH eq_refl). lia.
    + assert (Hu : u32 (m + Z.min k a) = m + Z.min k a - 4294967296).
      { unfold u32. symmetry. apply (Zmod_unique _ _ 1); lia. }
      rewrite Hu. destruct (Z.ltb_spec (m + Z.min k a - 4294967296) m) as [_|Hge]; [|lia].
      split; [lia | reflexivity].
Qed.

(** The claim in the words of the specification: no call of [add_pb_ge]
    raises an exception. *)
Definition add_pb_ge_never_raises_as_stated {E : externals} : Prop :=
  forall s l ws k lrn msg s', add_pb_ge l ws k lrn s <> Throw msg s'.

Definition overflowing_wlits : list wliteral := [(UINT_MAX, x_ 1); (UINT_MAX, x_ 2)].

(** C5, as stated, fails: two coefficients of [2^32 - 1] under the
    threshold [2^32 - 1] make the constructor of [pb] throw. *)
Lemma add_pb_ge_counterexample : ~ @add_pb_ge_never_raises_as_stated reference_externals.
Proof.
  intros H.
  eapply (H empty_solver null_literal overflowing_wlits UINT_MAX false).
  vm_compute. reflexivity.
Qed.

(** C5, amended: [add_pb_ge] reports its result in-band as a constraint
    handle or null, except that it raises the exception "addition of pb
    coefficients overflows" exactly when it builds a pb constraint (the
    call is not answered by null and not delegated to [add_at_least]) and
    the sum of the coefficients clipped to the threshold exceeds the
    unsigned 32-bit range.  It raises nothing else. *)
Theorem add_pb_ge_exceptions {E : externals} (s : ba_solver) (l : literal)
  (ws : list wliteral) (k : Z) (lrn : bool) :
  is_u32 k -> Forall (fun wl : wliteral => is_u32 (fst wl)) ws ->
  match add_pb_ge l ws k lrn s with
  | Throw msg _ =>
      msg = "addition of pb coefficients overflows"%string /\
      builds_pb l ws k = true /\ UINT_MAX < clipped_sum k ws
  | OutOfFuel => False
  | Ret _ _ | Exit _ | Undefined =>
      ~ (builds_pb l ws k = true /\ UINT_MAX < clipped_sum k ws)
  end.
Proof.
  intros Hk Hws.
  assert (HT : flags_det (fun _ => True)) by (intros ? ? ? ? ? ? ?; exact I).
  unfold add_pb_ge, builds_pb. cbv zeta.
  destruct ((k =? 0) && is_null l); cbn [negb andb].
  { cbv [ret]. intros [? _]; discriminate. }
  destruct (forallb _ ws || (k =? 1)); cbn [negb].
  { pose proof (inv_add_at_least _ HT l (map snd ws) k lrn s I) as H.
    destruct (add_at_least l (map snd ws) k lrn s); try contradiction;
      intros [? _]; discriminate. }
  erewrite bind_eq by reflexivity. erewrite bind_eq by reflexivity.
  unfold update_max_sum. cbn [pb_k pb_wlits].
  assert (H0 : is_u32 0) by (unfold is_u32, UINT_MAX; lia).
  pose proof (update_max_sum_loop_None k ws 0 Hk Hws H0) as HN.
  rewrite Z.add_0_l in HN.
  destruct (update_max_sum_loop k ws 0) as [[ws' m]|].
  - assert (Hno : ~ UINT_MAX < clipped_sum k ws).
    { intros Hc. apply HN in Hc. discriminate Hc. }
    match goal with
    | |- match ?m ?s0 with _ => _ end =>
        assert (Hs : inv (fun _ => True) m); [|specialize (Hs s0 I);
          destruct (m s0); try contradiction; intros [_ ?]; contradiction]
    end.
    apply inv_bind; [apply inv_put_constraint; exact HT | intros _].
    apply inv_bind; [apply inv_add_constraint; exact HT | intros _].
    apply inv_ret.
  - cbv [throw]. repeat split.
    apply HN. reflexivity.
Qed.

Lemma add_pb_ge_exceptions_witness :
  is_u32 UINT_MAX /\
  Forall (fun wl : wliteral => is_u32 (fst wl)) overflowing_wlits /\
  builds_pb null_literal overflowing_wlits UINT_MAX = true /\
  UINT_MAX < clipped_sum UINT_MAX overflowing_wlits /\
  exists s', add_pb_ge null_literal overflowing_wlits UINT_MAX false empty_solver
             = Throw "addition of pb coefficients overflows" s'.
Proof.
  assert (Hk : is_u32 UINT_MAX) by (unfold is_u32, UINT_MAX; lia).
  assert (Hws : Forall (fun wl : wliteral => is_u32 (fst wl)) overflowing_wlits).
  { repeat constructor; simpl; unfold UINT_MAX; lia. }
  pose proof (add_pb_ge_exceptions empty_solver null_literal overflowing_wlits
                UINT_MAX false Hk Hws) as H.
  destruct (add_pb_ge null_literal overflowing_wlits UINT_MAX false empty_solver)
    as [r s'| msg s'| | |] eqn:Heq; try (vm_compute in Heq; discriminate Heq).
  destruct H as (-> & Hb & Hc).
  split; [exact Hk|]. split; [exact Hws|]. split; [exact Hb|]. split; [exact Hc|].
  exists s'. reflexivity.
Defined.

(** ** [inc_coeff] *)

(** The unclipped sum [coeff1] that [inc_coeff l offset] computes. *)
Definition unclipped_sum (s : ba_solver) (l : literal) (offset : Z) : Z :=
  (if sign l then - offset else offset) + m_coeffs s (var l).

Definition in_i32 (z : Z) : Prop := INT_MIN <= z <= INT_MAX.

(** The claim in the words of the specification: after every call the
    stored coefficient is at most the bound in absolute value, having been
    clipped to [+bound] or [-bound] according to its sign, and the overflow
    flag is latched when the sum leaves the [i32] range. *)
Definition inc_coeff_as_stated : Prop :=
  forall s l offset s',
    is_u32 offset -> is_u32 (m_bound s) ->
    inc_coeff l offset s = Ret tt s' ->
    let coeff1 := unclipped_sum s l offset in
    Z.abs (m_coeffs s' (var l)) <= m_bound s' /\
    (m_bound s' < coeff1 -> m_coeffs s' (var l) = m_bound s') /\
    (coeff1 < - m_bound s' -> m_coeffs s' (var l) = - m_bound s') /\
    (~ in_i32 coeff1 -> m_overflow s' = true).

(** A resolvent with bound [3] and no term. *)
Definition bound3 : ba_solver := set_m_bound 3 empty_solver.

(** C4, as stated, fails: when the sum leaves the [i32] range the call
    returns at once and the unclipped sum stays in the coefficient table. *)
Lemma inc_coeff_counterexample : ~ inc_coeff_as_stated.
Proof.
  intros H.
  destruct (H bound3 (x_ 1) 2147483648
              (set_overflow_latched true
                 (set_m_overflow true
                    (set_m_coeffs (solver.upd (m_coeffs bound3) 1 2147483648)
                       (set_m_active_vars [1] bound3)))))
    as (Habs & _).
  - unfold is_u32, UINT_MAX. lia.
  - unfold is_u32, UINT_MAX. simpl. lia.
  - reflexivity.
  - vm_compute in Habs. apply Habs. reflexivity.
Qed.

Lemma inc_bound_spec i s :
  is_u32 (m_bound s) ->
  exists s', inc_bound i s = Ret tt s' /\
    is_u32 (m_bound s') /\
    m_coeffs s' = m_coeffs s /\
    (m_overflow s = true -> m_overflow s' = true).
Proof.
  intros Hb. unfold inc_bound, latch_overflow. unfold is_u32, UINT_MAX in *.
  destruct ((i <? INT_MIN) || (INT_MAX <? i)).
  { eexists. split; [reflexivity|]. simpl. auto. }
  cbv [bind gets].
  destruct (Z.ltb_spec (m_bound s + i) 0).
  { eexists. split; [reflexivity|]. simpl. auto. }
  destruct (Z.ltb_spec 4294967295 (m_bound s + i)).
  { eexists. split; [reflexivity|]. simpl. auto. }
  eexists. split; [reflexivity|]. simpl. repeat split; auto; lia.
Qed.

Lemma upd_same {A} (f : Z -> A) k x : solver.upd f k x k = x.
Proof. unfold solver.upd. now rewrite Z.eqb_refl. Qed.

Lemma upd_other {A} (f : Z -> A) k x k' : k' <> k -> solver.upd f k x k' = f k'.
Proof. unfold solver.upd. intros H. apply Z.eqb_neq in H. now rewrite H. Qed.

(** C4, amended: a call of [inc_coeff] whose unclipped sum stays in the
    [i32] range leaves the stored coefficient of the variable with absolute
    value at most the current bound: a sum above the bound is clipped to
    [+bound], a sum within the bound is stored as it is.  A call whose
    unclipped sum lies outside the [i32] range latches the overflow flag,
    stores the unclipped sum and changes neither the bound nor any other
    coefficient.  The flag, once set, stays set. *)
Theorem inc_coeff_clips (s : ba_solver) (l : literal) (offset : Z) :
  is_u32 offset -> is_u32 (m_bound s) ->
  in_int64 (unclipped_sum s l offset) = true ->
  exists s',
    inc_coeff l offset s = Ret tt s' /\
    is_u32 (m_bound s') /\
    (in_i32 (unclipped_sum s l offset) ->
       Z.abs (m_coeffs s' (var l)) <= m_bound s' /\
       (m_bound s' < unclipped_sum s l offset -> m_coeffs s' (var l) = m_bound s') /\
       (Z.abs (unclipped_sum s l offset) <= m_bound s' ->
        m_coeffs s' (var l) = unclipped_sum s l offset)) /\
    (~ in_i32 (unclipped_sum s l offset) ->
       m_overflow s' = true /\
       m_coeffs s' (var l) = unclipped_sum s l offset /\
       m_bound s' = m_bound s) /\
    (m_overflow s = true -> m_overflow s' = true) /\
    (forall v, v <> var l -> m_coeffs s' v = m_coeffs s v).
Proof.
  intros Ho Hb H64. unfold inc_coeff, unclipped_sum, in_i32 in *.
  set (inc := if sign l then - offset else offset) in *.
  set (coeff0 := m_coeffs s (var l)) in *.
  cbv [bind gets]. fold coeff0.
  set (s1 := match when (coeff0 =? 0)
                     (modify (fun s0 => set_m_active_vars (m_active_vars s0 ++ [var l]) s0)) s
             with Ret _ s1 => s1 | _ => s end).
  assert (Hw : when (coeff0 =? 0)
                 (modify (fun s0 => set_m_active_vars (m_active_vars s0 ++ [var l]) s0)) s
               = Ret tt s1).
  { unfold s1. destruct (coeff0 =? 0); reflexivity. }
  assert (Hs1 : m_bound s1 = m_bound s /\ m_coeffs s1 = m_coeffs s /\
                m_overflow s1 = m_overflow s).
  { unfold s1. destruct (coeff0 =? 0); repeat split; reflexivity. }
  destruct Hs1 as (Hb1 & Hc1 & Ho1).
  rewrite Hw. rewrite H64. cbn [negb]. unfold set_coeff at 1. cbv [modify].
  set (s2 := set_m_coeffs (solver.upd (m_coeffs s1) (var l) (inc + coeff0)) s1).
  assert (Hb2 : m_bound s2 = m_bound s) by (rewrite <- Hb1; reflexivity).
  assert (Hc2 : m_coeffs s2 = solver.upd (m_coeffs s) (var l) (inc + coeff0))
    by (rewrite <- Hc1; reflexivity).
  assert (Ho2 : m_overflow s2 = m_overflow s) by (rewrite <- Ho1; reflexivity).
  destruct (Z.ltb_spec INT_MAX (inc + coeff0)) as [Hhi|Hhi]; cbn [orb].
  { eexists. split; [reflexivity|]. cbn. rewrite Hb1, Hc1.
    split; [exact Hb|]. split; [intros []; lia|].
    split; [intros _; rewrite upd_same; auto|].
    split; [auto|]. intros v Hv. now rewrite upd_other. }
  destruct (Z.ltb_spec (inc + coeff0) INT_MIN) as [Hlo|Hlo].
  { eexists. split; [reflexivity|]. cbn. rewrite Hb1, Hc1.
    split; [exact Hb|]. split; [intros []; lia|].
    split; [intros _; rewrite upd_same; auto|].
    split; [auto|]. intros v Hv. now rewrite upd_other. }
  (* the sum is in the i32 range: the bound is adjusted, then the
     coefficient is clipped *)
  set (adj := if (0 <? coeff0) && (inc <? 0) then inc_bound (Z.max 0 (inc + coeff0) - coeff0)
              else if (coeff0 <? 0) && (0 <? inc)
                   then inc_bound (coeff0 - Z.min 0 (inc + coeff0))
                   else ret tt).
  assert (Hadj : exists s3, adj s2 = Ret tt s3 /\ is_u32 (m_bound s3) /\
                   m_coeffs s3 = m_coeffs s2 /\
                   (m_overflow s2 = true -> m_overflow s3 = true)).
  { unfold adj. destruct ((0 <? coeff0) && (inc <? 0)).
    - apply inc_bound_spec. now rewrite Hb2.
    - destruct ((coeff0 <? 0) && (0 <? inc)).
      + apply inc_bound_spec. now rewrite Hb2.
      + exists s2. rewrite Hb2. split; [reflexivity|]. split; [exact Hb|]. split; [reflexivity|auto]. }
  destruct Hadj as (s3 & Hadj & Hb3 & Hc3 & Ho3).
  rewrite Hadj. unfold set_coeff.
  unfold is_u32, UINT_MAX in Hb3.
  destruct (Z.ltb_spec (m_bound s3) (inc + coeff0)) as [Hclip|Hclip].
  { eexists. split; [reflexivity|]. cbn.
    split; [exact Hb3|]. rewrite upd_same.
    split; [intros _; repeat split; try lia|].
    split; [intros Hn; exfalso; apply Hn; lia|].
    split; [rewrite <- Ho2; exact Ho3|].
    intros v Hv. rewrite upd_other by exact Hv. rewrite Hc3, Hc2. now rewrite upd_other. }
  destruct (Z.ltb_spec (inc + coeff0) 0) as [Hneg|Hneg]; cbn [andb].
  - destruct (Z.ltb_spec (m_bound s3) (- (inc + coeff0))) as [Hclip'|Hclip'].
    + eexists. split; [reflexivity|]. cbn.
      split; [exact Hb3|]. rewrite upd_same.
      split; [intros _; repeat split; try lia|].
      split; [intros Hn; exfalso; apply Hn; lia|].
      split; [rewrite <- Ho2; exact Ho3|].
      intros v Hv. rewrite upd_other by exact Hv. rewrite Hc3, Hc2. now rewrite upd_other.
    + eexists. split; [reflexivity|]. cbn [ret].
      split; [exact Hb3|]. rewrite Hc3, Hc2, upd_same.
      split; [intros _; repeat split; try lia|].
      split; [intros Hn; exfalso; apply Hn; lia|].
      split; [rewrite <- Ho2; exact Ho3|].
      intros v Hv. now rewrite upd_other.
  - eexists. split; [reflexivity|]. cbn [ret].
    split; [exact Hb3|]. rewrite Hc3, Hc2, upd_same.
    split; [intros _; repeat split; try lia|].
    split; [intros Hn; exfalso; apply Hn; lia|].
    split; [rewrite <- Ho2; exact Ho3|].
    intros v Hv. now rewrite upd_other.
Qed.

(** A resolvent [3 x1 + ... >= 5]. *)
Definition bound5_coeff3 : ba_solver :=
  set_m_coeffs (solver.upd (fun _ => 0) 1 3) (set_m_active_vars [1] (set_m_bound 5 empty_solver)).

Lemma inc_coeff_clips_witness :
  exists s',
    inc_coeff (x_ 1) 4 bound5_coeff3 = Ret tt s' /\
    unclipped_sum bound5_coeff3 (x_ 1) 4 = 7 /\
    m_bound s' = 5 /\ m_coeffs s' 1 = 5 /\ m_overflow s' = false.
Proof.
  destruct (inc_coeff_clips bound5_coeff3 (x_ 1) 4) as (s' & Hr & _ & Hin & _).
  - unfold is_u32, UINT_MAX. lia.
  - unfold is_u32, UINT_MAX. simpl. lia.
  - reflexivity.
  - exists s'. split; [exact Hr|].
    vm_compute in Hr. injection Hr as <-. repeat split.
Defined.

(** The clipping assignment of [inc_coeff] for a negative sum stores
    [+bound]: with the resolvent [(not x1) >= 1], adding [not x1] once more
    turns the coefficient [-1] into [+1], the coefficient of [x1]. *)
Definition bound1_coeff_minus1 : ba_solver :=
  set_m_coeffs (solver.upd (fun _ => 0) 1 (-1))
    (set_m_active_vars [1] (set_m_bound 1 empty_solver)).

Example inc_coeff_negative_clip :
  exists s',
    inc_coeff (neg (x_ 1)) 1 bound1_coeff_minus1 = Ret tt s' /\
    unclipped_sum bound1_coeff_minus1 (neg (x_ 1)) 1 = -2 /\
    m_bound s' = 1 /\ m_coeffs s' 1 = 1.
Proof. eexists. split; [vm_compute; reflexivity|]. repeat split. Qed.

(** ** [cut] *)

(** *** The resolvent as an inequality over 0/1 assignments

    The resolvent is [sum |c_v| * l_v >= bound], the sum ranging over the
    distinct active variables, where [l_v] is the literal [v] when
    [c_v > 0] and [not v] when [c_v < 0]. *)

Fixpoint distinct (vs seen : list bool_var) : list bool_var :=
  match vs with
  | [] => []
  | v :: vs' =>
      if contains v seen then distinct vs' seen
      else v :: distinct vs' (v :: seen)
  end.

Definition term (rho : bool_var -> bool) (c : bool_var -> Z) (v : bool_var) : Z :=
  if (if c v <? 0 then negb (rho v) else rho v) then Z.abs (c v) else 0.

Definition sum_terms (rho : bool_var -> bool) (c : bool_var -> Z) (vs : list bool_var) : Z :=
  fold_right (fun v acc => term rho c v + acc) 0 vs.

Definition lhs (rho : bool_var -> bool) (s : ba_solver) : Z :=
  sum_terms rho (m_coeffs s) (distinct (m_active_vars s) []).

(** [rho] is a model of the resolvent held in [s]. *)
Definition models (rho : bool_var -> bool) (s : ba_solver) : Prop :=
  m_bound s <= lhs rho s.

(** A coefficient clipped to the bound, sign kept. *)
Definition saturate (b c : Z) : Z :=
  if b <? Z.abs c then (if 0 <? c then b else - b) else c.

(** The gcd of the saturated absolute coefficients of the active
    variables. *)
Definition saturated_gcd (s : ba_solver) : Z :=
  fold_right (fun v acc => Z.gcd (Z.min (m_bound s) (Z.abs (m_coeffs s v))) acc) 0
             (m_active_vars s).

(** The gcd of the absolute coefficients as they are. *)
Definition plain_gcd (s : ba_solver) : Z :=
  fold_right (fun v acc => Z.gcd (m_coeffs s v) acc) 0 (m_active_vars s).

Definition has_unit (s : ba_solver) : bool :=
  existsb (fun v => Z.abs (m_coeffs s v) =? 1) (m_active_vars s).

Definition coeffs_in_range (s : ba_solver) : Prop :=
  forall v, In v (m_active_vars s) -> - INT_MAX <= m_coeffs s v <= INT_MAX.

(** The claim in the words of the specification: [g] is the gcd of the
    nonzero absolute coefficients, and for [g >= 2] every coefficient is
    divided by [g] and the bound becomes the ceiling of [bound / g]. *)
Definition cut_as_stated : Prop :=
  forall s s',
    is_u32 (m_bound s) -> m_bound s <= INT_MAX -> coeffs_in_range s ->
    cut s = Ret tt s' ->
    has_unit s = false -> 2 <= plain_gcd s ->
    (forall v, In v (m_active_vars s) -> m_coeffs s' v * plain_gcd s = m_coeffs s v) /\
    m_bound s' = (m_bound s + plain_gcd s - 1) / plain_gcd s.

(** The resolvent [6 x1 + 4 x2 >= 4]. *)
Definition resolvent_6_4 : ba_solver :=
  set_m_coeffs (solver.upd (solver.upd (fun _ => 0) 1 6) 2 4)
    (set_m_active_vars [1; 2] (set_m_bound 4 empty_solver)).


(** *** Saturation keeps the models *)

Lemma term_nonneg rho c v : 0 <= term rho c v.
Proof. unfold term. destruct (if c v <? 0 then _ else _); lia. Qed.

Lemma sum_terms_nonneg rho c vs : 0 <= sum_terms rho c vs.
Proof.
  induction vs as [|v vs IH]; simpl; [lia|].
  pose proof (term_nonneg rho c v). lia.
Qed.

Lemma saturate_idem b c : 0 <= b -> saturate b (saturate b c) = saturate b c.
Proof.
  intros Hb. unfold saturate.
  destruct (Z.ltb_spec b (Z.abs c)) as [H|H].
  - destruct (Z.ltb_spec 0 c).
    + destruct (Z.ltb_spec b (Z.abs b)); [lia | reflexivity].
    + destruct (Z.ltb_spec b (Z.abs (- b))); [lia | reflexivity].
  - destruct (Z.ltb_spec b (Z.abs c)); [lia | reflexivity].
Qed.

Lemma saturate_abs b c : 0 <= b -> Z.abs (saturate b c) = Z.min b (Z.abs c).
Proof.
  intros Hb. unfold saturate.
  destruct (Z.ltb_spec b (Z.abs c)); [destruct (Z.ltb_spec 0 c)|]; lia.
Qed.

(** A term of the saturated resolvent is the term capped at the bound. *)
Lemma term_saturate rho c c' b v :
  0 <= b -> c' v = saturate b (c v) -> term rho c' v = Z.min b (term rho c v).
Proof.
  intros Hb Hc. unfold term. rewrite Hc. unfold saturate.
  destruct (Z.ltb_spec b (Z.abs (c v))) as [H|H].
  - destruct (Z.ltb_spec 0 (c v)) as [Hp|Hp].
    + destruct (Z.ltb_spec (c v) 0); [lia|].
      destruct (Z.ltb_spec b 0); [lia|].
      destruct (rho v); lia.
    + destruct (Z.ltb_spec (c v) 0); [|lia].
      destruct (Z.ltb_spec (- b) 0).
      * destruct (negb (rho v)); lia.
      * assert (b = 0) by lia. subst b. simpl.
        destruct (rho v); simpl; lia.
  - destruct (Z.ltb_spec (c v) 0); destruct (rho v); simpl; lia.
Qed.

(** Capping some of the terms at [b] does not change whether the sum
    reaches [b]. *)
Lemma sum_terms_capped rho c c' b vs :
  0 <= b ->
  (forall v, In v vs -> c' v = c v \/ c' v = saturate b (c v)) ->
  Z.min b (sum_terms rho c vs) <= sum_terms rho c' vs <= sum_terms rho c vs.
Proof.
  intros Hb. induction vs as [|v vs IH]; intros H; simpl; [lia|].
  assert (Ht : term rho c' v = term rho c v \/ term rho c' v = Z.min b (term rho c v)).
  { destruct (H v (or_introl eq_refl)) as [Hv|Hv].
    - left. unfold term. now rewrite Hv.
    - right. now apply term_saturate. }
  specialize (IH (fun w Hw => H w (or_intror Hw))).
  pose proof (term_nonneg rho c v). pose proof (sum_terms_nonneg rho c vs).
  lia.
Qed.

Lemma models_capped rho c c' b vs :
  0 <= b ->
  (forall v, In v vs -> c' v = c v \/ c' v = saturate b (c v)) ->
  (b <= sum_terms rho c' vs <-> b <= sum_terms rho c vs).
Proof.
  intros Hb H. pose proof (sum_terms_capped rho c c' b vs Hb H). lia.
Qed.

(** *** The loops of [cut] as functions of the coefficient table *)

Fixpoint cut_gcd_pure (b : Z) (vs : list bool_var) (g : Z) (c : bool_var -> Z)
  : Z * (bool_var -> Z) :=
  match vs with
  | [] => (g, c)
  | v :: vs' =>
      if g =? 1 then (g, c)
      else if Z.abs (c v) =? 0 then cut_gcd_pure b vs' g c
      else if b <? Z.abs (c v) then
        cut_gcd_pure b vs' (if g =? 0 then b else u_gcd g b)
                     (solver.upd c v (if 0 <? c v then b else - b))
      else cut_gcd_pure b vs' (if g =? 0 then Z.abs (c v) else u_gcd g (Z.abs (c v))) c
  end.

Lemma get_abs_coeff_in_range v s :
  - INT_MAX <= m_coeffs s v <= INT_MAX ->
  get_abs_coeff v s = Ret (Z.abs (m_coeffs s v)) s.
Proof.
  intros H. unfold get_abs_coeff, get_coeff. cbv [bind gets].
  unfold INT_MAX, INT_MIN, UINT_MAX in *.
  destruct (Z.ltb_spec (m_coeffs s v) (-2147483648 + 1)); [lia|].
  destruct (Z.ltb_spec 4294967295 (m_coeffs s v)); [lia|].
  reflexivity.
Qed.

Lemma cut_has_unit_run vs s :
  (forall v, In v vs -> - INT_MAX <= m_coeffs s v <= INT_MAX) ->
  cut_has_unit vs s = Ret (existsb (fun v => Z.abs (m_coeffs s v) =? 1) vs) s.
Proof.
  induction vs as [|v vs IH]; intros H; cbn [cut_has_unit existsb]; [reflexivity|].
  rewrite (bind_eq _ _ _ _ _ (get_abs_coeff_in_range v s (H v (or_introl eq_refl)))).
  rewrite (Z.eqb_sym 1).
  destruct (Z.abs (m_coeffs s v) =? 1); cbn [orb]; [reflexivity|].
  apply IH. intros w Hw. apply H. now right.
Qed.

Lemma cut_gcd_run vs : forall g s,
  0 <= m_bound s ->
  (forall v, In v vs -> - INT_MAX <= m_coeffs s v <= INT_MAX) ->
  cut_gcd vs g s =
  Ret (fst (cut_gcd_pure (m_bound s) vs g (m_coeffs s)))
      (set_m_coeffs (snd (cut_gcd_pure (m_bound s) vs g (m_coeffs s))) s).
Proof.
  induction vs as [|v vs IH]; intros g s Hb H; cbn [cut_gcd cut_gcd_pure].
  - destruct s; reflexivity.
  - destruct (g =? 1); [destruct s; reflexivity|].
    rewrite (bind_eq _ _ _ _ _ (get_abs_coeff_in_range v s (H v (or_introl eq_refl)))).
    destruct (Z.abs (m_coeffs s v) =? 0).
    { apply IH; auto. intros w Hw. apply H. now right. }
    cbv [bind gets]. unfold get_coeff.
    destruct (Z.ltb_spec (m_bound s) (Z.abs (m_coeffs s v))) as [Hclip|_].
    + unfold set_coeff. cbv [modify ret].
      rewrite IH; [reflexivity | exact Hb |].
      intros w Hw. cbn. unfold solver.upd.
      destruct (w =? v).
      * pose proof (H v (or_introl eq_refl)).
        unfold INT_MAX in *. destruct (0 <? m_coeffs s v); lia.
      * apply H. now right.
    + cbv [ret]. apply IH; auto. intros w Hw. apply H. now right.
Qed.

(** What the gcd loop leaves in the table, relative to the table [c0] it
    started from. *)
Lemma cut_gcd_pure_spec b c0 vs : 0 <= b -> forall g c,
  0 <= g ->
  (forall v, c v = c0 v \/ c v = saturate b (c0 v)) ->
  let r := cut_gcd_pure b vs g c in
  (forall v, snd r v = c0 v \/ snd r v = saturate b (c0 v)) /\
  (forall v, c v = saturate b (c0 v) -> snd r v = saturate b (c0 v)) /\
  (fst r <> 1 -> forall v, In v vs -> snd r v = saturate b (c0 v)) /\
  (forall v, ~ In v vs -> snd r v = c v) /\
  fst r = Z.gcd g (fold_right (fun v acc => Z.gcd (Z.min b (Z.abs (c0 v))) acc) 0 vs).
Proof.
  intros Hb. induction vs as [|v vs IH]; intros g c Hg Hc; cbn [cut_gcd_pure fold_right fst snd].
  - repeat split; auto.
    + intros _ v [].
    + rewrite Z.gcd_0_r. lia.
  - destruct (Z.eqb_spec g 1) as [->|Hg1].
    { cbn [fst snd]. repeat split; auto.
      - intros H; contradiction.
      - now rewrite Z.gcd_1_l. }
    assert (Hmin : Z.min b (Z.abs (c v)) = Z.min b (Z.abs (c0 v))).
    { destruct (Hc v) as [->| ->]; [reflexivity|].
      rewrite saturate_abs by exact Hb. lia. }
    assert (Hsat : saturate b (c v) = saturate b (c0 v)).
    { destruct (Hc v) as [->| ->]; [reflexivity|]. now apply saturate_idem. }
    assert (Hgcd : forall a, 0 <= a -> (if g =? 0 then a else u_gcd g a) = Z.gcd g a).
    { intros a Ha. unfold u_gcd. destruct (Z.eqb_spec g 0) as [->|]; [|reflexivity].
      rewrite Z.gcd_0_l. lia. }
    destruct (Z.eqb_spec (Z.abs (c v)) 0) as [Hz|Hz].
    { specialize (IH g c Hg Hc). cbv zeta in IH.
      destruct IH as (I1 & I2 & I3 & I4 & I5).
      assert (Hv : c v = saturate b (c0 v)).
      { rewrite <- Hsat. unfold saturate.
        destruct (Z.ltb_spec b (Z.abs (c v))); [lia | reflexivity]. }
      repeat split; auto.
      - intros Hne w [<-|Hw]; [now apply I2 | now apply I3].
      - intros w Hw. apply I4. intros Hin. apply Hw. now right.
      - rewrite I5. rewrite <- Hmin, Hz, Z.min_r by lia.
        rewrite Z.gcd_0_l, Z.abs_eq; [reflexivity|].
        destruct vs; cbn [fold_right]; [lia | apply Z.gcd_nonneg]. }
    destruct (Z.ltb_spec b (Z.abs (c v))) as [Hlt|Hge].
    + rewrite Hgcd by exact Hb.
      assert (Hc' : forall w, solver.upd c v (if 0 <? c v then b else - b) w = c0 w \/
                              solver.upd c v (if 0 <? c v then b else - b) w = saturate b (c0 w)).
      { intros w. unfold solver.upd. destruct (Z.eqb_spec w v) as [->|]; [|apply Hc].
        right. rewrite <- Hsat. unfold saturate.
        destruct (Z.ltb_spec b (Z.abs (c v))); [reflexivity | lia]. }
      specialize (IH (Z.gcd g b) _ (Z.gcd_nonneg g b) Hc'). cbv zeta in IH.
      destruct IH as (I1 & I2 & I3 & I4 & I5).
      assert (Hv : solver.upd c v (if 0 <? c v then b else - b) v = saturate b (c0 v)).
      { rewrite upd_same, <- Hsat. unfold saturate.
        destruct (Z.ltb_spec b (Z.abs (c v))); [reflexivity | lia]. }
      repeat split; auto.
      * intros w Hw. apply I2. unfold solver.upd.
        destruct (Z.eqb_spec w v) as [->|]; [|exact Hw].
        now rewrite upd_same in Hv.
      * intros Hne w [<-|Hw]; [now apply I2 | now apply I3].
      * intros w Hw. rewrite I4 by (intros Hin; apply Hw; now right).
        apply upd_other. intros ->. apply Hw. now left.
      * rewrite I5, <- Hmin, Z.min_l by lia. symmetry. apply Z.gcd_assoc.
    + rewrite Hgcd by lia.
      specialize (IH (Z.gcd g (Z.abs (c v))) c (Z.gcd_nonneg _ _) Hc). cbv zeta in IH.
      destruct IH as (I1 & I2 & I3 & I4 & I5).
      assert (Hv : c v = saturate b (c0 v)).
      { rewrite <- Hsat. unfold saturate.
        destruct (Z.ltb_spec b (Z.abs (c v))); [lia | reflexivity]. }
      repeat split; auto.
      * intros Hne w [<-|Hw]; [now apply I2 | now apply I3].
      * intros w Hw. apply I4. intros Hin. apply Hw. now right.
      * rewrite I5, <- Hmin, Z.min_r by lia. symmetry. apply Z.gcd_assoc.
Qed.

Lemma contains_In v l : contains v l = true <-> In v l.
Proof.
  unfold contains. rewrite existsb_exists. split.
  - intros (x & Hx & Heq). apply Z.eqb_eq in Heq. now subst.
  - intros H. exists v. split; [exact H | apply Z.eqb_refl].
Qed.

Lemma contains_false v l : contains v l = false <-> ~ In v l.
Proof.
  rewrite <- contains_In. destruct (contains v l); split; congruence.
Qed.

Lemma normalize_loop_In c vs : forall seen v,
  In v (normalize_loop c vs seen) <-> In v vs /\ ~ In v seen /\ c v <> 0.
Proof.
  induction vs as [|w vs IH]; intros seen v; simpl; [tauto|].
  destruct (contains w seen) eqn:Hs; simpl.
  - apply contains_In in Hs. rewrite IH. split.
    + intros (? & ? & ?). auto.
    + intros ([->|?] & ? & ?); [contradiction | auto].
  - apply contains_false in Hs.
    destruct (Z.eqb_spec (c w) 0) as [Hz|Hz]; simpl.
    + rewrite IH. split.
      * intros (? & ? & ?). auto.
      * intros ([->|?] & ? & ?); [contradiction | auto].
    + rewrite IH. simpl. split.
      * intros [->|(? & ? & ?)]; auto 6.
      * intros ([->|?] & ? & ?); [now left|].
        destruct (Z.eq_dec w v) as [->|]; [now left | right; repeat split; auto].
        intros [|]; auto.
Qed.

Lemma normalize_loop_NoDup c vs : forall seen, NoDup (normalize_loop c vs seen).
Proof.
  induction vs as [|w vs IH]; intros seen; simpl; [constructor|].
  destruct (negb (contains w seen) && negb (c w =? 0)); [|apply IH].
  constructor; [|apply IH].
  rewrite normalize_loop_In. intros (_ & H & _). apply H. now left.
Qed.

Lemma distinct_NoDup_id l : forall seen,
  NoDup l -> (forall v, In v l -> ~ In v seen) -> distinct l seen = l.
Proof.
  induction l as [|w l IH]; intros seen Hn Hs; simpl; [reflexivity|].
  inversion Hn as [|? ? Hw Hl]; subst.
  assert (Hc : contains w seen = false).
  { apply contains_false. apply Hs. now left. }
  rewrite Hc. f_equal. apply IH; [exact Hl|].
  intros v Hv [<-|H]; [contradiction|]. apply (Hs v); [now right | exact H].
Qed.

Lemma distinct_In vs : forall seen v, In v (distinct vs seen) -> In v vs.
Proof.
  induction vs as [|w vs IH]; intros seen v; simpl; [tauto|].
  destruct (contains w seen); simpl.
  - intros H. right. eapply IH, H.
  - intros [->|H]; [now left | right; eapply IH, H].
Qed.

(** The terms with coefficient zero do not count, so the normalised list of
    active variables carries the same sum. *)
Lemma sum_terms_normalize rho c vs : forall seen seen',
  (forall v, In v seen' <-> In v seen \/ (In v seen' /\ c v = 0)) ->
  sum_terms rho c (normalize_loop c vs seen) = sum_terms rho c (distinct vs seen').
Proof.
  induction vs as [|w vs IH]; intros seen seen' H; simpl; [reflexivity|].
  destruct (contains w seen') eqn:Hs'.
  - apply contains_In in Hs'.
    destruct (contains w seen) eqn:Hs; simpl; [now apply IH|].
    apply contains_false in Hs.
    assert (Hz : c w = 0) by (apply H in Hs'; tauto).
    apply Z.eqb_eq in Hz. rewrite Hz. simpl. now apply IH.
  - apply contains_false in Hs'.
    assert (Hs : contains w seen = false).
    { apply contains_false. intros Hin. apply Hs'. apply H. now left. }
    rewrite Hs. simpl.
    destruct (Z.eqb_spec (c w) 0) as [Hz|Hz]; simpl.
    + replace (term rho c w) with 0
        by (unfold term; rewrite Hz; simpl; destruct (rho w); reflexivity).
      rewrite Z.add_0_l. apply IH.
      intros v. simpl. split.
      * intros [<-|Hv]; [right; split; [now left | exact Hz]|].
        apply H in Hv. destruct Hv as [Hv|[Hv Hz']]; [now left|].
        right. split; [now right | exact Hz'].
      * intros [Hv|[Hv _]]; [right; apply H; now left | exact Hv].
    + f_equal. apply IH.
      intros v. simpl. split.
      * intros [<-|Hv]; [left; now left|].
        apply H in Hv. destruct Hv as [Hv|[Hv Hz']]; [left; now right|].
        right. split; [now right | exact Hz'].
      * intros [[<-|Hv]|[Hv _]]; [now left | right; apply H; now left | exact Hv].
Qed.

Lemma sum_terms_ext rho c c' vs :
  (forall v, In v vs -> c' v = c v) -> sum_terms rho c' vs = sum_terms rho c vs.
Proof.
  induction vs as [|v vs IH]; intros H; simpl; [reflexivity|].
  rewrite IH by (intros w Hw; apply H; now right).
  unfold term. now rewrite (H v (or_introl eq_refl)).
Qed.

(** *** The division *)

Definition divide_coeffs (g : Z) (vs : list bool_var) (c : bool_var -> Z) : bool_var -> Z :=
  fold_left (fun c v => solver.upd c v (Z.quot (c v) g)) vs c.

Lemma divide_run g vs : forall s,
  for_each vs (fun v => c <- gets (fun s => get_coeff s v) ;; set_coeff v (Z.quot c g)) s
  = Ret tt (set_m_coeffs (divide_coeffs g vs (m_coeffs s)) s).
Proof.
  induction vs as [|v vs IH]; intros s; simpl.
  - destruct s; reflexivity.
  - cbv [bind gets set_coeff modify]. rewrite IH. reflexivity.
Qed.

Lemma divide_coeffs_spec g vs : forall c,
  NoDup vs ->
  forall v, divide_coeffs g vs c v = if in_dec Z.eq_dec v vs then Z.quot (c v) g else c v.
Proof.
  induction vs as [|w vs IH]; intros c Hn v; simpl; [reflexivity|].
  inversion Hn as [|? ? Hw Hvs]; subst.
  unfold divide_coeffs in *. simpl. rewrite IH by exact Hvs.
  destruct (Z.eq_dec w v) as [->|Hne].
  - destruct (in_dec Z.eq_dec v vs); [contradiction|]. apply upd_same.
  - rewrite upd_other by congruence.
    destruct (in_dec Z.eq_dec v vs); reflexivity.
Qed.

Lemma term_divide rho c c' g v :
  0 < g -> c' v * g = c v -> g * term rho c' v = term rho c v.
Proof.
  intros Hg Hc. unfold term. rewrite <- Hc.
  assert (Hs : (c' v * g <? 0) = (c' v <? 0)).
  { destruct (Z.ltb_spec (c' v * g) 0), (Z.ltb_spec (c' v) 0); try reflexivity; nia. }
  rewrite Hs. destruct (if c' v <? 0 then _ else _); [|lia].
  rewrite Z.abs_mul. lia.
Qed.

Lemma sum_terms_divide rho c c' g vs :
  0 < g -> (forall v, In v vs -> c' v * g = c v) ->
  g * sum_terms rho c' vs = sum_terms rho c vs.
Proof.
  intros Hg. induction vs as [|v vs IH]; intros H; simpl; [lia|].
  rewrite Z.mul_add_distr_l, IH by (intros w Hw; apply H; now right).
  now rewrite (term_divide rho c c' g v Hg (H v (or_introl eq_refl))).
Qed.

Lemma ceil_div_le b g x : 0 < g -> ((b + g - 1) / g <= x <-> b <= g * x).
Proof.
  intros Hg. split; intros H.
  - pose proof (Z.mul_div_le (b + g - 1) g Hg).
    pose proof (Z.mod_pos_bound (b + g - 1) g Hg).
    pose proof (Z.div_mod (b + g - 1) g ltac:(lia)). nia.
  - assert ((b + g - 1) / g < x + 1) by (apply Z.div_lt_upper_bound; lia). lia.
Qed.

Lemma fold_gcd_bound b (c : bool_var -> Z) vs :
  0 <= b ->
  0 <= fold_right (fun v acc => Z.gcd (Z.min b (Z.abs (c v))) acc) 0 vs <= b.
Proof.
  intros Hb. induction vs as [|v vs IH]; simpl; [lia|].
  split; [apply Z.gcd_nonneg|].
  destruct (Z.eq_dec (Z.min b (Z.abs (c v))) 0) as [Hz|Hz].
  - rewrite Hz, Z.gcd_0_l, Z.abs_eq; lia.
  - transitivity (Z.min b (Z.abs (c v))); [|lia].
    apply Z.divide_pos_le; [lia | apply Z.gcd_divide_l].
Qed.

Lemma fold_gcd_divide b (c : bool_var -> Z) vs v :
  In v vs ->
  (fold_right (fun v acc => Z.gcd (Z.min b (Z.abs (c v))) acc) 0 vs | Z.min b (Z.abs (c v))).
Proof.
  induction vs as [|w vs IH]; simpl; [tauto|].
  intros [->|H].
  - apply Z.gcd_divide_l.
  - eapply Z.divide_trans; [apply Z.gcd_divide_r | apply IH, H].
Qed.

(** A positive gcd of the clipped coefficients is at most one of them. *)
Lemma fold_gcd_le b (c : bool_var -> Z) vs :
  0 <= b ->
  0 < fold_right (fun v acc => Z.gcd (Z.min b (Z.abs (c v))) acc) 0 vs ->
  exists v, In v vs /\
    fold_right (fun v acc => Z.gcd (Z.min b (Z.abs (c v))) acc) 0 vs <= Z.abs (c v).
Proof.
  intros Hb. induction vs as [|v vs IH]; cbn [fold_right]; [lia|]. intros Hpos.
  destruct (Z.eq_dec (Z.min b (Z.abs (c v))) 0) as [Hz|Hz].
  - rewrite Hz, Z.gcd_0_l in Hpos |- *.
    assert (H0 : 0 <= fold_right (fun v acc => Z.gcd (Z.min b (Z.abs (c v))) acc) 0 vs).
    { destruct vs; cbn [fold_right]; [lia | apply Z.gcd_nonneg]. }
    rewrite Z.abs_eq in Hpos |- * by exact H0.
    destruct (IH Hpos) as (w & Hw & Hle). exists w. split; [now right | exact Hle].
  - exists v. split; [now left|].
    assert (Hd : (Z.gcd (Z.min b (Z.abs (c v)))
                        (fold_right (fun v acc => Z.gcd (Z.min b (Z.abs (c v))) acc) 0 vs)
                  | Z.min b (Z.abs (c v)))) by apply Z.gcd_divide_l.
    apply Z.divide_pos_le in Hd; lia.
Qed.

(** The resolvent [2147483644 (x1 + x2 + x3) >= 4294967294]: every
    coefficient is an [int], the bound an [unsigned]. *)
Definition resolvent_wide : ba_solver :=
  set_m_coeffs
    (solver.upd (solver.upd (solver.upd (fun _ => 0) 1 2147483644) 2 2147483644)
                3 2147483644)
    (set_m_active_vars [1; 2; 3] (set_m_bound 4294967294 empty_solver)).

(** The sum [m_bound + g - 1] of [cut] is an [unsigned] sum: on
    [resolvent_wide] it wraps around, the new bound is [0] instead of [2],
    and the assignment that makes every variable false has become a
    model. *)
Example cut_bound_wraps :
  exists s',
    cut resolvent_wide = Ret tt s' /\
    saturated_gcd resolvent_wide = 2147483644 /\
    m_bound s' = 0 /\
    models (fun _ => false) s' /\ ~ models (fun _ => false) resolvent_wide.
Proof.
  eexists. split; [vm_compute; reflexivity|]. split; [vm_compute; reflexivity|].
  split; [reflexivity|]. split; vm_compute; [discriminate | auto].
Qed.



(** ** [active2card] *)

(** The weighted literals of the resolvent: one term [(|c_v|, l_v)] for
    each distinct active variable with a nonzero coefficient. *)
Definition active_wlits (s : ba_solver) : list wliteral :=
  map (fun v => (Z.abs (m_coeffs s v), mk_literal v (m_coeffs s v <? 0)))
      (normalize_loop (m_coeffs s) (m_active_vars s) []).

Definition sum_w (ws : list wliteral) : Z :=
  fold_right (fun wl acc => fst wl + acc) 0 ws.

(** The length of the smallest prefix of [ws] whose weights, added to
    [sum], reach [b]; the length of [ws] when no prefix does. *)
Fixpoint prefix_len (b : Z) (ws : list wliteral) (sum : Z) : nat :=
  match ws with
  | [] => 0
  | wl :: ws' => if b <=? sum then 0 else S (prefix_len b ws' (sum + fst wl))
  end.

Lemma prefix_len_spec b ws : forall sum,
  let n := prefix_len b ws sum in
  (n <= length ws)%nat /\
  (forall j, (j < n)%nat -> sum + sum_w (firstn j ws) < b) /\
  (n = length ws \/ b <= sum + sum_w (firstn n ws)).
Proof.
  induction ws as [|wl ws IH]; intros sum; simpl.
  - split; [lia|]. split; [lia|]. now left.
  - destruct (Z.leb_spec b sum) as [Hle|Hlt]; simpl.
    + split; [lia|]. split; [lia|]. right. lia.
    + destruct (IH (sum + fst wl)) as (I1 & I2 & I3).
      split; [lia|]. split.
      * intros [|j] Hj; simpl; [lia|]. specialize (I2 j ltac:(lia)). lia.
      * destruct I3 as [I3|I3]; [left; lia | right; lia].
Qed.

Lemma active2card_prefix_run b ws : forall k sum sum0,
  0 <= k -> k + Z.of_nat (length ws) <= UINT_MAX ->
  active2card_prefix b ws k sum sum0 =
  (k + Z.of_nat (prefix_len b ws sum),
   match prefix_len b ws sum with
   | O => sum0
   | S m => sum + sum_w (firstn m ws)
   end).
Proof.
  induction ws as [|wl ws IH]; intros k sum sum0 Hk Hlen; simpl.
  - f_equal. lia.
  - destruct (b <=? sum); [f_equal; lia|].
    simpl length in Hlen.
    rewrite u32_id by (unfold is_u32; lia).
    rewrite IH by lia.
    f_equal; [lia|].
    destruct (prefix_len b ws (sum + fst wl)); simpl; lia.
Qed.

(** The terms that [active2card] keeps: [kept ++ dropped] is the sorted
    inequality, and terms are dropped from the back as long as their
    weights, added to [sum0], stay below [b]. *)
Lemma active2card_trim_spec b rws : forall sum0,
  (forall wl, In wl rws -> 0 <= fst wl) ->
  exists dropped,
    rws = dropped ++ active2card_trim b rws sum0 /\
    (dropped <> [] -> sum0 + sum_w dropped < b) /\
    match active2card_trim b rws sum0 with
    | [] => True
    | wl :: _ => b <= fst wl + sum0 + sum_w dropped
    end.
Proof.
  induction rws as [|wl rws IH]; intros sum0 Hnn; simpl.
  - exists []. simpl. repeat split. congruence.
  - destruct (Z.leb_spec b (fst wl + sum0)) as [Hle|Hlt].
    + exists []. simpl. repeat split; [congruence | lia].
    + destruct (IH (sum0 + fst wl) (fun w Hw => Hnn w (or_intror Hw))) as (d & Hd & Hs & Hl).
      exists (wl :: d). simpl. split; [now rewrite <- Hd|]. split.
      * intros _. destruct d as [|x d]; [simpl; lia|].
        specialize (Hs ltac:(congruence)). lia.
      * destruct (active2card_trim b rws (sum0 + fst wl)); [exact I | lia].
Qed.

Lemma get_int_coeff_in_range v s :
  - INT_MAX <= m_coeffs s v <= INT_MAX ->
  get_int_coeff v s = Ret (m_coeffs s v) s.
Proof.
  intros H. unfold get_int_coeff, get_coeff. cbv [bind gets].
  unfold INT_MAX, INT_MIN in *.
  destruct (Z.ltb_spec (m_coeffs s v) (-2147483648)); [lia|].
  destruct (Z.ltb_spec 2147483647 (m_coeffs s v)); [lia|].
  reflexivity.
Qed.

Lemma active2card_wlits_run vs s :
  (forall v, In v vs -> - INT_MAX <= m_coeffs s v <= INT_MAX) ->
  active2card_wlits vs s =
  Ret (map (fun v => (Z.abs (m_coeffs s v), mk_literal v (m_coeffs s v <? 0))) vs) s.
Proof.
  induction vs as [|v vs IH]; intros H; cbn [active2card_wlits map]; [reflexivity|].
  rewrite (bind_eq _ _ _ _ _ (get_int_coeff_in_range v s (H v (or_introl eq_refl)))).
  rewrite (bind_eq _ _ _ _ _ (get_abs_coeff_in_range v s (H v (or_introl eq_refl)))).
  rewrite (bind_eq _ _ _ _ _ (IH (fun w Hw => H w (or_intror Hw)))).
  reflexivity.
Qed.

(** The quantities [active2card] computes from the resolvent in [s]. *)
Section Active2Card.
Context {E : externals}.
Variable s : ba_solver.

(** The inequality, sorted by [std::sort]. *)
Definition sorted_wlits : list wliteral := sort_wlits (active_wlits s).

(** The threshold [k] of the cardinality constraint, as a count. *)
Definition card_threshold : nat := prefix_len (m_bound s) sorted_wlits 0.

(** [sum0]: the weight of the first [k - 1] terms. *)
Definition prefix_weight : Z := sum_w (firstn (Nat.pred card_threshold) sorted_wlits).

(** The terms of the cardinality constraint. *)
Definition card_terms : list wliteral :=
  rev (active2card_trim (m_bound s) (rev sorted_wlits) prefix_weight).

(** The number of its literals that are not false. *)
Definition card_slack : Z :=
  Z.of_nat (length (filter (fun wl : wliteral => negb (lbool_eqb (value s (snd wl)) l_false))
                           card_terms)).

End Active2Card.

(** "A pb constraint is emitted": a pb that was not there before is among
    the learned constraints. *)
Definition emits_pb (s s' : ba_solver) : Prop :=
  exists idx p,
    In idx (m_learned s') /\ ~ In idx (m_learned s) /\ m_allocator s' idx = Some (Pb p).

(** The claim in the words of the specification, for the part that
    fails: when the cardinality reduction is not asserting, a pb constraint
    is emitted instead. *)
Definition active2card_as_stated {E : externals} : Prop :=
  forall s r s',
    coeffs_in_range s -> m_overflow s = false ->
    active2card s = Ret r s' ->
    Z.of_nat (card_threshold s) <= card_slack s ->
    emits_pb s s'.

(** The resolvent [4 x1 + x2 + x3 + x4 + x5 >= 5] under [x1 = false],
    decided at level 1: it is violated, and forces [x1]. *)
Definition resolvent_4_1_1_1_1 : ba_solver :=
  set_m_coeffs
    (solver.upd (solver.upd (solver.upd (solver.upd (solver.upd (fun _ => 0) 1 4) 2 1) 3 1) 4 1) 5 1)
    (set_m_active_vars [1; 2; 3; 4; 5] (set_m_bound 5 (decide (neg (x_ 1)) empty_solver))).

(** C3, as stated, fails: the reduction [x1 + ... + x5 >= 2] of this
    resolvent is not asserting (four literals are not false), and
    [active2card] returns null without adding any constraint. *)
Lemma active2card_counterexample : ~ @active2card_as_stated reference_externals.
Proof.
  intros H.
  destruct (active2card resolvent_4_1_1_1_1) as [r s'| | | |] eqn:Hrun;
    try (vm_compute in Hrun; discriminate Hrun).
  destruct (H resolvent_4_1_1_1_1 r s') as (idx & p & Hin & _).
  - intros v Hv. simpl in Hv.
    destruct Hv as [<-|[<-|[<-|[<-|[<-|[]]]]]]; vm_compute; split; discriminate.
  - reflexivity.
  - exact Hrun.
  - vm_compute. discriminate.
  - vm_compute in Hrun. injection Hrun as _ <-. exact Hin.
Qed.

Lemma normalize_loop_length c vs : forall seen,
  (length (normalize_loop c vs seen) <= length vs)%nat.
Proof.
  induction vs as [|v vs IH]; intros seen; simpl; [lia|].
  destruct (negb (contains v seen) && negb (c v =? 0)); simpl.
  - specialize (IH (v :: seen)). lia.
  - specialize (IH seen). lia.
Qed.

(** The run of [active2card] up to the sort, on a resolvent whose
    coefficients are in range. *)
Lemma active2card_wlits_state (s : ba_solver) :
  coeffs_in_range s ->
  let s1 := set_m_active_vars (normalize_loop (m_coeffs s) (m_active_vars s) []) s in
  active2card_wlits (m_active_vars s1) s1 = Ret (active_wlits s) s1.
Proof.
  intros Hr s1. unfold active_wlits.
  apply (active2card_wlits_run (m_active_vars s1) s1).
  intros v Hv. apply Hr.
  change (In v (normalize_loop (m_coeffs s) (m_active_vars s) [])) in Hv.
  now apply normalize_loop_In in Hv.
Qed.

Lemma sorted_wlits_length {E : externals} s :
  (length (sorted_wlits s) <= length (m_active_vars s))%nat.
Proof.
  unfold sorted_wlits.
  rewrite (Permutation_length (sort_wlits_perm (active_wlits s))).
  unfold active_wlits. rewrite length_map. apply normalize_loop_length.
Qed.

Lemma active_wlits_nonneg s wl : In wl (active_wlits s) -> 0 <= fst wl.
Proof.
  unfold active_wlits. rewrite in_map_iff. intros (v & <- & _). simpl. lia.
Qed.

Lemma sorted_wlits_nonneg {E : externals} s wl : In wl (sorted_wlits s) -> 0 <= fst wl.
Proof.
  intros H. apply (active_wlits_nonneg s).
  eapply Permutation_in; [apply sort_wlits_perm | exact H].
Qed.

(** The prefix loop of [active2card] on the sorted inequality. *)
Lemma active2card_prefix_sorted {E : externals} s :
  Z.of_nat (length (m_active_vars s)) <= UINT_MAX ->
  active2card_prefix (m_bound s) (sorted_wlits s) 0 0 0 =
  (Z.of_nat (card_threshold s), prefix_weight s).
Proof.
  intros Hlen. pose proof (sorted_wlits_length s) as Hl.
  rewrite active2card_prefix_run by lia.
  unfold prefix_weight, card_threshold.
  f_equal. destruct (prefix_len (m_bound s) (sorted_wlits s) 0); simpl; lia.
Qed.

(** The state in which [active2card] returns null. *)
Definition active2card_null_state {E : externals} (s : ba_solver) (trimmed : bool)
  : ba_solver :=
  set_m_wlits (if trimmed then card_terms s else sorted_wlits s)
    (set_m_active_vars (normalize_loop (m_coeffs s) (m_active_vars s) []) s).

Lemma active2card_null {E : externals} (s : ba_solver) :
  coeffs_in_range s -> m_overflow s = false ->
  Z.of_nat (length (m_active_vars s)) <= UINT_MAX ->
  Z.of_nat (card_threshold s) = 1 \/ Z.of_nat (card_threshold s) <= card_slack s ->
  active2card s =
  Ret None (active2card_null_state s (negb (Z.of_nat (card_threshold s) =? 1))).
Proof.
  intros Hr Hov Hlen Hk.
  unfold active2card, normalize_active_coeffs.
  erewrite bind_eq by reflexivity.
  erewrite bind_eq by reflexivity.
  erewrite bind_eq by (apply active2card_wlits_state; exact Hr).
  erewrite bind_eq by reflexivity.
  erewrite bind_eq by reflexivity.
  erewrite bind_eq by reflexivity.
  change (sort_wlits (active_wlits s)) with (sorted_wlits s).
  cbn [m_wlits m_bound set_m_wlits set_m_active_vars].
  rewrite (active2card_prefix_sorted s Hlen).
  destruct (Z.eqb_spec (Z.of_nat (card_threshold s)) 1) as [H1|H1]; [reflexivity|].
  destruct Hk as [Hk|Hk]; [contradiction|].
  erewrite bind_eq by reflexivity.
  erewrite bind_eq by reflexivity.
  erewrite bind_eq by reflexivity.
  cbn [m_wlits m_overflow set_m_wlits set_m_active_vars].
  rewrite Hov.
  fold (card_terms s).
  match goal with |- (if ?k <=? ?sl then _ else _) _ = _ =>
    replace sl with (card_slack s) by reflexivity end.
  destruct (Z.leb_spec (Z.of_nat (card_threshold s)) (card_slack s)); [reflexivity | lia].
Qed.

Ltac fields_simpl :=
  cbn [m_solver m_allocator m_alloc_top m_constraint_id m_constraints m_learned m_constraint_to_reinit m_constraint_to_reinit_lim m_constraint_to_reinit_last_sz m_num_propagations_since_pop m_a_max m_pb_undef m_lemma m_wlits m_parity_marks m_parity_trail m_coeffs m_active_vars m_bound m_overflow m_num_marks m_conflict_lvl overflow_latched debug_conflict
       set_m_solver set_m_allocator set_m_alloc_top set_m_constraint_id set_m_constraints set_m_learned set_m_constraint_to_reinit set_m_constraint_to_reinit_lim set_m_constraint_to_reinit_last_sz set_m_num_propagations_since_pop set_m_a_max set_m_pb_undef set_m_lemma set_m_wlits set_m_parity_marks set_m_parity_trail set_m_coeffs set_m_active_vars set_m_bound set_m_overflow set_m_num_marks set_m_conflict_lvl set_overflow_latched set_debug_conflict].

Lemma active2card_asserting {E : externals} (s : ba_solver) :
  coeffs_in_range s -> m_overflow s = false ->
  Z.of_nat (length (m_active_vars s)) <= UINT_MAX ->
  Z.of_nat (card_threshold s) <> 1 ->
  card_slack s < Z.of_nat (card_threshold s) ->
  solver.at_base_lvl (m_solver s) = false ->
  exists s',
    active2card s = Ret (Some (m_alloc_top s)) s' /\
    m_allocator s' (m_alloc_top s) =
      Some (Card (mk_card
                    (mk_header (m_constraint_id s) null_literal false true
                       (num_diff_levels (m_solver s)
                          (filter (fun l => lbool_eqb (value s l) l_false)
                                  (map snd (card_terms s))))
                       0)
                    (Z.of_nat (card_threshold s))
                    (map snd (card_terms s)))) /\
    (forall idx, idx <> m_alloc_top s -> m_allocator s' idx = m_allocator s idx) /\
    m_learned s' = m_learned s ++ [m_alloc_top s] /\
    m_constraints s' = m_constraints s /\
    m_solver s' = m_solver s.
Proof.
  intros Hr Hov Hlen H1 Hsl Hbase.
  unfold active2card, normalize_active_coeffs.
  erewrite bind_eq by reflexivity.
  erewrite bind_eq by reflexivity.
  erewrite bind_eq by (apply active2card_wlits_state; exact Hr).
  erewrite bind_eq by reflexivity.
  erewrite bind_eq by reflexivity.
  erewrite bind_eq by reflexivity.
  change (sort_wlits (active_wlits s)) with (sorted_wlits s).
  cbn [m_wlits m_bound set_m_wlits set_m_active_vars].
  rewrite (active2card_prefix_sorted s Hlen).
  destruct (Z.eqb_spec (Z.of_nat (card_threshold s)) 1) as [H1'|_]; [contradiction|].
  erewrite bind_eq by reflexivity.
  erewrite bind_eq by reflexivity.
  erewrite bind_eq by reflexivity.
  cbn [m_wlits m_overflow set_m_wlits set_m_active_vars].
  rewrite Hov.
  fold (card_terms s).
  match goal with |- context [if _ <=? ?sl then _ else _] =>
    replace sl with (card_slack s) by reflexivity end.
  destruct (Z.leb_spec (Z.of_nat (card_threshold s)) (card_slack s)); [lia|].
  unfold add_at_least.
  apply Z.eqb_neq in H1. rewrite H1. cbn [andb].
  unfold allocate, next_id, put_constraint, add_constraint, set_glue, index2constraint.
  cbv [bind gets modify ret].
  repeat (fields_simpl; rewrite ?upd_same;
          cbn [learned hd_of card_hd hd_set_learned c_learned new_header andb negb];
          rewrite ?Hbase).
  eexists. split; [reflexivity|].
  fields_simpl.
  split; [rewrite upd_same; reflexivity|].
  split; [intros idx Hidx; rewrite !upd_other by exact Hidx; reflexivity|].
  repeat split.
Qed.

(** The resolvent [x1 + x2 + x3 >= 2] under [x1 = x2 = false]. *)
Definition resolvent_1_1_1 : ba_solver :=
  set_m_coeffs
    (solver.upd (solver.upd (solver.upd (fun _ => 0) 1 1) 2 1) 3 1)
    (set_m_active_vars [1; 2; 3]
       (set_m_bound 2 (decide (neg (x_ 2)) (decide (neg (x_ 1)) empty_solver)))).

Lemma sum_w_app l1 l2 : sum_w (l1 ++ l2) = sum_w l1 + sum_w l2.
Proof.
  unfold sum_w. induction l1 as [|x l1 IH]; simpl; [reflexivity|].
  rewrite IH. lia.
Qed.

Lemma sum_w_rev l : sum_w (rev l) = sum_w l.
Proof.
  induction l as [|x l IH]; [reflexivity|].
  simpl rev. rewrite sum_w_app, IH. unfold sum_w. simpl. lia.
Qed.

Lemma sorted_before (l l' : list wliteral) x :
  StronglySorted (fun a b : wliteral => fst b <= fst a) (l ++ x :: l') ->
  forall y, In y l -> fst x <= fst y.
Proof.
  induction l as [|a l IH]; intros Hs y Hy; [destruct Hy|].
  simpl in Hs. inversion Hs as [|? ? Hs' Hall]; subst.
  destruct Hy as [<-|Hy].
  - rewrite Forall_forall in Hall. apply Hall, in_elt.
  - now apply IH.
Qed.

(** Reading a coefficient returns; it changes nothing but the overflow
    flag, which it sets when the coefficient is outside its range. *)
Lemma get_int_coeff_total v s :
  exists c s1,
    get_int_coeff v s = Ret c s1 /\
    (s1 = s \/ s1 = set_overflow_latched true (set_m_overflow true s)) /\
    (INT_MAX < m_coeffs s v -> m_overflow s1 = true).
Proof.
  unfold get_int_coeff, get_coeff, latch_overflow. cbv [bind gets modify ret].
  destruct (Z.ltb_spec (m_coeffs s v) INT_MIN); cbn [orb].
  - eexists _, _. split; [reflexivity|]. split; [now right | reflexivity].
  - destruct (Z.ltb_spec INT_MAX (m_coeffs s v)).
    + eexists _, _. split; [reflexivity|]. split; [now right | reflexivity].
    + eexists _, _. split; [reflexivity|]. split; [now left | lia].
Qed.

Lemma get_abs_coeff_total v s :
  exists a s1,
    get_abs_coeff v s = Ret a s1 /\
    (s1 = s \/ s1 = set_overflow_latched true (set_m_overflow true s)) /\
    (m_coeffs s v < - INT_MAX -> m_overflow s1 = true).
Proof.
  unfold get_abs_coeff, get_coeff, latch_overflow. cbv [bind gets modify ret].
  unfold INT_MAX, INT_MIN.
  destruct (Z.ltb_spec (m_coeffs s v) (-2147483648 + 1)); cbn [orb].
  - eexists _, _. split; [reflexivity|]. split; [now right | reflexivity].
  - destruct (Z.ltb_spec UINT_MAX (m_coeffs s v)).
    + eexists _, _. split; [reflexivity|]. split; [now right | reflexivity].
    + eexists _, _. split; [reflexivity|]. split; [now left | lia].
Qed.

(** The coefficients of the resolvent are gathered whatever they are: a
    coefficient outside the range of [int] sets the overflow flag and
    changes nothing else. *)
Lemma active2card_wlits_total vs : forall s,
  exists ws s',
    active2card_wlits vs s = Ret ws s' /\
    (s' = s \/ s' = set_overflow_latched true (set_m_overflow true s)) /\
    ((exists v, In v vs /\ ~ (- INT_MAX <= m_coeffs s v <= INT_MAX)) ->
     m_overflow s' = true).
Proof.
  induction vs as [|v vs IH]; intros s; cbn [active2card_wlits].
  - exists [], s. split; [reflexivity|]. split; [now left|]. intros (v & [] & _).
  - destruct (get_int_coeff_total v s) as (c & s1 & Hc & Hs1 & Ho1).
    destruct (get_abs_coeff_total v s1) as (a & s2 & Ha & Hs2 & Ho2).
    destruct (IH s2) as (ws & s3 & Hr & Hs3 & Ho3).
    rewrite (bind_eq _ _ _ _ _ Hc), (bind_eq _ _ _ _ _ Ha), (bind_eq _ _ _ _ _ Hr).
    exists ((a, mk_literal v (c <? 0)) :: ws), s3. split; [reflexivity|].
    assert (Hco1 : m_coeffs s1 = m_coeffs s) by (destruct Hs1 as [->| ->]; reflexivity).
    assert (Hco2 : m_coeffs s2 = m_coeffs s1) by (destruct Hs2 as [->| ->]; reflexivity).
    assert (M2 : m_overflow s1 = true -> m_overflow s2 = true)
      by (destruct Hs2 as [->| ->]; auto).
    assert (M3 : m_overflow s2 = true -> m_overflow s3 = true)
      by (destruct Hs3 as [->| ->]; auto).
    split.
    + destruct Hs1 as [->| ->], Hs2 as [->| ->], Hs3 as [->| ->]; auto.
    + intros (w & [<-|Hw] & Hout).
      * destruct (Z_lt_dec INT_MAX (m_coeffs s v)) as [Hhi|Hhi].
        -- exact (M3 (M2 (Ho1 Hhi))).
        -- apply M3, Ho2. rewrite Hco1. lia.
      * apply Ho3. exists w. split; [exact Hw|]. now rewrite Hco2, Hco1.
Qed.

(** With the overflow flag set, [active2card] returns null. *)
Lemma active2card_overflow {E : externals} (s : ba_solver) :
  m_overflow s = true \/
  (exists v, In v (m_active_vars s) /\ ~ (- INT_MAX <= m_coeffs s v <= INT_MAX)) ->
  exists s',
    active2card s = Ret None s' /\ m_overflow s' = true /\
    m_allocator s' = m_allocator s /\ m_learned s' = m_learned s /\
    m_constraints s' = m_constraints s /\ m_solver s' = m_solver s.
Proof.
  intros Hov. unfold active2card, normalize_active_coeffs.
  erewrite bind_eq by reflexivity. erewrite bind_eq by reflexivity.
  set (s1 := set_m_active_vars (normalize_loop (m_coeffs s) (m_active_vars s) []) s).
  destruct (active2card_wlits_total (m_active_vars s1) s1) as (ws & s2 & Hr & Hs2 & Ho2).
  rewrite (bind_eq _ _ _ _ _ Hr).
  assert (Hflag : m_overflow s2 = true).
  { destruct Hov as [Hov|(v & Hv & Hout)].
    - destruct Hs2 as [->| ->]; [exact Hov | reflexivity].
    - apply Ho2. exists v. split; [|exact Hout].
      apply normalize_loop_In. split; [exact Hv|]. split; [intros []|].
      intros Hz. apply Hout. change (m_coeffs s1 v) with (m_coeffs s v).
      rewrite Hz. unfold INT_MAX. lia. }
  assert (Hkeep : m_allocator s2 = m_allocator s /\ m_learned s2 = m_learned s /\
                  m_constraints s2 = m_constraints s /\ m_solver s2 = m_solver s)
    by (destruct Hs2 as [->| ->]; repeat split).
  destruct Hkeep as (K1 & K2 & K3 & K4).
  erewrite bind_eq by reflexivity. erewrite bind_eq by reflexivity.
  erewrite bind_eq by reflexivity.
  destruct (active2card_prefix _ _ 0 0 0) as [k sum0].
  destruct (k =? 1).
  { eexists. split; [reflexivity|]. cbn. repeat split; assumption. }
  erewrite bind_eq by reflexivity. erewrite bind_eq by reflexivity.
  erewrite bind_eq by reflexivity.
  cbn [m_overflow set_m_wlits]. rewrite Hflag.
  eexists. split; [reflexivity|]. cbn. repeat split; assumption.
Qed.

(** C3, amended: [active2card] sorts the terms of the resolvent by
    descending weight, takes as [k] the length of the smallest prefix whose
    weights reach the bound (all terms when none does), and keeps the terms
    that remain after dropping from the back while the dropped weights plus
    the weight of the first [k - 1] terms stay below the bound.  When
    [k = 1], or when at least [k] of the kept literals are not false, or
    when the overflow flag is set (on entry, or because a coefficient of
    the resolvent is outside the range of [int]), it returns null and adds
    no constraint: no pb constraint is built in its place.  Otherwise, above
    the base level, it returns a new learned cardinality constraint "at
    least [k] of the kept literals". *)
Theorem active2card_reduces {E : externals} (s : ba_solver) :
  Z.of_nat (length (m_active_vars s)) <= UINT_MAX ->
  let ws := sorted_wlits s in
  let n := card_threshold s in
  let k := Z.of_nat n in
  (Permutation ws (active_wlits s) /\
   StronglySorted (fun a b : wliteral => fst b <= fst a) ws) /\
  ((n <= length ws)%nat /\
   (forall j, (j < n)%nat -> sum_w (firstn j ws) < m_bound s) /\
   (n = length ws \/ m_bound s <= sum_w (firstn n ws))) /\
  (exists dropped,
     ws = card_terms s ++ dropped /\
     (dropped <> [] -> prefix_weight s + sum_w dropped < m_bound s) /\
     (forall wl, In wl (card_terms s) ->
                 m_bound s <= fst wl + prefix_weight s + sum_w dropped)) /\
  (m_overflow s = true \/
   (exists v, In v (m_active_vars s) /\ ~ (- INT_MAX <= m_coeffs s v <= INT_MAX)) ->
   exists s',
     active2card s = Ret None s' /\ m_overflow s' = true /\
     m_allocator s' = m_allocator s /\ m_learned s' = m_learned s /\
     m_constraints s' = m_constraints s /\ m_solver s' = m_solver s) /\
  (coeffs_in_range s -> m_overflow s = false ->
   k = 1 \/ k <= card_slack s ->
   exists s',
     active2card s = Ret None s' /\
     m_allocator s' = m_allocator s /\ m_learned s' = m_learned s /\
     m_constraints s' = m_constraints s /\ m_solver s' = m_solver s) /\
  (coeffs_in_range s -> m_overflow s = false ->
   k <> 1 -> card_slack s < k -> solver.at_base_lvl (m_solver s) = false ->
   exists s' hd,
     active2card s = Ret (Some (m_alloc_top s)) s' /\
     m_allocator s' (m_alloc_top s) =
       Some (Card (mk_card hd k (map snd (card_terms s)))) /\
     c_learned hd = true /\ c_lit hd = null_literal /\
     (forall idx, idx <> m_alloc_top s -> m_allocator s' idx = m_allocator s idx) /\
     m_learned s' = m_learned s ++ [m_alloc_top s] /\
     m_constraints s' = m_constraints s /\ m_solver s' = m_solver s).
Proof.
  intros Hlen ws n k.
  split; [split; [apply sort_wlits_perm | apply sort_wlits_sorted]|].
  split; [exact (prefix_len_spec (m_bound s) ws 0)|].
  split.
  - destruct (active2card_trim_spec (m_bound s) (rev ws) (prefix_weight s))
      as (d & Hd & Hs & Hl).
    { intros wl Hwl. apply (sorted_wlits_nonneg s). now apply in_rev. }
    exists (rev d). split; [|split].
    + unfold card_terms. fold ws. rewrite <- rev_app_distr, <- Hd.
      now rewrite rev_involutive.
    + intros Hne. rewrite sum_w_rev. apply Hs. intros ->. now apply Hne.
    + intros wl Hwl. unfold card_terms in Hwl. fold ws in Hwl.
      rewrite sum_w_rev.
      destruct (active2card_trim (m_bound s) (rev ws) (prefix_weight s))
        as [|x r] eqn:Ht; [destruct Hwl|].
      apply in_rev in Hwl.
      assert (Hsort : StronglySorted (fun a b : wliteral => fst b <= fst a)
                        (rev r ++ x :: rev d)).
      { replace (rev r ++ x :: rev d) with ws; [apply sort_wlits_sorted|].
        rewrite <- (rev_involutive ws), Hd, rev_app_distr. simpl.
        now rewrite <- app_assoc. }
      destruct Hwl as [<-|Hwl]; [exact Hl|].
      pose proof (sorted_before _ _ _ Hsort wl (proj1 (in_rev _ _) Hwl)). lia.
  - split; [exact (active2card_overflow s)|]. split.
    + intros Hr Hov Hk. eexists. split; [apply (active2card_null s Hr Hov Hlen Hk)|].
      repeat split.
    + intros Hr Hov H1 Hsl Hbase.
      destruct (active2card_asserting s Hr Hov Hlen H1 Hsl Hbase)
        as (s' & Hrun & Hal & Hoth & Hle & Hco & Hso).
      eexists s', _. split; [exact Hrun|]. split; [exact Hal|].
      repeat split; assumption.
Qed.

(** The resolvent [x1 + x2 + x3 >= 2] of [resolvent_1_1_1] with a
    coefficient of [x3] outside the range of [int]. *)
Definition resolvent_out_of_range : ba_solver :=
  set_m_coeffs (solver.upd (m_coeffs resolvent_1_1_1) 3 2147483648) resolvent_1_1_1.

Lemma active2card_reduces_witness :
  (exists s',
     active2card resolvent_1_1_1 = Ret (Some 1) s' /\
     (exists hd, m_allocator s' 1 = Some (Card (mk_card hd 2 [x_ 3; x_ 2; x_ 1]))) /\
     m_learned s' = [1]) /\
  (exists s',
     active2card resolvent_out_of_range = Ret None s' /\ m_overflow s' = true /\
     m_learned s' = []).
Proof.
  split.
  - destruct (@active2card_reduces reference_externals resolvent_1_1_1)
      as (_ & _ & _ & _ & _ & Hc).
    + vm_compute. discriminate.
    + destruct Hc as (s' & hd & Hrun & Hal & _ & _ & _ & Hle & _).
      * intros v [<-|[<-|[<-|[]]]]; vm_compute; split; discriminate.
      * reflexivity.
      * vm_compute. discriminate.
      * vm_compute. reflexivity.
      * reflexivity.
      * exists s'. split; [exact Hrun|]. split; [exists hd; exact Hal | exact Hle].
  - destruct (@active2card_reduces reference_externals resolvent_out_of_range)
      as (_ & _ & _ & Ho & _).
    + vm_compute. discriminate.
    + destruct Ho as (s' & Hrun & Hov & _ & Hle & _).
      * right. exists 3. split; [cbn; auto|]. vm_compute. intros [_ H]. now apply H.
      * exists s'. split; [exact Hrun|]. split; [exact Hov | exact Hle].
Defined.

(** ** [resolve_conflict] and the overflow flag *)

(** The core with its marks forgotten. *)
Definition erase_marks (c : solver.t) : solver.t :=
  solver.mk (solver.m_assignment c) (solver.m_level c) (solver.m_justification c)
            (solver.m_trail c) (fun _ => false) (solver.m_inconsistent c)
            (solver.m_conflict c) (solver.m_not_l c) (solver.m_scope_lvl c)
            (solver.m_lemma c) (solver.m_cls_allocator c) (solver.m_clauses c)
            (solver.m_watches c) (solver.m_external c).

(** [s'] differs from [s] in no state that the core or a later call can
    see, the marks apart: the core is the same up to marks (trail,
    assignment, levels, reasons, conflict, lemma buffer, clauses, watches),
    and no constraint was added. *)
Definition same_but_marks (s s' : ba_solver) : Prop :=
  erase_marks (m_solver s') = erase_marks (m_solver s) /\
  m_learned s' = m_learned s /\
  m_constraints s' = m_constraints s /\
  m_alloc_top s' = m_alloc_top s.

Definition no_marks (s : ba_solver) : Prop :=
  forall v, solver.is_marked (m_solver s) v = false.

Definition trail_vars (c : solver.t) : list bool_var := map var (solver.m_trail c).

(** [m_num_marks] counts the marked variables, which are on the trail. *)
Definition marks_counted (s : ba_solver) : Prop :=
  exists L,
    NoDup L /\
    (forall v, solver.is_marked (m_solver s) v = true <-> In v L) /\
    incl L (trail_vars (m_solver s)) /\
    m_num_marks s = Z.of_nat (length L).

(** What [resolve_conflict] expects of the core when it is called: the
    core is in conflict, the variables with a positive level are on the
    trail, levels and the size of the trail are unsigned values, and the
    null variable is not assigned. *)
Definition core_ok (c : solver.t) : Prop :=
  (forall v, 0 < solver.lvl c v -> In v (trail_vars c)) /\
  (forall v, 0 <= solver.lvl c v) /\
  Z.of_nat (length (solver.m_trail c)) <= UINT_MAX /\
  solver.m_inconsistent c = true /\
  solver.m_assignment c null_bool_var = l_undef.

(** The entry condition of [resolve_conflict]: no variable is marked. *)
Definition in_conflict (s : ba_solver) : Prop :=
  core_ok (m_solver s) /\ no_marks s.

(** The state after [m_overflow = true]. *)
Definition latch (s : ba_solver) : ba_solver :=
  set_overflow_latched true (set_m_overflow true s).

(** [s'] agrees with [s] on the core, the mark counter, the constraint
    lists and the flags. *)
Definition steady (s s' : ba_solver) : Prop :=
  m_solver s' = m_solver s /\ m_num_marks s' = m_num_marks s /\
  m_learned s' = m_learned s /\ m_constraints s' = m_constraints s /\
  m_alloc_top s' = m_alloc_top s /\ debug_conflict s' = debug_conflict s /\
  m_overflow s' = m_overflow s /\ overflow_latched s' = overflow_latched s.

(** The invariants carried through the steps of the resolver that set no
    mark: they depend on the fields of [steady] only, survive the latching of
    the overflow flag, and fix the core up to marks. *)
Definition resolver_inv (c0 : solver.t) (I : ba_solver -> Prop) : Prop :=
  (forall s s', steady s s' -> I s -> I s') /\
  (forall s, I s -> I (latch s)) /\
  (forall s, I s -> erase_marks (m_solver s) = erase_marks c0).

Lemma erase_marks_fields c c' :
  erase_marks c' = erase_marks c ->
  solver.m_assignment c' = solver.m_assignment c /\
  solver.m_level c' = solver.m_level c /\
  solver.m_justification c' = solver.m_justification c /\
  solver.m_trail c' = solver.m_trail c /\
  solver.m_inconsistent c' = solver.m_inconsistent c /\
  solver.m_cls_allocator c' = solver.m_cls_allocator c.
Proof.
  unfold erase_marks. intros H. injection H. intros. repeat split; assumption.
Qed.

Lemma erase_marks_set_mark v b c : erase_marks (solver.set_mark v b c) = erase_marks c.
Proof. reflexivity. Qed.

Lemma core_ok_erase c c' : erase_marks c' = erase_marks c -> core_ok c -> core_ok c'.
Proof.
  intros H (H1 & H2 & H3 & H4 & H5).
  destruct (erase_marks_fields _ _ H) as (Ha & Hl & _ & Ht & Hi & _).
  unfold core_ok, trail_vars, solver.lvl in *. rewrite Ha, Hl, Ht, Hi.
  repeat split; assumption.
Qed.

Lemma same_but_marks_refl s : same_but_marks s s.
Proof. repeat split. Qed.

Lemma same_but_marks_trans s1 s2 s3 :
  same_but_marks s1 s2 -> same_but_marks s2 s3 -> same_but_marks s1 s3.
Proof.
  intros (A1 & A2 & A3 & A4) (B1 & B2 & B3 & B4).
  repeat split; congruence.
Qed.

Lemma steady_refl s : steady s s.
Proof. repeat split. Qed.

Lemma spec_bind_inv {A B} I (m : M A) (f : A -> M B) (Q : B -> ba_solver -> Prop) :
  inv I m -> (forall a, spec I (f a) Q) -> spec I (bind m f) Q.
Proof. intros Hm Hf. eapply spec_bind; [exact Hm | exact Hf]. Qed.

(** The value read by [gets] was read in a state satisfying the
    precondition. *)
Lemma spec_bind_gets_inv {A B} (I : ba_solver -> Prop) (g : ba_solver -> A)
  (f : A -> M B) (Q : B -> ba_solver -> Prop) :
  (forall a, (exists s, I s /\ g s = a) -> spec I (f a) Q) ->
  spec I (bind (gets g) f) Q.
Proof.
  intros H s Hs. unfold bind, gets.
  exact (H (g s) (ex_intro _ s (conj Hs eq_refl)) s Hs).
Qed.

(** A state-independent fact of the precondition. *)
Lemma spec_pure {A} (I : ba_solver -> Prop) (F : Prop) (m : M A) Q :
  (F -> spec I m Q) -> spec (fun s => I s /\ F) m Q.
Proof. intros H s [Hs HF]. exact (H HF s Hs). Qed.

Lemma u32_pred_zero : u32 (0 - 1) = UINT_MAX.
Proof. reflexivity. Qed.

Lemma u32_nonneg z : 0 <= u32 z.
Proof. unfold u32. apply Z.mod_pos_bound. reflexivity. Qed.

Section ResolverSteps.
Context {E : externals}.
Context (c0 : solver.t) (I : ba_solver -> Prop).
Context (HI : resolver_inv c0 I) (Hc0 : core_ok c0).

Let n := length (solver.m_trail c0).

Lemma I_trail s : I s -> solver.m_trail (m_solver s) = solver.m_trail c0.
Proof.
  intros Hs. destruct HI as (_ & _ & H).
  now destruct (erase_marks_fields _ _ (H s Hs)) as (_ & _ & _ & Ht & _).
Qed.

Lemma I_inconsistent s : I s -> solver.m_inconsistent (m_solver s) = true.
Proof.
  intros Hs. destruct HI as (_ & _ & H).
  destruct (erase_marks_fields _ _ (H s Hs)) as (_ & _ & _ & _ & Hi & _).
  rewrite Hi. apply Hc0.
Qed.

Lemma inv_steady f : (forall s, steady s (f s)) -> inv I (modify f).
Proof.
  intros H. apply inv_modify. intros s Hs.
  destruct HI as (Hst & _ & _). exact (Hst s (f s) (H s) Hs).
Qed.

Ltac steady_leaf := apply inv_steady; intros; repeat split; reflexivity.

Lemma inv_latch_overflow : inv I latch_overflow.
Proof. apply inv_modify. intros s Hs. destruct HI as (_ & Hl & _). exact (Hl s Hs). Qed.

Lemma inv_set_coeff v c : inv I (set_coeff v c).
Proof. unfold set_coeff. steady_leaf. Qed.

Lemma inv_normalize_active_coeffs : inv I normalize_active_coeffs.
Proof. unfold normalize_active_coeffs. steady_leaf. Qed.

Hint Resolve inv_latch_overflow inv_set_coeff inv_normalize_active_coeffs : inv.
Hint Extern 2 (inv _ (modify _)) => steady_leaf : inv.

Lemma inv_inc_bound i : inv I (inc_bound i).
Proof. unfold inc_bound. inv_auto. Qed.
Hint Resolve inv_inc_bound : inv.

Lemma inv_inc_coeff l offset : inv I (inc_coeff l offset).
Proof. unfold inc_coeff. cbv zeta. inv_auto. Qed.

Lemma inv_get_abs_coeff v : inv I (get_abs_coeff v).
Proof. unfold get_abs_coeff. inv_auto. Qed.

Lemma inv_get_int_coeff v : inv I (get_int_coeff v).
Proof. unfold get_int_coeff. inv_auto. Qed.

Lemma inv_reset_coeffs : inv I reset_coeffs.
Proof. unfold reset_coeffs. inv_auto. Qed.

Hint Resolve inv_inc_coeff inv_get_abs_coeff inv_get_int_coeff inv_reset_coeffs : inv.

Lemma inv_r_put_constraint idx c : inv I (put_constraint idx c).
Proof. unfold put_constraint. steady_leaf. Qed.

Lemma inv_r_index2constraint idx : inv I (index2constraint idx).
Proof. unfold index2constraint. inv_auto. Qed.
Hint Resolve inv_r_put_constraint inv_r_index2constraint : inv.

Lemma inv_r_to_card idx : inv I (to_card idx).
Proof. unfold to_card. inv_auto. Qed.

Lemma inv_r_to_xor idx : inv I (to_xor idx).
Proof. unfold to_xor. inv_auto. Qed.
Hint Resolve inv_r_to_card inv_r_to_xor : inv.

Lemma inv_r_card_at idx i : inv I (card_at idx i).
Proof. unfold card_at. inv_auto. Qed.

Lemma inv_r_xor_at idx i : inv I (xor_at idx i).
Proof. unfold xor_at. inv_auto. Qed.

Lemma inv_r_xor_swap idx i j : inv I (xor_swap idx i j).
Proof. unfold xor_swap. inv_auto. Qed.

Lemma inv_inc_parity v : inv I (inc_parity v).
Proof. unfold inc_parity. steady_leaf. Qed.

Lemma inv_reset_parity v : inv I (reset_parity v).
Proof. unfold reset_parity. steady_leaf. Qed.

Lemma inv_trail_at i : inv I (trail_at i).
Proof. unfold trail_at. inv_auto. Qed.

Lemma inv_get_clause off : inv I (get_clause off).
Proof. unfold get_clause. inv_auto. Qed.

Hint Resolve inv_r_card_at inv_r_xor_at inv_r_xor_swap inv_inc_parity inv_reset_parity
  inv_trail_at inv_get_clause : inv.

Lemma inv_cut_has_unit vs : inv I (cut_has_unit vs).
Proof. induction vs as [|v vs IH]; simpl; inv_auto. Qed.

Lemma inv_cut_gcd vs : forall g, inv I (cut_gcd vs g).
Proof. induction vs as [|v vs IH]; intros g; simpl; inv_auto. Qed.
Hint Resolve inv_cut_has_unit inv_cut_gcd : inv.

Lemma inv_cut : inv I cut.
Proof. unfold cut. inv_auto. Qed.

Lemma inv_active2card_wlits vs : inv I (active2card_wlits vs).
Proof. induction vs as [|v vs IH]; simpl; inv_auto. Qed.

Hint Resolve inv_cut inv_active2card_wlits : inv.

(** The trail is read inside its bounds, or the behaviour is undefined. *)
Lemma spec_trail_at i :
  spec I (trail_at i) (fun _ s => I s /\ 0 <= i < Z.of_nat n).
Proof.
  unfold trail_at. apply spec_bind_gets_inv. intros t (s & Hs & <-).
  rewrite (I_trail s Hs). unfold at_. fold n.
  destruct (Z.leb_spec 0 i); cbn [andb]; [|apply spec_undefined].
  destruct (Z.ltb_spec i (Z.of_nat n)); [|apply spec_undefined].
  destruct (nth_error _ _); [|apply spec_undefined].
  apply spec_ret. intros s' Hs'. split; [exact Hs' | lia].
Qed.

Lemma n_le_UINT_MAX : Z.of_nat n <= UINT_MAX.
Proof. apply Hc0. Qed.

(** The position below [index], as [--index] computes it. *)
Lemma pred_index index fuel :
  0 <= index < Z.of_nat n ->
  index + 2 <= Z.of_nat (S fuel) ->
  (1 <= fuel)%nat /\
  (u32 (index - 1) < Z.of_nat n ->
   u32 (index - 1) = index - 1 /\ u32 (index - 1) + 2 <= Z.of_nat fuel).
Proof.
  intros Hi Hf. pose proof n_le_UINT_MAX as Hn. split; [lia|].
  destruct (Z.eq_dec index 0) as [->|Hnz].
  - rewrite u32_pred_zero. lia.
  - rewrite u32_id by (unfold is_u32; lia). lia.
Qed.

(** The inner loop of [get_xor_antecedents] terminates: it moves down the
    trail. *)
Lemma spec_xor_antecedents_walk fuel : forall l nm index,
  0 <= nm -> (1 <= fuel)%nat ->
  (index < Z.of_nat n -> index + 2 <= Z.of_nat fuel) ->
  spec I (xor_antecedents_walk fuel l nm index)
       (fun r s => I s /\ 0 <= snd (fst r) /\
                   (0 < snd (fst r) -> 0 <= snd r <= index /\ index < Z.of_nat n)).
Proof.
  induction fuel as [|fuel IH]; intros l nm index Hnm Hf Hidx; [lia|].
  cbn [xor_antecedents_walk].
  destruct (Z.ltb_spec 0 nm) as [Hpos|Hnpos].
  2:{ apply spec_ret. intros s Hs. cbn [fst snd]. split; [exact Hs|]. split; [lia|lia]. }
  eapply spec_bind; [apply spec_trail_at|]. intros l'. cbv beta.
  apply spec_pure. intros Hin.
  destruct (pred_index index fuel Hin (Hidx (proj2 Hin))) as (Hf' & Hpred).
  apply spec_bind_gets_inv. intros p _.
  destruct (0 <? p).
  - apply spec_bind_inv; [auto with inv|]. intros _.
    destruct (p mod 2 =? 1).
    + apply spec_ret. intros s Hs. cbn [fst snd]. split; [exact Hs|]. lia.
    + eapply spec_weaken; [apply (IH l' (u32 (nm - 1)) (u32 (index - 1)))| |].
      * apply u32_nonneg.
      * exact Hf'.
      * intros H. apply Hpred, H.
      * auto.
      * intros r s (Hs & H0 & H1). split; [exact Hs|]. split; [exact H0|].
        intros Hr. destruct (H1 Hr) as (Ha & Hb).
        destruct (Hpred Hb) as (He & _). lia.
  - eapply spec_weaken; [apply (IH l' nm (u32 (index - 1)))| |].
    * exact Hnm.
    * exact Hf'.
    * intros H. apply Hpred, H.
    * auto.
    * intros r s (Hs & H0 & H1). split; [exact Hs|]. split; [exact H0|].
      intros Hr. destruct (H1 Hr) as (Ha & Hb).
      destruct (Hpred Hb) as (He & _). lia.
Qed.

(** The outer loop of [get_xor_antecedents] terminates as well. *)
Lemma spec_xor_antecedents_loop fuel : forall l nm index js,
  0 <= nm -> (1 <= fuel)%nat ->
  (index < Z.of_nat n -> index + 2 <= Z.of_nat fuel) ->
  inv I (xor_antecedents_loop fuel l nm index js).
Proof.
  induction fuel as [|fuel IH]; intros l nm index js Hnm Hf Hidx; [lia|].
  cbn [xor_antecedents_loop]. cbv zeta.
  eapply spec_bind with (R := fun nm2 s => I s /\ 0 <= nm2).
  - assert (Hpush : spec I
              (modify (fun s => set_m_lemma (m_lemma s ++ [l]) s) ;; ret nm)
              (fun nm2 s => I s /\ 0 <= nm2)).
    { apply spec_bind_inv; [auto with inv|]. intros _.
      apply spec_ret. intros s Hs. split; assumption. }
    destruct js; try exact Hpush.
    apply spec_bind_inv; [auto with inv|]. intros c.
    destruct c; try exact Hpush.
    repeat (apply spec_bind_inv; [solve [inv_auto] | intros ?]).
    apply spec_ret. intros s Hs. split; [exact Hs | apply u32_nonneg].
  - intros nm2. apply spec_pure. intros Hnm2.
    apply spec_bind_gets_inv. intros len (s & Hs & <-).
    rewrite (I_trail s Hs). fold n.
    eapply spec_bind.
    { apply (spec_xor_antecedents_walk (S (S n)) l nm2 index Hnm2); lia. }
    intros [[l' nm'] index']. cbn [fst snd].
    apply spec_pure. intros (Hnm' & Hpos).
    destruct (Z.eqb_spec nm' 0) as [_|Hnz]; [apply inv_ret|].
    apply spec_bind_gets_inv. intros js' _.
    destruct (Hpos ltac:(lia)) as (Hi & Hlt).
    destruct (pred_index index' fuel ltac:(lia) ltac:(specialize (Hidx Hlt); lia))
      as (Hf' & Hpred).
    apply IH; [apply u32_nonneg | exact Hf' | intros H; apply Hpred, H].
Qed.

Lemma inv_get_xor_antecedents l index js : inv I (get_xor_antecedents l index js).
Proof.
  unfold get_xor_antecedents.
  apply spec_bind_gets_inv. intros len (s & Hs & <-).
  rewrite (I_trail s Hs). fold n.
  apply inv_bind; [apply spec_xor_antecedents_loop; lia|]. intros _.
  inv_auto.
Qed.

End ResolverSteps.

(** *** [create_asserting_lemma] passes its label at most twice *)

Definition latch_if (b : bool) (s : ba_solver) : ba_solver := if b then latch s else s.

Lemma latch_if_twice b b' s : latch_if b' (latch_if b s) = latch_if (b || b') s.
Proof. destruct b, b'; reflexivity. Qed.

(** The value of [get_abs_coeff(v)]. *)
Definition abs_coeff (coeffs : bool_var -> Z) (v : bool_var) : Z :=
  if (coeffs v <? INT_MIN + 1) || (UINT_MAX <? coeffs v) then UINT_MAX
  else Z.abs (coeffs v).

(** The value of the first loop of [create_asserting_lemma]. *)
Fixpoint sum_abs (coeffs : bool_var -> Z) (vs : list bool_var) (slack : Z) : Z :=
  match vs with
  | [] => slack
  | v :: vs' => sum_abs coeffs vs' (slack + abs_coeff coeffs v)
  end.

(** The value of its main loop, which reads the coefficients, the core and
    the conflict level, and writes nothing but the overflow flag. *)
Fixpoint asserting_loop (coeffs : bool_var -> Z) (c : solver.t) (clvl : Z)
  (vs : list bool_var) (st : asserting) : asserting :=
  match vs with
  | [] => st
  | v :: vs' =>
      if 0 <=? as_slack st then
        let coeff := coeffs v in
        let val := solver.value c (mk_literal v false) in
        let is_true := lbool_eqb val l_true in
        let append := negb (coeff =? 0) && negb (lbool_eqb val l_undef) &&
                      Bool.eqb (coeff <? 0) is_true in
        if append then
          let lit := mk_literal v (negb is_true) in
          if solver.lvl c (var lit) =? clvl then
            if is_null (as_lemma0 st) then
              asserting_loop coeffs c clvl vs'
                (mk_asserting (as_slack st - Z.abs coeff) (Z.abs coeff) (neg lit)
                              (as_rest st))
            else if as_coeff st <? Z.abs coeff then
              asserting_loop coeffs c clvl vs'
                (mk_asserting (as_slack st - (Z.abs coeff - as_coeff st)) (Z.abs coeff)
                              (neg lit) (as_rest st))
            else asserting_loop coeffs c clvl vs' st
          else
            asserting_loop coeffs c clvl vs'
              (mk_asserting (as_slack st - Z.abs coeff) (as_coeff st) (as_lemma0 st)
                            (as_rest st ++ [neg lit]))
        else asserting_loop coeffs c clvl vs' st
      else st
  end.

Lemma get_abs_coeff_run v s :
  exists b, get_abs_coeff v s = Ret (abs_coeff (m_coeffs s) v) (latch_if b s).
Proof.
  unfold get_abs_coeff, abs_coeff, get_coeff. cbv [bind gets].
  destruct ((m_coeffs s v <? INT_MIN + 1) || (UINT_MAX <? m_coeffs s v)).
  - exists true. reflexivity.
  - exists false. reflexivity.
Qed.

Lemma sum_abs_coeffs_run vs : forall slack s,
  exists b, sum_abs_coeffs vs slack s = Ret (sum_abs (m_coeffs s) vs slack) (latch_if b s).
Proof.
  induction vs as [|v vs IH]; intros slack s; cbn [sum_abs_coeffs sum_abs].
  - exists false. reflexivity.
  - destruct (get_abs_coeff_run v s) as (b & Hb).
    rewrite (bind_eq _ _ _ _ _ Hb).
    destruct (IH (slack + abs_coeff (m_coeffs s) v) (latch_if b s)) as (b' & Hb').
    exists (b || b'). rewrite Hb', latch_if_twice.
    destruct b; reflexivity.
Qed.

Lemma create_asserting_lemma_loop_run vs : forall st s,
  exists b,
    create_asserting_lemma_loop vs st s =
    Ret (asserting_loop (m_coeffs s) (m_solver s) (m_conflict_lvl s) vs st) (latch_if b s).
Proof.
  induction vs as [|v vs IH]; intros st s;
    cbn [create_asserting_lemma_loop asserting_loop].
  - exists false. reflexivity.
  - destruct (0 <=? as_slack st); [|exists false; reflexivity].
    erewrite bind_eq by reflexivity. cbv zeta.
    unfold get_coeff, value, lvl.
    destruct (negb (m_coeffs s v =? 0) &&
              negb (lbool_eqb (solver.value (m_solver s) (mk_literal v false)) l_undef) &&
              Bool.eqb (m_coeffs s v <? 0)
                (lbool_eqb (solver.value (m_solver s) (mk_literal v false)) l_true)).
    + destruct (get_abs_coeff_run v s) as (b & Hb).
      rewrite (bind_eq _ _ _ _ _ Hb).
      assert (Hstep : forall st',
                exists b',
                  create_asserting_lemma_loop vs st' (latch_if b s) =
                  Ret (asserting_loop (m_coeffs s) (m_solver s) (m_conflict_lvl s) vs st')
                      (latch_if b' s)).
      { intros st'. destruct (IH st' (latch_if b s)) as (b' & Hb').
        exists (b || b'). rewrite Hb', latch_if_twice. destruct b; reflexivity. }
      destruct (_ =? m_conflict_lvl s); [|apply Hstep].
      destruct (is_null (as_lemma0 st)); [apply Hstep|].
      destruct (as_coeff st <? _); apply Hstep.
    + apply IH.
Qed.

Lemma appended_not_null c v b :
  solver.m_assignment c null_bool_var = l_undef ->
  lbool_eqb (solver.value c (mk_literal v false)) l_undef = false ->
  is_null (mk_literal v b) = false.
Proof.
  intros Hn Hv. unfold is_null, literal_eqb. cbn [var sign null_literal].
  destruct (Z.eqb_spec v null_bool_var) as [->|_]; [|reflexivity].
  unfold solver.value in Hv. cbn [var sign] in Hv. rewrite Hn in Hv. discriminate Hv.
Qed.

(** Once [m_lemma[0]] is set, it stays set. *)
Lemma asserting_loop_keeps_lemma0 coeffs c clvl vs :
  solver.m_assignment c null_bool_var = l_undef ->
  forall st,
    is_null (as_lemma0 st) = false ->
    is_null (as_lemma0 (asserting_loop coeffs c clvl vs st)) = false.
Proof.
  intros Hn. induction vs as [|v vs IH]; intros st Hst; cbn [asserting_loop]; [exact Hst|].
  destruct (0 <=? as_slack st); [|exact Hst]. cbv zeta.
  destruct (negb (coeffs v =? 0)); cbn [andb]; [|now apply IH].
  destruct (lbool_eqb (solver.value c (mk_literal v false)) l_undef) eqn:Hu;
    cbn [andb negb]; [now apply IH|].
  destruct (Bool.eqb _ _); [|now apply IH].
  destruct (_ =? clvl).
  - rewrite Hst. destruct (as_coeff st <? _); apply IH; [|exact Hst].
    cbn [as_lemma0 neg var sign]. now apply appended_not_null with (c := c).
  - apply IH. exact Hst.
Qed.

(** The second pass through [adjust_conflict_level] sees every literal that
    the first pass pushed, so it meets one of the new conflict level. *)
Lemma second_pass_sim coeffs c L1 L2 vs :
  solver.m_assignment c null_bool_var = l_undef ->
  forall st1 st2,
    is_null (as_lemma0 st1) = true ->
    as_slack st1 <= as_slack st2 -> 0 <= as_coeff st2 ->
    (forall l, In l (as_rest st1) -> solver.lvl c (var l) = L2 ->
               is_null (as_lemma0 st2) = false) ->
    is_null (as_lemma0 (asserting_loop coeffs c L1 vs st1)) = true ->
    forall l, In l (as_rest (asserting_loop coeffs c L1 vs st1)) ->
              solver.lvl c (var l) = L2 ->
              is_null (as_lemma0 (asserting_loop coeffs c L2 vs st2)) = false.
Proof.
  intros Hn. induction vs as [|v vs IH]; intros st1 st2 H1 Hsl Hco Hrest;
    cbn [asserting_loop].
  - intros _. exact Hrest.
  - destruct (Z.leb_spec 0 (as_slack st1)) as [Hs1|Hs1].
    2:{ intros _ l Hl Hlv.
        apply (asserting_loop_keeps_lemma0 coeffs c L2 (v :: vs) Hn st2).
        exact (Hrest l Hl Hlv). }
    destruct (Z.leb_spec 0 (as_slack st2)) as [_|Hs2]; [|lia].
    cbv zeta.
    destruct (negb (coeffs v =? 0)); cbn [andb]; [|now apply IH].
    destruct (lbool_eqb (solver.value c (mk_literal v false)) l_undef) eqn:Hu;
      cbn [andb negb]; [now apply IH|].
    destruct (Bool.eqb _ _); [|now apply IH].
    set (lit := mk_literal v (negb (lbool_eqb (solver.value c (mk_literal v false)) l_true))).
    assert (Hnn : is_null (neg lit) = false).
    { cbn [neg lit var sign]. now apply appended_not_null with (c := c). }
    destruct (Z.eqb_spec (solver.lvl c (var lit)) L1) as [HL1|HL1].
    { (* the first pass would have set [m_lemma[0]] *)
      rewrite H1. intros Hf. exfalso.
      rewrite asserting_loop_keeps_lemma0 in Hf; [discriminate Hf | exact Hn | exact Hnn]. }
    pose proof (Z.abs_nonneg (coeffs v)) as Habs.
    destruct (Z.eqb_spec (solver.lvl c (var lit)) L2) as [HL2|HL2].
    + destruct (is_null (as_lemma0 st2)) eqn:H2.
      * apply IH; cbn [as_lemma0 as_slack as_coeff as_rest];
          [exact H1 | lia | lia | intros; exact Hnn].
      * destruct (Z.ltb_spec (as_coeff st2) (Z.abs (coeffs v))).
        -- apply IH; cbn [as_lemma0 as_slack as_coeff as_rest];
             [exact H1 | lia | lia | intros; exact Hnn].
        -- apply IH; cbn [as_lemma0 as_slack as_coeff as_rest];
             [exact H1 | lia | lia | intros; exact H2].
    + apply IH; cbn [as_lemma0 as_slack as_coeff as_rest]; [exact H1 | lia | lia |].
      intros l Hl Hlv. apply in_app_or in Hl. destruct Hl as [Hl|[<-|[]]].
      * exact (Hrest l Hl Hlv).
      * cbn [neg var] in Hlv. contradiction.
Qed.

Lemma max_lvl_ge c rest : forall m0 l,
  In l rest ->
  solver.lvl c (var l) <= fold_left (fun m l => Z.max m (solver.lvl c (var l))) rest m0.
Proof.
  induction rest as [|x r IH]; intros m0 l Hl; [destruct Hl|].
  cbn [fold_left]. destruct Hl as [<-|Hl]; [|now apply IH].
  clear IH. generalize (Z.max m0 (solver.lvl c (var x))) (Z.le_max_r m0 (solver.lvl c (var x))).
  induction r as [|y r IH]; intros m Hm; cbn [fold_left]; [exact Hm|].
  apply IH. lia.
Qed.

Lemma max_lvl_cases c rest : forall m0,
  let m := fold_left (fun m l => Z.max m (solver.lvl c (var l))) rest m0 in
  m = m0 \/ exists l, In l rest /\ solver.lvl c (var l) = m.
Proof.
  induction rest as [|x r IH]; intros m0; cbn [fold_left]; [now left|].
  destruct (IH (Z.max m0 (solver.lvl c (var x)))) as [He|(l & Hl & He)].
  - cbv zeta. rewrite He.
    destruct (Z.max_spec m0 (solver.lvl c (var x))) as [(_ & ->)|(_ & ->)].
    + right. exists x. split; [now left | reflexivity].
    + now left.
  - right. exists l. split; [now right | exact He].
Qed.

(** The new conflict level is the level of one of the pushed literals. *)
Lemma max_lvl_attained c rest :
  (forall v, 0 <= solver.lvl c v) -> rest <> [] ->
  exists l, In l rest /\
            solver.lvl c (var l) =
            fold_left (fun m l => Z.max m (solver.lvl c (var l))) rest 0.
Proof.
  intros Hnn Hne. destruct (max_lvl_cases c rest 0) as [He|H]; [|exact H].
  destruct rest as [|x r]; [contradiction|].
  exists x. split; [now left|].
  pose proof (max_lvl_ge c (x :: r) 0 x (or_introl eq_refl)) as Hge.
  specialize (Hnn (var x)). lia.
Qed.

(** The loop state at the end of a pass of [create_asserting_lemma]
    started in [s], and the state the pass leaves. *)
Definition pass_result (s : ba_solver) : asserting :=
  asserting_loop (m_coeffs s) (m_solver s) (m_conflict_lvl s) (m_active_vars s)
    (mk_asserting (sum_abs (m_coeffs s) (m_active_vars s) (- m_bound s)) 0 null_literal []).

Definition pass_state (b : bool) (s : ba_solver) : ba_solver :=
  set_m_lemma (as_lemma0 (pass_result s) :: as_rest (pass_result s)) (latch_if b s).

Lemma create_asserting_lemma_from_run {E : externals} fuel s :
  exists b,
    create_asserting_lemma_from (S fuel) s =
    (let st := pass_result s in
     if 0 <=? as_slack st then ret false
     else if is_null (as_lemma0 st) then
       match as_rest st with
       | [] => s_modify (solver.set_conflict NONE null_literal) ;; ret false
       | rest =>
           s <- gets (fun s => s) ;;
           modify (set_m_conflict_lvl (fold_left (fun m l => Z.max m (lvl s l)) rest 0)) ;;
           create_asserting_lemma_from fuel
       end
     else ret true) (pass_state b s).
Proof.
  cbn [create_asserting_lemma_from].
  erewrite bind_eq by reflexivity. erewrite bind_eq by reflexivity.
  destruct (sum_abs_coeffs_run (m_active_vars s) (- m_bound s) s) as (b1 & H1).
  rewrite (bind_eq _ _ _ _ _ H1).
  erewrite bind_eq by reflexivity.
  match goal with |- context [create_asserting_lemma_loop ?vs ?st] =>
    destruct (create_asserting_lemma_loop_run vs st
                (set_m_lemma [null_literal] (latch_if b1 s))) as (b2 & H2)
  end.
  rewrite (bind_eq _ _ _ _ _ H2).
  erewrite bind_eq by reflexivity.
  exists (b1 || b2). destruct b1, b2; reflexivity.
Qed.

Section AssertingLemma.
Context {E : externals}.
Context (c0 : solver.t) (I : ba_solver -> Prop).
Context (HI : resolver_inv c0 I) (Hc0 : core_ok c0).

Lemma I_core_ok s : I s -> core_ok (m_solver s).
Proof.
  intros Hs. destruct HI as (_ & _ & H).
  exact (core_ok_erase _ _ (H s Hs) Hc0).
Qed.

Lemma I_latch_if b s : I s -> I (latch_if b s).
Proof. destruct b; [apply HI | auto]. Qed.

Lemma I_pass_state b s : I s -> I (pass_state b s).
Proof.
  intros Hs. destruct HI as (Hst & _ & _).
  apply (Hst (latch_if b s)); [repeat split | now apply I_latch_if].
Qed.

(** [create_asserting_lemma] returns after at most two passes. *)
Lemma inv_create_asserting_lemma : inv I create_asserting_lemma.
Proof.
  intros s Hs. unfold create_asserting_lemma.
  destruct (create_asserting_lemma_from_run 1 s) as (b & ->).
  pose proof (I_pass_state b s Hs) as Hs'. cbv zeta.
  destruct (0 <=? as_slack (pass_result s)); [exact Hs'|].
  destruct (is_null (as_lemma0 (pass_result s))) eqn:Hnull; [|exact Hs'].
  destruct (as_rest (pass_result s)) as [|x r] eqn:Hrest.
  - cbv [bind s_modify modify ret]. unfold solver.set_conflict.
    rewrite (I_inconsistent c0 I HI Hc0 _ Hs').
    destruct HI as (Hst & _ & _).
    apply (Hst (pass_state b s)); [repeat split | exact Hs'].
  - erewrite bind_eq by reflexivity. erewrite bind_eq by reflexivity.
    set (L2 := fold_left (fun m l => Z.max m (lvl (pass_state b s) l)) (x :: r) 0).
    set (s2 := set_m_conflict_lvl L2 (pass_state b s)).
    assert (Hs2 : I s2).
    { destruct HI as (Hst & _ & _).
      apply (Hst (pass_state b s)); [repeat split | exact Hs']. }
    destruct (create_asserting_lemma_from_run 0 s2) as (b2 & ->).
    pose proof (I_pass_state b2 s2 Hs2) as Hs2'. cbv zeta.
    destruct (0 <=? as_slack (pass_result s2)); [exact Hs2'|].
    replace (is_null (as_lemma0 (pass_result s2))) with false; [exact Hs2'|].
    symmetry.
    destruct (I_core_ok s Hs) as (_ & Hlv & _ & _ & Hn).
    destruct (max_lvl_attained (m_solver s) (x :: r) Hlv ltac:(discriminate))
      as (l & Hl & Hlmax).
    replace (pass_result s2)
      with (asserting_loop (m_coeffs s) (m_solver s) L2 (m_active_vars s)
              (mk_asserting (sum_abs (m_coeffs s) (m_active_vars s) (- m_bound s))
                            0 null_literal []))
      by (destruct b; reflexivity).
    apply (second_pass_sim (m_coeffs s) (m_solver s) (m_conflict_lvl s) L2
             (m_active_vars s) Hn
             (mk_asserting (sum_abs (m_coeffs s) (m_active_vars s) (- m_bound s))
                           0 null_literal [])
             (mk_asserting (sum_abs (m_coeffs s) (m_active_vars s) (- m_bound s))
                           0 null_literal [])) with (l := l).
    + reflexivity.
    + cbn [as_slack]. lia.
    + cbn [as_coeff]. lia.
    + intros l' [].
    + exact Hnull.
    + fold (pass_result s). rewrite Hrest. exact Hl.
    + rewrite Hlmax. unfold L2. destruct b; reflexivity.
Qed.

End AssertingLemma.

(** *** The invariants of a run *)

Section Resolution.
Context {E : externals}.
Variable s0 : ba_solver.
Hypothesis Hok : core_ok (m_solver s0).

(** Holds from the entry of [resolve_conflict] on: nothing but marks has
    changed since [s0], the marks are counted, and [_debug_conflict] is not
    cleared. *)
Definition base (s : ba_solver) : Prop :=
  same_but_marks s0 s /\ marks_counted s /\
  (debug_conflict s0 = true -> debug_conflict s = true).

(** Holds until the label [bail_out]: the flag has been latched only if
    [m_overflow] is set. *)
Definition running (s : ba_solver) : Prop :=
  base s /\ (overflow_latched s = true -> m_overflow s = true).

(** Holds after the main loop: no mark is left. *)
Definition resolved (s : ba_solver) : Prop :=
  running s /\ m_num_marks s <= 0.

Lemma base_fields s s' :
  m_solver s' = m_solver s -> m_num_marks s' = m_num_marks s ->
  m_learned s' = m_learned s -> m_constraints s' = m_constraints s ->
  m_alloc_top s' = m_alloc_top s -> debug_conflict s' = debug_conflict s ->
  base s -> base s'.
Proof.
  intros e1 e2 e3 e4 e5 e6 ((F1 & F2 & F3 & F4) & K & D).
  unfold base, same_but_marks, marks_counted.
  rewrite e1, e2, e3, e4, e5, e6. repeat split; assumption.
Qed.

Lemma base_steady s s' : steady s s' -> base s -> base s'.
Proof.
  intros (e1 & e2 & e3 & e4 & e5 & e6 & _). now apply base_fields.
Qed.

Lemma running_steady s s' : steady s s' -> running s -> running s'.
Proof.
  intros Hst (Hb & Hj). split; [exact (base_steady s s' Hst Hb)|].
  destruct Hst as (_ & _ & _ & _ & _ & _ & e7 & e8). now rewrite e7, e8.
Qed.

Lemma running_inv : resolver_inv (m_solver s0) running.
Proof.
  split; [exact running_steady|]. split.
  - intros s (Hb & _). split; [|reflexivity].
    now apply (base_fields s).
  - intros s (((H & _) & _) & _). exact H.
Qed.

Lemma resolved_inv : resolver_inv (m_solver s0) resolved.
Proof.
  destruct running_inv as (R1 & R2 & R3). split; [|split].
  - intros s s' Hst (Hr & Hn). split; [exact (R1 s s' Hst Hr)|].
    destruct Hst as (_ & e2 & _). now rewrite e2.
  - intros s (Hr & Hn). split; [exact (R2 s Hr) | exact Hn].
  - intros s (Hr & _). exact (R3 s Hr).
Qed.

Lemma base_trail s : base s -> trail_vars (m_solver s) = trail_vars (m_solver s0).
Proof.
  intros ((H & _) & _). unfold trail_vars.
  now destruct (erase_marks_fields _ _ H) as (_ & _ & _ & -> & _).
Qed.

Lemma base_marks_bound s L :
  base s -> NoDup L -> incl L (trail_vars (m_solver s)) ->
  Z.of_nat (length L) <= UINT_MAX.
Proof.
  intros Hb Hnd Hincl. pose proof (NoDup_incl_length Hnd Hincl) as Hlen.
  rewrite (base_trail s Hb) in Hlen. unfold trail_vars in Hlen.
  rewrite length_map in Hlen. destruct Hok as (_ & _ & Hn & _). lia.
Qed.

(** The two assignments of [process_antecedent] that mark a variable. *)
Definition marked_state (v : bool_var) (s : ba_solver) : ba_solver :=
  let s1 := set_m_solver (solver.mark v (m_solver s)) s in
  set_m_num_marks (u32 (m_num_marks s1 + 1)) s1.

(** The two assignments that take a mark away. *)
Definition unmarked_state (v : bool_var) (s : ba_solver) : ba_solver :=
  let s1 := set_m_solver (solver.reset_mark v (m_solver s)) s in
  set_m_num_marks (u32 (m_num_marks s1 - 1)) s1.

Lemma base_mark s v :
  base s -> 0 < solver.lvl (m_solver s) v ->
  solver.is_marked (m_solver s) v = false ->
  base (marked_state v s).
Proof.
  intros Hb Hlvl Hum. pose proof Hb as ((F1 & F2 & F3 & F4) & (L & Hnd & Hm & Hincl & Hnum) & D).
  split; [|split].
  - repeat split; assumption.
  - exists (v :: L).
    assert (HvL : ~ In v L) by (rewrite <- Hm; congruence).
    assert (Hvt : In v (trail_vars (m_solver s))).
    { rewrite (base_trail s Hb). destruct Hok as (Hpos & _). apply Hpos.
      destruct (erase_marks_fields _ _ F1) as (_ & Hl & _).
      unfold solver.lvl in *. now rewrite <- Hl. }
    assert (Hincl' : incl (v :: L) (trail_vars (m_solver s))).
    { intros w [<-|Hw]; [exact Hvt | now apply Hincl]. }
    assert (Hnd' : NoDup (v :: L)) by now constructor.
    split; [exact Hnd'|]. split; [|split; [exact Hincl'|]].
    + intros w. unfold marked_state, solver.is_marked, solver.mark, solver.set_mark.
      cbn [m_solver set_m_solver set_m_num_marks solver.m_mark]. unfold solver.upd.
      destruct (Z.eqb_spec w v) as [->|Hne].
      * split; [now left | reflexivity].
      * rewrite (Hm w). split; [now right | intros [->|H]; [contradiction | exact H]].
    + pose proof (base_marks_bound s (v :: L) Hb Hnd' Hincl') as Hbound.
      unfold marked_state. cbn [m_num_marks set_m_solver set_m_num_marks].
      rewrite Hnum. cbn [length] in *.
      rewrite u32_id by (unfold is_u32; lia). lia.
  - exact D.
Qed.

Lemma base_unmark s v :
  base s -> solver.is_marked (m_solver s) v = true -> base (unmarked_state v s).
Proof.
  intros Hb Hmk. pose proof Hb as ((F1 & F2 & F3 & F4) & (L & Hnd & Hm & Hincl & Hnum) & D).
  split; [|split].
  - repeat split; assumption.
  - apply Hm in Hmk. destruct (in_split _ _ Hmk) as (l1 & l2 & ->).
    pose proof (NoDup_remove_1 _ _ _ Hnd) as Hnd'.
    pose proof (NoDup_remove_2 _ _ _ Hnd) as Hnin.
    exists (l1 ++ l2). split; [exact Hnd'|]. split; [|split].
    + intros w. unfold unmarked_state, solver.is_marked, solver.reset_mark, solver.set_mark.
      cbn [m_solver set_m_solver set_m_num_marks solver.m_mark]. unfold solver.upd.
      destruct (Z.eqb_spec w v) as [->|Hne].
      * split; [discriminate | contradiction].
      * rewrite (Hm w), !in_app_iff. cbn [In].
        split; [intros [H|[H|H]]; [now left | congruence | now right] | tauto].
    + intros w Hw. apply Hincl. rewrite in_app_iff in *. cbn [In]. tauto.
    + pose proof (base_marks_bound s _ Hb Hnd Hincl) as Hbound.
      unfold unmarked_state. cbn [m_num_marks set_m_solver set_m_num_marks].
      rewrite Hnum. rewrite !length_app in *. cbn [length] in *.
      rewrite u32_id by (unfold is_u32; lia). lia.
  - exact D.
Qed.

Lemma running_mark s v :
  running s -> 0 < solver.lvl (m_solver s) v ->
  solver.is_marked (m_solver s) v = false ->
  running (marked_state v s).
Proof. intros (Hb & Hj) H1 H2. split; [now apply base_mark | exact Hj]. Qed.

Lemma running_unmark s v :
  running s -> solver.is_marked (m_solver s) v = true -> running (unmarked_state v s).
Proof. intros (Hb & Hj) H1. split; [now apply base_unmark | exact Hj]. Qed.

(** When the counter is zero no variable is marked. *)
Lemma base_no_marks s : base s -> m_num_marks s <= 0 -> no_marks s.
Proof.
  intros (_ & (L & _ & Hm & _ & Hnum) & _) Hz v.
  destruct L as [|x L]; [|cbn [length] in Hnum; lia].
  destruct (solver.is_marked (m_solver s) v) eqn:Hv; [|reflexivity].
  apply Hm in Hv. destruct Hv.
Qed.

End Resolution.

Lemma inv_steady_modify (c0 : solver.t) (I : ba_solver -> Prop) f :
  resolver_inv c0 I -> (forall s, steady s (f s)) -> inv I (modify f).
Proof. intros HI. exact (inv_steady c0 I HI f). Qed.

#[local] Hint Resolve inv_latch_overflow inv_set_coeff inv_normalize_active_coeffs
  inv_inc_bound inv_inc_coeff inv_get_abs_coeff inv_get_int_coeff inv_reset_coeffs
  inv_r_put_constraint inv_r_index2constraint inv_r_to_card inv_r_to_xor
  inv_r_card_at inv_r_xor_at inv_r_xor_swap inv_inc_parity inv_reset_parity
  inv_trail_at inv_get_clause inv_cut_has_unit inv_cut_gcd inv_cut
  inv_active2card_wlits inv_get_xor_antecedents inv_create_asserting_lemma
  running_inv resolved_inv : inv.

#[local] Hint Extern 2 (inv _ (modify _)) =>
  eapply inv_steady_modify; [solve [eauto with inv] | intros; repeat split; reflexivity] : inv.

Lemma unmark_steps {A} v (K : M A) s :
  (s_modify (solver.reset_mark v) ;;
   modify (fun s => set_m_num_marks (u32 (m_num_marks s - 1)) s) ;; K) s =
  K (unmarked_state v s).
Proof. reflexivity. Qed.

Section MainLoop.
Context {E : externals}.
Variable s0 : ba_solver.
Hypothesis Hok : core_ok (m_solver s0).

Let n := length (solver.m_trail (m_solver s0)).

Lemma inv_process_antecedent l offset : inv (running s0) (process_antecedent l offset).
Proof.
  unfold process_antecedent. cbv zeta.
  apply spec_bind_gets. intros s1 H1.
  eapply spec_bind with (R := fun _ => running s0).
  - intros s ->.
    destruct ((0 <? lvl s1 l) && negb (solver.is_marked (m_solver s1) (var l)) &&
              (lvl s1 l =? m_conflict_lvl s1)) eqn:Hc; cbn [when]; [|exact H1].
    apply andb_prop in Hc. destruct Hc as (Hc & _).
    apply andb_prop in Hc. destruct Hc as (Hl & Hm).
    apply (running_mark s0 Hok s1 (var l) H1).
    + apply Z.ltb_lt. exact Hl.
    + now destruct (solver.is_marked (m_solver s1) (var l)).
  - intros _. apply (inv_inc_coeff _ _ (running_inv s0)).
Qed.
#[local] Hint Resolve inv_process_antecedent : inv.

Lemma inv_process_card idx offset : inv (running s0) (process_card idx offset).
Proof. unfold process_card. cbv zeta. inv_auto. Qed.
#[local] Hint Resolve inv_process_card : inv.

Lemma inv_resolve_step js consequent offset idx :
  inv (running s0) (resolve_step js consequent offset idx).
Proof. unfold resolve_step. inv_auto. Qed.

Lemma spec_find_marked k :
  spec (running s0) (find_marked k)
       (fun r s => running s0 s /\
                   match r with
                   | Some (k', c) =>
                       (k' <= k)%nat /\ solver.is_marked (m_solver s) (var c) = true
                   | None => True
                   end).
Proof.
  induction k as [|k IH].
  - cbn [find_marked]. apply spec_bind_inv; [eauto with inv|]. intros c.
    apply spec_bind_gets. intros s1 H1.
    destruct (solver.is_marked (m_solver s1) (var c)) eqn:Hm.
    + apply spec_ret. intros s ->. split; [exact H1|]. split; [lia | exact Hm].
    + apply spec_ret. intros s ->. split; [exact H1 | exact I].
  - cbn [find_marked]. apply spec_bind_inv; [eauto with inv|]. intros c.
    apply spec_bind_gets. intros s1 H1.
    destruct (solver.is_marked (m_solver s1) (var c)) eqn:Hm.
    + apply spec_ret. intros s ->. split; [exact H1|]. split; [lia | exact Hm].
    + eapply spec_weaken; [exact IH | intros s ->; exact H1 |].
      intros [[k' c']|] s (Hs & Hr); (split; [exact Hs|]); [|exact I].
      destruct Hr as (Hk & Hmk). split; [lia | exact Hmk].
Qed.

Lemma spec_find_marked_from idx :
  0 <= idx ->
  spec (running s0) (find_marked_from idx)
       (fun r s => running s0 s /\
                   match r with
                   | Some (k, c) =>
                       Z.of_nat k <= idx < Z.of_nat n /\
                       solver.is_marked (m_solver s) (var c) = true
                   | None => True
                   end).
Proof.
  intros Hidx. unfold find_marked_from.
  apply spec_bind_gets_inv. intros len (s & Hs & <-).
  rewrite (I_trail _ _ (running_inv s0) s Hs). fold n.
  destruct (Z.ltb_spec idx (Z.of_nat n)); [|apply spec_undefined].
  eapply spec_weaken; [apply spec_find_marked | auto |].
  intros [[k c]|] s' (Hs' & Hr); (split; [exact Hs'|]); [|exact I].
  destruct Hr as (Hk & Hm). split; [lia | exact Hm].
Qed.

(** The main loop terminates: every iteration that stays in the loop moves
    [idx] down the trail. *)
Lemma spec_resolve_loop fuel : forall consequent js idx offset,
  0 <= idx -> (1 <= fuel)%nat ->
  (idx < Z.of_nat n -> idx + 2 <= Z.of_nat fuel) ->
  spec (running s0) (resolve_loop fuel consequent js idx offset)
       (fun r s => match r with
                   | Finished _ => resolved s0 s
                   | BailOut _ => running s0 s
                   end).
Proof.
  induction fuel as [|fuel IH]; intros consequent js idx offset Hidx Hf Hfuel; [lia|].
  cbn [resolve_loop].
  apply spec_bind_gets_inv. intros ovf _.
  destruct (ovf || (4096 <? offset)); [apply spec_ret; auto|].
  apply spec_bind_inv.
  { apply inv_when. apply inv_bind; [apply inv_resolve_step | intros _; eauto with inv]. }
  intros _.
  eapply spec_bind; [apply (spec_find_marked_from idx Hidx)|].
  intros [[k c]|]; [|apply spec_ret; intros s (Hs & _); exact Hs].
  cbv zeta. intros s (Hs & (Hk & Hlt) & Hm).
  rewrite unmark_steps.
  pose proof (running_unmark s0 Hok s (var c) Hs Hm) as Hs'.
  revert Hs'. generalize (unmarked_state (var c) s). clear s Hs Hm.
  change (spec (running s0)
            (js <- gets (fun s => solver.m_justification (m_solver s) (var c)) ;;
             offset <- get_abs_coeff (var c) ;;
             b <- gets m_bound ;;
             offset <-
               (if b <? offset then
                  c1 <- gets (fun s => get_coeff s (var c)) ;;
                  set_coeff (var c) (if c1 <? 0 then - b else b) ;;
                  ret b
                else ret offset) ;;
             nm <- gets m_num_marks ;;
             if 0 <? nm then resolve_loop fuel c js (u32 (Z.of_nat k - 1)) offset
             else ret (Finished (u32 (Z.of_nat k - 1))))
            (fun r s => match r with
                        | Finished _ => resolved s0 s
                        | BailOut _ => running s0 s
                        end)).
  apply spec_bind_gets_inv. intros js' _.
  apply spec_bind_inv; [eauto with inv|]. intros off1.
  apply spec_bind_gets_inv. intros b _.
  apply spec_bind_inv; [inv_auto|]. intros off2.
  apply spec_bind_gets. intros s2 H2.
  destruct (Z.ltb_spec 0 (m_num_marks s2)) as [Hpos|Hz].
  - eapply spec_weaken; [apply (IH c js' (u32 (Z.of_nat k - 1)) off2)| |].
    + apply u32_nonneg.
    + lia.
    + intros Hu. destruct (pred_index (m_solver s0) Hok (Z.of_nat k) fuel) as (_ & Hp).
      * fold n. lia.
      * specialize (Hfuel Hlt). lia.
      * fold n in Hp. apply Hp. exact Hu.
    + intros s ->. exact H2.
    + auto.
  - apply spec_ret. intros s ->. split; [exact H2 | exact Hz].
Qed.

End MainLoop.

(** What a run that produces a lemma leaves: the flag was not latched
    (and [_debug_conflict], [d] on entry, has not been cleared). *)
Definition not_latched (d : bool) (s : ba_solver) : Prop :=
  m_overflow s = false /\ overflow_latched s = false /\ m_num_marks s <= 0 /\
  (d = true -> debug_conflict s = true).

Lemma not_latched_flags d : flags_det (not_latched d).
Proof.
  intros s s' e1 e2 e3 e4 (H1 & H2 & H3 & H4). unfold not_latched.
  rewrite e1, e2, e3, e4. repeat split; assumption.
Qed.

(** The diagnostic re-run of [resolve_conflict] at the label [bail_out]. *)
Definition rerun_ok (rerun : M unit) : Prop :=
  forall s1,
    in_conflict s1 -> debug_conflict s1 = true -> m_num_marks s1 = 0 ->
    spec (fun s => s = s1) rerun
         (fun _ s' => m_num_marks s' <= 0 /\ debug_conflict s' = true).

Lemma bail_done (rerun : M unit) fuel idx s :
  m_num_marks s <= 0 -> bail_out_loop rerun fuel idx s = Ret tt s.
Proof.
  intros Hz. destruct fuel; cbn [bail_out_loop]; cbv [bind gets];
    destruct (Z.ltb_spec 0 (m_num_marks s)); (lia || reflexivity).
Qed.

Section BailOut.
Context {E : externals}.
Variable s0 : ba_solver.
Hypothesis Hok : core_ok (m_solver s0).

Let n := length (solver.m_trail (m_solver s0)).

(** After the label [bail_out]: unless the diagnostic re-run was made,
    which sets [_debug_conflict], nothing but marks has changed and no mark
    is left. *)
Definition bailed (s : ba_solver) : Prop :=
  m_num_marks s <= 0 /\
  (debug_conflict s0 = true -> debug_conflict s = true) /\
  (debug_conflict s = debug_conflict s0 -> same_but_marks s0 s /\ no_marks s).

Lemma base_inv : resolver_inv (m_solver s0) (base s0).
Proof.
  split; [exact (base_steady s0)|]. split.
  - intros s Hb. now apply (base_fields s0 s).
  - intros s ((H & _) & _). exact H.
Qed.

Lemma base_bailed s : base s0 s -> m_num_marks s <= 0 -> bailed s.
Proof.
  intros Hb Hz. split; [exact Hz|]. split; [apply Hb|]. intros _.
  split; [apply Hb | exact (base_no_marks s0 s Hb Hz)].
Qed.

Lemma resolved_not_latched s :
  resolved s0 s -> m_overflow s = false -> not_latched (debug_conflict s0) s.
Proof.
  intros ((Hb & Hj) & Hz) Hov. split; [exact Hov|].
  split; [|split; [exact Hz | apply Hb]].
  destruct (overflow_latched s); [|reflexivity].
  rewrite Hj in Hov by reflexivity. discriminate Hov.
Qed.

(** [active2card] after the main loop: when it adds a constraint the flag
    is not set, and stays so. *)
Lemma spec_active2card :
  spec (resolved s0) active2card
       (fun _ s => (m_overflow s = true -> resolved s0 s) /\
                   (m_overflow s = false -> not_latched (debug_conflict s0) s)).
Proof.
  assert (Hpost : forall (r : option Z),
            spec (resolved s0) (ret r)
                 (fun _ s => (m_overflow s = true -> resolved s0 s) /\
                             (m_overflow s = false ->
                              not_latched (debug_conflict s0) s))).
  { intros r. apply spec_ret. intros s Hs. split; [auto|].
    now apply resolved_not_latched. }
  unfold active2card.
  apply spec_bind_inv; [eauto with inv|]. intros _.
  apply spec_bind_gets_inv. intros vs _.
  apply spec_bind_inv; [eauto with inv|]. intros ws.
  apply spec_bind_inv; [eauto with inv|]. intros _.
  apply spec_bind_gets_inv. intros ws' _.
  apply spec_bind_gets_inv. intros b _.
  destruct (active2card_prefix b ws' 0 0 0) as [k sum0].
  destruct (k =? 1); [apply Hpost|].
  apply spec_bind_inv; [eauto with inv|]. intros _.
  apply spec_bind_gets_inv. intros ws'' _.
  apply spec_bind_gets. intros s1 H1. cbv zeta.
  destruct (m_overflow s1) eqn:Hov.
  { eapply spec_weaken; [apply Hpost | intros s ->; exact H1 | auto]. }
  destruct (_ <=? _).
  { eapply spec_weaken; [apply Hpost | intros s ->; exact H1 | auto]. }
  pose proof (resolved_not_latched s1 H1 Hov) as Hnl.
  eapply spec_weaken with (P' := not_latched (debug_conflict s0))
                          (Q' := fun _ => not_latched (debug_conflict s0)).
  - change (inv (not_latched (debug_conflict s0))
              (c <- add_at_least null_literal (map snd ws'') k true ;;
               match c with
               | Some cidx =>
                   s <- gets (fun s => s) ;;
                   set_glue cidx
                     (num_diff_levels (m_solver s)
                        (filter (fun l => lbool_eqb (value s l) l_false) (map snd ws''))) ;;
                   ret (Some cidx)
               | None => ret None
               end)).
    apply inv_bind; [apply inv_add_at_least, not_latched_flags|]. intros [cidx|].
    + apply inv_bind; [apply inv_gets|]. intros s.
      apply inv_bind; [apply inv_set_glue, not_latched_flags | intros _; apply inv_ret].
    + apply inv_ret.
  - intros s ->. exact Hnl.
  - intros _ s Hs. split; [|auto].
    intros Ht. destruct Hs as (Hf & _). rewrite Hf in Ht. discriminate Ht.
Qed.

(** The loop that clears the marks of the trail before the re-run. *)
Lemma spec_clear_marks lits : forall (P : bool_var -> Prop),
  spec (fun s => same_but_marks s0 s /\ debug_conflict s = true /\
                 (forall v, solver.is_marked (m_solver s) v = true -> P v))
       (for_each lits
          (fun l =>
             marked <- gets (fun s => solver.is_marked (m_solver s) (var l)) ;;
             when marked (s_modify (solver.reset_mark (var l)))))
       (fun _ s => same_but_marks s0 s /\ debug_conflict s = true /\
                   (forall v, solver.is_marked (m_solver s) v = true ->
                              P v /\ ~ In v (map var lits))).
Proof.
  induction lits as [|x lits IH]; intros P; cbn [for_each].
  - apply spec_ret. intros s (H1 & H2 & H3).
    split; [exact H1|]. split; [exact H2|]. intros v Hv. split; [auto | intros []].
  - eapply spec_bind
      with (R := fun _ s => same_but_marks s0 s /\ debug_conflict s = true /\
                            (forall v, solver.is_marked (m_solver s) v = true ->
                                       P v /\ v <> var x)).
    + apply spec_bind_gets. intros s1 (H1 & H2 & H3).
      destruct (solver.is_marked (m_solver s1) (var x)) eqn:Hm; cbn [when].
      * intros s ->. cbv [s_modify modify].
        split; [exact H1|]. split; [exact H2|].
        intros v Hv.
        unfold solver.is_marked, solver.reset_mark, solver.set_mark, solver.upd in Hv.
        cbn [m_solver set_m_solver solver.m_mark] in Hv.
        destruct (Z.eqb_spec v (var x)) as [_|Hne]; [discriminate Hv|].
        split; [apply H3; exact Hv | exact Hne].
      * apply spec_ret. intros s ->.
        split; [exact H1|]. split; [exact H2|].
        intros v Hv. split; [auto|]. intros ->. congruence.
    + intros _. eapply spec_weaken; [apply (IH (fun v => P v /\ v <> var x)) | auto |].
      intros _ s (H1 & H2 & H3).
      split; [exact H1|]. split; [exact H2|].
      intros v Hv. destruct (H3 v Hv) as ((Hp & Hne) & Hnin).
      split; [exact Hp|]. cbn [map In]. intros [He|Hin]; [now apply Hne | now apply Hnin].
Qed.

(** The loop at [bail_out] terminates: it walks down the trail; after the
    re-run no mark is counted and the loop is left. *)
Lemma spec_bail_out_loop (rerun : M unit) :
  (debug_conflict s0 = false -> rerun_ok rerun) ->
  forall fuel idx,
    (1 <= fuel)%nat ->
    (idx < Z.of_nat n -> idx + 2 <= Z.of_nat fuel) ->
    spec (base s0) (bail_out_loop rerun fuel idx) (fun _ s => bailed s).
Proof.
  intros Hrerun. induction fuel as [|fuel IH]; intros idx Hf Hfuel; [lia|].
  cbn [bail_out_loop].
  apply spec_bind_gets. intros s1 H1.
  destruct (Z.ltb_spec 0 (m_num_marks s1)) as [Hpos|Hz].
  2:{ apply spec_ret. intros s ->. now apply base_bailed. }
  eapply spec_bind.
  { eapply spec_weaken;
      [apply (spec_trail_at (m_solver s0) (base s0) base_inv idx)
      | intros s ->; exact H1 | intros a s H; exact H]. }
  intros l. apply spec_pure. intros Hin. fold n in Hin.
  destruct (pred_index (m_solver s0) Hok idx fuel Hin (Hfuel (proj2 Hin)))
    as (Hf' & Hpred).
  apply spec_bind_gets. intros s2 H2.
  eapply spec_bind with (R := fun _ => base s0).
  { intros s ->. destruct (solver.is_marked (m_solver s2) (var l)) eqn:Hm; cbn [when].
    - exact (base_unmark s0 Hok s2 (var l) H2 Hm).
    - exact H2. }
  intros _.
  apply spec_bind_gets. intros s3 H3.
  eapply spec_bind with (R := fun _ s => base s0 s \/ bailed s).
  - destruct ((idx =? 0) && negb (debug_conflict s3)) eqn:Hc; cbn [when].
    2:{ apply spec_ret. intros s ->. now left. }
    apply andb_prop in Hc. destruct Hc as (_ & Hdbg).
    assert (Hd3 : debug_conflict s3 = false) by now destruct (debug_conflict s3).
    assert (Hd0 : debug_conflict s0 = false).
    { destruct (debug_conflict s0) eqn:Hd; [|reflexivity].
      destruct H3 as (_ & _ & D). rewrite (D Hd) in Hd3. discriminate Hd3. }
    specialize (Hrerun Hd0).
    intros s ->.
    erewrite bind_eq by reflexivity. erewrite bind_eq by reflexivity.
    pose proof H3 as (Hsame & (L & _ & HmL & Hincl & _) & _).
    pose proof (spec_clear_marks
                  (solver.m_trail (m_solver (set_debug_conflict true s3)))
                  (fun v => In v (trail_vars (m_solver s3)))
                  (set_debug_conflict true s3)) as Hclear.
    cbv beta in Hclear.
    match type of Hclear with ?A -> _ =>
      assert (HA : A) by
        (split; [exact Hsame|]; split; [reflexivity|];
         intros v Hv; apply Hincl, HmL; exact Hv)
    end.
    specialize (Hclear HA). clear HA.
    unfold bind at 1.
    destruct (for_each _ _ (set_debug_conflict true s3)) as [[] s4| | | |];
      try exact Hclear; try exact I.
    destruct Hclear as (Hsame4 & Hd4 & Hm4).
    erewrite bind_eq by reflexivity.
    set (s5 := set_m_num_marks 0 s4).
    assert (Hno : no_marks s5).
    { intros v. destruct (solver.is_marked (m_solver s5) v) eqn:Hv; [|reflexivity].
      destruct (Hm4 v Hv) as (Hin1 & Hin2). exfalso. apply Hin2. exact Hin1. }
    assert (Hic : in_conflict s5).
    { split; [|exact Hno].
      apply (core_ok_erase (m_solver s0)); [apply Hsame4 | exact Hok]. }
    erewrite bind_eq by reflexivity.
    pose proof (Hrerun s5 Hic Hd4 eq_refl s5 eq_refl) as Hr.
    unfold bind at 1.
    destruct (rerun s5) as [[] s6| | | |]; try exact Hr; try exact I.
    right. destruct Hr as (Hz6 & Hd6). split; [exact Hz6|].
    cbn [modify debug_conflict set_overflow_latched]. split; [intros _; exact Hd6|].
    rewrite Hd6, Hd0. discriminate.
  - intros _ s [Hb|Hb].
    + apply (IH (u32 (idx - 1)) Hf'); [|exact Hb].
      intros H. apply Hpred, H.
    + rewrite bail_done by apply Hb. exact Hb.
Qed.

End BailOut.

#[local] Hint Resolve inv_process_antecedent inv_process_card inv_resolve_step base_inv : inv.

Section Body.
Context {E : externals}.
Variable s0 : ba_solver.
Hypothesis Hic : in_conflict s0.

Let n := length (solver.m_trail (m_solver s0)).

(** Holds between the entry and the assignment [m_num_marks = 0]. *)
Definition entered (s : ba_solver) : Prop := running s0 (set_m_num_marks 0 s).

Lemma entered_inv : resolver_inv (m_solver s0) entered.
Proof.
  destruct (running_inv s0) as (R1 & R2 & R3). split; [|split].
  - intros s s' (e1 & e2 & e3 & e4 & e5 & e6 & e7 & e8) Hs.
    apply (R1 (set_m_num_marks 0 s)); [|exact Hs]. repeat split; assumption.
  - intros s Hs. exact (R2 _ Hs).
  - intros s Hs. exact (R3 _ Hs).
Qed.

Lemma entered_start :
  entered (set_overflow_latched false (set_m_overflow false s0)).
Proof.
  destruct Hic as (_ & Hno).
  split; [|discriminate]. split; [repeat split|]. split; [|auto].
  exists []. split; [constructor|]. split; [|split; [intros v []|reflexivity]].
  intros v. cbn [m_solver set_m_num_marks set_overflow_latched set_m_overflow].
  rewrite (Hno v). split; [discriminate | intros []].
Qed.

(** One run of [resolve_conflict]: it returns; if the flag was latched, the
    result is [l_undef], nothing but marks has changed, and no mark is
    left. *)
Lemma spec_resolve_conflict_body (rerun : M unit) :
  (debug_conflict s0 = false -> rerun_ok rerun) ->
  spec (fun s => s = s0) (resolve_conflict_body rerun)
       (fun r s' =>
          (m_num_marks s' <= 0 \/ m_num_marks s' = m_num_marks s0) /\
          (debug_conflict s0 = true -> debug_conflict s' = true) /\
          (overflow_latched s' = true ->
           r = l_undef /\
           (debug_conflict s' = debug_conflict s0 ->
            same_but_marks s0 s' /\ no_marks s'))).
Proof.
  intros Hrerun. pose proof Hic as (Hok & Hno).
  unfold resolve_conflict_body.
  apply spec_bind_gets. intros s1 Hs1. subst s1.
  destruct (0 =? m_num_propagations_since_pop s0).
  { apply spec_ret. intros s ->. split; [now right|]. split; [auto|]. intros _.
    split; [reflexivity|]. intros _.
    split; [apply same_but_marks_refl | exact Hno]. }
  eapply spec_bind with (R := fun _ => entered).
  { intros s ->. exact entered_start. }
  intros _. apply spec_bind_inv; [apply (inv_reset_coeffs _ _ entered_inv)|]. intros _.
  eapply spec_bind with (R := fun _ => running s0).
  { apply spec_modify. intros s Hs. exact Hs. }
  intros _. apply spec_bind_inv; [eauto with inv|]. intros _.
  apply spec_bind_gets_inv. intros consequent _.
  apply spec_bind_gets_inv. intros js _.
  apply spec_bind_gets_inv. intros lv _.
  apply spec_bind_inv; [eauto with inv|]. intros _.
  apply spec_bind_inv; [inv_auto|]. intros consequent'.
  apply spec_bind_gets_inv. intros len (s & Hs & Hlen).
  rewrite <- Hlen, (I_trail _ _ (running_inv s0) s Hs). fold n. clear len Hlen.
  eapply spec_bind.
  { apply (spec_resolve_loop s0 Hok (S (S n)) consequent' js (u32 (Z.of_nat n - 1)) 1).
    - apply u32_nonneg.
    - lia.
    - fold n. lia. }
  intros r.
  eapply spec_bind
    with (R := fun r s => match r with
                          | BailOut _ => base s0 s
                          | Finished _ => not_latched (debug_conflict s0) s
                          end).
  - destruct r as [idx|idx]; [|apply spec_ret; intros s' Hs'; apply Hs'].
    apply spec_bind_inv; [eauto with inv|]. intros _.
    apply spec_bind_inv; [eauto with inv|]. intros ok.
    destruct (negb ok); [apply spec_ret; intros s' Hs'; apply Hs'|].
    eapply spec_bind; [apply (spec_active2card s0)|]. intros c. cbv beta.
    apply spec_bind_gets. intros s1 (Ht & Hf).
    destruct (m_overflow s1) eqn:Hov.
    + apply spec_ret. intros s' ->. apply (Ht eq_refl).
    + apply spec_ret. intros s' ->. exact (Hf eq_refl).
  - intros [idx|idx].
    + eapply spec_weaken with (P' := not_latched (debug_conflict s0))
                              (Q' := fun _ => not_latched (debug_conflict s0)).
      * change (inv (not_latched (debug_conflict s0))
                  (lemma <- gets m_lemma ;;
                   s_modify (solver.set_lemma lemma) ;;
                   for_each (skipn 1 lemma) (fun l => s_modify (solver.mark (var l))) ;;
                   ret l_true)).
        apply inv_bind; [apply inv_gets|]. intros lemma.
        apply inv_bind; [apply inv_s_modify, not_latched_flags|]. intros _.
        apply inv_bind; [|intros _; apply inv_ret].
        apply inv_for_each. intros l. apply inv_s_modify, not_latched_flags.
      * auto.
      * intros r' s' (_ & Hl & Hz & Hd). split; [now left|]. split; [exact Hd|].
        intros Ht. rewrite Hl in Ht. discriminate Ht.
    + eapply spec_bind with (R := fun _ => base s0).
      { apply spec_modify. intros s' Hs'. now apply (base_fields s0 s'). }
      intros _. eapply spec_bind.
      { apply (spec_bail_out_loop s0 Hok rerun Hrerun (S (S n)) idx); [lia|].
        fold n. lia. }
      intros u. cbv beta. apply spec_ret. intros s' (Hz & Hd & Hl).
      split; [now left|]. split; [exact Hd|].
      intros _. split; [reflexivity | exact Hl].
Qed.

End Body.


(** A conflict at level 1.  The trail is [x1 .. x5]: [x1] is the decision,
    [x2] and [x3] follow from [x1] by binary clauses, [x4] follows from [x2]
    and [x3] by a ternary clause, and [x5] by the clause
    [x5 | ~x2 | ~x3 | ~x4]; the conflict is the clause [~x2 | ~x3 | ~x5]. *)
Definition conflict_core : solver.t :=
  let assigned := fun v : bool_var => (1 <=? v) && (v <=? 5) in
  let reason := fun v : bool_var =>
    if v =? 2 then BINARY (neg (x_ 1))
    else if v =? 3 then BINARY (neg (x_ 1))
    else if v =? 4 then TERNARY (neg (x_ 2)) (neg (x_ 3))
    else if v =? 5 then CLAUSE 1
    else NONE in
  let clauses := fun off : Z =>
    if off =? 1 then Some [x_ 5; neg (x_ 2); neg (x_ 3); neg (x_ 4)]
    else if off =? 2 then Some [neg (x_ 2); neg (x_ 3); neg (x_ 5)]
    else None in
  solver.mk (fun v => if assigned v then l_true else l_undef)
            (fun v => if assigned v then 1 else 0)
            reason [x_ 1; x_ 2; x_ 3; x_ 4; x_ 5]
            (fun _ => false) true (CLAUSE 2) null_literal 1 [] clauses []
            (fun _ => []) (fun _ => false).

Definition conflict_state : ba_solver :=
  set_m_num_propagations_since_pop 1 (set_m_solver conflict_core empty_solver).


(** The claim in the words of the specification: whenever the flag was
    latched during the call, the result is [l_undef], nothing but marks has
    changed and no variable is left marked. *)
Definition resolve_conflict_as_stated {E : externals} : Prop :=
  forall s r s',
    in_conflict s -> resolve_conflict s = Ret r s' -> overflow_latched s' = true ->
    r = l_undef /\ same_but_marks s s' /\ no_marks s'.

(** A conflict at level 2.  The trail is [~x1 ~x2 ~x3]: [~x1] is decided at
    level 2, [~x2] follows from the clause [~x2 | x1 | x3], [~x3] is at
    level 1; the conflict is the binary clause [x1 | x2], found at [~x1]. *)
Definition stale_core : solver.t :=
  let assigned := fun v : bool_var => (1 <=? v) && (v <=? 3) in
  solver.mk (fun v => if assigned v then l_false else l_undef)
            (fun v => if v =? 3 then 1 else if assigned v then 2 else 0)
            (fun v => if v =? 2 then TERNARY (x_ 1) (x_ 3) else NONE)
            [neg (x_ 1); neg (x_ 2); neg (x_ 3)]
            (fun _ => false) true (BINARY (x_ 2)) (neg (x_ 1)) 2 [] (fun _ => None) []
            (fun _ => []) (fun _ => false).

(** The conflict is entered with the coefficient [-1] of [x1] left in the
    table, [x1] not being listed as active, and before any diagnostic
    re-run. *)
Definition stale_conflict : ba_solver :=
  set_m_coeffs (solver.upd (fun _ => 0) 1 (-1))
    (set_m_num_propagations_since_pop 1 (set_m_solver stale_core empty_solver)).

Lemma stale_conflict_in_conflict : in_conflict stale_conflict.
Proof.
  split; [|intros v; reflexivity].
  unfold core_ok, trail_vars, solver.lvl.
  cbn [stale_conflict m_solver set_m_coeffs set_m_num_propagations_since_pop
       set_m_solver stale_core solver.m_level solver.m_trail solver.m_inconsistent
       solver.m_assignment map var neg x_].
  split; [|split; [|split; [|split]]].
  - intros v. destruct (Z.eqb_spec v 3) as [->|_]; [intros _; cbn [In]; lia|].
    destruct (Z.leb_spec 1 v); cbn [andb]; [|lia].
    destruct (Z.leb_spec v 3); [|lia]. intros _. cbn [In]. lia.
  - intros v. destruct (v =? 3); [lia|]. destruct ((1 <=? v) && (v <=? 3)); lia.
  - vm_compute. discriminate.
  - reflexivity.
  - reflexivity.
Qed.


(** * Further functions of the solver *)

(** ** Evaluation of constraints under the current assignment *)

(** [ba_solver::eval(card const&)]: the counters are [unsigned]. *)
Definition eval_card (s : ba_solver) (c : card) : lbool :=
  let '(trues, undefs) :=
    fold_left (fun (tu : Z * Z) l =>
                 match value s l with
                 | l_true => (u32 (fst tu + 1), snd tu)
                 | l_undef => (fst tu, u32 (snd tu + 1))
                 | l_false => tu
                 end)
              (card_lits c) (0, 0) in
  if u32 (trues + undefs) <? card_k c then l_false
  else if card_k c <=? trues then l_true
  else l_undef.

(** [ba_solver::eval(pb const&)]. *)
Definition eval_pb (s : ba_solver) (p : pb) : lbool :=
  let '(trues, undefs) :=
    fold_left (fun (tu : Z * Z) (wl : wliteral) =>
                 match value s (snd wl) with
                 | l_true => (u32 (fst tu + fst wl), snd tu)
                 | l_undef => (fst tu, u32 (snd tu + fst wl))
                 | l_false => tu
                 end)
              (pb_wlits p) (0, 0) in
  if u32 (trues + undefs) <? pb_k p then l_false
  else if pb_k p <=? trues then l_true
  else l_undef.

(** The loop of [ba_solver::eval(xor const&)]; it returns [l_undef] at the
    first literal without a value. *)
Fixpoint eval_xor_loop (s : ba_solver) (ls : list literal) (odd : bool) : lbool :=
  match ls with
  | [] => if odd then l_true else l_false
  | l :: ls' =>
      match value s l with
      | l_true => eval_xor_loop s ls' (negb odd)
      | l_false => eval_xor_loop s ls' odd
      | l_undef => l_undef
      end
  end.

(** [ba_solver::eval(xor const&)]. *)
Definition eval_xor (s : ba_solver) (x : xor) : lbool := eval_xor_loop s (xor_lits x) false.

(** [ba_solver::eval(lbool, lbool)]. *)
Definition eval_lbool (a b : lbool) : lbool :=
  if lbool_eqb a l_undef || lbool_eqb b l_undef then l_undef
  else if lbool_eqb a b then l_true else l_false.

(** [ba_solver::eval(constraint const&)]. *)
Definition eval (s : ba_solver) (c : constraint) : lbool :=
  let v1 := if is_null (lit c) then l_true else value s (lit c) in
  match c with
  | Card c => eval_lbool v1 (eval_card s c)
  | Pb p => eval_lbool v1 (eval_pb s p)
  | Xor x => eval_lbool v1 (eval_xor s x)
  end.

(** [ba_solver::validate_conflict(constraint const&)]. *)
Definition validate_conflict (s : ba_solver) (c : constraint) : bool :=
  lbool_eqb (eval s c) l_false.

(** *** What the constraints mean *)

(** The truth of a literal in a total assignment. *)
Definition lit_holds (rho : bool_var -> bool) (l : literal) : bool :=
  if sign l then negb (rho (var l)) else rho (var l).

(** [rho] agrees with the assignment of the core on every assigned
    variable. *)
Definition extends (rho : bool_var -> bool) (s : ba_solver) : Prop :=
  forall l, value s l = l_true -> lit_holds rho l = true.

Definition count_true (rho : bool_var -> bool) (ls : list literal) : Z :=
  Z.of_nat (length (filter (lit_holds rho) ls)).

Definition weight_true (rho : bool_var -> bool) (ws : list wliteral) : Z :=
  fold_right (fun (wl : wliteral) acc => (if lit_holds rho (snd wl) then fst wl else 0) + acc)
             0 ws.

Definition parity_true (rho : bool_var -> bool) (ls : list literal) : bool :=
  fold_right (fun l acc => xorb (lit_holds rho l) acc) false ls.

(** The body of a constraint holds in [rho]. *)
Definition sat_card (rho : bool_var -> bool) (c : card) : Prop :=
  card_k c <= count_true rho (card_lits c).

Definition sat_pb (rho : bool_var -> bool) (p : pb) : Prop :=
  pb_k p <= weight_true rho (pb_wlits p).

Definition sat_xor (rho : bool_var -> bool) (x : xor) : Prop :=
  parity_true rho (xor_lits x) = true.

Lemma value_neg s l : value s (neg l) = lneg (value s l).
Proof.
  unfold value, solver.value, neg. cbn [var sign].
  destruct (sign l), (solver.m_assignment (m_solver s) (var l)); reflexivity.
Qed.

Lemma lit_holds_neg rho l : lit_holds rho (neg l) = negb (lit_holds rho l).
Proof.
  unfold lit_holds, neg. cbn [var sign].
  destruct (sign l), (rho (var l)); reflexivity.
Qed.

Lemma extends_false rho s l :
  extends rho s -> value s l = l_false -> lit_holds rho l = false.
Proof.
  intros He Hv. specialize (He (neg l)).
  rewrite value_neg, Hv, lit_holds_neg in He.
  specialize (He eq_refl). now destruct (lit_holds rho l).
Qed.

(** The number of literals, and the weight of the terms, with a given
    value. *)
Definition count_value (s : ba_solver) (a : lbool) (ls : list literal) : Z :=
  Z.of_nat (length (filter (fun l => lbool_eqb (value s l) a) ls)).

Definition weight_value (s : ba_solver) (a : lbool) (ws : list wliteral) : Z :=
  fold_right (fun (wl : wliteral) acc =>
                (if lbool_eqb (value s (snd wl)) a then fst wl else 0) + acc) 0 ws.

Lemma count_value_total s ls :
  count_value s l_true ls + count_value s l_undef ls + count_value s l_false ls =
  Z.of_nat (length ls).
Proof.
  unfold count_value. induction ls as [|l ls IH]; [reflexivity|].
  cbn [filter length]. destruct (value s l); cbn [lbool_eqb length]; lia.
Qed.

Lemma count_value_nonneg s a ls : 0 <= count_value s a ls.
Proof. unfold count_value. lia. Qed.

Lemma eval_card_counts s ls : forall t u,
  0 <= t -> 0 <= u -> t + u + Z.of_nat (length ls) <= UINT_MAX ->
  fold_left (fun (tu : Z * Z) l =>
               match value s l with
               | l_true => (u32 (fst tu + 1), snd tu)
               | l_undef => (fst tu, u32 (snd tu + 1))
               | l_false => tu
               end) ls (t, u) =
  (t + count_value s l_true ls, u + count_value s l_undef ls).
Proof.
  unfold count_value.
  induction ls as [|l ls IH]; intros t u Ht Hu Hb; cbn [fold_left filter length].
  - f_equal; lia.
  - cbn [length] in Hb. destruct (value s l); cbn [lbool_eqb fst snd length].
    + rewrite IH by lia. reflexivity.
    + rewrite u32_id by (unfold is_u32; lia). rewrite IH by lia. f_equal; lia.
    + rewrite u32_id by (unfold is_u32; lia). rewrite IH by lia. f_equal; lia.
Qed.

(** [eval(card)] in terms of the counts. *)
Lemma eval_card_spec s c :
  Z.of_nat (card_size c) <= UINT_MAX ->
  eval_card s c =
  if count_value s l_true (card_lits c) + count_value s l_undef (card_lits c) <? card_k c
  then l_false
  else if card_k c <=? count_value s l_true (card_lits c) then l_true
  else l_undef.
Proof.
  intros Hn. unfold eval_card, card_size in *.
  rewrite eval_card_counts by lia. cbn [Z.add].
  pose proof (count_value_total s (card_lits c)).
  pose proof (count_value_nonneg s l_true (card_lits c)).
  pose proof (count_value_nonneg s l_undef (card_lits c)).
  pose proof (count_value_nonneg s l_false (card_lits c)).
  rewrite u32_id by (unfold is_u32; lia). reflexivity.
Qed.

Lemma count_true_bounds rho s ls :
  extends rho s ->
  count_value s l_true ls <= count_true rho ls <=
  count_value s l_true ls + count_value s l_undef ls.
Proof.
  intros He. unfold count_value, count_true.
  induction ls as [|l ls IH]; cbn [filter length]; [lia|].
  destruct (value s l) eqn:Hv; cbn [lbool_eqb].
  - rewrite (extends_false rho s l He Hv). lia.
  - destruct (lit_holds rho l); cbn [length]; lia.
  - rewrite (He l Hv). cbn [length]. lia.
Qed.

(** X1: when [eval] gives a cardinality constraint a value, the constraint
    has that value in every total assignment that agrees with the core. *)
Theorem eval_card_decides (s : ba_solver) (c : card) (rho : bool_var -> bool) :
  Z.of_nat (card_size c) <= UINT_MAX -> extends rho s ->
  (eval_card s c = l_true -> sat_card rho c) /\
  (eval_card s c = l_false -> ~ sat_card rho c).
Proof.
  intros Hn He. rewrite (eval_card_spec s c Hn). unfold sat_card.
  pose proof (count_true_bounds rho s (card_lits c) He) as Hb.
  destruct (Z.ltb_spec (count_value s l_true (card_lits c) +
                        count_value s l_undef (card_lits c)) (card_k c)).
  - split; [discriminate | intros _; lia].
  - destruct (Z.leb_spec (card_k c) (count_value s l_true (card_lits c))).
    + split; [intros _; lia | discriminate].
    + split; discriminate.
Qed.

(** The card [x1 + x2 + x3 >= 2] and a state in which [x1] and [x2] are
    true. *)
Definition card_2_of_3 : card :=
  mk_card (new_header 0 null_literal) 2 [x_ 1; x_ 2; x_ 3].

Definition x1_x2_true : ba_solver := decide (x_ 2) (decide (x_ 1) empty_solver).

Lemma eval_card_decides_witness :
  eval_card x1_x2_true card_2_of_3 = l_true /\
  sat_card (fun v => v <=? 2) card_2_of_3.
Proof.
  split; [reflexivity|].
  apply (eval_card_decides x1_x2_true card_2_of_3 (fun v => v <=? 2)).
  - vm_compute. discriminate.
  - intros [v [|]] Hv; unfold lit_holds; cbn [var sign];
      unfold value, solver.value in Hv; cbn [var sign] in Hv;
      unfold x1_x2_true, decide in Hv; cbn in Hv; unfold solver.upd in Hv;
      destruct (Z.eqb_spec v 2), (Z.eqb_spec v 1); subst; try discriminate Hv;
      try reflexivity.
  - reflexivity.
Defined.

Definition total_weight (ws : list wliteral) : Z :=
  fold_right (fun (wl : wliteral) acc => fst wl + acc) 0 ws.

Definition weights_ok (ws : list wliteral) : Prop :=
  Forall (fun wl : wliteral => 0 <= fst wl) ws /\ total_weight ws <= UINT_MAX.

Lemma weight_value_total s ws :
  weight_value s l_true ws + weight_value s l_undef ws + weight_value s l_false ws =
  total_weight ws.
Proof.
  unfold weight_value, total_weight. induction ws as [|wl ws IH]; [reflexivity|].
  cbn [fold_right]. destruct (value s (snd wl)); cbn [lbool_eqb]; lia.
Qed.

Lemma weight_value_nonneg s a ws :
  Forall (fun wl : wliteral => 0 <= fst wl) ws -> 0 <= weight_value s a ws.
Proof.
  unfold weight_value. induction 1 as [|wl ws Hw _ IH]; cbn [fold_right]; [lia|].
  destruct (lbool_eqb _ _); lia.
Qed.

Lemma total_weight_nonneg ws :
  Forall (fun wl : wliteral => 0 <= fst wl) ws -> 0 <= total_weight ws.
Proof.
  unfold total_weight. induction 1 as [|wl ws Hw _ IH]; cbn [fold_right]; lia.
Qed.

Lemma eval_pb_sums s ws : forall t u,
  Forall (fun wl : wliteral => 0 <= fst wl) ws ->
  0 <= t -> 0 <= u -> t + u + total_weight ws <= UINT_MAX ->
  fold_left (fun (tu : Z * Z) (wl : wliteral) =>
               match value s (snd wl) with
               | l_true => (u32 (fst tu + fst wl), snd tu)
               | l_undef => (fst tu, u32 (snd tu + fst wl))
               | l_false => tu
               end) ws (t, u) =
  (t + weight_value s l_true ws, u + weight_value s l_undef ws).
Proof.
  unfold weight_value, total_weight.
  induction ws as [|wl ws IH]; intros t u Hw Ht Hu Hb; cbn [fold_left fold_right].
  - f_equal; lia.
  - inversion Hw as [|? ? Hw1 Hw2]; subst. cbn [fold_right] in Hb.
    pose proof (total_weight_nonneg ws Hw2) as Hnn. unfold total_weight in Hnn.
    destruct (value s (snd wl)); cbn [lbool_eqb fst snd].
    + rewrite IH by (auto; lia). f_equal; lia.
    + rewrite u32_id by (unfold is_u32; lia). rewrite IH by (auto; lia). f_equal; lia.
    + rewrite u32_id by (unfold is_u32; lia). rewrite IH by (auto; lia). f_equal; lia.
Qed.

Lemma eval_pb_spec s p :
  weights_ok (pb_wlits p) ->
  eval_pb s p =
  if weight_value s l_true (pb_wlits p) + weight_value s l_undef (pb_wlits p) <? pb_k p
  then l_false
  else if pb_k p <=? weight_value s l_true (pb_wlits p) then l_true
  else l_undef.
Proof.
  intros (Hw & Hn). unfold eval_pb.
  rewrite eval_pb_sums by (auto; lia). cbn [Z.add].
  pose proof (weight_value_total s (pb_wlits p)).
  pose proof (weight_value_nonneg s l_true (pb_wlits p) Hw).
  pose proof (weight_value_nonneg s l_undef (pb_wlits p) Hw).
  pose proof (weight_value_nonneg s l_false (pb_wlits p) Hw).
  rewrite u32_id by (unfold is_u32; lia). reflexivity.
Qed.

Lemma weight_true_bounds rho s ws :
  extends rho s -> Forall (fun wl : wliteral => 0 <= fst wl) ws ->
  weight_value s l_true ws <= weight_true rho ws <=
  weight_value s l_true ws + weight_value s l_undef ws.
Proof.
  intros He. unfold weight_value, weight_true.
  induction 1 as [|wl ws Hw _ IH]; cbn [fold_right]; [lia|].
  destruct (value s (snd wl)) eqn:Hv; cbn [lbool_eqb].
  - rewrite (extends_false rho s _ He Hv). lia.
  - destruct (lit_holds rho (snd wl)); lia.
  - rewrite (He _ Hv). lia.
Qed.

(** X2: when [eval] gives a pb constraint a value, the constraint has that
    value in every total assignment that agrees with the core; the weights
    are unsigned values whose sum does not overflow. *)
Theorem eval_pb_decides (s : ba_solver) (p : pb) (rho : bool_var -> bool) :
  weights_ok (pb_wlits p) -> extends rho s ->
  (eval_pb s p = l_true -> sat_pb rho p) /\
  (eval_pb s p = l_false -> ~ sat_pb rho p).
Proof.
  intros Hw He. rewrite (eval_pb_spec s p Hw). unfold sat_pb.
  pose proof (weight_true_bounds rho s (pb_wlits p) He (proj1 Hw)) as Hb.
  destruct (Z.ltb_spec (weight_value s l_true (pb_wlits p) +
                        weight_value s l_undef (pb_wlits p)) (pb_k p)).
  - split; [discriminate | intros _; lia].
  - destruct (Z.leb_spec (pb_k p) (weight_value s l_true (pb_wlits p))).
    + split; [intros _; lia | discriminate].
    + split; discriminate.
Qed.

(** A total assignment that agrees with a state in which exactly the
    variables [x1] and [x2] are assigned, both true. *)
Lemma extends_x1_x2_true : extends (fun v => v <=? 2) x1_x2_true.
Proof.
  intros [v [|]] Hv; unfold lit_holds; cbn [var sign];
    unfold value, solver.value in Hv; cbn [var sign] in Hv;
    unfold x1_x2_true, decide in Hv; cbn in Hv; unfold solver.upd in Hv;
    destruct (Z.eqb_spec v 2), (Z.eqb_spec v 1); subst; try discriminate Hv;
    reflexivity.
Qed.

(** The pb [2 x1 + x2 + x3 >= 3]. *)
Definition pb_2_1_1 : pb :=
  mk_pb (new_header 0 null_literal) 3 0 0 4 [(2, x_ 1); (1, x_ 2); (1, x_ 3)].

Lemma eval_pb_decides_witness :
  eval_pb x1_x2_true pb_2_1_1 = l_true /\ sat_pb (fun v => v <=? 2) pb_2_1_1.
Proof.
  split; [reflexivity|].
  apply (eval_pb_decides x1_x2_true pb_2_1_1 (fun v => v <=? 2)).
  - split; [repeat constructor; simpl; lia | vm_compute; discriminate].
  - exact extends_x1_x2_true.
  - reflexivity.
Defined.

Lemma eval_xor_loop_spec s ls : forall odd,
  (eval_xor_loop s ls odd = l_undef <-> exists l, In l ls /\ value s l = l_undef) /\
  (forall rho, extends rho s ->
     eval_xor_loop s ls odd <> l_undef ->
     eval_xor_loop s ls odd =
     if xorb odd (parity_true rho ls) then l_true else l_false).
Proof.
  induction ls as [|l ls IH]; intros odd; cbn [eval_xor_loop parity_true fold_right].
  - split.
    + split; [destruct odd; discriminate | intros (l & [] & _)].
    + intros rho _ _. now rewrite xorb_false_r.
  - destruct (value s l) eqn:Hv.
    + destruct (IH odd) as (I1 & I2). split.
      * rewrite I1. split.
        -- intros (l' & Hl & Hu). exists l'. split; [now right | exact Hu].
        -- intros (l' & [<-|Hl] & Hu); [congruence | exists l'; auto].
      * intros rho He Hne. rewrite (I2 rho He Hne).
        fold (parity_true rho ls).
        rewrite (extends_false rho s l He Hv). now rewrite xorb_false_l.
    + split.
      * split; [intros _; exists l; split; [now left | exact Hv] | reflexivity].
      * intros rho _ Hne. now contradiction Hne.
    + destruct (IH (negb odd)) as (I1 & I2). split.
      * rewrite I1. split.
        -- intros (l' & Hl & Hu). exists l'. split; [now right | exact Hu].
        -- intros (l' & [<-|Hl] & Hu); [congruence | exists l'; auto].
      * intros rho He Hne. rewrite (I2 rho He Hne).
        fold (parity_true rho ls). rewrite (He l Hv).
        destruct odd, (parity_true rho ls); reflexivity.
Qed.

(** X3: [eval] of an xor is undefined exactly when one of its literals has
    no value; otherwise it is the parity of the body in every total
    assignment that agrees with the core. *)
Theorem eval_xor_decides (s : ba_solver) (x : xor) :
  (eval_xor s x = l_undef <-> exists l, In l (xor_lits x) /\ value s l = l_undef) /\
  (forall rho, extends rho s ->
     (eval_xor s x = l_true -> sat_xor rho x) /\
     (eval_xor s x = l_false -> ~ sat_xor rho x)).
Proof.
  unfold eval_xor, sat_xor.
  destruct (eval_xor_loop_spec s (xor_lits x) false) as (H1 & H2).
  split; [exact H1|]. intros rho He.
  specialize (H2 rho He). rewrite xorb_false_l in H2.
  split; intros Hv.
  - rewrite H2 in Hv by congruence.
    now destruct (parity_true rho (xor_lits x)).
  - rewrite H2 in Hv by congruence.
    destruct (parity_true rho (xor_lits x)); [discriminate | congruence].
Qed.

(** *** Negation and evaluation *)

Lemma count_value_neg s a ls :
  count_value s a (map neg ls) = count_value s (lneg a) ls.
Proof.
  unfold count_value. induction ls as [|l ls IH]; [reflexivity|].
  cbn [map filter]. rewrite value_neg.
  destruct (value s l), a; cbn [lneg lbool_eqb length] in *; lia.
Qed.

Lemma count_true_neg rho ls :
  count_true rho (map neg ls) = Z.of_nat (length ls) - count_true rho ls.
Proof.
  unfold count_true. induction ls as [|l ls IH]; [reflexivity|].
  cbn [map filter length]. rewrite lit_holds_neg.
  destruct (lit_holds rho l); cbn [negb length]; lia.
Qed.

Lemma eval_lbool_lneg a b : eval_lbool (lneg a) (lneg b) = eval_lbool a b.
Proof. destruct a, b; reflexivity. Qed.

Lemma is_null_neg l : var l <> null_bool_var -> is_null (neg l) = false /\ is_null l = false.
Proof.
  intros H. unfold is_null, literal_eqb, neg. cbn [var sign null_literal].
  destruct (Z.eqb_spec (var l) null_bool_var); [contradiction|]. now split.
Qed.

(** X4: [card::negate] turns a cardinality constraint into its negation:
    a total assignment satisfies the negated body exactly when it violates
    the original one, [eval] of the negated body is the negation of
    [eval] of the body, and a reified constraint keeps its value. *)
Theorem card_negate_complements (s : ba_solver) (c : card) :
  0 <= card_k c <= Z.of_nat (card_size c) + 1 ->
  Z.of_nat (card_size c) < UINT_MAX ->
  (forall rho, sat_card rho (card_negate c) <-> ~ sat_card rho c) /\
  eval_card s (card_negate c) = lneg (eval_card s c) /\
  (var (c_lit (card_hd c)) <> null_bool_var ->
   eval s (Card (card_negate c)) = eval s (Card c)).
Proof.
  intros Hk Hn.
  assert (Hk' : card_k (card_negate c) = Z.of_nat (card_size c) - card_k c + 1).
  { cbn [card_negate card_k]. apply u32_id. unfold is_u32. lia. }
  assert (Hsz : card_size (card_negate c) = card_size c).
  { unfold card_size. cbn [card_negate card_lits]. apply length_map. }
  assert (He : eval_card s (card_negate c) = lneg (eval_card s c)).
  { rewrite !eval_card_spec by (rewrite ?Hsz; lia). rewrite Hk'.
    cbn [card_negate card_lits]. rewrite !count_value_neg. cbn [lneg].
    pose proof (count_value_total s (card_lits c)) as Ht. fold (card_size c) in Ht.
    pose proof (count_value_nonneg s l_true (card_lits c)).
    pose proof (count_value_nonneg s l_undef (card_lits c)).
    pose proof (count_value_nonneg s l_false (card_lits c)).
    repeat match goal with
           | |- context [?a <? ?b] => destruct (Z.ltb_spec a b)
           | |- context [?a <=? ?b] => destruct (Z.leb_spec a b)
           end; cbn [lneg]; try reflexivity; lia. }
  split; [|split; [exact He|]].
  - intros rho. unfold sat_card. rewrite Hk'. cbn [card_negate card_lits].
    rewrite count_true_neg. fold (card_size c). lia.
  - intros Hv. destruct (is_null_neg _ Hv) as (Hn1 & Hn2).
    unfold eval, lit, hd_of. cbn [card_negate card_hd hd_neg_lit c_lit].
    rewrite Hn1, Hn2, He, value_neg. apply eval_lbool_lneg.
Qed.

Lemma card_negate_complements_witness :
  eval_card x1_x2_true (card_negate card_2_of_3) = l_false /\
  ~ sat_card (fun v => v <=? 2) (card_negate card_2_of_3).
Proof.
  destruct (card_negate_complements x1_x2_true card_2_of_3) as (Hs & He & _).
  - vm_compute. split; discriminate.
  - vm_compute. reflexivity.
  - split; [rewrite He; reflexivity|].
    rewrite Hs. intros H. apply H. vm_compute. discriminate.
Defined.

Lemma pb_weight_sum_total ws :
  weights_ok ws -> pb_weight_sum ws = total_weight ws.
Proof.
  intros (Hw & Hn). unfold pb_weight_sum.
  assert (H : forall w, 0 <= w -> w + total_weight ws <= UINT_MAX ->
                        fold_left (fun w x => u32 (w + fst x)) ws w = w + total_weight ws).
  { clear Hn. induction Hw as [|wl ws Hw1 Hw2 IH]; intros w H0 Hb; cbn [fold_left].
    - unfold total_weight. cbn. lia.
    - unfold total_weight in *. cbn [fold_right] in *.
      pose proof (total_weight_nonneg ws Hw2) as Hnn. unfold total_weight in Hnn.
      rewrite u32_id by (unfold is_u32; lia). rewrite IH by lia. lia. }
  rewrite H; lia.
Qed.

Lemma weight_value_neg s a ws :
  weight_value s a (map (fun x : wliteral => (fst x, neg (snd x))) ws) =
  weight_value s (lneg a) ws.
Proof.
  unfold weight_value. induction ws as [|wl ws IH]; [reflexivity|].
  cbn [map fold_right fst snd]. rewrite value_neg, IH.
  destruct (value s (snd wl)), a; reflexivity.
Qed.

Lemma weight_true_neg rho ws :
  weight_true rho (map (fun x : wliteral => (fst x, neg (snd x))) ws) =
  total_weight ws - weight_true rho ws.
Proof.
  unfold weight_true, total_weight. induction ws as [|wl ws IH]; [reflexivity|].
  cbn [map fold_right fst snd]. rewrite lit_holds_neg, IH.
  destruct (lit_holds rho (snd wl)); cbn [negb]; lia.
Qed.

Lemma total_weight_neg ws :
  total_weight (map (fun x : wliteral => (fst x, neg (snd x))) ws) = total_weight ws.
Proof.
  unfold total_weight. induction ws as [|wl ws IH]; [reflexivity|].
  cbn [map fold_right fst]. now rewrite IH.
Qed.

Lemma Forall_weights_neg ws :
  Forall (fun wl : wliteral => 0 <= fst wl) ws ->
  Forall (fun wl : wliteral => 0 <= fst wl)
         (map (fun x : wliteral => (fst x, neg (snd x))) ws).
Proof. induction 1; cbn [map]; constructor; auto. Qed.

(** X5: [pb::negate] turns a pb constraint into its negation, as
    [card::negate] does for cardinality constraints; the weights are
    unsigned values whose sum does not overflow. *)
Theorem pb_negate_complements (s : ba_solver) (p : pb) :
  weights_ok (pb_wlits p) ->
  0 <= pb_k p <= total_weight (pb_wlits p) + 1 ->
  total_weight (pb_wlits p) < UINT_MAX ->
  (forall rho, sat_pb rho (pb_negate p) <-> ~ sat_pb rho p) /\
  eval_pb s (pb_negate p) = lneg (eval_pb s p) /\
  (var (c_lit (pb_hd p)) <> null_bool_var ->
   eval s (Pb (pb_negate p)) = eval s (Pb p)).
Proof.
  intros Hw Hk Hn.
  assert (Hk' : pb_k (pb_negate p) = total_weight (pb_wlits p) - pb_k p + 1).
  { cbn [pb_negate pb_k]. rewrite (pb_weight_sum_total _ Hw).
    apply u32_id. unfold is_u32. lia. }
  assert (Hw' : weights_ok (pb_wlits (pb_negate p))).
  { cbn [pb_negate pb_wlits]. split; [apply Forall_weights_neg, Hw|].
    rewrite total_weight_neg. apply Hw. }
  assert (He : eval_pb s (pb_negate p) = lneg (eval_pb s p)).
  { rewrite (eval_pb_spec _ _ Hw), (eval_pb_spec _ _ Hw'), Hk'.
    cbn [pb_negate pb_wlits]. rewrite !weight_value_neg. cbn [lneg].
    pose proof (weight_value_total s (pb_wlits p)) as Ht.
    pose proof (weight_value_nonneg s l_true (pb_wlits p) (proj1 Hw)).
    pose proof (weight_value_nonneg s l_undef (pb_wlits p) (proj1 Hw)).
    pose proof (weight_value_nonneg s l_false (pb_wlits p) (proj1 Hw)).
    repeat match goal with
           | |- context [?a <? ?b] => destruct (Z.ltb_spec a b)
           | |- context [?a <=? ?b] => destruct (Z.leb_spec a b)
           end; cbn [lneg]; try reflexivity; lia. }
  split; [|split; [exact He|]].
  - intros rho. unfold sat_pb. rewrite Hk'. cbn [pb_negate pb_wlits].
    rewrite weight_true_neg. lia.
  - intros Hv. destruct (is_null_neg _ Hv) as (Hn1 & Hn2).
    unfold eval, lit, hd_of. cbn [pb_negate pb_hd hd_neg_lit c_lit].
    rewrite Hn1, Hn2, He, value_neg. apply eval_lbool_lneg.
Qed.

Lemma pb_negate_complements_witness :
  eval_pb x1_x2_true (pb_negate pb_2_1_1) = l_false /\
  ~ sat_pb (fun v => v <=? 2) (pb_negate pb_2_1_1).
Proof.
  destruct (pb_negate_complements x1_x2_true pb_2_1_1) as (Hs & He & _).
  - split; [repeat constructor; simpl; lia | vm_compute; discriminate].
  - vm_compute. split; discriminate.
  - vm_compute. reflexivity.
  - split; [rewrite He; reflexivity|].
    rewrite Hs. intros H. apply H. vm_compute. discriminate.
Defined.

(** ** Explanations of propagations *)

(** [ba_solver::get_antecedents(literal, card const&, literal_vector&)]:
    the literals appended to [r]. *)
Definition get_antecedents_card (l : literal) (c : card) : list literal :=
  (if negb (is_null (c_lit (card_hd c))) then [c_lit (card_hd c)] else []) ++
  map neg (skipn (Z.to_nat (card_k c)) (card_lits c)).

(** [ba_solver::validate_unit_propagation(card const&, literal)]. *)
Definition validate_unit_propagation_card (s : ba_solver) (c : card) (alit : literal)
  : bool :=
  if negb (is_null (c_lit (card_hd c))) &&
     negb (lbool_eqb (value s (c_lit (card_hd c))) l_true)
  then false
  else forallb (fun l => lbool_eqb (value s l) l_false)
               (skipn (Z.to_nat (card_k c)) (card_lits c)).

(** [ba_solver::validate_unit_propagation(pb const&, literal)]. *)
Definition validate_unit_propagation_pb (s : ba_solver) (p : pb) (alit : literal) : bool :=
  if negb (is_null (c_lit (pb_hd p))) &&
     negb (lbool_eqb (value s (c_lit (pb_hd p))) l_true)
  then false
  else
    let sum :=
      fold_left (fun sum (wl : wliteral) =>
                   if negb (lbool_eqb (value s (snd wl)) l_false) &&
                      negb (literal_eqb (snd wl) alit)
                   then u32 (sum + fst wl) else sum)
                (pb_wlits p) 0 in
    sum <? pb_k p.

(** [r.contains(l)]. *)
Definition lits_contain (r : list literal) (l : literal) : bool :=
  existsb (literal_eqb l) r.

(** [ba_solver::validate_unit_propagation(pb const&, literal_vector const&,
    literal)]. *)
Definition validate_unit_propagation_pb_r (s : ba_solver) (p : pb) (r : list literal)
  (alit : literal) : bool :=
  if negb (forallb (fun l => lbool_eqb (value s l) l_true) r) then false
  else
    let sum :=
      fold_left (fun sum (wl : wliteral) =>
                   if negb (literal_eqb (snd wl) alit) &&
                      negb (lits_contain r (neg (snd wl)))
                   then u32 (sum + fst wl) else sum)
                (pb_wlits p) 0 in
    sum <? pb_k p.

Lemma count_true_le rho ls : 0 <= count_true rho ls <= Z.of_nat (length ls).
Proof.
  unfold count_true. pose proof (filter_length_le (lit_holds rho) ls). lia.
Qed.

Lemma count_true_app rho l1 l2 :
  count_true rho (l1 ++ l2) = count_true rho l1 + count_true rho l2.
Proof. unfold count_true. rewrite filter_app, length_app. lia. Qed.

Lemma count_true_none rho ls :
  (forall l, In l ls -> lit_holds rho l = false) -> count_true rho ls = 0.
Proof.
  unfold count_true. induction ls as [|l ls IH]; intros H; [reflexivity|].
  cbn [filter]. rewrite (H l (or_introl eq_refl)). apply IH.
  intros l' Hl'. apply H. now right.
Qed.

Lemma count_true_all rho ls :
  count_true rho ls = Z.of_nat (length ls) -> forall l, In l ls -> lit_holds rho l = true.
Proof.
  unfold count_true. induction ls as [|l ls IH]; intros H l' Hl'; [destruct Hl'|].
  cbn [filter length] in H. pose proof (filter_length_le (lit_holds rho) ls) as Hle.
  destruct (lit_holds rho l) eqn:Hl; cbn [length] in H; [|lia].
  destruct Hl' as [<-|Hl']; [exact Hl|]. apply IH; [lia | exact Hl'].
Qed.

(** X6: what [validate_unit_propagation] certifies for a cardinality
    constraint: every literal of the explanation given by
    [get_antecedents] is true, and in every total assignment in which the
    explanation and the body hold, the first [k] literals hold. *)
Theorem card_unit_propagation_certified (s : ba_solver) (c : card) (alit : literal) :
  validate_unit_propagation_card s c alit = true ->
  (forall a, In a (get_antecedents_card alit c) -> value s a = l_true) /\
  (forall rho,
     (forall a, In a (get_antecedents_card alit c) -> lit_holds rho a = true) ->
     sat_card rho c ->
     forall l, In l (firstn (Z.to_nat (card_k c)) (card_lits c)) -> lit_holds rho l = true).
Proof.
  unfold validate_unit_propagation_card, get_antecedents_card. intros Hv.
  set (rest := skipn (Z.to_nat (card_k c)) (card_lits c)) in *.
  set (front := firstn (Z.to_nat (card_k c)) (card_lits c)).
  split.
  - intros a Ha. apply in_app_or in Ha.
    destruct (negb (is_null (c_lit (card_hd c)))) eqn:Hn; cbn [andb] in Hv.
    + destruct (lbool_eqb_spec (value s (c_lit (card_hd c))) l_true) as [Ht|];
        [|discriminate Hv]. cbn [negb] in Hv.
      destruct Ha as [[<-|[]]|Ha]; [exact Ht|].
      apply in_map_iff in Ha. destruct Ha as (l & <- & Hl).
      rewrite forallb_forall in Hv. specialize (Hv l Hl).
      rewrite value_neg. now destruct (value s l).
    + destruct Ha as [[]|Ha].
      apply in_map_iff in Ha. destruct Ha as (l & <- & Hl).
      rewrite forallb_forall in Hv. specialize (Hv l Hl).
      rewrite value_neg. now destruct (value s l).
  - intros rho Hr Hsat.
    assert (Hrest : count_true rho rest = 0).
    { apply count_true_none. intros l Hl.
      assert (Hneg : lit_holds rho (neg l) = true).
      { apply Hr. apply in_or_app. right. now apply in_map. }
      rewrite lit_holds_neg in Hneg. now destruct (lit_holds rho l). }
    unfold sat_card in Hsat.
    rewrite <- (firstn_skipn (Z.to_nat (card_k c)) (card_lits c)) in Hsat.
    fold rest front in Hsat. rewrite count_true_app, Hrest in Hsat.
    pose proof (count_true_le rho front) as Hle.
    destruct (Z.le_gt_cases 0 (card_k c)) as [Hk|Hk].
    + assert (Hlen : Z.of_nat (length front) <= card_k c).
      { unfold front. rewrite length_firstn. lia. }
      apply count_true_all. lia.
    + unfold front. replace (Z.to_nat (card_k c)) with O by lia. intros l [].
Qed.

(** [x4] is false besides. *)
Definition x1_x2_true_x4_false : ba_solver := decide (neg (x_ 4)) x1_x2_true.

Definition card_2_of_3_x4 : card :=
  mk_card (new_header 0 null_literal) 2 [x_ 1; x_ 3; x_ 4].

Lemma card_unit_propagation_certified_witness :
  get_antecedents_card (x_ 3) card_2_of_3_x4 = [neg (x_ 4)] /\
  value x1_x2_true_x4_false (neg (x_ 4)) = l_true.
Proof.
  split; [reflexivity|].
  apply (card_unit_propagation_certified x1_x2_true_x4_false card_2_of_3_x4 (x_ 3)).
  - reflexivity.
  - now left.
Defined.

(** The weight of the terms selected by [f]. *)
Definition weight_where (f : wliteral -> bool) (ws : list wliteral) : Z :=
  fold_right (fun (wl : wliteral) acc => (if f wl then fst wl else 0) + acc) 0 ws.

Lemma weight_where_le_total f ws :
  Forall (fun wl : wliteral => 0 <= fst wl) ws ->
  0 <= weight_where f ws <= total_weight ws.
Proof.
  unfold weight_where, total_weight.
  induction 1 as [|wl ws Hw _ IH]; cbn [fold_right]; [lia|].
  destruct (f wl); lia.
Qed.

Lemma fold_weight_where (f : wliteral -> bool) ws : forall acc : Z,
  Forall (fun wl : wliteral => 0 <= fst wl) ws ->
  0 <= acc -> acc + total_weight ws <= UINT_MAX ->
  fold_left (fun (sum : Z) (wl : wliteral) => if f wl then u32 (sum + fst wl) else sum)
            ws acc =
  acc + weight_where f ws.
Proof.
  induction ws as [|wl ws IH]; intros acc Hw H0 Hb; cbn [fold_left].
  - unfold weight_where. cbn. lia.
  - inversion Hw as [|? ? Hw1 Hw2]; subst.
    unfold total_weight in Hb. cbn [fold_right] in Hb. fold (total_weight ws) in Hb.
    pose proof (total_weight_nonneg ws Hw2).
    unfold weight_where. cbn [fold_right]. fold (weight_where f ws).
    destruct (f wl).
    + rewrite u32_id by (unfold is_u32; lia). rewrite IH by (auto; lia). lia.
    + rewrite IH by (auto; lia). lia.
Qed.

Lemma weight_true_le_where rho f ws :
  Forall (fun wl : wliteral => 0 <= fst wl) ws ->
  (forall wl, In wl ws -> lit_holds rho (snd wl) = true -> f wl = true) ->
  weight_true rho ws <= weight_where f ws.
Proof.
  unfold weight_true, weight_where.
  induction 1 as [|wl ws Hw _ IH]; intros Hf; cbn [fold_right]; [lia|].
  specialize (IH (fun (w : wliteral) (Hin : In w ws) => Hf w (or_intror Hin))).
  pose proof (Hf wl (or_introl eq_refl)) as Hwl.
  destruct (lit_holds rho (snd wl)).
  - rewrite Hwl by reflexivity. lia.
  - destruct (f wl); lia.
Qed.

Lemma lits_contain_In r l : lits_contain r l = true <-> In l r.
Proof.
  unfold lits_contain. rewrite existsb_exists. split.
  - intros (x & Hx & He). destruct (literal_eqb_spec l x); [now subst | discriminate].
  - intros H. exists l. split; [exact H | apply literal_eqb_refl].
Qed.

(** X7: an explanation [r] that [validate_unit_propagation] accepts for a
    pb constraint and a literal is sufficient: in every total assignment in
    which the literals of [r] and the constraint hold, the literal holds. *)
Theorem pb_explanation_certified (s : ba_solver) (p : pb) (r : list literal)
  (alit : literal) :
  weights_ok (pb_wlits p) ->
  validate_unit_propagation_pb_r s p r alit = true ->
  (forall l, In l r -> value s l = l_true) /\
  (forall rho,
     (forall l, In l r -> lit_holds rho l = true) ->
     sat_pb rho p -> lit_holds rho alit = true).
Proof.
  intros (Hw & Hn) Hv. unfold validate_unit_propagation_pb_r in Hv.
  destruct (forallb (fun l => lbool_eqb (value s l) l_true) r) eqn:Hr;
    cbn [negb] in Hv; [|discriminate Hv].
  split.
  - intros l Hl. rewrite forallb_forall in Hr. specialize (Hr l Hl).
    now destruct (lbool_eqb_spec (value s l) l_true).
  - intros rho Hrho Hsat. cbv zeta in Hv.
    rewrite fold_weight_where in Hv by (auto; lia).
    apply Z.ltb_lt in Hv. unfold sat_pb in Hsat.
    destruct (lit_holds rho alit) eqn:Ha; [reflexivity|]. exfalso.
    pose proof (weight_true_le_where rho
                  (fun wl : wliteral =>
                     negb (literal_eqb (snd wl) alit) &&
                     negb (lits_contain r (neg (snd wl))))
                  (pb_wlits p) Hw) as Hle.
    cbv beta in Hle. assert (H : weight_true rho (pb_wlits p) < pb_k p); [|lia].
    eapply Z.le_lt_trans; [apply Hle | lia].
    intros wl _ Hwl. apply andb_true_intro. split.
    + destruct (literal_eqb_spec (snd wl) alit) as [He|]; [|reflexivity].
      rewrite He in Hwl. congruence.
    + destruct (lits_contain r (neg (snd wl))) eqn:Hc; [|reflexivity].
      apply lits_contain_In in Hc. specialize (Hrho _ Hc).
      rewrite lit_holds_neg, Hwl in Hrho. discriminate Hrho.
Qed.

Lemma pb_explanation_certified_witness :
  validate_unit_propagation_pb_r x1_x2_true_x4_false pb_2_1_1 [x_ 2] (x_ 1) = true /\
  forall rho, rho 2 = true -> sat_pb rho pb_2_1_1 -> rho 1 = true.
Proof.
  split; [reflexivity|].
  intros rho H2 Hsat.
  destruct (pb_explanation_certified x1_x2_true_x4_false pb_2_1_1 [x_ 2] (x_ 1))
    as (_ & H).
  - split; [repeat constructor; simpl; lia | vm_compute; discriminate].
  - reflexivity.
  - apply (H rho); [|exact Hsat]. intros l [<-|[]]. exact H2.
Defined.

(** X8: what [validate_unit_propagation] certifies for a pb constraint
    and a literal under the current assignment: in every total assignment
    that agrees with the core and satisfies the constraint, the literal
    holds. *)
Theorem pb_unit_propagation_certified (s : ba_solver) (p : pb) (alit : literal) :
  weights_ok (pb_wlits p) ->
  validate_unit_propagation_pb s p alit = true ->
  forall rho, extends rho s -> sat_pb rho p -> lit_holds rho alit = true.
Proof.
  intros (Hw & Hn) Hv rho He Hsat. unfold validate_unit_propagation_pb in Hv.
  destruct (negb (is_null (c_lit (pb_hd p))) &&
            negb (lbool_eqb (value s (c_lit (pb_hd p))) l_true)); [discriminate Hv|].
  cbv zeta in Hv. rewrite fold_weight_where in Hv by (auto; lia).
  apply Z.ltb_lt in Hv. unfold sat_pb in Hsat.
  destruct (lit_holds rho alit) eqn:Ha; [reflexivity|]. exfalso.
  pose proof (weight_true_le_where rho
                (fun wl : wliteral =>
                   negb (lbool_eqb (value s (snd wl)) l_false) &&
                   negb (literal_eqb (snd wl) alit))
                (pb_wlits p) Hw) as Hle.
  cbv beta in Hle. assert (H : weight_true rho (pb_wlits p) < pb_k p); [|lia].
  eapply Z.le_lt_trans; [apply Hle | lia].
  intros wl _ Hwl. apply andb_true_intro. split.
  - destruct (lbool_eqb_spec (value s (snd wl)) l_false) as [Hf|]; [|reflexivity].
    rewrite (extends_false rho s _ He Hf) in Hwl. discriminate Hwl.
  - destruct (literal_eqb_spec (snd wl) alit) as [Heq|]; [|reflexivity].
    rewrite Heq in Hwl. congruence.
Qed.

(** The pb [2 x1 + x3 + x4 >= 2] forces [x1] once [x4] is false. *)
Definition pb_2_1_1_x4 : pb :=
  mk_pb (new_header 0 null_literal) 2 0 0 4 [(2, x_ 1); (1, x_ 3); (1, x_ 4)].

Lemma extends_x1_x2_true_x4_false :
  extends (fun v => v <=? 2) x1_x2_true_x4_false.
Proof.
  intros [v [|]] Hv; unfold lit_holds; cbn [var sign];
    unfold value, solver.value in Hv; cbn [var sign] in Hv;
    unfold x1_x2_true_x4_false, x1_x2_true, decide in Hv; cbn in Hv;
    unfold solver.upd in Hv;
    destruct (Z.eqb_spec v 4), (Z.eqb_spec v 2), (Z.eqb_spec v 1); subst;
    try discriminate Hv; reflexivity.
Qed.

Lemma pb_unit_propagation_certified_witness :
  validate_unit_propagation_pb x1_x2_true_x4_false pb_2_1_1_x4 (x_ 1) = true /\
  lit_holds (fun v => v <=? 2) (x_ 1) = true.
Proof.
  split; [reflexivity|].
  apply (pb_unit_propagation_certified x1_x2_true_x4_false pb_2_1_1_x4 (x_ 1)).
  - split; [repeat constructor; simpl; lia | vm_compute; discriminate].
  - reflexivity.
  - exact extends_x1_x2_true_x4_false.
  - vm_compute. discriminate.
Defined.

(** ** Well-formedness checks *)

(** The loop of [pb_base::well_formed] over the terms ([get_coeff(i)],
    [get_lit(i)]); [vars] is the [uint_set]. *)
Fixpoint well_formed_loop (k : Z) (terms : list wliteral) (vars : list bool_var) : bool :=
  match terms with
  | [] => true
  | wl :: rest =>
      if contains (var (snd wl)) vars then false
      else if k <? fst wl then false
      else well_formed_loop k rest (var (snd wl) :: vars)
  end.

(** [pb_base::well_formed] for a pb.  Modelled from the spec: the accessors
    [get_lit] and [get_coeff] are declared in the header, which is not part
    of the sources; for a pb they give the literal and the weight of a
    term. *)
Definition pb_well_formed (p : pb) : bool :=
  well_formed_loop (pb_k p) (pb_wlits p)
    (if negb (is_null (c_lit (pb_hd p))) then [var (c_lit (pb_hd p))] else []).

(** The loop of [xor::well_formed]. *)
Fixpoint xor_well_formed_loop (ls : list literal) (vars : list bool_var) : bool :=
  match ls with
  | [] => true
  | l :: rest =>
      if contains (var l) vars then false
      else xor_well_formed_loop rest (var l :: vars)
  end.

(** [xor::well_formed]. *)
Definition xor_well_formed (x : xor) : bool :=
  xor_well_formed_loop (xor_lits x)
    (if negb (is_null (c_lit (xor_hd x))) then [var (c_lit (xor_hd x))] else []).

(** The variables of a constraint: that of the reifier, if there is one,
    and those of the body. *)
Definition reifier_vars (h : header) : list bool_var :=
  if negb (is_null (c_lit h)) then [var (c_lit h)] else [].

Lemma contains_iff x l : contains x l = true <-> In x l.
Proof.
  unfold contains. rewrite existsb_exists. split.
  - intros (y & Hy & He). apply Z.eqb_eq in He. now subst.
  - intros H. exists x. split; [exact H | apply Z.eqb_refl].
Qed.

Lemma well_formed_loop_spec k terms : forall vars,
  well_formed_loop k terms vars = true <->
  NoDup (map (fun wl : wliteral => var (snd wl)) terms) /\
  (forall wl, In wl terms -> ~ In (var (snd wl)) vars) /\
  (forall wl, In wl terms -> fst wl <= k).
Proof.
  induction terms as [|wl terms IH]; intros vars; cbn [well_formed_loop map].
  - split; [intros _|reflexivity].
    split; [constructor|]. split; intros ? [].
  - destruct (contains (var (snd wl)) vars) eqn:Hc.
    + split; [discriminate|]. intros (_ & H & _).
      apply contains_iff in Hc. exfalso. exact (H wl (or_introl eq_refl) Hc).
    + assert (Hnc : ~ In (var (snd wl)) vars).
      { intros H. apply contains_iff in H. congruence. }
      destruct (Z.ltb_spec k (fst wl)) as [Hlt|Hle].
      * split; [discriminate|]. intros (_ & _ & H).
        specialize (H wl (or_introl eq_refl)). lia.
      * rewrite IH. split.
        -- intros (Hnd & Hv & Hk). split; [|split].
           ++ constructor; [|exact Hnd]. intros Hin.
              apply in_map_iff in Hin. destruct Hin as (wl' & He & Hin).
              apply (Hv wl' Hin). rewrite He. now left.
           ++ intros wl' [<-|Hin]; [exact Hnc|].
              intros H. apply (Hv wl' Hin). now right.
           ++ intros wl' [<-|Hin]; [exact Hle | now apply Hk].
        -- intros (Hnd & Hv & Hk). inversion Hnd as [|? ? Hn1 Hn2]; subst.
           split; [exact Hn2|]. split.
           ++ intros wl' Hin [He|H].
              ** apply Hn1. rewrite He. now apply (in_map (fun w : wliteral => var (snd w))).
              ** exact (Hv wl' (or_intror Hin) H).
           ++ intros wl' Hin. apply Hk. now right.
Qed.

Lemma well_formed_terms_iff (h : header) k terms :
  well_formed_loop k terms (reifier_vars h) = true <->
  NoDup (reifier_vars h ++ map (fun wl : wliteral => var (snd wl)) terms) /\
  (forall wl, In wl terms -> fst wl <= k).
Proof.
  rewrite well_formed_loop_spec.
  assert (Hrv : NoDup (reifier_vars h)).
  { unfold reifier_vars. destruct (negb _); repeat constructor. intros []. }
  split.
  - intros (Hnd & Hv & Hk). split; [|exact Hk].
    apply NoDup_app; [exact Hrv | exact Hnd |].
    intros v Hin1 Hin2. apply in_map_iff in Hin2. destruct Hin2 as (wl & <- & Hin2).
    exact (Hv wl Hin2 Hin1).
  - intros (Hnd & Hk). split; [|split; [|exact Hk]].
    + now apply NoDup_app_remove_l in Hnd.
    + intros wl Hin Hv. unfold reifier_vars in *.
      destruct (negb (is_null (c_lit h))); [|destruct Hv].
      destruct Hv as [Hv|[]]. cbn [app] in Hnd.
      inversion Hnd as [|? ? Hn1 _]; subst. apply Hn1. rewrite Hv.
      now apply (in_map (fun w : wliteral => var (snd w))).
Qed.

(** X9: [well_formed] accepts exactly the pb constraints in which the
    variables of the reifier and of the terms are pairwise distinct and no
    weight exceeds the threshold. *)
Theorem pb_well_formed_iff (p : pb) :
  pb_well_formed p = true <->
  NoDup (reifier_vars (pb_hd p) ++ map (fun wl : wliteral => var (snd wl)) (pb_wlits p)) /\
  (forall wl, In wl (pb_wlits p) -> fst wl <= pb_k p).
Proof.
  unfold pb_well_formed. fold (reifier_vars (pb_hd p)).
  apply well_formed_terms_iff.
Qed.

Lemma xor_well_formed_as_terms ls : forall vars,
  xor_well_formed_loop ls vars = well_formed_loop 0 (map (fun l => (0, l)) ls) vars.
Proof.
  induction ls as [|l ls IH]; intros vars; cbn [xor_well_formed_loop well_formed_loop map];
    [reflexivity|].
  cbn [fst snd]. destruct (contains (var l) vars); [reflexivity|].
  rewrite Z.ltb_irrefl. apply IH.
Qed.

(** X10: [xor::well_formed] accepts exactly the xor constraints in which
    the variables of the reifier and of the literals are pairwise
    distinct. *)
Theorem xor_well_formed_iff (x : xor) :
  xor_well_formed x = true <-> NoDup (reifier_vars (xor_hd x) ++ map var (xor_lits x)).
Proof.
  unfold xor_well_formed. fold (reifier_vars (xor_hd x)).
  rewrite xor_well_formed_as_terms.
  rewrite (well_formed_terms_iff (xor_hd x) 0 (map (fun l => (0, l)) (xor_lits x))).
  rewrite map_map. cbn [snd].
  split; [intros (Hnd & _); exact Hnd|]. intros Hnd. split; [exact Hnd|].
  intros wl Hin. apply in_map_iff in Hin. destruct Hin as (l & <- & _). cbn. lia.
Qed.

(** ** Scopes *)

Lemma at_in_range {A} (l : list A) i s :
  0 <= i < Z.of_nat (length l) ->
  exists x, nth_error l (Z.to_nat i) = Some x /\ at_ l i s = Ret x s.
Proof.
  intros Hi. unfold at_.
  destruct (Z.leb_spec 0 i); [|lia]. destruct (Z.ltb_spec i (Z.of_nat (length l))); [|lia].
  cbn [andb]. destruct (nth_error l (Z.to_nat i)) as [x|] eqn:Hx.
  - exists x. split; reflexivity.
  - apply nth_error_None in Hx. lia.
Qed.

Lemma at_out_of_range {A} (l : list A) i s :
  Z.of_nat (length l) <= i -> at_ l i s = Undefined.
Proof.
  intros Hi. unfold at_.
  destruct (Z.ltb_spec i (Z.of_nat (length l))); [lia|].
  now rewrite andb_false_r.
Qed.

(** [pop(n)] inside the bounds of the scope stack. *)
Lemma pop_run (s : ba_solver) (n : Z) :
  1 <= n <= Z.of_nat (length (m_constraint_to_reinit_lim s)) ->
  Z.of_nat (length (m_constraint_to_reinit_lim s)) <= UINT_MAX ->
  exists x,
    nth_error (m_constraint_to_reinit_lim s)
              (Z.to_nat (Z.of_nat (length (m_constraint_to_reinit_lim s)) - n)) = Some x /\
    pop n s =
    Ret tt (set_m_num_propagations_since_pop 0
              (set_m_constraint_to_reinit_lim
                 (firstn (Z.to_nat (Z.of_nat (length (m_constraint_to_reinit_lim s)) - n))
                         (m_constraint_to_reinit_lim s))
                 (set_m_constraint_to_reinit_last_sz x s))).
Proof.
  intros Hn Hlen. unfold pop. erewrite bind_eq by reflexivity.
  unfold UINT_MAX in Hlen.
  rewrite u32_id by (unfold is_u32, UINT_MAX; lia).
  destruct (at_in_range (m_constraint_to_reinit_lim s)
              (Z.of_nat (length (m_constraint_to_reinit_lim s)) - n) s ltac:(lia))
    as (x & Hx & Hat).
  exists x. split; [exact Hx|].
  rewrite (bind_eq _ _ _ _ _ Hat). reflexivity.
Qed.

(** X11: [pop(n)] reads the scope stack inside its bounds exactly when
    [1 <= n <= ] the number of open scopes; then it cuts the stack back by
    [n] entries, remembers the size recorded by the oldest scope it closes,
    and resets the propagation counter.  [pop(0)] and a [pop] of more scopes
    than are open read outside the stack. *)
Theorem pop_bounds (s : ba_solver) (n : Z) :
  is_u32 n ->
  Z.of_nat (length (m_constraint_to_reinit_lim s)) <= UINT_MAX ->
  match pop n s with
  | Ret _ s' =>
      1 <= n <= Z.of_nat (length (m_constraint_to_reinit_lim s)) /\
      m_constraint_to_reinit_lim s' =
        firstn (Z.to_nat (Z.of_nat (length (m_constraint_to_reinit_lim s)) - n))
               (m_constraint_to_reinit_lim s) /\
      nth_error (m_constraint_to_reinit_lim s)
                (Z.to_nat (Z.of_nat (length (m_constraint_to_reinit_lim s)) - n)) =
        Some (m_constraint_to_reinit_last_sz s') /\
      m_num_propagations_since_pop s' = 0 /\
      m_constraint_to_reinit s' = m_constraint_to_reinit s /\
      m_solver s' = m_solver s /\ m_allocator s' = m_allocator s
  | Undefined => n = 0 \/ Z.of_nat (length (m_constraint_to_reinit_lim s)) < n
  | _ => False
  end.
Proof.
  intros Hn Hlen.
  destruct (Z.eq_dec n 0) as [->|Hnz].
  { unfold pop. erewrite bind_eq by reflexivity.
    rewrite Z.sub_0_r. rewrite u32_id by (unfold is_u32; lia).
    unfold bind. rewrite at_out_of_range by lia. now left. }
  destruct (Z.lt_ge_cases (Z.of_nat (length (m_constraint_to_reinit_lim s))) n)
    as [Hgt|Hle].
  { unfold pop. erewrite bind_eq by reflexivity.
    unfold is_u32, UINT_MAX in *.
    assert (Hu : u32 (Z.of_nat (length (m_constraint_to_reinit_lim s)) - n) =
                 Z.of_nat (length (m_constraint_to_reinit_lim s)) - n + 4294967296).
    { unfold u32. rewrite <- (Z.mod_add _ 1) by lia. apply Z.mod_small. lia. }
    unfold bind. rewrite at_out_of_range by lia. now right. }
  unfold is_u32 in Hn.
  destruct (pop_run s n ltac:(lia) Hlen) as (x & Hx & ->).
  cbn [m_constraint_to_reinit_lim m_constraint_to_reinit_last_sz
       m_num_propagations_since_pop m_constraint_to_reinit m_solver m_allocator
       set_m_constraint_to_reinit_last_sz set_m_constraint_to_reinit_lim
       set_m_num_propagations_since_pop].
  repeat split; try lia. exact Hx.
Qed.

(** A solver with two open scopes. *)
Definition two_scopes : ba_solver :=
  set_m_constraint_to_reinit_lim [0%nat; 3%nat] empty_solver.

Lemma pop_bounds_witness :
  match pop 1 two_scopes with
  | Ret _ s' =>
      m_constraint_to_reinit_lim s' = [0%nat] /\ m_constraint_to_reinit_last_sz s' = 3%nat
  | _ => False
  end /\ pop 0 two_scopes = Undefined.
Proof.
  pose proof (pop_bounds two_scopes 1) as H.
  split; [|reflexivity].
  assert (H1 : is_u32 1) by (unfold is_u32, UINT_MAX; lia).
  assert (H2 : Z.of_nat (length (m_constraint_to_reinit_lim two_scopes)) <= UINT_MAX)
    by (vm_compute; discriminate).
  specialize (H H1 H2).
  destruct (pop 1 two_scopes) as [[] s'| | | |] eqn:Hp; try exact H;
    try (vm_compute in Hp; discriminate Hp).
  destruct H as (_ & Hl & Hn & _). split; [exact Hl|].
  change (Some 3%nat = Some (m_constraint_to_reinit_last_sz s')) in Hn. congruence.
Defined.

(** [n] calls of [push]. *)
Fixpoint pushes (n : nat) : M unit :=
  match n with
  | O => ret tt
  | S n' => push ;; pushes n'
  end.

Lemma pushes_run n : forall s,
  exists s',
    pushes n s = Ret tt s' /\
    m_constraint_to_reinit_lim s' =
      m_constraint_to_reinit_lim s ++ repeat (length (m_constraint_to_reinit s)) n /\
    m_constraint_to_reinit s' = m_constraint_to_reinit s /\
    m_constraint_to_reinit_last_sz s' = m_constraint_to_reinit_last_sz s /\
    m_solver s' = m_solver s /\ m_allocator s' = m_allocator s.
Proof.
  induction n as [|n IH]; intros s; cbn [pushes repeat].
  - exists s. rewrite app_nil_r. repeat split.
  - unfold push at 1. erewrite bind_eq by reflexivity.
    destruct (IH (set_m_constraint_to_reinit_lim
                    (m_constraint_to_reinit_lim s ++ [length (m_constraint_to_reinit s)]) s))
      as (s' & Hr & Hl & Hc & Hz & Hs & Ha).
    exists s'. split; [exact Hr|].
    cbn [m_constraint_to_reinit_lim m_constraint_to_reinit set_m_constraint_to_reinit_lim
         m_constraint_to_reinit_last_sz m_solver m_allocator] in *.
    rewrite Hl, <- app_assoc. repeat split; assumption.
Qed.

(** X12: closing the scopes that were just opened restores the scope
    stack: after [n >= 1] calls of [push], [pop(n)] returns, the stack is
    as before the first [push], and the remembered size is the size the
    reinit queue had then. *)
Theorem push_pop_round_trip (s : ba_solver) (n : nat) :
  (1 <= n)%nat ->
  Z.of_nat (length (m_constraint_to_reinit_lim s)) + Z.of_nat n <= UINT_MAX ->
  exists s',
    (pushes n ;; pop (Z.of_nat n)) s = Ret tt s' /\
    m_constraint_to_reinit_lim s' = m_constraint_to_reinit_lim s /\
    m_constraint_to_reinit_last_sz s' = length (m_constraint_to_reinit s) /\
    m_constraint_to_reinit s' = m_constraint_to_reinit s /\
    m_num_propagations_since_pop s' = 0.
Proof.
  intros Hn Hlen.
  destruct (pushes_run n s) as (s1 & Hr & Hl & Hc & _).
  rewrite (bind_eq _ _ _ _ _ Hr).
  assert (Hlen1 : length (m_constraint_to_reinit_lim s1) =
                  (length (m_constraint_to_reinit_lim s) + n)%nat).
  { now rewrite Hl, length_app, repeat_length. }
  destruct (pop_run s1 (Z.of_nat n)) as (x & Hx & ->); [lia | lia |].
  eexists. split; [reflexivity|].
  cbn [m_constraint_to_reinit_lim m_constraint_to_reinit_last_sz
       m_num_propagations_since_pop m_constraint_to_reinit
       set_m_constraint_to_reinit_last_sz set_m_constraint_to_reinit_lim
       set_m_num_propagations_since_pop].
  replace (Z.to_nat (Z.of_nat (length (m_constraint_to_reinit_lim s1)) - Z.of_nat n))
    with (length (m_constraint_to_reinit_lim s)) in * by lia.
  rewrite Hl in *. rewrite firstn_app, firstn_all, Nat.sub_diag in *.
  cbn [firstn]. rewrite app_nil_r.
  split; [reflexivity|]. split; [|split; [exact Hc | reflexivity]].
  rewrite nth_error_app2 in Hx by lia. rewrite Nat.sub_diag in Hx.
  destruct n as [|n]; [lia|]. cbn in Hx. congruence.
Qed.

Lemma push_pop_round_trip_witness :
  exists s',
    (pushes 2 ;; pop 2) two_scopes = Ret tt s' /\
    m_constraint_to_reinit_lim s' = [0%nat; 3%nat].
Proof.
  destruct (push_pop_round_trip two_scopes 2) as (s' & Hr & Hl & _).
  - lia.
  - vm_compute. discriminate.
  - exists s'. split; [exact Hr | exact Hl].
Defined.

(** ** Subsumption *)

(** The loop shared by [subsumes(card&, card&, literal_vector&)] and
    [subsumes(card&, clause&, literal_vector&)] over the literals of the
    second constraint: the counters [common] and [c2_exclusive], and
    [comp].  [is_marked] reads the member [m_visited], which
    [subsumption(card&)] sets on the literals of [c1] before the calls; it
    is passed as [visited]. *)
Definition subsumes_scan (visited : literal -> bool) (ls : list literal)
  : Z * list literal * Z :=
  fold_left (fun (st : Z * list literal * Z) l =>
               let '(common, comp, excl) := st in
               if visited l then (u32 (common + 1), comp, excl)
               else if visited (neg l) then (common, comp ++ [l], excl)
               else (common, comp, u32 (excl + 1)))
            ls (0, [], 0).

(** [ba_solver::subsumes(card& c1, card& c2, literal_vector& comp)]: the
    answer, and [comp] on return. *)
Definition subsumes_card_card (visited : literal -> bool) (c1 c2 : card)
  (comp : list literal) : bool * list literal :=
  if negb (is_null (c_lit (card_hd c2))) then (false, comp)
  else
    let '(common, comp, _) := subsumes_scan visited (card_lits c2) in
    let c1_exclusive :=
      u32 (u32 (Z.of_nat (card_size c1) - common) - Z.of_nat (length comp)) in
    (u32 (u32 (c1_exclusive + card_k c2) + Z.of_nat (length comp)) <=? card_k c1, comp).

(** [ba_solver::subsumes(card& c1, clause& c2, literal_vector& comp)]. *)
Definition subsumes_card_clause (visited : literal -> bool) (c1 : card)
  (c2 : list literal) : bool * list literal :=
  let '(common, comp, _) := subsumes_scan visited c2 in
  match comp with
  | _ :: _ => (false, comp)
  | [] =>
      let c1_exclusive :=
        u32 (u32 (Z.of_nat (card_size c1) - common) - Z.of_nat (length comp)) in
      (u32 (c1_exclusive + 1) <=? card_k c1, comp)
  end.

(** [ba_solver::subsumes(pb const& p1, pb_base const& p2)]; [p2] is seen
    through [k()], [size()], [get_lit(i)] and [get_coeff(i)], which give
    [k2] and [terms2].  [m_weights], set by [subsumption(pb&)] to the
    weights of [p1], is passed as [weights]. *)
Definition subsumes_pb (visited : literal -> bool) (weights : literal -> Z) (p1 : pb)
  (k2 : Z) (terms2 : list wliteral) : bool :=
  if (pb_k p1 <? k2) || (Z.of_nat (length terms2) <? Z.of_nat (pb_size p1)) then false
  else
    let num_sub :=
      fold_left (fun n (wl : wliteral) =>
                   if visited (snd wl) && (weights (snd wl) <=? fst wl)
                   then u32 (n + 1) else n)
                terms2 0 in
    num_sub =? Z.of_nat (pb_size p1).

Lemma triple_eq {A B C} (a a' : A) (b b' : B) (c c' : C) :
  a = a' -> b = b' -> c = c' -> (a, b, c) = (a', b', c').
Proof. now intros -> -> ->. Qed.

Lemma subsumes_scan_spec visited ls :
  Z.of_nat (length ls) <= UINT_MAX ->
  subsumes_scan visited ls =
  (Z.of_nat (length (filter visited ls)),
   filter (fun l => negb (visited l) && visited (neg l)) ls,
   Z.of_nat (length (filter (fun l => negb (visited l) && negb (visited (neg l))) ls))).
Proof.
  intros Hn. unfold subsumes_scan.
  assert (H : forall common comp excl,
             0 <= common -> 0 <= excl ->
             common + Z.of_nat (length ls) <= UINT_MAX ->
             excl + Z.of_nat (length ls) <= UINT_MAX ->
             fold_left (fun (st : Z * list literal * Z) l =>
                          let '(common, comp, excl) := st in
                          if visited l then (u32 (common + 1), comp, excl)
                          else if visited (neg l) then (common, comp ++ [l], excl)
                          else (common, comp, u32 (excl + 1)))
                       ls (common, comp, excl) =
             (common + Z.of_nat (length (filter visited ls)),
              comp ++ filter (fun l => negb (visited l) && visited (neg l)) ls,
              excl + Z.of_nat (length (filter (fun l => negb (visited l) &&
                                                        negb (visited (neg l))) ls)))).
  { clear Hn. induction ls as [|l ls IH]; intros common comp excl H1 H2 H3 H4;
      cbn [fold_left filter length] in *.
    - apply triple_eq; [lia | now rewrite app_nil_r | lia].
    - destruct (visited l); cbn [negb andb].
      + rewrite u32_id by (unfold is_u32; lia). rewrite IH by lia.
        cbn [length]. apply triple_eq; [lia | reflexivity | lia].
      + destruct (visited (neg l)); cbn [negb].
        * rewrite IH by lia. rewrite <- app_assoc. reflexivity.
        * rewrite u32_id by (unfold is_u32; lia). rewrite IH by lia.
          cbn [length]. apply triple_eq; [lia | reflexivity | lia]. }
  rewrite H by lia. reflexivity.
Qed.

Lemma count_true_perm rho l l' : Permutation l l' -> count_true rho l = count_true rho l'.
Proof.
  unfold count_true. induction 1 as [|x l l' _ IH|x y l|l l' l'' _ IH1 _ IH2];
    cbn [filter]; [reflexivity | | | lia].
  - destruct (lit_holds rho x); cbn [length]; lia.
  - destruct (lit_holds rho x), (lit_holds rho y); cbn [length]; lia.
Qed.

Lemma filter_split_length {A} (f : A -> bool) l :
  (length (filter f l) + length (filter (fun x => negb (f x)) l) = length l)%nat.
Proof.
  induction l as [|x l IH]; [reflexivity|]. cbn [filter].
  destruct (f x); cbn [negb length]; lia.
Qed.

Lemma count_true_split rho (f : literal -> bool) l :
  count_true rho l =
  count_true rho (filter f l) + count_true rho (filter (fun x => negb (f x)) l).
Proof.
  unfold count_true. induction l as [|x l IH]; [reflexivity|]. cbn [filter].
  destruct (f x); cbn [negb filter]; destruct (lit_holds rho x); cbn [length]; lia.
Qed.

Lemma count_true_sub rho (f : literal -> bool) l :
  count_true rho (filter f l) <= count_true rho l.
Proof.
  rewrite (count_true_split rho f l).
  pose proof (count_true_le rho (filter (fun x => negb (f x)) l)). lia.
Qed.

(** The literals of [c1] that hold are among the common ones or among those
    that [c2] does not have. *)
Lemma common_true_bound rho (visited : literal -> bool) l1 l2 :
  (forall l, visited l = true <-> In l l1) ->
  NoDup l1 -> NoDup l2 ->
  count_true rho l1 <=
  count_true rho (filter visited l2) +
  (Z.of_nat (length l1) - Z.of_nat (length (filter visited l2))) /\
  Z.of_nat (length (filter visited l2)) <= Z.of_nat (length l1).
Proof.
  intros Hv Hn1 Hn2.
  assert (Hperm : Permutation (filter (lits_contain l2) l1) (filter visited l2)).
  { apply NoDup_Permutation; [now apply NoDup_filter | now apply NoDup_filter |].
    intros x. rewrite !filter_In, lits_contain_In, Hv. tauto. }
  rewrite (count_true_split rho (lits_contain l2) l1).
  rewrite (count_true_perm rho _ _ Hperm).
  pose proof (Permutation_length Hperm) as Hlen.
  pose proof (filter_split_length (lits_contain l2) l1) as Hsplit.
  pose proof (count_true_le rho (filter (fun x => negb (lits_contain l2 x)) l1)).
  lia.
Qed.

Lemma u32_sub_add_back a m k :
  u32 (u32 (u32 (u32 a - m) + k) + m) = u32 (a + k).
Proof.
  unfold u32.
  rewrite Zplus_mod_idemp_l, <- Z.add_assoc, Zplus_mod_idemp_l.
  replace (a mod 4294967296 - m + (k + m)) with (a mod 4294967296 + k) by lia.
  apply Zplus_mod_idemp_l.
Qed.

Lemma filter_filter_sub {A} (f g : A -> bool) l :
  (forall x, f x = true -> g x = true) -> filter f (filter g l) = filter f l.
Proof.
  intros H. induction l as [|x l IH]; [reflexivity|]. cbn [filter].
  destruct (g x) eqn:G; cbn [filter].
  - destruct (f x); now rewrite IH.
  - destruct (f x) eqn:F; [|exact IH]. rewrite (H x F) in G. discriminate G.
Qed.

(** The literals put into [comp] are not marked themselves. *)
Lemma marked_not_in_comp (visited : literal -> bool) ls l :
  visited l = true ->
  negb (lits_contain (filter (fun l => negb (visited l) && visited (neg l)) ls) l) = true.
Proof.
  intros Hl. destruct (lits_contain _ l) eqn:Hc; [|reflexivity].
  apply lits_contain_In, filter_In in Hc. rewrite Hl in Hc.
  destruct Hc as [_ Hc]. discriminate Hc.
Qed.

(** X13: subsumption between cardinality constraints is sound: when
    [subsumes] answers yes, every total assignment that satisfies [c1]
    satisfies [c2], and still does after the literals returned in [comp]
    are taken out of [c2] (self-subsumption; with [comp] empty the caller
    removes [c2]).  The marks are those of the literals of [c1], and the
    literals of each constraint are distinct. *)
Theorem subsumes_card_card_sound (visited : literal -> bool) (c1 c2 : card)
  (comp0 comp : list literal) :
  (forall l, visited l = true <-> In l (card_lits c1)) ->
  NoDup (card_lits c1) -> NoDup (card_lits c2) ->
  Z.of_nat (card_size c2) <= UINT_MAX ->
  0 <= card_k c2 -> Z.of_nat (card_size c1) + card_k c2 <= UINT_MAX ->
  subsumes_card_card visited c1 c2 comp0 = (true, comp) ->
  forall rho, sat_card rho c1 ->
    sat_card rho c2 /\
    card_k c2 <=
      count_true rho (filter (fun l => negb (lits_contain comp l)) (card_lits c2)).
Proof.
  intros Hv Hn1 Hn2 Hsz Hk Hb Hs rho Hsat. unfold subsumes_card_card in Hs.
  destruct (negb (is_null (c_lit (card_hd c2)))); [discriminate Hs|].
  unfold card_size in *. rewrite (subsumes_scan_spec visited _ Hsz) in Hs.
  injection Hs as Hle Hcomp.
  destruct (common_true_bound rho visited _ _ Hv Hn1 Hn2) as (Hbound & Hc).
  rewrite <- (u32_id (Z.of_nat (length (card_lits c1)) - _)) in Hle
    by (unfold is_u32; lia).
  rewrite u32_idem, u32_sub_add_back, u32_id in Hle by (unfold is_u32; lia).
  apply Z.leb_le in Hle. unfold sat_card in *.
  assert (Hcommon : card_k c2 <= count_true rho (filter visited (card_lits c2))) by lia.
  split.
  - pose proof (count_true_sub rho visited (card_lits c2)). lia.
  - rewrite <- Hcomp.
    rewrite <- (filter_filter_sub visited _ (card_lits c2)
                  (marked_not_in_comp visited (card_lits c2))) in Hcommon.
    pose proof (count_true_sub rho visited
                  (filter (fun l => negb (lits_contain
                     (filter (fun l0 => negb (visited l0) && visited (neg l0))
                        (card_lits c2)) l)) (card_lits c2))).
    lia.
Qed.

(** [x1 + x2 + x3 + x4 >= 1]. *)
Definition card_1_of_4 : card :=
  mk_card (new_header 1 null_literal) 1 [x_ 1; x_ 2; x_ 3; x_ 4].

Lemma NoDup_x1_x4 : NoDup [x_ 1; x_ 2; x_ 3; x_ 4] /\ NoDup [x_ 1; x_ 2; x_ 3].
Proof.
  split; repeat constructor; cbn [In]; unfold x_; intros H;
    repeat (destruct H as [H|H]; [discriminate H|]); exact H.
Qed.

Lemma subsumes_card_card_sound_witness :
  subsumes_card_card (lits_contain (card_lits card_2_of_3)) card_2_of_3 card_1_of_4 [] =
    (true, []) /\
  forall rho, sat_card rho card_2_of_3 ->
    sat_card rho card_1_of_4 /\
    card_k card_1_of_4 <=
      count_true rho (filter (fun l => negb (lits_contain [] l)) (card_lits card_1_of_4)).
Proof.
  split; [reflexivity|].
  apply (subsumes_card_card_sound (lits_contain (card_lits card_2_of_3))
           card_2_of_3 card_1_of_4 [] []).
  - intros l. apply lits_contain_In.
  - apply NoDup_x1_x4.
  - apply NoDup_x1_x4.
  - vm_compute. discriminate.
  - vm_compute. discriminate.
  - vm_compute. discriminate.
  - reflexivity.
Defined.

(** X14: subsumption of a clause by a cardinality constraint is sound:
    when [subsumes] answers yes, every total assignment that satisfies [c1]
    makes a literal of the clause true.  The marks are those of the
    literals of [c1], and the literals of each are distinct. *)
Theorem subsumes_card_clause_sound (visited : literal -> bool) (c1 : card)
  (c2 : list literal) (comp : list literal) :
  (forall l, visited l = true <-> In l (card_lits c1)) ->
  NoDup (card_lits c1) -> NoDup c2 ->
  Z.of_nat (length c2) <= UINT_MAX -> Z.of_nat (card_size c1) < UINT_MAX ->
  subsumes_card_clause visited c1 c2 = (true, comp) ->
  forall rho, sat_card rho c1 -> exists l, In l c2 /\ lit_holds rho l = true.
Proof.
  intros Hv Hn1 Hn2 Hsz Hb Hs rho Hsat. unfold subsumes_card_clause in Hs.
  unfold card_size in *. rewrite (subsumes_scan_spec visited _ Hsz) in Hs.
  destruct (filter (fun l => negb (visited l) && visited (neg l)) c2);
    [|discriminate Hs].
  injection Hs as Hle _. cbn [length] in Hle.
  destruct (common_true_bound rho visited _ _ Hv Hn1 Hn2) as (Hbound & Hc).
  set (a := Z.of_nat (length (card_lits c1)) -
            Z.of_nat (length (filter visited c2))) in *.
  rewrite (u32_id a), Z.sub_0_r, (u32_id a), (u32_id (a + 1)) in Hle
    by (unfold is_u32; lia).
  apply Z.leb_le in Hle. unfold sat_card in Hsat.
  assert (Hpos : 0 < count_true rho (filter visited c2)) by lia.
  unfold count_true in Hpos.
  destruct (filter (lit_holds rho) (filter visited c2)) as [|l ls] eqn:Hf;
    [cbn in Hpos; lia|].
  assert (Hin : In l (filter (lit_holds rho) (filter visited c2)))
    by (rewrite Hf; now left).
  rewrite !filter_In in Hin. exists l. tauto.
Qed.

Lemma subsumes_card_clause_sound_witness :
  subsumes_card_clause (lits_contain (card_lits card_2_of_3)) card_2_of_3
    [x_ 1; x_ 2; x_ 3; x_ 4] = (true, []) /\
  forall rho, sat_card rho card_2_of_3 ->
              exists l, In l [x_ 1; x_ 2; x_ 3; x_ 4] /\ lit_holds rho l = true.
Proof.
  split; [reflexivity|].
  apply (subsumes_card_clause_sound (lits_contain (card_lits card_2_of_3))
           card_2_of_3 [x_ 1; x_ 2; x_ 3; x_ 4] []).
  - intros l. apply lits_contain_In.
  - apply NoDup_x1_x4.
  - apply NoDup_x1_x4.
  - vm_compute. discriminate.
  - vm_compute. reflexivity.
  - reflexivity.
Defined.

Lemma weight_true_app rho ws1 ws2 :
  weight_true rho (ws1 ++ ws2) = weight_true rho ws1 + weight_true rho ws2.
Proof.
  unfold weight_true. induction ws1 as [|wl ws1 IH]; cbn [app fold_right]; lia.
Qed.

Lemma weight_true_nonneg rho ws :
  Forall (fun wl : wliteral => 0 <= fst wl) ws -> 0 <= weight_true rho ws.
Proof.
  unfold weight_true. induction 1 as [|wl ws Hw _ IH]; cbn [fold_right]; [lia|].
  destruct (lit_holds rho (snd wl)); lia.
Qed.

(** Termwise domination: every term of [ws1] has a term of [ws2] on the
    same literal with a coefficient at least as large. *)
Lemma weight_true_dominated rho ws1 : forall ws2,
  NoDup (map snd ws1) ->
  Forall (fun wl : wliteral => 0 <= fst wl) ws2 ->
  (forall w l, In (w, l) ws1 -> exists w', w <= w' /\ In (w', l) ws2) ->
  weight_true rho ws1 <= weight_true rho ws2.
Proof.
  induction ws1 as [|[w l] ws1 IH]; intros ws2 Hnd Hpos Hdom.
  - apply (weight_true_nonneg rho ws2 Hpos).
  - destruct (Hdom w l (or_introl eq_refl)) as (w' & Hw & Hin).
    destruct (in_split _ _ Hin) as (t1 & t2 & ->).
    cbn [map] in Hnd. apply NoDup_cons_iff in Hnd. destruct Hnd as [Hnotin Hnd].
    apply Forall_app in Hpos. destruct Hpos as [Hp1 Hp2].
    apply Forall_cons_iff in Hp2. destruct Hp2 as [Hw' Hp2].
    assert (Hle : weight_true rho ws1 <= weight_true rho (t1 ++ t2)).
    { apply IH; [exact Hnd | apply Forall_app; now split |].
      intros w0 l0 H0. destruct (Hdom w0 l0 (or_intror H0)) as (w0' & Hw0 & Hin0).
      exists w0'. split; [exact Hw0|].
      apply in_app_or in Hin0. apply in_or_app.
      destruct Hin0 as [Hin0|[Heq|Hin0]]; [now left | | now right].
      injection Heq as _ ->. exfalso. apply Hnotin.
      exact (in_map snd ws1 (w0, l0) H0). }
    rewrite weight_true_app in *. unfold weight_true at 1 3.
    cbn [fold_right fst snd]. fold (weight_true rho ws1). fold (weight_true rho t2).
    cbn [fst] in Hw'. destruct (lit_holds rho l); lia.
Qed.

Lemma NoDup_map_filter {A B} (f : A -> B) (g : A -> bool) l :
  NoDup (map f l) -> NoDup (map f (filter g l)).
Proof.
  induction l as [|x l IH]; cbn [map filter]; intros H; [exact H|].
  apply NoDup_cons_iff in H. destruct H as [Hx H].
  destruct (g x); [|now apply IH]. cbn [map]. constructor; [|now apply IH].
  intros Hin. apply Hx. apply in_map_iff in Hin. destruct Hin as (y & <- & Hy).
  apply in_map. apply filter_In in Hy. tauto.
Qed.

Lemma num_sub_counts (g : wliteral -> bool) ws : forall n,
  0 <= n -> n + Z.of_nat (length ws) <= UINT_MAX ->
  fold_left (fun n (wl : wliteral) => if g wl then u32 (n + 1) else n) ws n =
  n + Z.of_nat (length (filter g ws)).
Proof.
  induction ws as [|wl ws IH]; intros n H0 Hn; cbn [fold_left filter length] in *; [lia|].
  destruct (g wl).
  - rewrite u32_id by (unfold is_u32; lia). rewrite IH by lia. cbn [length]. lia.
  - apply IH; lia.
Qed.

(** X15: subsumption of a pseudo-Boolean or cardinality constraint by a
    pseudo-Boolean constraint is sound: when [subsumes(p1, p2)] answers
    yes, every total assignment that satisfies [p1] satisfies the
    inequality of [p2].  The marks and [weights] are those of the terms of
    [p1], as [subsumption(pb&)] sets them, and the literals of each
    constraint are distinct. *)
Theorem subsumes_pb_sound (visited : literal -> bool) (weights : literal -> Z) (p1 : pb)
  (k2 : Z) (terms2 : list wliteral) :
  (forall l, visited l = true <-> In l (map snd (pb_wlits p1))) ->
  (forall w l, In (w, l) (pb_wlits p1) -> weights l = w) ->
  NoDup (map snd (pb_wlits p1)) -> NoDup (map snd terms2) ->
  Forall (fun wl : wliteral => 0 <= fst wl) terms2 ->
  Z.of_nat (length terms2) <= UINT_MAX ->
  subsumes_pb visited weights p1 k2 terms2 = true ->
  forall rho, sat_pb rho p1 -> k2 <= weight_true rho terms2.
Proof.
  intros Hv Hwt Hn1 Hn2 Hpos Hsz Hs rho Hsat. unfold subsumes_pb in Hs.
  destruct (_ || _) eqn:Hguard; [discriminate Hs|].
  apply orb_false_iff in Hguard. destruct Hguard as [Hk _].
  apply Z.ltb_ge in Hk.
  set (g := fun wl : wliteral => visited (snd wl) && (weights (snd wl) <=? fst wl)).
  rewrite (num_sub_counts g) in Hs by lia. apply Z.eqb_eq in Hs.
  assert (Hincl : incl (map snd (pb_wlits p1)) (map snd (filter g terms2))).
  { apply NoDup_length_incl.
    - now apply NoDup_map_filter.
    - rewrite !length_map. unfold pb_size in Hs. rewrite Z.add_0_l in Hs.
      apply Nat2Z.inj_le, Z.eq_le_incl. symmetry. exact Hs.
    - intros l Hl. apply in_map_iff in Hl. destruct Hl as (wl & <- & Hwl).
      apply filter_In in Hwl. destruct Hwl as [_ Hg]. unfold g in Hg.
      apply andb_true_iff in Hg. now apply Hv. }
  assert (Hdom : weight_true rho (pb_wlits p1) <= weight_true rho terms2).
  { apply weight_true_dominated; [exact Hn1 | exact Hpos |].
    intros w l Hin.
    assert (Hl : In l (map snd (filter g terms2))).
    { apply Hincl. exact (in_map snd _ (w, l) Hin). }
    apply in_map_iff in Hl. destruct Hl as ([w' l'] & Heq & Hwl). cbn [snd] in Heq.
    subst l'. apply filter_In in Hwl. destruct Hwl as [Hin2 Hg]. unfold g in Hg.
    cbn [fst snd] in Hg. apply andb_true_iff in Hg. destruct Hg as [_ Hg].
    apply Z.leb_le in Hg. rewrite (Hwt w l Hin) in Hg.
    exists w'. now split. }
  unfold sat_pb in Hsat. lia.
Qed.

(** The weights [subsumption(pb&)] records for the terms of a constraint. *)
Definition weights_of (ws : list wliteral) (l : literal) : Z :=
  fold_left (fun acc (wl : wliteral) => if literal_eqb (snd wl) l then fst wl else acc) ws 0.

Lemma subsumes_pb_sound_witness :
  subsumes_pb (lits_contain (map snd (pb_wlits pb_2_1_1))) (weights_of (pb_wlits pb_2_1_1))
    pb_2_1_1 3 [(1, x_ 4); (2, x_ 3); (1, x_ 2); (3, x_ 1)] = true /\
  forall rho, sat_pb rho pb_2_1_1 ->
              3 <= weight_true rho [(1, x_ 4); (2, x_ 3); (1, x_ 2); (3, x_ 1)].
Proof.
  split; [reflexivity|].
  apply (subsumes_pb_sound (lits_contain (map snd (pb_wlits pb_2_1_1)))
           (weights_of (pb_wlits pb_2_1_1)) pb_2_1_1 3
           [(1, x_ 4); (2, x_ 3); (1, x_ 2); (3, x_ 1)]).
  - intros l. apply lits_contain_In.
  - intros w l H. cbn [pb_wlits pb_2_1_1 In] in H.
    repeat (destruct H as [H|H]; [injection H as <- <-; reflexivity|]). destruct H.
  - apply NoDup_x1_x4.
  - repeat constructor; cbn [In map snd]; unfold x_; intros H;
      repeat (destruct H as [H|H]; [discriminate H|]); exact H.
  - repeat constructor; cbn [fst]; lia.
  - vm_compute. discriminate.
  - reflexivity.
Defined.

(** ** The asserting lemma *)

(** What [create_asserting_lemma] has taken off the slack for the literals
    of the lemma. *)
Definition dropped (coeffs : bool_var -> Z) (st : asserting) : Z :=
  as_coeff st + fold_right (fun l acc => Z.abs (coeffs (var l)) + acc) 0 (as_rest st).

(** A literal of the lemma is the literal of its variable in the
    resolvent, and it is false. *)
Definition lemma_literal (coeffs : bool_var -> Z) (c : solver.t) (l : literal) : Prop :=
  l = mk_literal (var l) (coeffs (var l) <? 0) /\ solver.value c l = l_false.

(** The loop invariant of [create_asserting_lemma] after the variables
    [seen]. *)
Record lemma_ok (coeffs : bool_var -> Z) (c : solver.t) (clvl : Z)
  (seen : list bool_var) (slack0 : Z) (st : asserting) : Prop := {
  ok_slack : as_slack st = slack0 - dropped coeffs st;
  ok_null : is_null (as_lemma0 st) = true -> as_coeff st = 0;
  ok_head : is_null (as_lemma0 st) = false ->
            as_coeff st = Z.abs (coeffs (var (as_lemma0 st))) /\
            lemma_literal coeffs c (as_lemma0 st) /\
            solver.lvl c (var (as_lemma0 st)) = clvl /\
            In (var (as_lemma0 st)) seen;
  ok_rest : forall l, In l (as_rest st) ->
            lemma_literal coeffs c l /\ solver.lvl c (var l) <> clvl /\ In (var l) seen;
  ok_nodup : NoDup (map var (as_rest st))
}.

Lemma lemma_ok_seen coeffs c clvl seen seen' slack0 st :
  incl seen seen' ->
  lemma_ok coeffs c clvl seen slack0 st -> lemma_ok coeffs c clvl seen' slack0 st.
Proof.
  intros Hi [H1 H2 H3 H4 H5]. constructor; auto.
  - intros Hn. destruct (H3 Hn) as (? & ? & ? & ?). auto.
  - intros l Hl. destruct (H4 l Hl) as (? & ? & ?). auto.
Qed.

Lemma appended_literal coeffs c v :
  lbool_eqb (solver.value c (mk_literal v false)) l_undef = false ->
  Bool.eqb (coeffs v <? 0) (lbool_eqb (solver.value c (mk_literal v false)) l_true) = true ->
  lemma_literal coeffs c
    (neg (mk_literal v (negb (lbool_eqb (solver.value c (mk_literal v false)) l_true)))).
Proof.
  intros Hu He. apply eqb_prop in He. unfold lemma_literal, neg.
  cbn [var sign]. rewrite negb_involutive, He. split; [reflexivity|].
  unfold solver.value in *. cbn [var sign] in *.
  destruct (solver.m_assignment c v); cbn in *; congruence.
Qed.

Lemma dropped_push coeffs sl co l0 rest l :
  dropped coeffs (mk_asserting sl co l0 (rest ++ [l])) =
  dropped coeffs (mk_asserting sl co l0 rest) + Z.abs (coeffs (var l)).
Proof.
  unfold dropped. cbn [as_coeff as_rest].
  induction rest as [|x r IH]; cbn [app fold_right]; lia.
Qed.

Lemma asserting_loop_ok coeffs c clvl slack0 vs :
  solver.m_assignment c null_bool_var = l_undef ->
  forall seen st,
  NoDup (seen ++ vs) ->
  lemma_ok coeffs c clvl seen slack0 st ->
  lemma_ok coeffs c clvl (seen ++ vs) slack0 (asserting_loop coeffs c clvl vs st).
Proof.
  intros Hnull0.
  induction vs as [|v vs IH]; intros seen st Hnd Hok; cbn [asserting_loop].
  - now rewrite app_nil_r.
  - assert (Hincl : incl seen (seen ++ v :: vs)) by (apply incl_appl, incl_refl).
    destruct (0 <=? as_slack st); [|exact (lemma_ok_seen _ _ _ _ _ _ _ Hincl Hok)].
    assert (Hnd' : NoDup ((seen ++ [v]) ++ vs)) by (now rewrite <- app_assoc).
    assert (Hskip : lemma_ok coeffs c clvl (seen ++ v :: vs) slack0
                      (asserting_loop coeffs c clvl vs st)).
    { replace (seen ++ v :: vs) with ((seen ++ [v]) ++ vs) by (now rewrite <- app_assoc).
      apply IH; [exact Hnd'|]. apply (lemma_ok_seen _ _ _ seen); [|exact Hok].
      apply incl_appl, incl_refl. }
    cbv zeta.
    destruct (negb (coeffs v =? 0)); cbn [andb]; [|exact Hskip].
    destruct (lbool_eqb (solver.value c (mk_literal v false)) l_undef) eqn:Hu;
      cbn [andb negb]; [exact Hskip|].
    destruct (Bool.eqb _ _) eqn:He; [|exact Hskip].
    pose proof (appended_literal coeffs c v Hu He) as Hlit.
    set (lit := mk_literal v (negb (lbool_eqb (solver.value c (mk_literal v false)) l_true)))
      in *.
    assert (Hnn : is_null (neg lit) = false)
      by exact (appended_not_null c v _ Hnull0 Hu).
    assert (Hv : In v (seen ++ [v])) by (apply in_or_app; right; now left).
    assert (Hfresh : ~ In v seen).
    { intros Hin. apply NoDup_remove_2 in Hnd. apply Hnd, in_or_app. now left. }
    destruct Hok as [H1 H2 H3 H4 H5].
    replace (seen ++ v :: vs) with ((seen ++ [v]) ++ vs) by (now rewrite <- app_assoc).
    assert (Hrest' : forall l, In l (as_rest st) ->
              lemma_literal coeffs c l /\ solver.lvl c (var l) <> clvl /\
              In (var l) (seen ++ [v])).
    { intros l Hl. destruct (H4 l Hl) as (Ha & Hb & Hc).
      split; [exact Ha|]. split; [exact Hb|]. apply in_or_app. now left. }
    destruct (Z.eqb_spec (solver.lvl c (var lit)) clvl) as [Hlv|Hlv].
    + destruct (is_null (as_lemma0 st)) eqn:Hnull.
      * apply IH; [exact Hnd'|]. constructor; cbn [as_slack as_coeff as_lemma0 as_rest].
        -- unfold dropped in *. cbn [as_coeff as_rest]. rewrite (H2 eq_refl) in H1. lia.
        -- intros Hn. rewrite Hnn in Hn. discriminate Hn.
        -- intros _. split; [reflexivity|]. split; [exact Hlit|]. split; [exact Hlv | exact Hv].
        -- exact Hrest'.
        -- exact H5.
      * destruct (H3 eq_refl) as (Hc & Hl0 & Hlv0 & Hin0).
        destruct (Z.ltb_spec (as_coeff st) (Z.abs (coeffs v))).
        -- apply IH; [exact Hnd'|]. constructor; cbn [as_slack as_coeff as_lemma0 as_rest].
           ++ unfold dropped in *. cbn [as_coeff as_rest]. lia.
           ++ intros Hn. rewrite Hnn in Hn. discriminate Hn.
           ++ intros _. split; [reflexivity|]. split; [exact Hlit|].
              split; [exact Hlv | exact Hv].
           ++ exact Hrest'.
           ++ exact H5.
        -- apply IH; [exact Hnd'|]. constructor; auto.
           ++ intros Hn. rewrite Hn in Hnull. discriminate Hnull.
           ++ intros _. split; [exact Hc|]. split; [exact Hl0|]. split; [exact Hlv0|].
              apply in_or_app. now left.
    + apply IH; [exact Hnd'|]. constructor; cbn [as_slack as_coeff as_lemma0 as_rest].
      * rewrite dropped_push. unfold dropped in *.
        cbn [as_coeff as_rest neg var lit]. lia.
      * exact H2.
      * intros Hn. destruct (H3 Hn) as (Ha & Hb & Hc & Hd).
        split; [exact Ha|]. split; [exact Hb|]. split; [exact Hc|].
        apply in_or_app. now left.
      * intros l Hl. apply in_app_or in Hl. destruct Hl as [Hl|[<-|[]]].
        -- now apply Hrest'.
        -- split; [exact Hlit|]. split; [exact Hlv | exact Hv].
      * rewrite map_app. cbn [map neg var lit].
        apply NoDup_app_remove_l with (l := []). cbn [app].
        apply Permutation_NoDup with (l := v :: map var (as_rest st)).
        -- apply Permutation_cons_append.
        -- constructor; [|exact H5]. intros Hin. apply in_map_iff in Hin.
           destruct Hin as (l & Hvl & Hl). destruct (H4 l Hl) as (_ & _ & Hs).
           rewrite Hvl in Hs. contradiction.
Qed.

(** The sum of the absolute coefficients of [vs]. *)
Definition abs_sum (coeffs : bool_var -> Z) (vs : list bool_var) : Z :=
  fold_right (fun v acc => Z.abs (coeffs v) + acc) 0 vs.

Lemma abs_sum_app coeffs vs1 vs2 :
  abs_sum coeffs (vs1 ++ vs2) = abs_sum coeffs vs1 + abs_sum coeffs vs2.
Proof. unfold abs_sum. induction vs1 as [|v vs1 IH]; cbn [app fold_right]; lia. Qed.

Lemma sum_terms_app rho coeffs vs1 vs2 :
  sum_terms rho coeffs (vs1 ++ vs2) = sum_terms rho coeffs vs1 + sum_terms rho coeffs vs2.
Proof. unfold sum_terms. induction vs1 as [|v vs1 IH]; cbn [app fold_right]; lia. Qed.

Lemma term_le_abs rho coeffs v : term rho coeffs v <= Z.abs (coeffs v).
Proof.
  unfold term. pose proof (Z.abs_nonneg (coeffs v)).
  destruct (if coeffs v <? 0 then negb (rho v) else rho v); lia.
Qed.

Lemma sum_terms_le_abs rho coeffs vs : sum_terms rho coeffs vs <= abs_sum coeffs vs.
Proof.
  unfold sum_terms, abs_sum. induction vs as [|v vs IH]; cbn [fold_right]; [lia|].
  pose proof (term_le_abs rho coeffs v). lia.
Qed.

(** The variables [ws] whose literal does not hold contribute nothing. *)
Lemma sum_terms_drop rho coeffs ws : forall vs,
  NoDup ws -> incl ws vs -> (forall w, In w ws -> term rho coeffs w = 0) ->
  sum_terms rho coeffs vs + abs_sum coeffs ws <= abs_sum coeffs vs.
Proof.
  induction ws as [|w ws IH]; intros vs Hnd Hincl H0.
  - pose proof (sum_terms_le_abs rho coeffs vs). cbn. lia.
  - destruct (in_split w vs (Hincl w (or_introl eq_refl))) as (v1 & v2 & ->).
    apply NoDup_cons_iff in Hnd. destruct Hnd as [Hw Hnd].
    assert (Hle : sum_terms rho coeffs (v1 ++ v2) + abs_sum coeffs ws <=
                  abs_sum coeffs (v1 ++ v2)).
    { apply IH; [exact Hnd | | intros x Hx; apply H0; now right].
      intros x Hx. pose proof (Hincl x (or_intror Hx)) as Hin.
      apply in_app_or in Hin. apply in_or_app.
      destruct Hin as [Hin|[->|Hin]]; [now left | contradiction | now right]. }
    rewrite sum_terms_app, abs_sum_app in *.
    change (sum_terms rho coeffs (w :: v2))
      with (term rho coeffs w + sum_terms rho coeffs v2).
    change (abs_sum coeffs (w :: v2)) with (Z.abs (coeffs w) + abs_sum coeffs v2).
    change (abs_sum coeffs (w :: ws)) with (Z.abs (coeffs w) + abs_sum coeffs ws).
    rewrite (H0 w (or_introl eq_refl)). lia.
Qed.

Lemma sum_abs_ge coeffs vs : forall slack,
  (forall v, In v vs -> Z.abs (coeffs v) <= UINT_MAX) ->
  slack + abs_sum coeffs vs <= sum_abs coeffs vs slack.
Proof.
  induction vs as [|v vs IH]; intros slack Hr; cbn [sum_abs]; [cbn; lia|].
  change (abs_sum coeffs (v :: vs)) with (Z.abs (coeffs v) + abs_sum coeffs vs).
  specialize (IH (slack + abs_coeff coeffs v) (fun x Hx => Hr x (or_intror Hx))).
  specialize (Hr v (or_introl eq_refl)).
  assert (Z.abs (coeffs v) <= abs_coeff coeffs v); [|lia].
  unfold abs_coeff. destruct (_ || _); lia.
Qed.

Lemma lemma_literal_term rho coeffs c l :
  lemma_literal coeffs c l -> lit_holds rho l = false -> term rho coeffs (var l) = 0.
Proof.
  intros [Hl _] Hh. unfold term. rewrite Hl in Hh. unfold lit_holds in Hh.
  cbn [var sign] in Hh. now rewrite Hh.
Qed.

(** What a pass of [create_asserting_lemma] that ends below zero with
    [m_lemma[0]] set has found. *)
Definition asserting_clause (s : ba_solver) (clvl : Z) (lemma : list literal) : Prop :=
  exists l0 rest,
    lemma = l0 :: rest /\ is_null l0 = false /\
    (forall l, In l lemma -> value s l = l_false) /\
    lvl s l0 = clvl /\ (forall l, In l rest -> lvl s l <> clvl) /\
    (forall rho, models rho s -> exists l, In l lemma /\ lit_holds rho l = true).

Lemma pass_asserting s clvl :
  solver.m_assignment (m_solver s) null_bool_var = l_undef ->
  NoDup (m_active_vars s) ->
  (forall v, In v (m_active_vars s) -> Z.abs (m_coeffs s v) <= UINT_MAX) ->
  let st := asserting_loop (m_coeffs s) (m_solver s) clvl (m_active_vars s)
              (mk_asserting (sum_abs (m_coeffs s) (m_active_vars s) (- m_bound s))
                            0 null_literal []) in
  as_slack st < 0 -> is_null (as_lemma0 st) = false ->
  asserting_clause s clvl (as_lemma0 st :: as_rest st).
Proof.
  intros Hnull Hnd Hr st Hneg Hset.
  pose proof (asserting_loop_ok (m_coeffs s) (m_solver s) clvl
                (sum_abs (m_coeffs s) (m_active_vars s) (- m_bound s))
                (m_active_vars s) Hnull []
                (mk_asserting (sum_abs (m_coeffs s) (m_active_vars s) (- m_bound s))
                              0 null_literal []) Hnd) as Hok.
  cbn [app] in Hok. fold st in Hok.
  destruct Hok as [H1 H2 H3 H4 H5].
  { constructor; cbn [as_slack as_coeff as_lemma0 as_rest].
    - unfold dropped. cbn. lia.
    - reflexivity.
    - intros Hn. discriminate Hn.
    - intros l [].
    - constructor. }
  destruct (H3 Hset) as (Hc & Hl0 & Hlv0 & Hin0).
  exists (as_lemma0 st), (as_rest st).
  split; [reflexivity|]. split; [exact Hset|].
  split; [|split; [exact Hlv0 | split; [intros l Hl; apply (H4 l Hl)|]]].
  { intros l [<-|Hl]; [apply Hl0 | apply (H4 l Hl)]. }
  intros rho Hm.
  destruct (existsb (lit_holds rho) (as_lemma0 st :: as_rest st)) eqn:Hex.
  { apply existsb_exists in Hex. exact Hex. }
  exfalso.
  assert (Hnone : forall l, In l (as_lemma0 st :: as_rest st) -> lit_holds rho l = false).
  { intros l Hl. destruct (lit_holds rho l) eqn:Hh; [|reflexivity].
    assert (existsb (lit_holds rho) (as_lemma0 st :: as_rest st) = true)
      by (apply existsb_exists; eauto).
    congruence. }
  pose proof (sum_terms_drop rho (m_coeffs s) (map var (as_lemma0 st :: as_rest st))
                (m_active_vars s)) as Hdrop.
  pose proof (sum_abs_ge (m_coeffs s) (m_active_vars s) (- m_bound s) Hr) as Hge.
  unfold models, lhs in Hm.
  rewrite (distinct_NoDup_id (m_active_vars s) [] Hnd) in Hm by (intros ? _ []).
  assert (Hd : abs_sum (m_coeffs s) (map var (as_lemma0 st :: as_rest st)) =
               dropped (m_coeffs s) st).
  { unfold dropped, abs_sum. cbn [map fold_right]. rewrite Hc. f_equal.
    clear. induction (as_rest st) as [|x r IH]; cbn [map fold_right]; [reflexivity|].
    now rewrite IH. }
  rewrite Hd in Hdrop.
  assert (sum_terms rho (m_coeffs s) (m_active_vars s) + dropped (m_coeffs s) st <=
          abs_sum (m_coeffs s) (m_active_vars s)); [|lia].
  apply Hdrop.
  - cbn [map]. constructor; [|exact H5]. intros Hin. apply in_map_iff in Hin.
    destruct Hin as (l & Hvl & Hl). destruct (H4 l Hl) as (_ & Hlv & _).
    rewrite Hvl in Hlv. contradiction.
  - intros w Hw. cbn [map In] in Hw. destruct Hw as [<-|Hw]; [exact Hin0|].
    apply in_map_iff in Hw. destruct Hw as (l & <- & Hl). apply (H4 l Hl).
  - intros w Hw. cbn [map In] in Hw. destruct Hw as [<-|Hw].
    + apply (lemma_literal_term rho _ (m_solver s)); [exact Hl0|].
      apply Hnone. now left.
    + apply in_map_iff in Hw. destruct Hw as (l & <- & Hl).
      apply (lemma_literal_term rho _ (m_solver s)); [apply (H4 l Hl)|].
      apply Hnone. now right.
Qed.


(** A call of [create_asserting_lemma] on distinct active variables. *)
Lemma create_asserting_lemma_run (s : ba_solver) :
  (forall v, 0 <= solver.lvl (m_solver s) v) ->
  solver.m_assignment (m_solver s) null_bool_var = l_undef ->
  NoDup (m_active_vars s) ->
  (forall v, In v (m_active_vars s) -> Z.abs (m_coeffs s v) <= UINT_MAX) ->
  exists b s',
    create_asserting_lemma s = Ret b s' /\
    (b = true -> asserting_clause s (m_conflict_lvl s') (m_lemma s')).
Proof.
  intros Hlv Hnull Hnd Hr. unfold create_asserting_lemma.
  destruct (@create_asserting_lemma_from_run reference_externals 1 s) as (b & ->).
  cbv zeta.
  pose proof (pass_asserting s (m_conflict_lvl s) Hnull Hnd Hr) as Hp1.
  cbv zeta in Hp1. fold (pass_result s) in Hp1.
  destruct (Z.leb_spec 0 (as_slack (pass_result s))) as [_|Hneg].
  { eexists _, _. split; [reflexivity | discriminate]. }
  destruct (is_null (as_lemma0 (pass_result s))) eqn:Hn0.
  2:{ eexists _, _. split; [reflexivity|]. intros _.
      replace (m_conflict_lvl (pass_state b s)) with (m_conflict_lvl s)
        by (destruct b; reflexivity).
      replace (m_lemma (pass_state b s))
        with (as_lemma0 (pass_result s) :: as_rest (pass_result s))
        by (destruct b; reflexivity).
      apply Hp1; [exact Hneg | reflexivity]. }
  destruct (as_rest (pass_result s)) as [|x r] eqn:Hrest.
  { eexists _, _. split; [reflexivity | discriminate]. }
  erewrite bind_eq by reflexivity. erewrite bind_eq by reflexivity.
  set (L2 := fold_left (fun m l => Z.max m (lvl (pass_state b s) l)) (x :: r) 0).
  set (s2 := set_m_conflict_lvl L2 (pass_state b s)).
  destruct (@create_asserting_lemma_from_run reference_externals 0 s2) as (b2 & ->).
  cbv zeta.
  assert (Hres : pass_result s2 =
                 asserting_loop (m_coeffs s) (m_solver s) L2 (m_active_vars s)
                   (mk_asserting (sum_abs (m_coeffs s) (m_active_vars s) (- m_bound s))
                                 0 null_literal []))
    by (destruct b; reflexivity).
  pose proof (pass_asserting s L2 Hnull Hnd Hr) as Hp2.
  cbv zeta in Hp2. rewrite <- Hres in Hp2.
  destruct (Z.leb_spec 0 (as_slack (pass_result s2))) as [_|Hneg2].
  { eexists _, _. split; [reflexivity | discriminate]. }
  assert (Hset : is_null (as_lemma0 (pass_result s2)) = false).
  { destruct (max_lvl_attained (m_solver s) (x :: r) Hlv ltac:(discriminate))
      as (l & Hl & Hlmax).
    rewrite Hres.
    apply (second_pass_sim (m_coeffs s) (m_solver s) (m_conflict_lvl s) L2
             (m_active_vars s) Hnull
             (mk_asserting (sum_abs (m_coeffs s) (m_active_vars s) (- m_bound s))
                           0 null_literal [])
             (mk_asserting (sum_abs (m_coeffs s) (m_active_vars s) (- m_bound s))
                           0 null_literal [])) with (l := l).
    + reflexivity.
    + cbn [as_slack]. lia.
    + cbn [as_coeff]. lia.
    + intros l' [].
    + exact Hn0.
    + fold (pass_result s). rewrite Hrest. exact Hl.
    + rewrite Hlmax. unfold L2. destruct b; reflexivity. }
  rewrite Hset.
  eexists _, _. split; [reflexivity|]. intros _.
  replace (m_conflict_lvl (pass_state b2 s2)) with L2 by (destruct b2; reflexivity).
  replace (m_lemma (pass_state b2 s2))
    with (as_lemma0 (pass_result s2) :: as_rest (pass_result s2))
    by (destruct b2; reflexivity).
  apply Hp2; [exact Hneg2 | exact Hset].
Qed.

(** Normalising the active variables keeps the models of the resolvent. *)
Lemma models_normalize rho s :
  models rho (set_m_active_vars (normalize_loop (m_coeffs s) (m_active_vars s) []) s) <->
  models rho s.
Proof.
  unfold models, lhs. cbn [m_bound m_coeffs m_active_vars set_m_active_vars].
  rewrite (distinct_NoDup_id (normalize_loop (m_coeffs s) (m_active_vars s) []) [])
    by (try apply normalize_loop_NoDup; intros ? _ []).
  rewrite (sum_terms_normalize rho (m_coeffs s) (m_active_vars s) [] []);
    [reflexivity|].
  intros v. cbn [In]. tauto.
Qed.

(** X16: the clause learned by [resolve_conflict] follows from the
    resolvent.  [normalize_active_coeffs] and then [create_asserting_lemma]
    always return, the latter after at most two passes through its label,
    and when the answer is yes the clause left in [m_lemma] is an asserting
    conflict clause: its first literal is set and is the only one at the
    conflict level, all its literals are false, and every total assignment
    that satisfies the resolvent makes one of them true.  The bound is an
    unsigned value, the coefficients have an unsigned absolute value and
    there are at most [INT_MAX] active variables, so that the [int64] slack
    stays in range; levels are not negative and the null variable is
    unassigned. *)
Theorem asserting_lemma_sound (s : ba_solver) :
  (forall v, 0 <= solver.lvl (m_solver s) v) ->
  solver.m_assignment (m_solver s) null_bool_var = l_undef ->
  (forall v, In v (m_active_vars s) -> Z.abs (m_coeffs s v) <= UINT_MAX) ->
  Z.of_nat (length (m_active_vars s)) <= INT_MAX -> is_u32 (m_bound s) ->
  exists b s',
    (normalize_active_coeffs ;; create_asserting_lemma) s = Ret b s' /\
    (b = true -> asserting_clause s (m_conflict_lvl s') (m_lemma s')).
Proof.
  intros Hlv Hnull Hr _ _.
  set (s1 := set_m_active_vars (normalize_loop (m_coeffs s) (m_active_vars s) []) s).
  destruct (create_asserting_lemma_run s1) as (b & s' & Hrun & H).
  - exact Hlv.
  - exact Hnull.
  - apply normalize_loop_NoDup.
  - intros v Hv. apply normalize_loop_In in Hv. apply Hr, Hv.
  - exists b, s'. split; [exact Hrun|]. intros Hb.
    destruct (H Hb) as (l0 & rest & Hl & Hn0 & Hfalse & Hl0 & Hrest & Hsem).
    exists l0, rest. repeat (split; [assumption|]).
    intros rho Hm. apply Hsem, models_normalize, Hm.
Qed.

(** The resolvent [x1 + x2 >= 1] after the decisions [~x1] and [~x2], with
    the conflict at the second level; [x1] became active twice. *)
Definition lemma_state : ba_solver :=
  set_m_conflict_lvl 2
    (set_m_bound 1
       (set_m_coeffs (fun v => if (v =? 1) || (v =? 2) then 1 else 0)
          (set_m_active_vars [1; 2; 1]
             (decide (neg (x_ 2)) (decide (neg (x_ 1)) empty_solver))))).

Lemma asserting_lemma_sound_witness :
  exists s',
    (normalize_active_coeffs ;; create_asserting_lemma) lemma_state = Ret true s' /\
    asserting_clause lemma_state (m_conflict_lvl s') (m_lemma s').
Proof.
  destruct (asserting_lemma_sound lemma_state) as (b & s' & Hr & H).
  - intros v. unfold solver.lvl. cbn. unfold solver.upd.
    destruct (v =? 2); [lia|]. destruct (v =? 1); lia.
  - reflexivity.
  - intros v [<-|[<-|[<-|[]]]]; vm_compute; discriminate.
  - vm_compute. discriminate.
  - vm_compute. split; discriminate.
  - assert (Hb : match (normalize_active_coeffs ;; create_asserting_lemma) lemma_state with
                 | Ret r _ => r = true
                 | _ => False
                 end) by (vm_compute; reflexivity).
    rewrite Hr in Hb. subst b. exists s'. split; [exact Hr | apply H; reflexivity].
Defined.

(** ** Validation of the resolvent *)

(** The loop of [validate_lemma]: [seen] is [m_active_var_set] and [val]
    the [int64] accumulator. *)
Fixpoint validate_lemma_loop (s : ba_solver) (vs seen : list bool_var) (val : Z) : Z :=
  match vs with
  | [] => val
  | v :: vs' =>
      if contains v seen then validate_lemma_loop s vs' seen val
      else
        let coeff := get_coeff s v in
        if coeff =? 0 then validate_lemma_loop s vs' seen val
        else
          let lit := mk_literal v false in
          validate_lemma_loop s vs' (v :: seen)
            (if (coeff <? 0) && negb (lbool_eqb (value s lit) l_true) then val - coeff
             else if (0 <? coeff) && negb (lbool_eqb (value s lit) l_false)
                  then val + coeff
                  else val)
  end.

(** [ba_solver::validate_lemma]. *)
Definition validate_lemma (s : ba_solver) : bool :=
  validate_lemma_loop s (m_active_vars s) [] (- m_bound s) <? 0.

(** What the term of [v] can still contribute under the current
    assignment. *)
Definition open_term (s : ba_solver) (v : bool_var) : Z :=
  if (m_coeffs s v <? 0) && negb (lbool_eqb (value s (mk_literal v false)) l_true)
  then - m_coeffs s v
  else if (0 <? m_coeffs s v) && negb (lbool_eqb (value s (mk_literal v false)) l_false)
       then m_coeffs s v
       else 0.

Definition open_sum (s : ba_solver) (vs : list bool_var) : Z :=
  fold_right (fun v acc => open_term s v + acc) 0 vs.

Lemma validate_lemma_loop_spec s vs : forall seen val,
  validate_lemma_loop s vs seen val =
  val + open_sum s (normalize_loop (m_coeffs s) vs seen).
Proof.
  induction vs as [|v vs IH]; intros seen val;
    cbn [validate_lemma_loop normalize_loop]; [cbn; lia|].
  unfold get_coeff.
  destruct (contains v seen); cbn [negb andb]; [apply IH|].
  destruct (m_coeffs s v =? 0) eqn:Hz; cbn [negb]; [apply IH|].
  cbv zeta. rewrite IH.
  change (open_sum s (v :: normalize_loop (m_coeffs s) vs (v :: seen)))
    with (open_term s v + open_sum s (normalize_loop (m_coeffs s) vs (v :: seen))).
  unfold open_term.
  destruct ((m_coeffs s v <? 0) && _); [lia|].
  destruct ((0 <? m_coeffs s v) && _); lia.
Qed.

Lemma extends_var rho s v :
  extends rho s ->
  match solver.m_assignment (m_solver s) v with
  | l_true => rho v = true
  | l_false => rho v = false
  | l_undef => True
  end.
Proof.
  intros He. destruct (solver.m_assignment (m_solver s) v) eqn:Ha; [| exact I |].
  - apply negb_true_iff.
    apply (He (mk_literal v true)). unfold value, solver.value. cbn [var sign].
    now rewrite Ha.
  - exact (He (mk_literal v false) Ha).
Qed.

Lemma term_le_open rho s v : extends rho s -> term rho (m_coeffs s) v <= open_term s v.
Proof.
  intros He. pose proof (extends_var rho s v He) as Hv.
  unfold term, open_term, value, solver.value. cbn [var sign].
  destruct (Z.ltb_spec (m_coeffs s v) 0); destruct (Z.ltb_spec 0 (m_coeffs s v));
    cbn [andb]; try lia;
    destruct (solver.m_assignment (m_solver s) v); cbn;
    try rewrite Hv; cbn; try destruct (rho v); cbn; lia.
Qed.

(** The total assignment that agrees with the current one and gives every
    unassigned variable the value its term asks for. *)
Definition best_case (s : ba_solver) (v : bool_var) : bool :=
  match solver.m_assignment (m_solver s) v with
  | l_true => true
  | l_false => false
  | l_undef => 0 <=? m_coeffs s v
  end.

Lemma best_case_extends s : extends (best_case s) s.
Proof.
  intros l Hl. unfold value, solver.value in Hl. unfold lit_holds, best_case.
  destruct (sign l); destruct (solver.m_assignment (m_solver s) (var l));
    cbn in Hl |- *; congruence.
Qed.

Lemma term_best_case s v : term (best_case s) (m_coeffs s) v = open_term s v.
Proof.
  unfold term, open_term, best_case, value, solver.value. cbn [var sign].
  destruct (Z.ltb_spec (m_coeffs s v) 0); destruct (Z.ltb_spec 0 (m_coeffs s v));
    cbn [andb]; try lia;
    destruct (solver.m_assignment (m_solver s) v); cbn;
    try (destruct (Z.leb_spec 0 (m_coeffs s v))); cbn; lia.
Qed.

Lemma sum_terms_le_open rho s vs :
  extends rho s -> sum_terms rho (m_coeffs s) vs <= open_sum s vs.
Proof.
  intros He. unfold sum_terms, open_sum.
  induction vs as [|v vs IH]; cbn [fold_right]; [lia|].
  pose proof (term_le_open rho s v He). lia.
Qed.

Lemma sum_terms_best_case s vs :
  sum_terms (best_case s) (m_coeffs s) vs = open_sum s vs.
Proof.
  unfold sum_terms, open_sum.
  induction vs as [|v vs IH]; cbn [fold_right]; [reflexivity|].
  now rewrite term_best_case, IH.
Qed.

(** X17: [validate_lemma] answers yes exactly when the resolvent is in
    conflict with the current assignment: no total assignment that agrees
    with the core satisfies it.  The bound is an unsigned value, the
    coefficients have an unsigned absolute value and there are at most
    [INT_MAX] active variables, so that the [int64] accumulator stays in
    range. *)
Theorem validate_lemma_iff (s : ba_solver) :
  (forall v, In v (m_active_vars s) -> Z.abs (m_coeffs s v) <= UINT_MAX) ->
  Z.of_nat (length (m_active_vars s)) <= INT_MAX -> is_u32 (m_bound s) ->
  validate_lemma s = true <-> forall rho, extends rho s -> ~ models rho s.
Proof.
  intros _ _ _. unfold validate_lemma. rewrite validate_lemma_loop_spec, Z.ltb_lt.
  assert (Hlhs : forall rho,
            lhs rho s =
            sum_terms rho (m_coeffs s) (normalize_loop (m_coeffs s) (m_active_vars s) [])).
  { intros rho. unfold lhs. symmetry. apply sum_terms_normalize.
    intros v. cbn [In]. tauto. }
  unfold models. split.
  - intros Hneg rho He Hm. rewrite Hlhs in Hm.
    pose proof (sum_terms_le_open rho s
                  (normalize_loop (m_coeffs s) (m_active_vars s) []) He).
    lia.
  - intros Hno. specialize (Hno (best_case s) (best_case_extends s)).
    rewrite Hlhs, sum_terms_best_case in Hno. lia.
Qed.

Lemma validate_lemma_iff_witness :
  validate_lemma lemma_state = true /\
  forall rho, extends rho lemma_state -> ~ models rho lemma_state.
Proof.
  split; [reflexivity|].
  apply (validate_lemma_iff lemma_state).
  - intros v [<-|[<-|[<-|[]]]]; vm_compute; discriminate.
  - vm_compute. discriminate.
  - vm_compute. split; discriminate.
  - reflexivity.
Defined.

(** ** The explanation of a pb conflict *)

(** The value of [slack] at the end of a scan of [get_antecedents]. *)
Fixpoint pb_antecedents_slack (k : Z) (ws : list wliteral) (keep : wliteral -> bool)
  (slack : Z) : Z :=
  match ws with
  | [] => slack
  | wl :: ws' =>
      if keep wl then
        if u32 (slack + fst wl) <? k
        then pb_antecedents_slack k ws' keep (u32 (slack + fst wl))
        else pb_antecedents_slack k ws' keep slack
      else pb_antecedents_slack k ws' keep slack
  end.

Lemma weight_where_cons f wl ws :
  weight_where f (wl :: ws) = (if f wl then fst wl else 0) + weight_where f ws.
Proof. reflexivity. Qed.

Lemma total_weight_cons wl ws : total_weight (wl :: ws) = fst wl + total_weight ws.
Proof. reflexivity. Qed.

(** The terms the scan keeps and does not push stay below the bound. *)
Lemma pb_antecedents_scan_bound k keep (r : list literal) ws : forall slack,
  Forall (fun wl : wliteral => 0 <= fst wl) ws ->
  0 <= slack -> slack + weight_where keep ws <= UINT_MAX -> slack < k ->
  (forall a, In a (pb_antecedents_scan k ws keep slack) -> In a r) ->
  slack + weight_where (fun wl => keep wl && negb (lits_contain r (neg (snd wl)))) ws <=
  pb_antecedents_slack k ws keep slack /\
  pb_antecedents_slack k ws keep slack < k.
Proof.
  induction ws as [|wl ws IH]; intros slack Hw H0 Hb Hk Hr;
    cbn [pb_antecedents_scan pb_antecedents_slack] in *.
  - unfold weight_where. cbn. lia.
  - inversion Hw as [|? ? Hw1 Hw2]; subst.
    rewrite weight_where_cons in Hb.
    pose proof (proj1 (weight_where_le_total keep ws Hw2)).
    rewrite weight_where_cons.
    destruct (keep wl); cbn [andb]; [|apply IH; auto; lia].
    rewrite u32_id in * by (unfold is_u32; lia).
    destruct (Z.ltb_spec (slack + fst wl) k).
    + destruct (IH (slack + fst wl) Hw2) as (Ha & Hb'); [lia | lia | lia | exact Hr |].
      split; [|exact Hb']. destruct (negb _); lia.
    + assert (Hin : lits_contain r (neg (snd wl)) = true).
      { apply lits_contain_In, Hr. now left. }
      rewrite Hin. cbn [negb]. apply IH; auto; try lia.
      intros a Ha. apply Hr. now right.
Qed.

Lemma pb_antecedents_scan_true s k keep ws : forall slack a,
  (forall wl, keep wl = true -> value s (snd wl) = l_false) ->
  In a (pb_antecedents_scan k ws keep slack) -> value s a = l_true.
Proof.
  induction ws as [|wl ws IH]; intros slack a Hkeep Ha;
    cbn [pb_antecedents_scan] in Ha; [destruct Ha|].
  destruct (keep wl) eqn:Hk; [|exact (IH slack a Hkeep Ha)].
  destruct (_ <? k); [exact (IH _ a Hkeep Ha)|].
  destruct Ha as [<-|Ha]; [|exact (IH slack a Hkeep Ha)].
  rewrite value_neg, (Hkeep wl Hk). reflexivity.
Qed.

Lemma weight_where_add f g h ws :
  Forall (fun wl : wliteral => 0 <= fst wl) ws ->
  (forall wl, f wl = true -> g wl = true \/ h wl = true) ->
  weight_where f ws <= weight_where g ws + weight_where h ws.
Proof.
  intros Hw Hf. induction Hw as [|wl ws Hw1 _ IH]; [cbn; lia|].
  rewrite !weight_where_cons. specialize (Hf wl).
  destruct (f wl); [|destruct (g wl), (h wl); lia].
  destruct (Hf eq_refl) as [-> | ->]; [destruct (h wl) | destruct (g wl)]; lia.
Qed.

(** X18: the explanation of a conflict passes its check.  When the pb
    constraint [p] is violated under the current assignment ([eval] gives
    [l_false]), its reifier is null or true, and [l] is a false literal, the
    explanation appended by [get_antecedents(l, p, r)] is accepted by
    [validate_unit_propagation(p, r, l)], the assertion that closes the
    function.  The weights are unsigned values whose sum does not
    overflow. *)
Theorem pb_conflict_explanation_valid (s : ba_solver) (l : literal) (p : pb) :
  weights_ok (pb_wlits p) ->
  (is_null (c_lit (pb_hd p)) = false -> value s (c_lit (pb_hd p)) = l_true) ->
  value s l = l_false ->
  eval_pb s p = l_false ->
  validate_unit_propagation_pb_r s p (get_antecedents_pb s l p) l = true.
Proof.
  intros Hok Hlit Hl He. pose proof Hok as (Hw & Hn).
  rewrite (eval_pb_spec s p Hok) in He.
  destruct (Z.ltb_spec (weight_value s l_true (pb_wlits p) +
                        weight_value s l_undef (pb_wlits p)) (pb_k p)) as [Hlt|_].
  2:{ destruct (_ <=? _); discriminate He. }
  clear He.
  set (nonfalse := fun wl : wliteral => negb (lbool_eqb (value s (snd wl)) l_false)).
  set (keep := fun wl : wliteral =>
                 negb (literal_eqb (snd wl) l) && lbool_eqb (value s (snd wl)) l_false).
  assert (Hnf : weight_where nonfalse (pb_wlits p) =
                weight_value s l_true (pb_wlits p) + weight_value s l_undef (pb_wlits p)).
  { unfold weight_where, weight_value, nonfalse. clear.
    induction (pb_wlits p) as [|wl ws IH]; cbn [fold_right]; [reflexivity|].
    rewrite IH. destruct (value s (snd wl)); cbn; lia. }
  pose proof (weight_where_le_total nonfalse (pb_wlits p) Hw) as Hnfb.
  assert (Hr : get_antecedents_pb s l p =
               (if negb (is_null (c_lit (pb_hd p))) then [c_lit (pb_hd p)] else []) ++
               pb_antecedents_scan (pb_k p) (pb_wlits p) keep
                 (weight_where nonfalse (pb_wlits p))).
  { unfold get_antecedents_pb. cbv zeta. rewrite Hl. cbn [lbool_eqb].
    f_equal. f_equal.
    rewrite (fold_weight_where nonfalse) by (auto; lia). reflexivity. }
  set (r := get_antecedents_pb s l p) in *.
  assert (Hdisj : weight_where nonfalse (pb_wlits p) + weight_where keep (pb_wlits p) <=
                  total_weight (pb_wlits p)).
  { clear - Hw. unfold nonfalse, keep.
    induction Hw as [|wl ws Hw1 _ IH]; [cbn; lia|].
    rewrite !weight_where_cons, total_weight_cons. cbv beta.
    destruct (lbool_eqb (value s (snd wl)) l_false); cbn [negb andb];
      [destruct (negb _) | rewrite andb_false_r]; cbn [andb]; lia. }
  destruct (pb_antecedents_scan_bound (pb_k p) keep r (pb_wlits p)
              (weight_where nonfalse (pb_wlits p)) Hw) as (Hsum & Hfin);
    [lia | lia | lia | |].
  { intros a Ha. rewrite Hr. apply in_or_app. now right. }
  unfold validate_unit_propagation_pb_r.
  assert (Htrue : forallb (fun a => lbool_eqb (value s a) l_true) r = true).
  { apply forallb_forall. intros a Ha. rewrite Hr in Ha. apply in_app_or in Ha.
    destruct Ha as [Ha|Ha].
    - destruct (is_null (c_lit (pb_hd p))) eqn:Hnull; cbn [negb] in Ha; [destruct Ha|].
      destruct Ha as [<-|[]]. now rewrite (Hlit eq_refl).
    - rewrite (pb_antecedents_scan_true s (pb_k p) keep (pb_wlits p)
                 (weight_where nonfalse (pb_wlits p)) a); [reflexivity | | exact Ha].
      intros wl Hk. unfold keep in Hk. apply andb_true_iff in Hk.
      destruct Hk as [_ Hk]. now destruct (lbool_eqb_spec (value s (snd wl)) l_false). }
  rewrite Htrue. cbn [negb]. cbv zeta.
  rewrite fold_weight_where by (auto; lia). apply Z.ltb_lt.
  pose proof (weight_where_add
                (fun wl : wliteral =>
                   negb (literal_eqb (snd wl) l) && negb (lits_contain r (neg (snd wl))))
                nonfalse
                (fun wl => keep wl && negb (lits_contain r (neg (snd wl))))
                (pb_wlits p) Hw) as Hadd.
  cbv beta in Hadd. rewrite Z.add_0_l.
  eapply Z.le_lt_trans; [apply Hadd | lia].
  intros wl Hf. apply andb_true_iff in Hf. destruct Hf as [Hne Hnc].
  unfold nonfalse, keep. rewrite Hne, Hnc.
  destruct (lbool_eqb (value s (snd wl)) l_false); [now right | now left].
Qed.

Definition x1_x2_false : ba_solver := decide (neg (x_ 2)) (decide (neg (x_ 1)) empty_solver).

Lemma pb_conflict_explanation_valid_witness :
  get_antecedents_pb x1_x2_false (x_ 2) pb_2_1_1 = [neg (x_ 1)] /\
  validate_unit_propagation_pb_r x1_x2_false pb_2_1_1
    (get_antecedents_pb x1_x2_false (x_ 2) pb_2_1_1) (x_ 2) = true.
Proof.
  split; [reflexivity|].
  apply (pb_conflict_explanation_valid x1_x2_false (x_ 2) pb_2_1_1).
  - split; [repeat constructor; simpl; lia | vm_compute; discriminate].
  - intros H. discriminate H.
  - reflexivity.
  - reflexivity.
Defined.

(** ** Propagation by a cardinality constraint *)

Lemma to_card_run idx c s :
  m_allocator s idx = Some (Card c) -> to_card idx s = Ret c s.
Proof.
  intros H. unfold to_card, index2constraint. cbv [bind gets]. rewrite H. reflexivity.
Qed.

Lemma card_at_run idx c i l s :
  m_allocator s idx = Some (Card c) -> nth_error (card_lits c) i = Some l ->
  card_at idx i s = Ret l s.
Proof.
  intros H Hn. unfold card_at. rewrite (bind_eq _ _ _ _ _ (to_card_run idx c s H)).
  unfold at_. rewrite Nat2Z.id, Hn.
  assert (Hi : (i < length (card_lits c))%nat) by (apply nth_error_Some; congruence).
  destruct (Z.leb_spec 0 (Z.of_nat i)); [|lia].
  destruct (Z.ltb_spec (Z.of_nat i) (Z.of_nat (length (card_lits c)))); [|lia].
  reflexivity.
Qed.

(** The state after [c.swap(i, j)], [ls] being the literals after the
    swap. *)
Definition with_card_lits (idx : Z) (c : card) (ls : list literal) (s : ba_solver)
  : ba_solver :=
  set_m_allocator (solver.upd (m_allocator s) idx
                     (Some (Card (mk_card (card_hd c) (card_k c) ls)))) s.

Lemma card_swap_run idx c i j ls s :
  m_allocator s idx = Some (Card c) -> swap_list i j (card_lits c) = Some ls ->
  card_swap idx i j s = Ret tt (with_card_lits idx c ls s).
Proof.
  intros H Hs. unfold card_swap. rewrite (bind_eq _ _ _ _ _ (to_card_run idx c s H)).
  rewrite Hs. reflexivity.
Qed.

Lemma list_set_length {A} i (x : A) l : length (list_set i x l) = length l.
Proof.
  revert i. induction l as [|h t IH]; intros [|i]; cbn [list_set length]; auto.
Qed.

Lemma nth_error_list_set {A} (x : A) l : forall i j,
  (i < length l)%nat ->
  nth_error (list_set i x l) j = if Nat.eqb j i then Some x else nth_error l j.
Proof.
  induction l as [|h t IH]; intros [|i] [|j] Hi; cbn [list_set nth_error length] in *;
    try lia; try reflexivity.
  rewrite IH by lia. reflexivity.
Qed.

Lemma swap_list_spec {A} i j (l : list A) :
  (i < length l)%nat -> (j < length l)%nat ->
  exists l', swap_list i j l = Some l' /\ length l' = length l /\
    (forall n, nth_error l' n =
               if Nat.eqb n j then nth_error l i
               else if Nat.eqb n i then nth_error l j else nth_error l n).
Proof.
  intros Hi Hj. unfold swap_list.
  destruct (nth_error l i) as [a|] eqn:Ha; [|apply nth_error_None in Ha; lia].
  destruct (nth_error l j) as [b|] eqn:Hb; [|apply nth_error_None in Hb; lia].
  eexists. split; [reflexivity|]. split; [now rewrite !list_set_length|].
  intros n. rewrite nth_error_list_set by (now rewrite list_set_length).
  destruct (Nat.eqb n j); [reflexivity|].
  rewrite nth_error_list_set by exact Hi. reflexivity.
Qed.

(** Two lists with the same elements up to an exchange of two positions
    are permutations of each other. *)
Lemma swap_list_perm {A} i j (l l' : list A) :
  swap_list i j l = Some l' -> Permutation l l'.
Proof.
  unfold swap_list.
  destruct (nth_error l i) as [a|] eqn:Ha; [|discriminate].
  destruct (nth_error l j) as [b|] eqn:Hb; [|discriminate].
  intros H. injection H as <-.
  revert i j a b Ha Hb. induction l as [|h t IH]; intros [|i] [|j] a b Ha Hb;
    cbn [nth_error list_set] in *; try discriminate.
  - injection Ha as ->. injection Hb as ->. reflexivity.
  - injection Ha as ->.
    destruct (nth_error_split t j Hb) as (t1 & t2 & -> & Hlen).
    assert (Hset : list_set j a (t1 ++ b :: t2) = t1 ++ a :: t2).
    { clear - Hlen. revert j Hlen. induction t1 as [|x t1 IH]; intros [|j] Hlen;
        cbn [length] in Hlen; try discriminate; cbn [app list_set]; [reflexivity|].
      f_equal. apply IH. lia. }
    rewrite Hset.
    apply Permutation_trans with (a :: b :: t1 ++ t2);
      [constructor; symmetry; apply Permutation_middle|].
    apply Permutation_trans with (b :: a :: t1 ++ t2); [apply perm_swap|].
    constructor. apply Permutation_middle.
  - injection Hb as ->.
    destruct (nth_error_split t i Ha) as (t1 & t2 & -> & Hlen).
    assert (Hset : list_set i b (t1 ++ a :: t2) = t1 ++ b :: t2).
    { clear - Hlen. revert i Hlen. induction t1 as [|x t1 IH]; intros [|i] Hlen;
        cbn [length] in Hlen; try discriminate; cbn [app list_set]; [reflexivity|].
      f_equal. apply IH. lia. }
    rewrite Hset. cbn [list_set].
    apply Permutation_trans with (b :: a :: t1 ++ t2);
      [constructor; symmetry; apply Permutation_middle|].
    apply Permutation_trans with (a :: b :: t1 ++ t2); [apply perm_swap|].
    constructor. apply Permutation_middle.
  - constructor. now apply IH.
Qed.

Section CardPropagation.
Context {E : externals}.
Variable rho : bool_var -> bool.
Variable idx : Z.

(** [s'] has the assignment and the conflict flag of [s]. *)
Definition same_assignment (s s' : ba_solver) : Prop :=
  solver.m_assignment (m_solver s') = solver.m_assignment (m_solver s) /\
  inconsistent s' = inconsistent s.

Lemma same_assignment_value s s' l : same_assignment s s' -> value s' l = value s l.
Proof. intros [Ha _]. unfold value, solver.value. now rewrite Ha. Qed.

Lemma same_assignment_extends s s' :
  same_assignment s s' -> extends rho s -> extends rho s'.
Proof.
  intros Hs He l Hl. apply He. now rewrite <- (same_assignment_value s s' l Hs).
Qed.

Lemma assign_core_value c l j x :
  solver.value c l = l_undef ->
  solver.value (solver.assign_core l j c) x =
  if var x =? var l then (if Bool.eqb (sign x) (sign l) then l_true else l_false)
  else solver.value c x.
Proof.
  intros Hu. unfold solver.value, solver.assign_core.
  cbn [solver.m_assignment]. unfold solver.upd.
  destruct (var x =? var l); [|reflexivity].
  destruct (sign x), (sign l); reflexivity.
Qed.

(** [assign(c, l)] of a literal that holds in [rho] keeps [rho] an
    extension of the assignment. *)
Lemma assign_keeps_model l s :
  extends rho s -> lit_holds rho l = true ->
  exists s',
    assign idx l s = Ret tt s' /\ extends rho s' /\
    m_allocator s' = m_allocator s /\
    (forall x, value s x = l_true -> value s' x = l_true) /\
    (inconsistent s = true -> s' = s) /\
    (inconsistent s = false -> inconsistent s' = false /\ value s' l = l_true).
Proof.
  intros He Hl. unfold assign. cbv [bind gets].
  destruct (inconsistent s) eqn:Hinc.
  { exists s. repeat split; auto; discriminate. }
  destruct (value s l) eqn:Hv.
  - rewrite (extends_false rho s l He Hv) in Hl. discriminate Hl.
  - cbv [modify s_modify]. eexists. split; [reflexivity|].
    unfold value in Hv.
    assert (Hval : forall x,
              solver.value
                (solver.assign l (EXT_JUSTIFICATION idx) (m_solver s)) x =
              if var x =? var l
              then (if Bool.eqb (sign x) (sign l) then l_true else l_false)
              else solver.value (m_solver s) x).
    { intros x. unfold solver.assign. rewrite Hv. now apply assign_core_value. }
    split; [|split; [reflexivity|split; [|split; [discriminate|intros _; split]]]].
    + intros x Hx. unfold value in Hx. cbn [m_solver set_m_solver] in Hx.
      cbn [m_solver set_m_num_propagations_since_pop] in Hx.
      rewrite Hval in Hx. destruct (Z.eqb_spec (var x) (var l)) as [Hvar|_].
      * destruct (Bool.eqb (sign x) (sign l)) eqn:Hs; [|discriminate Hx].
        apply eqb_prop in Hs. destruct x, l. cbn [var sign] in *. now subst.
      * now apply He.
    + intros x Hx. unfold value in *. cbn [m_solver set_m_solver].
      cbn [m_solver set_m_num_propagations_since_pop].
      rewrite Hval. destruct (Z.eqb_spec (var x) (var l)) as [Hvar|_]; [|exact Hx].
      unfold solver.value in Hx, Hv. rewrite Hvar in Hx.
      destruct (sign x), (sign l), (solver.m_assignment (m_solver s) (var l));
        cbn in *; congruence.
    + unfold inconsistent in *. cbn [m_solver set_m_solver].
      cbn [m_solver set_m_num_propagations_since_pop].
      unfold solver.assign. rewrite Hv. exact Hinc.
    + unfold value. cbn [m_solver set_m_solver].
      cbn [m_solver set_m_num_propagations_since_pop].
      rewrite Hval, Z.eqb_refl, eqb_reflx. reflexivity.
  - exists s. repeat split; auto.
Qed.

(** The loop [for (i = a; i < a + n; ++i) assign(c, c[i])] over literals
    that hold in [rho]. *)
Lemma assign_prefix_run c n : forall a s,
  m_allocator s idx = Some (Card c) -> extends rho s ->
  (forall i l, (a <= i < a + n)%nat -> nth_error (card_lits c) i = Some l ->
               lit_holds rho l = true) ->
  (a + n <= length (card_lits c))%nat ->
  exists s',
    for_each (seq a n) (fun i => l <- card_at idx i ;; assign idx l) s = Ret tt s' /\
    extends rho s' /\ m_allocator s' = m_allocator s /\
    (forall x, value s x = l_true -> value s' x = l_true) /\
    (inconsistent s = true -> s' = s) /\
    (inconsistent s = false ->
     inconsistent s' = false /\
     forall i l, (a <= i < a + n)%nat -> nth_error (card_lits c) i = Some l ->
                 value s' l = l_true).
Proof.
  induction n as [|n IH]; intros a s Ha He Hrho Hlen; cbn [seq for_each].
  - exists s. repeat split; auto. intros; lia.
  - destruct (nth_error (card_lits c) a) as [l|] eqn:Hn;
      [|apply nth_error_None in Hn; lia].
    destruct (assign_keeps_model l s He) as (s1 & Hr1 & He1 & Ha1 & Hm1 & Hk1 & Hi1).
    { apply (Hrho a l); [lia | exact Hn]. }
    assert (Hstep : (l <- card_at idx a ;; assign idx l) s = Ret tt s1).
    { rewrite (bind_eq _ _ _ _ _ (card_at_run idx c a l s Ha Hn)). exact Hr1. }
    rewrite (bind_eq _ _ _ _ _ Hstep).
    destruct (IH (S a) s1) as (s' & Hr & He' & Ha' & Hm' & Hk' & Hi').
    + now rewrite Ha1.
    + exact He1.
    + intros i x Hi. apply Hrho. lia.
    + lia.
    + exists s'. split; [exact Hr|]. split; [exact He'|].
      split; [now rewrite Ha', Ha1|]. split; [auto|].
      split.
      { intros Hinc. pose proof (Hk1 Hinc) as ->. exact (Hk' Hinc). }
      intros Hinc. destruct (Hi1 Hinc) as (Hinc1 & Hl1).
      destruct (Hi' Hinc1) as (Hinc' & Hall). split; [exact Hinc'|].
      intros i x Hi Hx. destruct (Nat.eq_dec i a) as [->|Hne].
      * rewrite Hn in Hx. injection Hx as <-. now apply Hm'.
      * apply (Hall i x); [lia | exact Hx].
Qed.

(** The search for [alit] among the watched positions. *)
Lemma add_assign_card_find_run c alit s :
  m_allocator s idx = Some (Card c) ->
  0 <= card_k c < Z.of_nat (length (card_lits c)) ->
  forall n a,
    (a + n = S (length (card_lits c)))%nat -> Z.of_nat a <= card_k c + 1 ->
    exists index,
      add_assign_card_find idx alit (card_k c) (seq a n) s = Ret index s /\
      ((Z.of_nat index <= card_k c /\ nth_error (card_lits c) index = Some alit) \/
       Z.of_nat index = card_k c + 1).
Proof.
  intros Ha Hk. induction n as [|n IH]; intros a Hlen Hle;
    cbn [seq add_assign_card_find]; [lia|].
  destruct (Z.leb_spec (Z.of_nat a) (card_k c)) as [Hin|Hout].
  - destruct (nth_error (card_lits c) a) as [l|] eqn:Hn;
      [|apply nth_error_None in Hn; lia].
    rewrite (bind_eq _ _ _ _ _ (card_at_run idx c a l s Ha Hn)).
    destruct (literal_eqb_spec l alit) as [->|Hne].
    + exists a. split; [reflexivity|]. left. split; [lia | exact Hn].
    + apply IH; lia.
  - exists a. split; [reflexivity|]. right. lia.
Qed.

(** The search for a literal to swap with: either none of the inspected
    literals is non-false, or the constraint was permuted and nothing was
    assigned. *)
Lemma add_assign_card_swap_run c index s :
  m_allocator s idx = Some (Card c) -> (index < length (card_lits c))%nat ->
  forall ix,
    (forall i, In i ix -> (i < length (card_lits c))%nat) ->
    exists b s',
      add_assign_card_swap idx index ix s = Ret b s' /\
      if b then
        same_assignment s s' /\
        exists ls, Permutation (card_lits c) ls /\
                   m_allocator s' idx = Some (Card (mk_card (card_hd c) (card_k c) ls))
      else
        s' = s /\
        forall i l, In i ix -> nth_error (card_lits c) i = Some l -> value s l = l_false.
Proof.
  intros Ha Hindex. induction ix as [|i ix IH]; intros Hix; cbn [add_assign_card_swap].
  - exists false, s. split; [reflexivity|]. split; [reflexivity|]. intros i l [].
  - assert (Hi : (i < length (card_lits c))%nat) by (apply Hix; now left).
    destruct (nth_error (card_lits c) i) as [l|] eqn:Hn;
      [|apply nth_error_None in Hn; lia].
    rewrite (bind_eq _ _ _ _ _ (card_at_run idx c i l s Ha Hn)).
    erewrite bind_eq by reflexivity.
    destruct (lbool_eqb_spec (value s l) l_false) as [Hf|Hnf]; cbn [negb].
    + destruct IH as (b & s' & Hr & Hb); [intros; apply Hix; now right|].
      exists b, s'. split; [exact Hr|]. destruct b; [exact Hb|].
      destruct Hb as (-> & Hall). split; [reflexivity|].
      intros i' l' [<-|Hi'] Hn'; [congruence | eauto].
    + destruct (swap_list_spec index i (card_lits c) Hindex Hi) as (ls & Hs & _ & _).
      rewrite (bind_eq _ _ _ _ _ (card_swap_run idx c index i ls s Ha Hs)).
      exists true. eexists. split; [reflexivity|]. split; [split; reflexivity|].
      exists ls. split; [exact (swap_list_perm _ _ _ _ Hs)|].
      cbn. unfold solver.upd. now rewrite Z.eqb_refl.
Qed.

End CardPropagation.

Lemma count_true_tail_false rho ls k :
  (forall n l, (k <= n)%nat -> nth_error ls n = Some l -> lit_holds rho l = false) ->
  count_true rho ls = count_true rho (firstn k ls).
Proof.
  intros H. rewrite <- (firstn_skipn k ls) at 1. rewrite count_true_app.
  rewrite (count_true_none rho (skipn k ls)); [lia|].
  intros l Hl. apply In_nth_error in Hl. destruct Hl as (n & Hn).
  rewrite nth_error_skipn in Hn. apply (H (k + n)%nat l); [lia | exact Hn].
Qed.

Lemma count_true_has_false rho ls l :
  In l ls -> lit_holds rho l = false -> count_true rho ls <= Z.of_nat (length ls) - 1.
Proof.
  intros Hin Hl. destruct (in_split l ls Hin) as (l1 & l2 & ->).
  rewrite count_true_app, length_app.
  change (l :: l2) with ([l] ++ l2). rewrite count_true_app, length_app.
  pose proof (count_true_le rho l1). pose proof (count_true_le rho l2).
  unfold count_true at 2. cbn [filter]. rewrite Hl. cbn [length]. lia.
Qed.

Lemma range_from_In a sz i :
  In i (range_from a sz) <-> a <= Z.of_nat i /\ (i < sz)%nat.
Proof.
  unfold range_from. rewrite filter_In, in_seq, Z.leb_le. lia.
Qed.

(** The first [k] literals hold when the others are false and the
    constraint is satisfied. *)
Lemma card_head_holds rho ls k :
  (k <= length ls)%nat ->
  (forall n l, (k <= n)%nat -> nth_error ls n = Some l -> lit_holds rho l = false) ->
  Z.of_nat k <= count_true rho ls ->
  forall i l, (i < k)%nat -> nth_error ls i = Some l -> lit_holds rho l = true.
Proof.
  intros Hk Htail Hsat i l Hi Hn.
  rewrite (count_true_tail_false rho ls k Htail) in Hsat.
  pose proof (count_true_le rho (firstn k ls)) as Hle.
  rewrite (firstn_length_le ls Hk) in Hle.
  apply (count_true_all rho (firstn k ls)).
  - rewrite (firstn_length_le ls Hk). lia.
  - apply (nth_error_In _ i). rewrite nth_error_firstn.
    destruct (Nat.ltb_spec i k); [exact Hn | lia].
Qed.

(** X19: propagation by a cardinality constraint is sound.  For a
    constraint [c] with [0 < k <= size], a false literal [alit] of [c], and
    a total assignment [rho] that agrees with the core and satisfies [c],
    [add_assign(c, alit)] returns, [rho] still agrees with the core
    afterwards, and the constraint keeps its threshold and its literals up
    to their order.  If the core was not in conflict, it is not in conflict
    afterwards and the answer is not [l_false]; with the answer [l_true]
    the first [k] literals of the constraint are true. *)
Theorem add_assign_card_keeps_models {E : externals} (rho : bool_var -> bool)
  (idx : Z) (alit : literal) (c : card) (s : ba_solver) :
  m_allocator s idx = Some (Card c) ->
  0 < card_k c <= Z.of_nat (card_size c) -> Z.of_nat (card_size c) < UINT_MAX ->
  In alit (card_lits c) -> value s alit = l_false ->
  extends rho s -> sat_card rho c ->
  exists r s' c',
    add_assign_card idx alit s = Ret r s' /\
    m_allocator s' idx = Some (Card c') /\ card_k c' = card_k c /\
    Permutation (card_lits c) (card_lits c') /\
    extends rho s' /\
    (inconsistent s = false -> inconsistent s' = false /\ r <> l_false) /\
    (r = l_true ->
     forall l, In l (firstn (Z.to_nat (card_k c)) (card_lits c')) -> value s' l = l_true).
Proof.
  intros Ha Hk Hsz Hin Hfalse He Hsat. unfold card_size in *.
  pose proof (extends_false rho s alit He Hfalse) as Halit.
  unfold sat_card in Hsat.
  unfold add_assign_card. rewrite (bind_eq _ _ _ _ _ (to_card_run idx c s Ha)).
  cbv zeta. unfold card_size.
  destruct (Z.eqb_spec (card_k c) (Z.of_nat (length (card_lits c)))) as [Hfull|Hnfull].
  { (* every literal is needed, and [alit] is false *)
    exfalso. pose proof (count_true_le rho (card_lits c)).
    rewrite (count_true_all rho (card_lits c) ltac:(lia) alit Hin) in Halit.
    discriminate Halit. }
  assert (Hk' : 0 <= card_k c < Z.of_nat (length (card_lits c))) by lia.
  destruct (add_assign_card_find_run idx c alit s Ha Hk'
              (S (length (card_lits c))) 0%nat ltac:(lia) ltac:(lia))
    as (index & Hfind & Hindex).
  unfold range. rewrite Nat.sub_0_r, (bind_eq _ _ _ _ _ Hfind).
  rewrite (u32_id (card_k c + 1)) by (unfold is_u32; lia).
  destruct Hindex as [(Hle & Hnth)|Hnot].
  2:{ (* the literal is not watched any more *)
      rewrite Hnot, Z.eqb_refl.
      exists l_undef, s, c. repeat split; auto; discriminate. }
  destruct (Z.eqb_spec (Z.of_nat index) (card_k c + 1)) as [|_]; [lia|].
  destruct (add_assign_card_swap_run idx c index s Ha ltac:(lia)
              (range_from (card_k c + 1) (length (card_lits c))))
    as (b & s1 & Hswap & Hb).
  { intros i Hi. apply range_from_In in Hi. lia. }
  rewrite (bind_eq _ _ _ _ _ Hswap).
  destruct b.
  { (* a non-false literal was swapped into the watched positions *)
    destruct Hb as (Hsame & ls & Hperm & Hls).
    exists l_undef, s1, (mk_card (card_hd c) (card_k c) ls).
    split; [reflexivity|]. split; [exact Hls|]. split; [reflexivity|].
    split; [exact Hperm|]. split; [exact (same_assignment_extends rho s s1 Hsame He)|].
    split; [|discriminate].
    intros Hinc. split; [|discriminate]. destruct Hsame as [_ Hi]. congruence. }
  destruct Hb as (-> & Htail).
  assert (Htail' : forall n l, (Z.to_nat (card_k c) < n)%nat ->
                     nth_error (card_lits c) n = Some l -> lit_holds rho l = false).
  { intros n l Hn Hl. apply (extends_false rho s l He).
    apply (Htail n l); [|exact Hl]. apply range_from_In.
    split; [lia|]. apply nth_error_Some. congruence. }
  destruct (nth_error (card_lits c) (Z.to_nat (card_k c))) as [cb|] eqn:Hcb;
    [|apply nth_error_None in Hcb; lia].
  (* the literals after a permutation [ls] that has [alit] at position [k] *)
  assert (Hrun : forall s1 c1,
            m_allocator s1 idx = Some (Card c1) -> card_k c1 = card_k c ->
            Permutation (card_lits c) (card_lits c1) ->
            same_assignment s s1 ->
            (forall n l, (Z.to_nat (card_k c) <= n)%nat ->
                         nth_error (card_lits c1) n = Some l -> lit_holds rho l = false) ->
            exists r s' c',
              (for_each (range 0 (Z.to_nat (card_k c)))
                        (fun i => l <- card_at idx i ;; assign idx l) ;;
               c <- to_card idx ;;
               when (c_learned (card_hd c) && (2 <? c_glue (card_hd c)))
                    (g <- gets (fun s => num_diff_false_levels_below (m_solver s)
                                           (card_lits c) (u32 (c_glue (card_hd c) - 1))) ;;
                     match g with Some glue => set_glue idx glue | None => ret tt end) ;;
               inc <- gets inconsistent ;;
               ret (if inc then l_false else l_true)) s1 = Ret r s' /\
              m_allocator s' idx = Some (Card c') /\ card_k c' = card_k c /\
              Permutation (card_lits c) (card_lits c') /\
              extends rho s' /\
              (inconsistent s = false -> inconsistent s' = false /\ r <> l_false) /\
              (r = l_true ->
               forall l, In l (firstn (Z.to_nat (card_k c)) (card_lits c')) ->
                         value s' l = l_true)).
  { intros s1 c1 Ha1 Hk1 Hperm Hsame Hf.
    assert (Hlen : length (card_lits c1) = length (card_lits c))
      by (symmetry; apply Permutation_length, Hperm).
    assert (Hhold : forall i l, (i < Z.to_nat (card_k c))%nat ->
                      nth_error (card_lits c1) i = Some l -> lit_holds rho l = true).
    { apply card_head_holds; [lia | exact Hf |].
      rewrite <- (count_true_perm rho _ _ Hperm). lia. }
    destruct (assign_prefix_run rho idx c1 (Z.to_nat (card_k c)) 0 s1 Ha1
                (same_assignment_extends rho s s1 Hsame He))
      as (s2 & Hr2 & He2 & Ha2 & _ & Hk2 & Hi2).
    { intros i l Hi. apply Hhold. lia. }
    { lia. }
    unfold range. rewrite Nat.sub_0_r, (bind_eq _ _ _ _ _ Hr2).
    assert (Ha2' : m_allocator s2 idx = Some (Card c1)) by (now rewrite Ha2).
    rewrite (bind_eq _ _ _ _ _ (to_card_run idx c1 s2 Ha2')).
    assert (Hs1 : inconsistent s1 = inconsistent s) by apply Hsame.
    assert (Hall : inconsistent s2 = false ->
                   forall l, In l (firstn (Z.to_nat (card_k c)) (card_lits c1)) ->
                             value s2 l = l_true).
    { intros Hinc l Hl.
      destruct (inconsistent s1) eqn:Hinc1.
      { rewrite (Hk2 eq_refl) in Hinc. congruence. }
      destruct (Hi2 eq_refl) as (_ & Hv).
      apply In_nth_error in Hl. destruct Hl as (i & Hi).
      rewrite nth_error_firstn in Hi.
      destruct (Nat.ltb_spec i (Z.to_nat (card_k c))); [|discriminate Hi].
      apply (Hv i l); [lia | exact Hi]. }
    assert (Hcons : inconsistent s = false -> inconsistent s2 = false).
    { intros Hinc. rewrite <- Hs1 in Hinc. apply (Hi2 Hinc). }
    (* the glue update changes the header of the constraint only *)
    assert (Hglue : exists s3 c3,
              when (c_learned (card_hd c1) && (2 <? c_glue (card_hd c1)))
                   (g <- gets (fun s => num_diff_false_levels_below (m_solver s)
                                          (card_lits c1)
                                          (u32 (c_glue (card_hd c1) - 1))) ;;
                    match g with Some glue => set_glue idx glue | None => ret tt end) s2 =
              Ret tt s3 /\
              m_solver s3 = m_solver s2 /\
              m_allocator s3 idx = Some (Card c3) /\
              card_k c3 = card_k c1 /\ card_lits c3 = card_lits c1).
    { destruct (c_learned (card_hd c1) && (2 <? c_glue (card_hd c1))); cbn [when].
      2:{ exists s2, c1. repeat split; auto. }
      erewrite bind_eq by reflexivity.
      destruct (num_diff_false_levels_below _ _ _) as [glue|].
      2:{ exists s2, c1. repeat split; auto. }
      unfold set_glue, index2constraint. cbv [bind gets]. rewrite Ha2'.
      eexists _, _. split; [reflexivity|]. split; [reflexivity|].
      split; [cbn; unfold solver.upd; rewrite Z.eqb_refl; reflexivity|].
      split; reflexivity. }
    destruct Hglue as (s3 & c3 & Hr3 & Hs3 & Ha3 & Hk3 & Hl3).
    rewrite (bind_eq _ _ _ _ _ Hr3). cbv [bind gets ret].
    assert (Hv3 : forall l, value s3 l = value s2 l)
      by (intros l; unfold value; now rewrite Hs3).
    assert (Hi3 : inconsistent s3 = inconsistent s2)
      by (unfold inconsistent; now rewrite Hs3).
    exists (if inconsistent s3 then l_false else l_true), s3, c3.
    split; [reflexivity|]. split; [exact Ha3|]. split; [congruence|].
    split; [now rewrite Hl3|].
    split; [intros l Hl; apply He2; now rewrite <- Hv3|].
    split.
    - intros Hinc. rewrite Hi3, (Hcons Hinc). split; [reflexivity | discriminate].
    - rewrite Hi3, Hl3. destruct (inconsistent s2) eqn:Hinc2; [discriminate|].
      intros _ l Hl. rewrite Hv3. now apply Hall. }
  destruct (Z.eqb_spec (card_k c) (Z.of_nat index)) as [Heq|Hne]; cbn [negb].
  - (* [alit] is at position [k] already *)
    erewrite bind_eq by reflexivity. cbv iota.
    assert (Hik : index = Z.to_nat (card_k c)) by lia.
    rewrite <- Heq, Z.eqb_refl. cbn [negb when].
    erewrite bind_eq by reflexivity.
    apply (Hrun s c Ha eq_refl (Permutation_refl _)); [split; reflexivity|].
    intros n l Hn Hl. destruct (Nat.eq_dec n (Z.to_nat (card_k c))) as [->|Hnk].
    + rewrite <- Hik, Hnth in Hl. injection Hl as <-. exact Halit.
    + apply (Htail' n l); [lia | exact Hl].
  - assert (Hat : at_ (card_lits c) (card_k c) s = Ret cb s).
    { unfold at_. rewrite Hcb.
      destruct (Z.leb_spec 0 (card_k c)); [|lia].
      destruct (Z.ltb_spec (card_k c) (Z.of_nat (length (card_lits c)))); [|lia].
      reflexivity. }
    assert (Hic : (c0 <- to_card idx ;;
                   cb <- at_ (card_lits c0) (card_k c) ;;
                   v <- gets (fun s => value s cb) ;;
                   ret (lbool_eqb v l_false)) s =
                  Ret (lbool_eqb (value s cb) l_false) s).
    { rewrite (bind_eq _ _ _ _ _ (to_card_run idx c s Ha)).
      rewrite (bind_eq _ _ _ _ _ Hat). reflexivity. }
    rewrite (bind_eq _ _ _ _ _ Hic).
    destruct (lbool_eqb_spec (value s cb) l_false) as [Hcbf|Hcbn].
    { (* two of the first [k + 1] literals are false *)
      exfalso.
      assert (Hf : forall n l, (Z.to_nat (card_k c) <= n)%nat ->
                     nth_error (card_lits c) n = Some l -> lit_holds rho l = false).
      { intros n l Hn Hl. destruct (Nat.eq_dec n (Z.to_nat (card_k c))) as [->|Hnk].
        - rewrite Hcb in Hl. injection Hl as <-. exact (extends_false rho s cb He Hcbf).
        - apply (Htail' n l); [lia | exact Hl]. }
      rewrite (count_true_tail_false rho _ _ Hf) in Hsat.
      assert (Hin' : In alit (firstn (Z.to_nat (card_k c)) (card_lits c))).
      { apply (nth_error_In _ index). rewrite nth_error_firstn.
        destruct (Nat.ltb_spec index (Z.to_nat (card_k c))); [exact Hnth | lia]. }
      pose proof (count_true_has_false rho _ alit Hin' Halit) as Hc.
      rewrite firstn_length_le in Hc by lia. lia. }
    destruct (Z.eqb_spec (Z.of_nat index) (card_k c)) as [|_]; [lia|]. cbn [negb when].
    destruct (swap_list_spec index (Z.to_nat (card_k c)) (card_lits c))
      as (ls & Hs & Hlen & Hnth'); [lia | lia |].
    rewrite (bind_eq _ _ _ _ _
               (card_swap_run idx c index (Z.to_nat (card_k c)) ls s Ha Hs)).
    apply (Hrun (with_card_lits idx c ls s) (mk_card (card_hd c) (card_k c) ls)).
    + cbn. unfold solver.upd. now rewrite Z.eqb_refl.
    + reflexivity.
    + exact (swap_list_perm _ _ _ _ Hs).
    + split; reflexivity.
    + cbn [card_lits]. intros n l Hn Hl. rewrite Hnth' in Hl.
      destruct (Nat.eqb_spec n (Z.to_nat (card_k c))) as [->|Hnk].
      * rewrite Hnth in Hl. injection Hl as <-. exact Halit.
      * destruct (Nat.eqb_spec n index); [lia|].
        apply (Htail' n l); [lia | exact Hl].
Qed.

(** [x1 + x2 + x3 + x4 >= 2]. *)
Definition card_2_of_4 : card :=
  mk_card (new_header 1 null_literal) 2 [x_ 1; x_ 2; x_ 3; x_ 4].

(** The constraint at address [1] after the decisions [~x1] and [~x4]. *)
Definition x1_x4_false : ba_solver :=
  set_m_allocator (solver.upd (fun _ => None) 1 (Some (Card card_2_of_4)))
    (decide (neg (x_ 4)) (decide (neg (x_ 1)) empty_solver)).

Lemma extends_x1_x4_false : extends (fun v => (v =? 2) || (v =? 3)) x1_x4_false.
Proof.
  intros [v [|]] Hv; unfold lit_holds; cbn [var sign];
    unfold value, solver.value in Hv; cbn [var sign] in Hv;
    unfold x1_x4_false, decide in Hv; cbn in Hv; unfold solver.upd in Hv;
    destruct (Z.eqb_spec v 4), (Z.eqb_spec v 1); subst; try discriminate Hv;
    try reflexivity.
Qed.

Lemma add_assign_card_keeps_models_witness :
  exists s' c',
    @add_assign_card reference_externals 1 (x_ 1) x1_x4_false = Ret l_true s' /\
    m_allocator s' 1 = Some (Card c') /\
    card_lits c' = [x_ 3; x_ 2; x_ 1; x_ 4] /\
    extends (fun v => (v =? 2) || (v =? 3)) s' /\
    value s' (x_ 2) = l_true /\ value s' (x_ 3) = l_true.
Proof.
  destruct (@add_assign_card_keeps_models reference_externals
              (fun v => (v =? 2) || (v =? 3)) 1 (x_ 1) card_2_of_4 x1_x4_false)
    as (r & s' & c' & Hr & Ha & _ & _ & He & _ & Ht).
  - reflexivity.
  - vm_compute. split; [reflexivity | discriminate].
  - vm_compute. reflexivity.
  - now left.
  - reflexivity.
  - exact extends_x1_x4_false.
  - unfold sat_card. vm_compute. discriminate.
  - assert (Hc : match @add_assign_card reference_externals 1 (x_ 1) x1_x4_false with
                 | Ret r s' =>
                     r = l_true /\
                     m_allocator s' 1 =
                       Some (Card (mk_card (new_header 1 null_literal) 2
                                           [x_ 3; x_ 2; x_ 1; x_ 4]))
                 | _ => False
                 end) by (vm_compute; split; reflexivity).
    rewrite Hr in Hc. destruct Hc as (-> & Hc).
    rewrite Hc in Ha. injection Ha as <-.
    exists s', (mk_card (new_header 1 null_literal) 2 [x_ 3; x_ 2; x_ 1; x_ 4]).
    split; [exact Hr|]. split; [exact Hc|]. split; [reflexivity|].
    split; [exact He|].
    split; apply (Ht eq_refl); cbv; auto.
Defined.

Section CardInitWatch.
Variable rho : bool_var -> bool.
Variable idx : Z.

(** The loop [for (literal l : c) assign(c, l)] over literals that hold in
    [rho]. *)
Lemma assign_all_run ls : forall s,
  extends rho s -> (forall l, In l ls -> lit_holds rho l = true) ->
  exists s',
    for_each ls (fun l => assign idx l) s = Ret tt s' /\
    extends rho s' /\ m_allocator s' = m_allocator s /\
    (forall x, value s x = l_true -> value s' x = l_true) /\
    (inconsistent s = false ->
     inconsistent s' = false /\ forall l, In l ls -> value s' l = l_true).
Proof.
  induction ls as [|l ls IH]; intros s He Hrho; cbn [for_each].
  - exists s. repeat split; auto. intros l [].
  - destruct (assign_keeps_model rho idx l s He (Hrho l (or_introl eq_refl)))
      as (s1 & Hr1 & He1 & Ha1 & Hm1 & _ & Hi1).
    rewrite (bind_eq _ _ _ _ _ Hr1).
    destruct (IH s1 He1 (fun x Hx => Hrho x (or_intror Hx)))
      as (s' & Hr & He' & Ha' & Hm' & Hi').
    exists s'. split; [exact Hr|]. split; [exact He'|].
    split; [now rewrite Ha', Ha1|]. split; [auto|].
    intros Hinc. destruct (Hi1 Hinc) as (Hinc1 & Hl1).
    destruct (Hi' Hinc1) as (Hinc' & Hall). split; [exact Hinc'|].
    intros x [<-|Hx]; [now apply Hm' | now apply Hall].
Qed.

(** A loop that reads the literals of the constraint and updates watch
    lists changes neither the heap nor the assignment. *)
Lemma watch_loop_run (f : literal -> Z -> M unit) c :
  (forall l s, exists s', f l idx s = Ret tt s' /\
                          m_allocator s' = m_allocator s /\ same_assignment s s') ->
  forall n a s,
    m_allocator s idx = Some (Card c) -> (a + n <= length (card_lits c))%nat ->
    exists s',
      for_each (seq a n) (fun i => l <- card_at idx i ;; f l idx) s = Ret tt s' /\
      m_allocator s' = m_allocator s /\ same_assignment s s'.
Proof.
  intros Hf. induction n as [|n IH]; intros a s Ha Hlen; cbn [seq for_each].
  - exists s. repeat split; reflexivity.
  - destruct (nth_error (card_lits c) a) as [l|] eqn:Hn;
      [|apply nth_error_None in Hn; lia].
    destruct (Hf l s) as (s1 & Hr1 & Ha1 & Hs1).
    assert (Hstep : (l <- card_at idx a ;; f l idx) s = Ret tt s1).
    { rewrite (bind_eq _ _ _ _ _ (card_at_run idx c a l s Ha Hn)). exact Hr1. }
    rewrite (bind_eq _ _ _ _ _ Hstep).
    destruct (IH (S a) s1) as (s' & Hr & Ha' & Hs'); [now rewrite Ha1 | lia |].
    exists s'. split; [exact Hr|]. split; [now rewrite Ha', Ha1|].
    destruct Hs1 as [H1 H2], Hs' as [H3 H4]. split; congruence.
Qed.

Lemma watch_literal_quiet l s :
  exists s', watch_literal l idx s = Ret tt s' /\
             m_allocator s' = m_allocator s /\ same_assignment s s'.
Proof. eexists. split; [reflexivity|]. repeat split. Qed.

Lemma unwatch_literal_quiet l s :
  exists s', unwatch_literal l idx s = Ret tt s' /\
             m_allocator s' = m_allocator s /\ same_assignment s s'.
Proof. eexists. split; [reflexivity|]. repeat split. Qed.

(** The first loop of [init_watch]: the literals are permuted, nothing is
    assigned, and from the returned position on every literal is false. *)
Lemma init_watch_card_partition_run n : forall i j s c,
  m_allocator s idx = Some (Card c) ->
  (i + n = length (card_lits c))%nat -> (j <= i)%nat ->
  (forall m l, (j <= m < i)%nat -> nth_error (card_lits c) m = Some l ->
               value s l = l_false) ->
  exists j' s' c',
    init_watch_card_partition idx (seq i n) j s = Ret j' s' /\
    m_solver s' = m_solver s /\
    m_allocator s' idx = Some (Card c') /\
    card_hd c' = card_hd c /\ card_k c' = card_k c /\
    Permutation (card_lits c) (card_lits c') /\
    (j' <= length (card_lits c'))%nat /\
    (forall m l, (j' <= m)%nat -> nth_error (card_lits c') m = Some l ->
                 value s l = l_false).
Proof.
  induction n as [|n IH]; intros i j s c Ha Hlen Hj Hf;
    cbn [seq init_watch_card_partition].
  - exists j, s, c. split; [reflexivity|]. repeat split; auto; try lia.
    intros m l Hm Hl. apply (Hf m l); [|exact Hl].
    split; [lia|]. rewrite Nat.add_0_r in Hlen. rewrite Hlen.
    apply nth_error_Some. congruence.
  - destruct (nth_error (card_lits c) i) as [l|] eqn:Hn;
      [|apply nth_error_None in Hn; lia].
    rewrite (bind_eq _ _ _ _ _ (card_at_run idx c i l s Ha Hn)).
    erewrite bind_eq by reflexivity.
    destruct (lbool_eqb_spec (value s l) l_false) as [Hfl|Hnf]; cbn [negb].
    + apply IH; [exact Ha | lia | lia |].
      intros m x Hm Hx. destruct (Nat.eq_dec m i) as [->|Hne].
      * congruence.
      * apply (Hf m x); [lia | exact Hx].
    + destruct (Nat.eqb_spec j i) as [->|Hne]; cbn [negb when].
      * erewrite bind_eq by reflexivity.
        apply IH; [exact Ha | lia | lia |]. intros m x Hm. lia.
      * destruct (swap_list_spec i j (card_lits c)) as (ls & Hs & Hl & Hnth);
          [lia | lia |].
        rewrite (bind_eq _ _ _ _ _ (card_swap_run idx c i j ls s Ha Hs)).
        destruct (IH (S i) (S j) (with_card_lits idx c ls s)
                     (mk_card (card_hd c) (card_k c) ls))
          as (j' & s' & c' & Hr & Hsol & Ha' & Hhd & Hk & Hperm & Hj' & Hf').
        -- cbn. unfold solver.upd. now rewrite Z.eqb_refl.
        -- cbn [card_lits]. lia.
        -- lia.
        -- cbn [card_lits]. intros m x Hm Hx. rewrite Hnth in Hx.
           unfold value in *. cbn [m_solver with_card_lits set_m_allocator].
           destruct (Nat.eqb_spec m j); [lia|].
           destruct (Nat.eqb_spec m i) as [->|Hmi].
           ++ apply (Hf j x); [lia | exact Hx].
           ++ apply (Hf m x); [lia | exact Hx].
        -- exists j', s', c'. split; [exact Hr|]. split; [exact Hsol|].
           split; [exact Ha'|]. split; [exact Hhd|]. split; [exact Hk|].
           split; [|split; [exact Hj' | exact Hf']].
           exact (Permutation_trans (swap_list_perm _ _ _ _ Hs) Hperm).
Qed.

End CardInitWatch.

(** The constraint [init_watch(c, is_true)] works on: [c], negated when
    its reifier has the sign [is_true]. *)
Definition oriented (c : card) (is_true : bool) : card :=
  if negb (is_null (c_lit (card_hd c))) && Bool.eqb (sign (c_lit (card_hd c))) is_true
  then card_negate c else c.

(** X20: initialising the watches of a cardinality constraint is sound.
    For a total assignment [rho] that agrees with the core and satisfies
    the constraint [init_watch(c, is_true)] works on, the call returns,
    [rho] still agrees with the core afterwards, and the constraint keeps
    its threshold and its literals up to their order.  A core that was not
    in conflict is not in conflict afterwards, and when the answer is
    [false] the first [k] literals of the constraint are true. *)
Theorem init_watch_card_keeps_models (rho : bool_var -> bool)
  (idx : Z) (is_true : bool) (c : card) (s : ba_solver) :
  m_allocator s idx = Some (Card c) -> 0 <= card_k c ->
  extends rho s -> sat_card rho (oriented c is_true) ->
  exists r s' c',
    init_watch_card idx is_true s = Ret r s' /\
    m_allocator s' idx = Some (Card c') /\
    card_k c' = card_k (oriented c is_true) /\
    Permutation (card_lits (oriented c is_true)) (card_lits c') /\
    extends rho s' /\
    (inconsistent s = false ->
     inconsistent s' = false /\
     (r = false ->
      forall l, In l (firstn (Z.to_nat (card_k c')) (card_lits c')) ->
                value s' l = l_true)).
Proof.
  intros Ha Hk0 He Hsat. unfold init_watch_card.
  (* the watches are cleared *)
  assert (Hclear : exists s1, clear_watch_card idx s = Ret tt s1 /\
                              m_allocator s1 = m_allocator s /\ same_assignment s s1).
  { unfold clear_watch_card. rewrite (bind_eq _ _ _ _ _ (to_card_run idx c s Ha)).
    unfold range. rewrite Nat.sub_0_r.
    apply (watch_loop_run idx unwatch_literal c (unwatch_literal_quiet idx)); [exact Ha|].
    unfold card_size. lia. }
  destruct Hclear as (s1 & Hr1 & Ha1 & Hs1).
  rewrite (bind_eq _ _ _ _ _ Hr1).
  assert (Ha1' : m_allocator s1 idx = Some (Card c)) by (now rewrite Ha1).
  rewrite (bind_eq _ _ _ _ _ (to_card_run idx c s1 Ha1')).
  (* the constraint is oriented *)
  set (c1 := oriented c is_true) in *.
  assert (Horient : exists s2,
            when (negb (is_null (c_lit (card_hd c))) &&
                  Bool.eqb (sign (c_lit (card_hd c))) is_true)
                 (put_constraint idx (Card (card_negate c))) s1 = Ret tt s2 /\
            m_solver s2 = m_solver s1 /\ m_allocator s2 idx = Some (Card c1)).
  { unfold c1, oriented.
    destruct (negb (is_null (c_lit (card_hd c))) &&
              Bool.eqb (sign (c_lit (card_hd c))) is_true); cbn [when].
    - eexists. split; [reflexivity|]. split; [reflexivity|].
      cbn. unfold solver.upd. now rewrite Z.eqb_refl.
    - exists s1. repeat split; auto. }
  destruct Horient as (s2 & Hr2 & Hsol2 & Ha2).
  rewrite (bind_eq _ _ _ _ _ Hr2), (bind_eq _ _ _ _ _ (to_card_run idx c1 s2 Ha2)).
  cbv zeta.
  assert (Hs2 : same_assignment s s2).
  { destruct Hs1 as [H1 H2]. unfold same_assignment, inconsistent in *.
    rewrite Hsol2. now split. }
  pose proof (same_assignment_extends rho s s2 Hs2 He) as He2.
  assert (Hk1 : 0 <= card_k c1).
  { unfold c1, oriented. destruct (_ && _); [|exact Hk0].
    cbn [card_negate card_k]. apply u32_nonneg. }
  unfold sat_card in Hsat. pose proof (count_true_le rho (card_lits c1)) as Hcount.
  unfold card_size.
  destruct (Z.eqb_spec (card_k c1) (Z.of_nat (length (card_lits c1)))) as [Hfull|Hnfull].
  { (* every literal is needed *)
    destruct (assign_all_run rho idx (card_lits c1) s2 He2)
      as (s3 & Hr3 & He3 & Ha3 & _ & Hi3).
    { apply count_true_all. lia. }
    rewrite (bind_eq _ _ _ _ _ Hr3).
    exists false, s3, c1. split; [reflexivity|]. split; [now rewrite Ha3|].
    split; [reflexivity|]. split; [reflexivity|]. split; [exact He3|].
    intros Hinc. destruct Hs2 as [_ Hi2]. rewrite <- Hi2 in Hinc.
    destruct (Hi3 Hinc) as (Hinc3 & Hall). split; [exact Hinc3|].
    intros _ l Hl. apply Hall.
    rewrite <- (firstn_skipn (Z.to_nat (card_k c1)) (card_lits c1)).
    apply in_or_app. now left. }
  (* the non-false literals are moved to the head *)
  destruct (init_watch_card_partition_run idx (length (card_lits c1)) 0 0 s2 c1 Ha2)
    as (j & s3 & c3 & Hr3 & Hsol3 & Ha3 & _ & Hk3 & Hperm & Hj & Hf);
    [lia | lia | intros; lia |].
  unfold range. rewrite !Nat.sub_0_r, (bind_eq _ _ _ _ _ Hr3).
  assert (Hs3 : same_assignment s s3).
  { destruct Hs2 as [H1 H2]. unfold same_assignment, inconsistent in *.
    rewrite Hsol3. now split. }
  pose proof (same_assignment_extends rho s s3 Hs3 He) as He3.
  assert (Hf' : forall m l, (j <= m)%nat -> nth_error (card_lits c3) m = Some l ->
                            lit_holds rho l = false).
  { intros m l Hm Hl. apply (extends_false rho s2 l He2). now apply (Hf m l). }
  rewrite (count_true_perm rho _ _ Hperm) in Hsat.
  pose proof (count_true_tail_false rho (card_lits c3) j Hf') as Htail.
  pose proof (count_true_le rho (firstn j (card_lits c3))) as Hhead.
  rewrite (firstn_length_le _ Hj) in Hhead.
  assert (Hlen : length (card_lits c3) = length (card_lits c1))
    by (symmetry; apply Permutation_length, Hperm).
  destruct (Z.ltb_spec (Z.of_nat j) (card_k c1)) as [Hlt|Hge]; [lia|].
  destruct (Z.eqb_spec (Z.of_nat j) (card_k c1)) as [Heq|Hne].
  - (* exactly [k] literals are not false: they are assigned *)
    destruct (assign_prefix_run rho idx c3 (Z.to_nat (card_k c1)) 0 s3 Ha3 He3)
      as (s4 & Hr4 & He4 & Ha4 & _ & _ & Hi4).
    { intros i l Hi. apply (card_head_holds rho (card_lits c3) j Hj Hf'); lia. }
    { lia. }
    rewrite (bind_eq _ _ _ _ _ Hr4).
    exists false, s4, c3. split; [reflexivity|]. split; [now rewrite Ha4|].
    split; [exact Hk3|]. split; [exact Hperm|]. split; [exact He4|].
    intros Hinc. destruct Hs3 as [_ Hi3]. rewrite <- Hi3 in Hinc.
    destruct (Hi4 Hinc) as (Hinc4 & Hall). split; [exact Hinc4|].
    intros _ l Hl. rewrite Hk3 in Hl.
    apply In_nth_error in Hl. destruct Hl as (i & Hi).
    rewrite nth_error_firstn in Hi.
    destruct (Nat.ltb_spec i (Z.to_nat (card_k c1))); [|discriminate Hi].
    apply (Hall i l); [lia | exact Hi].
  - (* more than [k] literals are not false: [k + 1] of them are watched *)
    destruct (watch_loop_run idx watch_literal c3 (watch_literal_quiet idx)
                (S (Z.to_nat (card_k c1))) 0 s3 Ha3 ltac:(lia))
      as (s4 & Hr4 & Ha4 & Hs4).
    rewrite (bind_eq _ _ _ _ _ Hr4).
    exists true, s4, c3. split; [reflexivity|]. split; [now rewrite Ha4|].
    split; [exact Hk3|]. split; [exact Hperm|].
    split; [exact (same_assignment_extends rho s3 s4 Hs4 He3)|].
    intros Hinc. split; [|discriminate].
    destruct Hs3 as [_ Hi3], Hs4 as [_ Hi4]. congruence.
Qed.

Lemma init_watch_card_keeps_models_witness :
  exists s' c',
    init_watch_card 1 true x1_x4_false = Ret false s' /\
    m_allocator s' 1 = Some (Card c') /\
    card_lits c' = [x_ 2; x_ 3; x_ 1; x_ 4] /\
    extends (fun v => (v =? 2) || (v =? 3)) s' /\
    value s' (x_ 2) = l_true /\ value s' (x_ 3) = l_true.
Proof.
  destruct (init_watch_card_keeps_models
              (fun v => (v =? 2) || (v =? 3)) 1 true card_2_of_4 x1_x4_false)
    as (r & s' & c' & Hr & Ha & _ & _ & He & Ht).
  - reflexivity.
  - vm_compute. discriminate.
  - exact extends_x1_x4_false.
  - unfold sat_card. vm_compute. discriminate.
  - assert (Hc : match init_watch_card 1 true x1_x4_false with
                 | Ret r s' =>
                     r = false /\
                     m_allocator s' 1 =
                       Some (Card (mk_card (new_header 1 null_literal) 2
                                           [x_ 2; x_ 3; x_ 1; x_ 4]))
                 | _ => False
                 end) by (vm_compute; split; reflexivity).
    rewrite Hr in Hc. destruct Hc as (-> & Hc).
    rewrite Hc in Ha. injection Ha as <-.
    exists s', (mk_card (new_header 1 null_literal) 2 [x_ 2; x_ 3; x_ 1; x_ 4]).
    split; [exact Hr|]. split; [exact Hc|]. split; [reflexivity|].
    split; [exact He|].
    destruct (Ht eq_refl) as (_ & Hall).
    split; apply (Hall eq_refl); cbv; auto.
Defined.

(** ** What propagation leaves alone *)

(** The core [c'] has every assignment of [c]: an assigned variable keeps
    its value, its level and its reason, the trail has only grown, a
    conflict that was set is still the conflict, and the marks, the scope
    level and the clauses are the same. *)
Definition grows (c c' : solver.t) : Prop :=
  (forall v, solver.m_assignment c v <> l_undef ->
             solver.m_assignment c' v = solver.m_assignment c v /\
             solver.m_level c' v = solver.m_level c v /\
             solver.m_justification c' v = solver.m_justification c v) /\
  (exists ext, solver.m_trail c' = solver.m_trail c ++ ext) /\
  (solver.m_inconsistent c = true ->
   solver.m_inconsistent c' = true /\ solver.m_conflict c' = solver.m_conflict c /\
   solver.m_not_l c' = solver.m_not_l c) /\
  solver.m_mark c' = solver.m_mark c /\
  solver.m_scope_lvl c' = solver.m_scope_lvl c /\
  solver.m_cls_allocator c' = solver.m_cls_allocator c /\
  solver.m_clauses c' = solver.m_clauses c /\
  solver.m_external c' = solver.m_external c.

(** The constraint lists, the scopes and the resolvent of [s'] are those
    of [s]. *)
Definition kept (s s' : ba_solver) : Prop :=
  m_alloc_top s' = m_alloc_top s /\
  m_constraint_id s' = m_constraint_id s /\
  m_constraints s' = m_constraints s /\
  m_learned s' = m_learned s /\
  m_constraint_to_reinit s' = m_constraint_to_reinit s /\
  m_constraint_to_reinit_lim s' = m_constraint_to_reinit_lim s /\
  m_constraint_to_reinit_last_sz s' = m_constraint_to_reinit_last_sz s /\
  m_lemma s' = m_lemma s /\
  m_coeffs s' = m_coeffs s /\
  m_active_vars s' = m_active_vars s /\
  m_bound s' = m_bound s /\
  m_conflict_lvl s' = m_conflict_lvl s /\
  m_num_marks s' = m_num_marks s /\
  m_overflow s' = m_overflow s.

(** What a propagation on the constraint at [idx] may change of [s0]. *)
Definition framed (idx : Z) (s0 s : ba_solver) : Prop :=
  grows (m_solver s0) (m_solver s) /\
  (forall i, i <> idx -> m_allocator s i = m_allocator s0 i) /\
  kept s0 s.

Lemma grows_refl c : grows c c.
Proof.
  repeat split; auto. exists []. now rewrite app_nil_r.
Qed.

Lemma grows_trans c1 c2 c3 : grows c1 c2 -> grows c2 c3 -> grows c1 c3.
Proof.
  intros (Ha & (e1 & Ht1) & Hi1 & Hm1 & Hs1 & Hc1 & Hl1 & Hx1)
         (Hb & (e2 & Ht2) & Hi2 & Hm2 & Hs2 & Hc2 & Hl2 & Hx2).
  split; [|split; [|split; [|repeat split; congruence]]].
  - intros v Hv. destruct (Ha v Hv) as (H1 & H2 & H3).
    destruct (Hb v) as (H4 & H5 & H6); [congruence|].
    repeat split; congruence.
  - exists (e1 ++ e2). now rewrite Ht2, Ht1, app_assoc.
  - intros Hinc. destruct (Hi1 Hinc) as (H1 & H2 & H3).
    destruct (Hi2 H1) as (H4 & H5 & H6). repeat split; congruence.
Qed.

Lemma grows_set_wlist l w c : grows c (solver.set_wlist l w c).
Proof. repeat split; auto. exists []. cbn. now rewrite app_nil_r. Qed.

Lemma grows_set_conflict j l c : grows c (solver.set_conflict j l c).
Proof.
  unfold solver.set_conflict.
  destruct (solver.m_inconsistent c) eqn:Hinc; [apply grows_refl|].
  split; [auto|]. split; [exists []; cbn; now rewrite app_nil_r|].
  split; [intros H; congruence | repeat split].
Qed.

Lemma grows_assign l j c : grows c (solver.assign l j c).
Proof.
  unfold solver.assign. destruct (solver.value c l) eqn:Hv;
    [apply grows_set_conflict | | apply grows_refl].
  unfold solver.assign_core.
  split; [|split; [exists [l]; reflexivity | repeat split; auto]].
  intros v Hne. cbn. unfold solver.upd.
  destruct (Z.eqb_spec v (var l)) as [->|_]; [|repeat split; reflexivity].
  exfalso. apply Hne. unfold solver.value in Hv.
  destruct (sign l), (solver.m_assignment c (var l)); cbn in Hv; congruence.
Qed.

Lemma framed_refl idx s : framed idx s s.
Proof. split; [apply grows_refl | split; [reflexivity | repeat split]]. Qed.

Section Frame.
Context {E : externals}.
Variable idx : Z.
Variable s0 : ba_solver.

Let I := framed idx s0.

Lemma frame_modify_scratch f :
  (forall s, m_solver (f s) = m_solver s /\ m_allocator (f s) = m_allocator s /\
             kept s (f s)) ->
  inv I (modify f).
Proof.
  intros Hf. apply inv_modify. intros s (Hg & Hh & Hk).
  destruct (Hf s) as (H1 & H2 & H3). split; [now rewrite H1|].
  split; [now rewrite H2|].
  unfold kept in *. intuition congruence.
Qed.

Lemma frame_s_modify g : (forall c, grows c (g c)) -> inv I (s_modify g).
Proof.
  intros Hgr. unfold s_modify. apply inv_modify. intros s (Hg & Hh & Hk).
  split; [exact (grows_trans _ _ _ Hg (Hgr (m_solver s)))|].
  split; [exact Hh | exact Hk].
Qed.

Lemma frame_put_constraint c : inv I (put_constraint idx c).
Proof.
  unfold put_constraint. apply inv_modify. intros s (Hg & Hh & Hk).
  split; [exact Hg|]. split; [|exact Hk].
  intros i Hi. cbn. unfold solver.upd.
  destruct (Z.eqb_spec i idx); [contradiction | now apply Hh].
Qed.

Hint Resolve frame_put_constraint : inv.
Hint Extern 1 (inv _ (modify _)) =>
  apply frame_modify_scratch; intros; repeat split; reflexivity : inv.
Hint Extern 1 (inv _ (s_modify _)) =>
  apply frame_s_modify; intros;
  first [apply grows_set_wlist | apply grows_set_conflict | apply grows_assign] : inv.

Lemma frame_index2constraint : inv I (index2constraint idx).
Proof. unfold index2constraint. inv_auto. Qed.
Hint Resolve frame_index2constraint : inv.

Lemma frame_to_card : inv I (to_card idx).
Proof. unfold to_card. inv_auto. Qed.

Lemma frame_to_pb : inv I (to_pb idx).
Proof. unfold to_pb. inv_auto. Qed.

Lemma frame_to_xor : inv I (to_xor idx).
Proof. unfold to_xor. inv_auto. Qed.
Hint Resolve frame_to_card frame_to_pb frame_to_xor : inv.

Lemma frame_card_at i : inv I (card_at idx i).
Proof. unfold card_at. inv_auto. Qed.

Lemma frame_pb_at i : inv I (pb_at idx i).
Proof. unfold pb_at. inv_auto. Qed.

Lemma frame_xor_at i : inv I (xor_at idx i).
Proof. unfold xor_at. inv_auto. Qed.

Lemma frame_card_swap i j : inv I (card_swap idx i j).
Proof. unfold card_swap. inv_auto. Qed.

Lemma frame_pb_swap i j : inv I (pb_swap idx i j).
Proof. unfold pb_swap. inv_auto. Qed.

Lemma frame_xor_swap i j : inv I (xor_swap idx i j).
Proof. unfold xor_swap. inv_auto. Qed.

Lemma frame_set_slack x : inv I (set_slack idx x).
Proof. unfold set_slack. inv_auto. Qed.

Lemma frame_set_num_watch x : inv I (set_num_watch idx x).
Proof. unfold set_num_watch. inv_auto. Qed.

Lemma frame_set_glue g : inv I (set_glue idx g).
Proof. unfold set_glue. inv_auto. Qed.

Lemma frame_watch_literal l : inv I (watch_literal l idx).
Proof. unfold watch_literal. inv_auto. Qed.

Lemma frame_unwatch_literal l : inv I (unwatch_literal l idx).
Proof. unfold unwatch_literal. inv_auto. Qed.

Hint Resolve frame_card_at frame_pb_at frame_xor_at frame_card_swap frame_pb_swap
  frame_xor_swap frame_set_slack frame_set_num_watch frame_set_glue
  frame_watch_literal frame_unwatch_literal : inv.

Lemma frame_set_conflict l : inv I (set_conflict idx l).
Proof. unfold set_conflict. inv_auto. Qed.
Hint Resolve frame_set_conflict : inv.

Lemma frame_assign l : inv I (assign idx l).
Proof. unfold assign. inv_auto. Qed.
Hint Resolve frame_assign : inv.

Lemma frame_UNREACHABLE : inv I UNREACHABLE.
Proof. unfold UNREACHABLE. inv_auto. Qed.
Hint Resolve frame_UNREACHABLE : inv.

Lemma frame_clear_watch_card : inv I (clear_watch_card idx).
Proof. unfold clear_watch_card. inv_auto. Qed.

Lemma frame_init_watch_card_partition ix j : inv I (init_watch_card_partition idx ix j).
Proof. revert j. induction ix as [|i ix IH]; intros j; simpl; inv_auto. Qed.

Lemma frame_init_watch_card_alit j ix alit : inv I (init_watch_card_alit idx j ix alit).
Proof. revert alit. induction ix as [|i ix IH]; intros alit; simpl; inv_auto. Qed.

Hint Resolve frame_clear_watch_card frame_init_watch_card_partition
  frame_init_watch_card_alit : inv.

Lemma frame_init_watch_card is_true : inv I (init_watch_card idx is_true).
Proof. unfold init_watch_card. inv_auto. Qed.

Lemma frame_add_assign_card_find alit bound ix :
  inv I (add_assign_card_find idx alit bound ix).
Proof. induction ix as [|i ix IH]; simpl; inv_auto. Qed.

Lemma frame_add_assign_card_swap index ix : inv I (add_assign_card_swap idx index ix).
Proof. induction ix as [|i ix IH]; simpl; inv_auto. Qed.

Hint Resolve frame_add_assign_card_find frame_add_assign_card_swap : inv.

Lemma frame_add_assign_card alit : inv I (add_assign_card idx alit).
Proof. unfold add_assign_card. inv_auto. Qed.

Lemma frame_clear_watch_pb : inv I (clear_watch_pb idx).
Proof. unfold clear_watch_pb. inv_auto. Qed.

Lemma frame_init_watch_pb_partition bound ix st :
  inv I (init_watch_pb_partition idx bound ix st).
Proof. revert st. induction ix as [|i ix IH]; intros st; simpl; inv_auto. Qed.

Lemma frame_init_watch_pb_conflict_lit ix l : inv I (init_watch_pb_conflict_lit idx ix l).
Proof. revert l. induction ix as [|i ix IH]; intros l; simpl; inv_auto. Qed.

Hint Resolve frame_clear_watch_pb frame_init_watch_pb_partition
  frame_init_watch_pb_conflict_lit : inv.

Lemma frame_init_watch_pb is_true : inv I (init_watch_pb idx is_true).
Proof. unfold init_watch_pb. inv_auto. Qed.

Lemma frame_add_index index l : inv I (add_index idx index l).
Proof. unfold add_index. inv_auto. Qed.
Hint Resolve frame_add_index : inv.

Lemma frame_add_assign_pb_find alit num_watch ix :
  inv I (add_assign_pb_find idx alit num_watch ix).
Proof. induction ix as [|i ix IH]; simpl; inv_auto. Qed.

Lemma frame_add_assign_pb_amax ix : inv I (add_assign_pb_amax idx ix).
Proof. induction ix as [|i ix IH]; simpl; inv_auto. Qed.

Lemma frame_add_assign_pb_pull bound ix slack num_watch :
  inv I (add_assign_pb_pull idx bound ix slack num_watch).
Proof.
  revert slack num_watch. induction ix as [|i ix IH]; intros slack num_watch; simpl;
    inv_auto.
Qed.

Lemma frame_validate_watch : inv I (validate_watch idx).
Proof. unfold validate_watch. inv_auto. Qed.

Hint Resolve frame_add_assign_pb_find frame_add_assign_pb_amax frame_add_assign_pb_pull
  frame_validate_watch : inv.

Lemma frame_add_assign_pb alit : inv I (add_assign_pb idx alit).
Proof. unfold add_assign_pb. inv_auto. Qed.

Lemma frame_clear_watch_xor : inv I (clear_watch_xor idx).
Proof. unfold clear_watch_xor. inv_auto. Qed.

Lemma frame_parity offset : inv I (parity idx offset).
Proof. unfold parity. inv_auto. Qed.

Lemma frame_init_watch_xor_partition ix j : inv I (init_watch_xor_partition idx ix j).
Proof. revert j. induction ix as [|i ix IH]; intros j; simpl; inv_auto. Qed.

Lemma frame_init_watch_xor_max_lvl ix j l : inv I (init_watch_xor_max_lvl idx ix j l).
Proof. revert j l. induction ix as [|i ix IH]; intros j l; simpl; inv_auto. Qed.

Hint Resolve frame_clear_watch_xor frame_parity frame_init_watch_xor_partition
  frame_init_watch_xor_max_lvl : inv.

Lemma frame_init_watch_xor is_true : inv I (init_watch_xor idx is_true).
Proof. unfold init_watch_xor. inv_auto. Qed.

Lemma frame_add_assign_xor_find alit ix : inv I (add_assign_xor_find idx alit ix).
Proof. induction ix as [|i ix IH]; simpl; inv_auto. Qed.

Lemma frame_add_assign_xor_swap index ix : inv I (add_assign_xor_swap idx index ix).
Proof. induction ix as [|i ix IH]; simpl; inv_auto. Qed.

Hint Resolve frame_add_assign_xor_find frame_add_assign_xor_swap : inv.

Lemma frame_add_assign_xor alit : inv I (add_assign_xor idx alit).
Proof. unfold add_assign_xor. inv_auto. Qed.

Hint Resolve frame_init_watch_card frame_init_watch_pb frame_init_watch_xor
  frame_add_assign_card frame_add_assign_pb frame_add_assign_xor : inv.

Lemma frame_init_watch is_true : inv I (init_watch idx is_true).
Proof. unfold init_watch. inv_auto. Qed.

Lemma frame_add_assign l : inv I (add_assign idx l).
Proof. unfold add_assign. inv_auto. Qed.

Hint Resolve frame_init_watch frame_add_assign : inv.

Lemma frame_propagate l : inv I (propagate l idx).
Proof. unfold propagate. inv_auto. Qed.

End Frame.

(** X21: a propagation on the constraint at [idx] retracts nothing and is
    local.  When [propagate(l, idx)], [init_watch] or [add_assign] on that
    constraint returns, every variable that was assigned keeps its value,
    level and reason, the trail has only been extended, a conflict that
    was already set is kept, every other constraint of the heap is
    unchanged, and so are the constraint lists, the scopes and the
    resolvent.  None of the three raises an exception. *)
Theorem propagation_frame {E : externals} (idx : Z) (s : ba_solver) :
  (forall l, match propagate l idx s with
             | Ret _ s' => framed idx s s'
             | Exit _ | Undefined => True
             | Throw _ _ | OutOfFuel => False
             end) /\
  (forall is_true, match init_watch idx is_true s with
                   | Ret _ s' => framed idx s s'
                   | Exit _ | Undefined => True
                   | Throw _ _ | OutOfFuel => False
                   end) /\
  (forall l, match add_assign idx l s with
             | Ret _ s' => framed idx s s'
             | Exit _ | Undefined => True
             | Throw _ _ | OutOfFuel => False
             end).
Proof.
  split; [|split].
  - intros l. exact (frame_propagate idx s l s (framed_refl idx s)).
  - intros b. exact (frame_init_watch idx s b s (framed_refl idx s)).
  - intros l. exact (frame_add_assign idx s l s (framed_refl idx s)).
Qed.

(** ** Initialising the watches of a pb constraint *)

Lemma to_pb_run idx p s : m_allocator s idx = Some (Pb p) -> to_pb idx s = Ret p s.
Proof.
  intros H. unfold to_pb, index2constraint. cbv [bind gets]. rewrite H. reflexivity.
Qed.

Lemma pb_at_run idx p i wl s :
  m_allocator s idx = Some (Pb p) -> nth_error (pb_wlits p) i = Some wl ->
  pb_at idx i s = Ret wl s.
Proof.
  intros H Hn. unfold pb_at. rewrite (bind_eq _ _ _ _ _ (to_pb_run idx p s H)).
  unfold at_. rewrite Nat2Z.id, Hn.
  assert (Hi : (i < length (pb_wlits p))%nat) by (apply nth_error_Some; congruence).
  destruct (Z.leb_spec 0 (Z.of_nat i)); [|lia].
  destruct (Z.ltb_spec (Z.of_nat i) (Z.of_nat (length (pb_wlits p)))); [|lia].
  reflexivity.
Qed.

(** The state after a write of the constraint at [idx]. *)
Definition with_constraint (idx : Z) (c : constraint) (s : ba_solver) : ba_solver :=
  set_m_allocator (solver.upd (m_allocator s) idx (Some c)) s.

Lemma with_constraint_at idx c s : m_allocator (with_constraint idx c s) idx = Some c.
Proof. cbn. unfold solver.upd. now rewrite Z.eqb_refl. Qed.

Lemma pb_swap_run idx p i j ws s :
  m_allocator s idx = Some (Pb p) -> swap_list i j (pb_wlits p) = Some ws ->
  pb_swap idx i j s = Ret tt (with_constraint idx (Pb (pb_with_wlits p ws)) s).
Proof.
  intros H Hs. unfold pb_swap. rewrite (bind_eq _ _ _ _ _ (to_pb_run idx p s H)).
  rewrite Hs. reflexivity.
Qed.

Lemma set_slack_run idx p x s :
  m_allocator s idx = Some (Pb p) ->
  set_slack idx x s =
  Ret tt (with_constraint idx
            (Pb (mk_pb (pb_hd p) (pb_k p) x (pb_num_watch p) (pb_max_sum p) (pb_wlits p)))
            s).
Proof.
  intros H. unfold set_slack. now rewrite (bind_eq _ _ _ _ _ (to_pb_run idx p s H)).
Qed.

Lemma set_num_watch_run idx p n s :
  m_allocator s idx = Some (Pb p) ->
  set_num_watch idx n s =
  Ret tt (with_constraint idx
            (Pb (mk_pb (pb_hd p) (pb_k p) (pb_slack p) n (pb_max_sum p) (pb_wlits p))) s).
Proof.
  intros H. unfold set_num_watch. now rewrite (bind_eq _ _ _ _ _ (to_pb_run idx p s H)).
Qed.

Lemma firstn_snoc {A} (l : list A) n x :
  nth_error l n = Some x -> firstn (S n) l = firstn n l ++ [x].
Proof.
  revert n. induction l as [|h t IH]; intros [|n] H; cbn in *; try discriminate.
  - now injection H as ->.
  - f_equal. now apply IH.
Qed.

Lemma firstn_agree {A} (l l' : list A) n :
  (forall m, (m < n)%nat -> nth_error l' m = nth_error l m) ->
  firstn n l' = firstn n l.
Proof.
  intros H. apply nth_error_ext. intros m. rewrite !nth_error_firstn.
  destruct (Nat.ltb_spec m n); [now apply H | reflexivity].
Qed.

Lemma total_weight_app ws1 ws2 :
  total_weight (ws1 ++ ws2) = total_weight ws1 + total_weight ws2.
Proof. unfold total_weight. induction ws1 as [|w ws1 IH]; cbn [app fold_right]; lia. Qed.

Lemma total_weight_perm ws ws' : Permutation ws ws' -> total_weight ws = total_weight ws'.
Proof.
  unfold total_weight. induction 1; cbn [fold_right]; lia.
Qed.

Lemma weight_true_perm rho ws ws' :
  Permutation ws ws' -> weight_true rho ws = weight_true rho ws'.
Proof.
  unfold weight_true. induction 1; cbn [fold_right]; lia.
Qed.

Lemma weight_true_le_total rho ws :
  Forall (fun wl : wliteral => 0 <= fst wl) ws -> weight_true rho ws <= total_weight ws.
Proof.
  unfold weight_true, total_weight.
  induction 1 as [|wl ws Hw _ IH]; cbn [fold_right]; [lia|].
  destruct (lit_holds rho (snd wl)); lia.
Qed.

Lemma weight_true_none rho ws :
  (forall wl, In wl ws -> lit_holds rho (snd wl) = false) -> weight_true rho ws = 0.
Proof.
  unfold weight_true. induction ws as [|wl ws IH]; intros H; cbn [fold_right]; [reflexivity|].
  rewrite (H wl (or_introl eq_refl)), IH; [reflexivity|].
  intros x Hx. apply H. now right.
Qed.

(** When the terms that hold carry the whole weight and the weights are
    positive, every literal holds. *)
Lemma weight_true_all rho ws :
  Forall (fun wl : wliteral => 0 < fst wl) ws ->
  total_weight ws <= weight_true rho ws ->
  forall wl, In wl ws -> lit_holds rho (snd wl) = true.
Proof.
  induction 1 as [|w ws Hw Hws IH]; intros Hle wl Hin; [destruct Hin|].
  assert (Hnn : Forall (fun wl : wliteral => 0 <= fst wl) ws).
  { eapply Forall_impl; [|exact Hws]. cbn. intros; lia. }
  pose proof (weight_true_le_total rho ws Hnn) as Hb.
  unfold weight_true, total_weight in *. cbn [fold_right] in Hle.
  destruct (lit_holds rho (snd w)) eqn:Hh; [|lia].
  destruct Hin as [<-|Hin]; [exact Hh|]. apply IH; [lia | exact Hin].
Qed.

Lemma Forall_perm {A} (P : A -> Prop) l l' : Permutation l l' -> Forall P l -> Forall P l'.
Proof.
  intros Hp Hf. apply Forall_forall. intros x Hx.
  rewrite Forall_forall in Hf. apply Hf. exact (Permutation_in x (Permutation_sym Hp) Hx).
Qed.

Lemma Forall_firstn {A} (P : A -> Prop) n l : Forall P l -> Forall P (firstn n l).
Proof.
  intros Hf. apply Forall_forall. intros x Hx. rewrite Forall_forall in Hf.
  apply Hf. rewrite <- (firstn_skipn n l). apply in_or_app. now left.
Qed.

Lemma total_weight_firstn_le n ws :
  Forall (fun wl : wliteral => 0 <= fst wl) ws ->
  0 <= total_weight (firstn n ws) <= total_weight ws.
Proof.
  intros Hw. rewrite <- (firstn_skipn n ws) at 3. rewrite total_weight_app.
  pose proof (total_weight_nonneg (firstn n ws) (Forall_firstn _ n ws Hw)).
  assert (Forall (fun wl : wliteral => 0 <= fst wl) (skipn n ws)).
  { apply Forall_forall. intros x Hx. rewrite Forall_forall in Hw. apply Hw.
    rewrite <- (firstn_skipn n ws). apply in_or_app. now right. }
  pose proof (total_weight_nonneg (skipn n ws) H0). lia.
Qed.

Section PbInitWatch.
Variable rho : bool_var -> bool.
Variable idx : Z.

(** The loop [for (i = a; i < a + n; ++i) assign(p, p[i].second)] over
    literals that hold in [rho]. *)
Lemma pb_assign_prefix_run p n : forall a s,
  m_allocator s idx = Some (Pb p) -> extends rho s ->
  (forall i wl, (a <= i < a + n)%nat -> nth_error (pb_wlits p) i = Some wl ->
                lit_holds rho (snd wl) = true) ->
  (a + n <= length (pb_wlits p))%nat ->
  exists s',
    for_each (seq a n) (fun i => wl <- pb_at idx i ;; assign idx (snd wl)) s = Ret tt s' /\
    extends rho s' /\ m_allocator s' = m_allocator s /\
    (forall x, value s x = l_true -> value s' x = l_true) /\
    (inconsistent s = false ->
     inconsistent s' = false /\
     forall i wl, (a <= i < a + n)%nat -> nth_error (pb_wlits p) i = Some wl ->
                  value s' (snd wl) = l_true).
Proof.
  induction n as [|n IH]; intros a s Ha He Hrho Hlen; cbn [seq for_each].
  - exists s. repeat split; auto. intros; lia.
  - destruct (nth_error (pb_wlits p) a) as [wl|] eqn:Hn;
      [|apply nth_error_None in Hn; lia].
    destruct (assign_keeps_model rho idx (snd wl) s He)
      as (s1 & Hr1 & He1 & Ha1 & Hm1 & _ & Hi1).
    { apply (Hrho a wl); [lia | exact Hn]. }
    assert (Hstep : (wl <- pb_at idx a ;; assign idx (snd wl)) s = Ret tt s1).
    { rewrite (bind_eq _ _ _ _ _ (pb_at_run idx p a wl s Ha Hn)). exact Hr1. }
    rewrite (bind_eq _ _ _ _ _ Hstep).
    destruct (IH (S a) s1) as (s' & Hr & He' & Ha' & Hm' & Hi').
    + now rewrite Ha1.
    + exact He1.
    + intros i x Hi. apply Hrho. lia.
    + lia.
    + exists s'. split; [exact Hr|]. split; [exact He'|].
      split; [now rewrite Ha', Ha1|]. split; [auto|].
      intros Hinc. destruct (Hi1 Hinc) as (Hinc1 & Hl1).
      destruct (Hi' Hinc1) as (Hinc' & Hall). split; [exact Hinc'|].
      intros i x Hi Hx. destruct (Nat.eq_dec i a) as [->|Hne].
      * rewrite Hn in Hx. injection Hx as <-. now apply Hm'.
      * apply (Hall i x); [lia | exact Hx].
Qed.

Lemma pb_watch_loop_run (f : literal -> Z -> M unit) p :
  (forall l s, exists s', f l idx s = Ret tt s' /\
                          m_allocator s' = m_allocator s /\ same_assignment s s') ->
  forall n a s,
    m_allocator s idx = Some (Pb p) -> (a + n <= length (pb_wlits p))%nat ->
    exists s',
      for_each (seq a n) (fun i => wl <- pb_at idx i ;; f (snd wl) idx) s = Ret tt s' /\
      m_allocator s' = m_allocator s /\ same_assignment s s'.
Proof.
  intros Hf. induction n as [|n IH]; intros a s Ha Hlen; cbn [seq for_each].
  - exists s. repeat split; reflexivity.
  - destruct (nth_error (pb_wlits p) a) as [wl|] eqn:Hn;
      [|apply nth_error_None in Hn; lia].
    destruct (Hf (snd wl) s) as (s1 & Hr1 & Ha1 & Hs1).
    assert (Hstep : (wl <- pb_at idx a ;; f (snd wl) idx) s = Ret tt s1).
    { rewrite (bind_eq _ _ _ _ _ (pb_at_run idx p a wl s Ha Hn)). exact Hr1. }
    rewrite (bind_eq _ _ _ _ _ Hstep).
    destruct (IH (S a) s1) as (s' & Hr & Ha' & Hs'); [now rewrite Ha1 | lia |].
    exists s'. split; [exact Hr|]. split; [now rewrite Ha', Ha1|].
    destruct Hs1 as [H1 H2], Hs' as [H3 H4]. split; congruence.
Qed.

(** The loop state of [init_watch(pb&)] before position [i]: the terms
    before [pi_j] are not false and those from [pi_j] to [i] are false;
    [pi_slack] is the weight of the first [pi_num_watch] terms and
    [pi_slack1] that of the others before [pi_j], which are there only when
    [pi_slack] exceeds the bound. *)
Definition pb_init_ok (s : ba_solver) (bound : Z) (ws : list wliteral) (i : nat)
  (st : pb_init) : Prop :=
  (pi_j st <= i)%nat /\ (pi_num_watch st <= pi_j st)%nat /\
  (forall m wl, (pi_j st <= m < i)%nat -> nth_error ws m = Some wl ->
                value s (snd wl) = l_false) /\
  pi_slack st = total_weight (firstn (pi_num_watch st) ws) /\
  pi_slack st + pi_slack1 st = total_weight (firstn (pi_j st) ws) /\
  (pi_slack st <= bound -> pi_num_watch st = pi_j st).

Lemma init_watch_pb_partition_run bound n : forall i st s p,
  m_allocator s idx = Some (Pb p) ->
  Forall (fun wl : wliteral => 0 <= fst wl) (pb_wlits p) ->
  total_weight (pb_wlits p) <= UINT_MAX ->
  (i + n = length (pb_wlits p))%nat ->
  pb_init_ok s bound (pb_wlits p) i st ->
  exists st' s' p',
    init_watch_pb_partition idx bound (seq i n) st s = Ret st' s' /\
    m_solver s' = m_solver s /\
    m_allocator s' idx = Some (Pb p') /\
    pb_hd p' = pb_hd p /\ pb_k p' = pb_k p /\
    Permutation (pb_wlits p) (pb_wlits p') /\
    pb_init_ok s bound (pb_wlits p') (length (pb_wlits p')) st'.
Proof.
  induction n as [|n IH]; intros i st s p Ha Hw Hn Hlen Hok;
    cbn [seq init_watch_pb_partition].
  - exists st, s, p. split; [reflexivity|]. split; [reflexivity|].
    split; [exact Ha|]. split; [reflexivity|]. split; [reflexivity|].
    split; [reflexivity|].
    rewrite Nat.add_0_r in Hlen. now rewrite <- Hlen.
  - destruct Hok as (Hj & Hnw & Hf & Hs & Hs1 & Hb).
    destruct (nth_error (pb_wlits p) i) as [wl|] eqn:Hi;
      [|apply nth_error_None in Hi; lia].
    rewrite (bind_eq _ _ _ _ _ (pb_at_run idx p i wl s Ha Hi)).
    erewrite bind_eq by reflexivity.
    destruct (lbool_eqb_spec (value s (snd wl)) l_false) as [Hfl|Hnf]; cbn [negb].
    { apply IH; auto; [lia|]. repeat split; auto; try lia.
      intros m x Hm Hx. destruct (Nat.eq_dec m i) as [->|Hne]; [congruence|].
      apply (Hf m x); [lia | exact Hx]. }
    cbv zeta.
    (* the term is moved to position [pi_j] *)
    assert (Hswap : exists s1 p1,
              when (negb (Nat.eqb (pi_j st) i)) (pb_swap idx i (pi_j st)) s = Ret tt s1 /\
              m_solver s1 = m_solver s /\
              m_allocator s1 idx = Some (Pb p1) /\
              pb_hd p1 = pb_hd p /\ pb_k p1 = pb_k p /\
              Permutation (pb_wlits p) (pb_wlits p1) /\
              nth_error (pb_wlits p1) (pi_j st) = Some wl /\
              (forall m, (m < pi_j st)%nat ->
                         nth_error (pb_wlits p1) m = nth_error (pb_wlits p) m) /\
              (forall m x, (S (pi_j st) <= m < S i)%nat ->
                           nth_error (pb_wlits p1) m = Some x ->
                           value s (snd x) = l_false)).
    { destruct (Nat.eqb_spec (pi_j st) i) as [Heq|Hne]; cbn [negb when].
      - exists s, p. split; [reflexivity|]. split; [reflexivity|].
        split; [exact Ha|]. split; [reflexivity|]. split; [reflexivity|].
        split; [reflexivity|]. split; [now rewrite Heq|].
        split; [reflexivity|]. intros m x Hm. lia.
      - destruct (swap_list_spec i (pi_j st) (pb_wlits p)) as (ws1 & Hsw & Hl & Hnth);
          [lia | lia |].
        rewrite (pb_swap_run idx p i (pi_j st) ws1 s Ha Hsw).
        eexists _, (pb_with_wlits p ws1). split; [reflexivity|].
        split; [reflexivity|]. split; [apply with_constraint_at|].
        split; [reflexivity|]. split; [reflexivity|].
        split; [exact (swap_list_perm _ _ _ _ Hsw)|]. cbn [pb_with_wlits pb_wlits].
        split; [|split].
        + rewrite Hnth, Nat.eqb_refl. exact Hi.
        + intros m Hm. rewrite Hnth.
          destruct (Nat.eqb_spec m (pi_j st)); [lia|].
          destruct (Nat.eqb_spec m i); [lia | reflexivity].
        + intros m x Hm Hx. rewrite Hnth in Hx.
          destruct (Nat.eqb_spec m (pi_j st)); [lia|].
          destruct (Nat.eqb_spec m i) as [->|Hmi].
          * apply (Hf (pi_j st) x); [lia | exact Hx].
          * apply (Hf m x); [lia | exact Hx]. }
    destruct Hswap as (s1 & p1 & Hr1 & Hsol1 & Ha1 & Hhd1 & Hk1 & Hperm1 & Hj1 & Hlow & Hmid).
    rewrite (bind_eq _ _ _ _ _ Hr1).
    rewrite (bind_eq _ _ _ _ _ (pb_at_run idx p1 (pi_j st) wl s1 Ha1 Hj1)).
    assert (Hw1 : Forall (fun wl : wliteral => 0 <= fst wl) (pb_wlits p1))
      by exact (Forall_perm _ _ _ Hperm1 Hw).
    assert (Hn1 : total_weight (pb_wlits p1) <= UINT_MAX)
      by (now rewrite <- (total_weight_perm _ _ Hperm1)).
    assert (Hlen1 : length (pb_wlits p1) = length (pb_wlits p))
      by (symmetry; exact (Permutation_length Hperm1)).
    assert (Hfj : firstn (pi_j st) (pb_wlits p1) = firstn (pi_j st) (pb_wlits p))
      by (apply firstn_agree; exact Hlow).
    assert (Hfn : firstn (pi_num_watch st) (pb_wlits p1) =
                  firstn (pi_num_watch st) (pb_wlits p))
      by (apply firstn_agree; intros m Hm; apply Hlow; lia).
    pose proof (firstn_snoc (pb_wlits p1) (pi_j st) wl Hj1) as Hsn.
    pose proof (total_weight_firstn_le (S (pi_j st)) (pb_wlits p1) Hw1) as Hbnd.
    rewrite Hsn, total_weight_app, Hfj in Hbnd.
    change (total_weight [wl]) with (fst wl + 0) in Hbnd.
    assert (Hwl : 0 <= fst wl).
    { rewrite Forall_forall in Hw. apply Hw. exact (nth_error_In _ _ Hi). }
    pose proof (total_weight_firstn_le (pi_num_watch st) (pb_wlits p) Hw) as Hbs.
    pose proof (total_weight_firstn_le (pi_num_watch st) (firstn (pi_j st) (pb_wlits p))
                  (Forall_firstn _ _ _ Hw)) as Hbs1.
    rewrite firstn_firstn, (Nat.min_l _ _ Hnw) in Hbs1.
    assert (Hvalue : forall x, value s1 x = value s x)
      by (intros x; unfold value; now rewrite Hsol1).
    assert (Hnext : forall st1,
              pb_init_ok s bound (pb_wlits p1) (S i) st1 ->
              exists st' s' p',
                init_watch_pb_partition idx bound (seq (S i) n) st1 s1 = Ret st' s' /\
                m_solver s' = m_solver s /\
                m_allocator s' idx = Some (Pb p') /\
                pb_hd p' = pb_hd p /\ pb_k p' = pb_k p /\
                Permutation (pb_wlits p) (pb_wlits p') /\
                pb_init_ok s bound (pb_wlits p') (length (pb_wlits p')) st').
    { intros st1 (H1 & H2 & H3 & H4 & H5 & H6).
      destruct (IH (S i) st1 s1 p1 Ha1 Hw1 Hn1 ltac:(lia)) as
          (st' & s' & p' & Hr & Hsol & Ha' & Hhd & Hk & Hperm & Hok').
      { repeat split; auto. intros m x Hm Hx. rewrite Hvalue. now apply (H3 m x). }
      exists st', s', p'. split; [exact Hr|]. split; [congruence|].
      split; [exact Ha'|]. split; [congruence|]. split; [congruence|].
      split; [exact (Permutation_trans Hperm1 Hperm)|].
      destruct Hok' as (K1 & K2 & K3 & K4 & K5 & K6).
      repeat split; auto. intros m x Hm Hx. rewrite <- Hvalue. now apply (K3 m x). }
    destruct (Z.leb_spec (pi_slack st) bound) as [Hle|Hgt].
    + apply Hnext. pose proof (Hb Hle) as Hnj.
      unfold pb_init_ok. cbn [pi_j pi_slack pi_slack1 pi_num_watch].
      rewrite u32_id by (unfold is_u32; rewrite Hnj in *; lia).
      split; [lia|]. split; [lia|]. split; [exact Hmid|].
      split; [rewrite Hnj, Hsn, total_weight_app, Hfj;
              change (total_weight [wl]) with (fst wl + 0); rewrite <- Hnj at 1; lia|].
      split; [rewrite Hsn, total_weight_app, Hfj;
              change (total_weight [wl]) with (fst wl + 0); lia|].
      intros _. now rewrite Hnj.
    + apply Hnext. unfold pb_init_ok. cbn [pi_j pi_slack pi_slack1 pi_num_watch].
      rewrite u32_id by (unfold is_u32; lia).
      split; [lia|]. split; [lia|]. split; [exact Hmid|].
      split; [now rewrite Hfn|].
      split; [rewrite Hsn, total_weight_app, Hfj;
              change (total_weight [wl]) with (fst wl + 0); lia|].
      intros Hc. lia.
Qed.

End PbInitWatch.

(** The constraint [init_watch(p, is_true)] works on: [p], negated when
    its reifier has the sign [is_true]. *)
Definition oriented_pb (p : pb) (is_true : bool) : pb :=
  if negb (is_null (c_lit (pb_hd p))) && Bool.eqb (sign (c_lit (pb_hd p))) is_true
  then pb_negate p else p.

Lemma weight_true_tail_false rho ws j :
  Forall (fun wl : wliteral => 0 <= fst wl) ws ->
  (forall m wl, (j <= m)%nat -> nth_error ws m = Some wl ->
                lit_holds rho (snd wl) = false) ->
  weight_true rho ws = weight_true rho (firstn j ws) /\
  weight_true rho ws <= total_weight (firstn j ws).
Proof.
  intros Hw H. rewrite <- (firstn_skipn j ws) at 1 3. rewrite weight_true_app.
  rewrite (weight_true_none rho (skipn j ws)).
  - pose proof (weight_true_le_total rho (firstn j ws) (Forall_firstn _ j ws Hw)). lia.
  - intros wl Hl. apply In_nth_error in Hl. destruct Hl as (n & Hn).
    rewrite nth_error_skipn in Hn. apply (H (j + n)%nat wl); [lia | exact Hn].
Qed.

(** X22: initialising the watches of a pb constraint is sound.  For a
    total assignment [rho] that agrees with the core and satisfies the
    constraint [init_watch(p, is_true)] works on, whose weights are
    positive with a sum that fits an unsigned, the call returns [true]:
    no conflict is raised, [rho] still agrees with the core afterwards,
    the constraint keeps its threshold and its terms up to their order,
    and it is left with the watch invariant: [slack] is the weight of the
    [num_watch] watched terms and is at least [k]. *)
Theorem init_watch_pb_keeps_models (rho : bool_var -> bool) (idx : Z) (is_true : bool)
  (p : pb) (s : ba_solver) :
  m_allocator s idx = Some (Pb p) -> (pb_num_watch p <= pb_size p)%nat ->
  Forall (fun wl : wliteral => 0 < fst wl) (pb_wlits (oriented_pb p is_true)) ->
  total_weight (pb_wlits (oriented_pb p is_true)) <= UINT_MAX ->
  extends rho s -> sat_pb rho (oriented_pb p is_true) ->
  exists s' p',
    init_watch_pb idx is_true s = Ret true s' /\
    m_allocator s' idx = Some (Pb p') /\
    pb_k p' = pb_k (oriented_pb p is_true) /\
    Permutation (pb_wlits (oriented_pb p is_true)) (pb_wlits p') /\
    (pb_num_watch p' <= pb_size p')%nat /\
    pb_slack p' = total_weight (firstn (pb_num_watch p') (pb_wlits p')) /\
    pb_k p' <= pb_slack p' /\
    extends rho s' /\
    (inconsistent s = false -> inconsistent s' = false).
Proof.
  intros Ha Hnw Hpos Hsum He Hsat. unfold init_watch_pb.
  (* the watches are cleared *)
  set (p0 := mk_pb (pb_hd p) (pb_k p) (pb_slack p) 0 (pb_max_sum p) (pb_wlits p)).
  assert (Hclear : exists s1, clear_watch_pb idx s = Ret tt s1 /\
                              m_allocator s1 idx = Some (Pb p0) /\ same_assignment s s1).
  { unfold clear_watch_pb. rewrite (bind_eq _ _ _ _ _ (to_pb_run idx p s Ha)).
    unfold range. rewrite Nat.sub_0_r.
    destruct (pb_watch_loop_run idx unwatch_literal p (unwatch_literal_quiet idx)
                (pb_num_watch p) 0 s Ha Hnw) as (s1 & Hr1 & Ha1 & Hs1).
    rewrite (bind_eq _ _ _ _ _ Hr1).
    assert (Ha1' : m_allocator s1 idx = Some (Pb p)) by (now rewrite Ha1).
    rewrite (set_num_watch_run idx p 0 s1 Ha1').
    eexists. split; [reflexivity|]. split; [apply with_constraint_at|].
    destruct Hs1 as [H1 H2]. split; [exact H1 | exact H2]. }
  destruct Hclear as (s1 & Hr1 & Ha1 & Hs1).
  rewrite (bind_eq _ _ _ _ _ Hr1), (bind_eq _ _ _ _ _ (to_pb_run idx p0 s1 Ha1)).
  (* the constraint is oriented *)
  set (q := oriented_pb p is_true) in *.
  assert (Horient : exists s2 q0,
            when (negb (is_null (c_lit (pb_hd p0))) &&
                  Bool.eqb (sign (c_lit (pb_hd p0))) is_true)
                 (put_constraint idx (Pb (pb_negate p0))) s1 = Ret tt s2 /\
            m_solver s2 = m_solver s1 /\ m_allocator s2 idx = Some (Pb q0) /\
            pb_k q0 = pb_k q /\ pb_wlits q0 = pb_wlits q).
  { unfold q, oriented_pb. cbn [p0 pb_hd].
    destruct (negb (is_null (c_lit (pb_hd p))) &&
              Bool.eqb (sign (c_lit (pb_hd p))) is_true); cbn [when].
    - eexists _, (pb_negate p0). split; [reflexivity|]. split; [reflexivity|].
      split; [apply with_constraint_at|]. split; reflexivity.
    - exists s1, p0. repeat split; auto. }
  destruct Horient as (s2 & q0 & Hr2 & Hsol2 & Ha2 & Hk2 & Hws2).
  rewrite (bind_eq _ _ _ _ _ Hr2), (bind_eq _ _ _ _ _ (to_pb_run idx q0 s2 Ha2)).
  cbv zeta.
  assert (Hs2 : same_assignment s s2).
  { destruct Hs1 as [H1 H2]. unfold same_assignment, inconsistent in *.
    rewrite Hsol2. now split. }
  pose proof (same_assignment_extends rho s s2 Hs2 He) as He2.
  assert (Hnn : Forall (fun wl : wliteral => 0 <= fst wl) (pb_wlits q)).
  { eapply Forall_impl; [|exact Hpos]. cbn. intros; lia. }
  (* the non-false terms are moved to the head *)
  destruct (init_watch_pb_partition_run idx (pb_k q0) (length (pb_wlits q0)) 0
              (mk_pb_init 0 0 0 0) s2 q0 Ha2)
    as (st & s3 & p3 & Hr3 & Hsol3 & Ha3 & _ & Hk3 & Hperm & Hok);
    [now rewrite Hws2 | now rewrite Hws2 | reflexivity | |].
  { unfold pb_init_ok. cbn [pi_j pi_slack pi_slack1 pi_num_watch firstn].
    repeat split; auto; try lia. }
  unfold pb_size, range. rewrite !Nat.sub_0_r, (bind_eq _ _ _ _ _ Hr3).
  rewrite ?Nat.sub_0_r.
  rewrite Hws2 in Hperm. rewrite Hk2 in *.
  destruct Hok as (Hj & Hnwj & Hf & Hsl & Hsl1 & Hb).
  assert (Hs3 : same_assignment s s3).
  { destruct Hs2 as [H1 H2]. unfold same_assignment, inconsistent in *.
    rewrite Hsol3. now split. }
  pose proof (same_assignment_extends rho s s3 Hs3 He) as He3.
  assert (Hnn3 : Forall (fun wl : wliteral => 0 <= fst wl) (pb_wlits p3))
    by exact (Forall_perm _ _ _ Hperm Hnn).
  assert (Hpos3 : Forall (fun wl : wliteral => 0 < fst wl) (pb_wlits p3))
    by exact (Forall_perm _ _ _ Hperm Hpos).
  assert (Hf' : forall m wl, (pi_j st <= m)%nat -> nth_error (pb_wlits p3) m = Some wl ->
                             lit_holds rho (snd wl) = false).
  { intros m wl Hm Hl. apply (extends_false rho s2 _ He2). apply (Hf m wl); [|exact Hl].
    split; [exact Hm|]. apply nth_error_Some. congruence. }
  unfold sat_pb in Hsat. rewrite (weight_true_perm rho _ _ Hperm) in Hsat.
  destruct (weight_true_tail_false rho (pb_wlits p3) (pi_j st) Hnn3 Hf') as (Hwt & Hwle).
  pose proof (total_weight_firstn_le (pi_num_watch st) (firstn (pi_j st) (pb_wlits p3))
                (Forall_firstn _ _ _ Hnn3)) as Hmono.
  rewrite firstn_firstn, (Nat.min_l _ _ Hnwj) in Hmono.
  destruct (Z.ltb_spec (pi_slack st) (pb_k q)) as [Hlt|Hge].
  { (* a conflict would contradict the model *)
    exfalso. rewrite (Hb ltac:(lia)) in Hsl. lia. }
  (* the watched prefix *)
  destruct (pb_watch_loop_run idx watch_literal p3 (watch_literal_quiet idx)
              (pi_num_watch st) 0 s3 Ha3 ltac:(lia)) as (s4 & Hr4 & Ha4 & Hs4).
  rewrite (bind_eq _ _ _ _ _ Hr4).
  assert (Ha4' : m_allocator s4 idx = Some (Pb p3)) by (now rewrite Ha4).
  rewrite (bind_eq _ _ _ _ _ (set_slack_run idx p3 (pi_slack st) s4 Ha4')).
  erewrite bind_eq by (apply set_num_watch_run; apply with_constraint_at).
  cbn [pb_hd pb_k pb_slack pb_max_sum pb_wlits].
  set (p4 := mk_pb (pb_hd p3) (pb_k p3) (pi_slack st) (pi_num_watch st) (pb_max_sum p3)
                   (pb_wlits p3)).
  set (s6 := with_constraint idx (Pb p4) _).
  assert (Ha6 : m_allocator s6 idx = Some (Pb p4)) by apply with_constraint_at.
  assert (Hs6 : same_assignment s s6).
  { destruct Hs3 as [H1 H2], Hs4 as [H3 H4]. split.
    - cbn. congruence.
    - unfold inconsistent in *. cbn. congruence. }
  pose proof (same_assignment_extends rho s s6 Hs6 He) as He6.
  assert (Hfinal : forall s',
            extends rho s' -> m_allocator s' idx = Some (Pb p4) ->
            (inconsistent s = false -> inconsistent s' = false) ->
            exists s'' p',
              Ret true s' = Ret true s'' /\
              m_allocator s'' idx = Some (Pb p') /\
              pb_k p' = pb_k q /\
              Permutation (pb_wlits q) (pb_wlits p') /\
              (pb_num_watch p' <= pb_size p')%nat /\
              pb_slack p' = total_weight (firstn (pb_num_watch p') (pb_wlits p')) /\
              pb_k p' <= pb_slack p' /\
              extends rho s'' /\
              (inconsistent s = false -> inconsistent s'' = false)).
  { intros s' He' Ha' Hi'. exists s', p4. split; [reflexivity|]. split; [exact Ha'|].
    unfold p4, pb_size. cbn [pb_k pb_wlits pb_num_watch pb_slack].
    split; [exact Hk3|]. split; [exact Hperm|]. split; [lia|].
    split; [exact Hsl|]. split; [lia|]. split; [exact He' | exact Hi']. }
  destruct (Z.eqb_spec (u32 (pi_slack st + pi_slack1 st)) (pb_k q)) as [Htight|_];
    cbn [when].
  - (* the slack is tight: every term that is not false is needed *)
    pose proof (total_weight_firstn_le (pi_j st) (pb_wlits p3) Hnn3) as Hjb.
    rewrite <- (total_weight_perm _ _ Hperm) in Hjb.
    rewrite u32_id in Htight by (unfold is_u32; lia).
    destruct (pb_assign_prefix_run rho idx p4 (pi_j st) 0 s6 Ha6 He6)
      as (s7 & Hr7 & He7 & Ha7 & _ & Hi7).
    { intros i wl Hi Hl. unfold p4 in Hl. cbn [pb_wlits] in Hl.
      apply (weight_true_all rho (firstn (pi_j st) (pb_wlits p3))).
      - now apply Forall_firstn.
      - lia.
      - apply (nth_error_In _ i). rewrite nth_error_firstn.
        destruct (Nat.ltb_spec i (pi_j st)); [exact Hl | lia]. }
    { unfold p4. cbn [pb_wlits]. lia. }
    rewrite (bind_eq _ _ _ _ _ Hr7).
    apply Hfinal; [exact He7 | now rewrite Ha7 |].
    intros Hinc. destruct Hs6 as [_ Hi6]. rewrite <- Hi6 in Hinc. apply (Hi7 Hinc).
  - erewrite bind_eq by reflexivity.
    apply Hfinal; [exact He6 | exact Ha6 |].
    intros Hinc. destruct Hs6 as [_ Hi6]. congruence.
Qed.

(** The pb [2 x1 + x2 + x3 >= 4] at address [1], nothing assigned. *)
Definition pb_tight : pb :=
  mk_pb (new_header 0 null_literal) 4 0 0 4 [(2, x_ 1); (1, x_ 2); (1, x_ 3)].

Definition pb_tight_state : ba_solver :=
  set_m_allocator (solver.upd (fun _ => None) 1 (Some (Pb pb_tight))) empty_solver.

Lemma init_watch_pb_keeps_models_witness :
  exists s',
    init_watch_pb 1 true pb_tight_state = Ret true s' /\
    extends (fun _ => true) s' /\
    value s' (x_ 1) = l_true /\ value s' (x_ 2) = l_true /\ value s' (x_ 3) = l_true.
Proof.
  destruct (init_watch_pb_keeps_models (fun _ => true) 1 true pb_tight pb_tight_state)
    as (s' & p' & Hr & _ & _ & _ & _ & _ & _ & He & _).
  - reflexivity.
  - vm_compute. lia.
  - repeat constructor.
  - vm_compute. discriminate.
  - intros l Hl. unfold value, solver.value in Hl. cbn in Hl.
    destruct (sign l); discriminate Hl.
  - unfold sat_pb. vm_compute. discriminate.
  - assert (Hc : match init_watch_pb 1 true pb_tight_state with
                 | Ret _ s' =>
                     value s' (x_ 1) = l_true /\ value s' (x_ 2) = l_true /\
                     value s' (x_ 3) = l_true
                 | _ => False
                 end) by (vm_compute; repeat split).
    rewrite Hr in Hc. exists s'. split; [exact Hr|]. split; [exact He | exact Hc].
Defined.

(** ** Propagation by a parity constraint *)

Lemma to_xor_run idx x s : m_allocator s idx = Some (Xor x) -> to_xor idx s = Ret x s.
Proof.
  intros H. unfold to_xor, index2constraint. cbv [bind gets]. rewrite H. reflexivity.
Qed.

Lemma xor_at_run idx x i l s :
  m_allocator s idx = Some (Xor x) -> nth_error (xor_lits x) i = Some l ->
  xor_at idx i s = Ret l s.
Proof.
  intros H Hn. unfold xor_at. rewrite (bind_eq _ _ _ _ _ (to_xor_run idx x s H)).
  unfold at_. rewrite Nat2Z.id, Hn.
  assert (Hi : (i < length (xor_lits x))%nat) by (apply nth_error_Some; congruence).
  destruct (Z.leb_spec 0 (Z.of_nat i)); [|lia].
  destruct (Z.ltb_spec (Z.of_nat i) (Z.of_nat (length (xor_lits x)))); [|lia].
  reflexivity.
Qed.

Lemma xor_swap_run idx x i j ls s :
  m_allocator s idx = Some (Xor x) -> swap_list i j (xor_lits x) = Some ls ->
  xor_swap idx i j s = Ret tt (with_constraint idx (Xor (mk_xor (xor_hd x) ls)) s).
Proof.
  intros H Hs. unfold xor_swap. rewrite (bind_eq _ _ _ _ _ (to_xor_run idx x s H)).
  rewrite Hs. reflexivity.
Qed.

Lemma parity_true_perm rho ls ls' :
  Permutation ls ls' -> parity_true rho ls = parity_true rho ls'.
Proof.
  unfold parity_true. induction 1; cbn [fold_right]; try congruence.
  destruct (lit_holds rho x), (lit_holds rho y),
    (fold_right (fun l acc => xorb (lit_holds rho l) acc) false l); reflexivity.
Qed.

Lemma parity_true_app rho l1 l2 :
  parity_true rho (l1 ++ l2) = xorb (parity_true rho l1) (parity_true rho l2).
Proof.
  unfold parity_true. induction l1 as [|l l1 IH]; cbn [app fold_right].
  - now destruct (fold_right _ false l2).
  - rewrite IH. now rewrite xorb_assoc.
Qed.

(** A literal that is assigned has in [rho] the value it is assigned. *)
Lemma extends_assigned rho s l :
  extends rho s -> value s l <> l_undef ->
  lbool_eqb (value s l) l_true = lit_holds rho l.
Proof.
  intros He Hv. destruct (value s l) eqn:Hl; [|congruence|].
  - now rewrite (extends_false rho s l He Hl).
  - now rewrite (He l Hl).
Qed.

(** The loop of [parity] over assigned literals computes their parity in
    [rho]. *)
Lemma parity_loop rho s ls : forall odd,
  extends rho s -> (forall l, In l ls -> value s l <> l_undef) ->
  fold_left (fun odd l => if lbool_eqb (value s l) l_true then negb odd else odd) ls odd =
  xorb odd (parity_true rho ls).
Proof.
  induction ls as [|l ls IH]; intros odd He Ha; cbn [fold_left].
  - unfold parity_true. cbn. now rewrite xorb_false_r.
  - rewrite IH by (auto; intros x Hx; apply Ha; now right).
    rewrite (extends_assigned rho s l He (Ha l (or_introl eq_refl))).
    change (parity_true rho (l :: ls)) with (xorb (lit_holds rho l) (parity_true rho ls)).
    destruct (lit_holds rho l), odd, (parity_true rho ls); reflexivity.
Qed.

Lemma parity_run rho idx x offset s :
  m_allocator s idx = Some (Xor x) -> extends rho s ->
  (forall m l, (offset <= m)%nat -> nth_error (xor_lits x) m = Some l ->
               value s l <> l_undef) ->
  parity idx offset s = Ret (parity_true rho (skipn offset (xor_lits x))) s.
Proof.
  intros Ha He Hv. unfold parity.
  rewrite (bind_eq _ _ _ _ _ (to_xor_run idx x s Ha)).
  cbv [bind gets ret]. rewrite (parity_loop rho s _ false He); [reflexivity|].
  intros l Hl. apply In_nth_error in Hl. destruct Hl as (n & Hn).
  rewrite nth_error_skipn in Hn. apply (Hv (offset + n)%nat l); [lia | exact Hn].
Qed.

Section XorPropagation.
Context {E : externals}.
Variable rho : bool_var -> bool.
Variable idx : Z.

(** The first loop of [init_watch(xor&)]: unassigned literals are moved to
    the head until two are found; with fewer than two, every literal from
    the returned position on is assigned. *)
Lemma init_watch_xor_partition_run n : forall i j s x,
  m_allocator s idx = Some (Xor x) ->
  (i + n = length (xor_lits x))%nat -> (j <= i)%nat -> (j <= 2)%nat ->
  (forall m l, (j <= m < i)%nat -> nth_error (xor_lits x) m = Some l ->
               value s l <> l_undef) ->
  exists j' s' x',
    init_watch_xor_partition idx (seq i n) j s = Ret j' s' /\
    m_solver s' = m_solver s /\
    m_allocator s' idx = Some (Xor x') /\
    xor_hd x' = xor_hd x /\
    Permutation (xor_lits x) (xor_lits x') /\
    (j' <= 2)%nat /\ (j' <= length (xor_lits x'))%nat /\
    ((j' < 2)%nat ->
     forall m l, (j' <= m)%nat -> nth_error (xor_lits x') m = Some l ->
                 value s l <> l_undef).
Proof.
  induction n as [|n IH]; intros i j s x Ha Hlen Hj Hj2 Hf;
    cbn [seq init_watch_xor_partition].
  - exists j, s, x. split; [reflexivity|]. repeat split; auto; try lia.
    intros _ m l Hm Hl. apply (Hf m l); [|exact Hl].
    split; [lia|]. rewrite Nat.add_0_r in Hlen. rewrite Hlen.
    apply nth_error_Some. congruence.
  - destruct (Nat.ltb_spec j 2) as [Hlt|Hge].
    2:{ exists j, s, x. split; [reflexivity|]. repeat split; auto; try lia. }
    destruct (nth_error (xor_lits x) i) as [l|] eqn:Hn;
      [|apply nth_error_None in Hn; lia].
    rewrite (bind_eq _ _ _ _ _ (xor_at_run idx x i l s Ha Hn)).
    erewrite bind_eq by reflexivity.
    destruct (lbool_eqb_spec (value s l) l_undef) as [Hu|Hnu].
    + destruct (swap_list_spec i j (xor_lits x)) as (ls & Hs & Hl & Hnth); [lia | lia |].
      rewrite (bind_eq _ _ _ _ _ (xor_swap_run idx x i j ls s Ha Hs)).
      destruct (IH (S i) (S j) (with_constraint idx (Xor (mk_xor (xor_hd x) ls)) s)
                   (mk_xor (xor_hd x) ls))
        as (j' & s' & x' & Hr & Hsol & Ha' & Hhd & Hperm & Hj' & Hjl & Hf').
      * apply with_constraint_at.
      * cbn [xor_lits]. lia.
      * lia.
      * lia.
      * cbn [xor_lits]. intros m y Hm Hy. rewrite Hnth in Hy.
        unfold value. cbn [m_solver with_constraint set_m_allocator].
        destruct (Nat.eqb_spec m j); [lia|].
        destruct (Nat.eqb_spec m i) as [->|Hmi].
        -- apply (Hf j y); [lia | exact Hy].
        -- apply (Hf m y); [lia | exact Hy].
      * exists j', s', x'. split; [exact Hr|]. split; [exact Hsol|].
        split; [exact Ha'|]. split; [exact Hhd|].
        split; [exact (Permutation_trans (swap_list_perm _ _ _ _ Hs) Hperm)|].
        split; [exact Hj'|]. split; [exact Hjl | exact Hf'].
    + apply IH; auto; try lia.
      intros m y Hm Hy. destruct (Nat.eq_dec m i) as [->|Hne]; [congruence|].
      apply (Hf m y); [lia | exact Hy].
Qed.

End XorPropagation.

(** The constraint [init_watch(x, is_true)] works on: [x], negated when
    its reifier has the sign [is_true]. *)
Definition oriented_xor {E : externals} (x : xor) (is_true : bool) : xor :=
  if negb (is_null (c_lit (xor_hd x))) && Bool.eqb (sign (c_lit (xor_hd x))) is_true
  then xor_negate x else x.

Lemma parity_true_head rho ls l :
  nth_error ls 0 = Some l ->
  parity_true rho ls = xorb (lit_holds rho l) (parity_true rho (skipn 1 ls)).
Proof. destruct ls as [|h t]; cbn; [discriminate | now intros [= ->]]. Qed.

(** X23: initialising the watches of a parity constraint is sound.  For a
    constraint with at least two literals and a total assignment [rho]
    that agrees with the core and satisfies the constraint
    [init_watch(x, is_true)] works on, the call returns, [rho] still
    agrees with the core afterwards, the literals are only permuted, and a
    core that was not in conflict is not in conflict afterwards. *)
Theorem init_watch_xor_keeps_models {E : externals} (rho : bool_var -> bool) (idx : Z)
  (is_true : bool) (x : xor) (s : ba_solver) :
  m_allocator s idx = Some (Xor x) -> (2 <= xor_size x)%nat ->
  extends rho s -> sat_xor rho (oriented_xor x is_true) ->
  exists r s' x',
    init_watch_xor idx is_true s = Ret r s' /\
    m_allocator s' idx = Some (Xor x') /\
    Permutation (xor_lits (oriented_xor x is_true)) (xor_lits x') /\
    extends rho s' /\
    (inconsistent s = false -> inconsistent s' = false).
Proof.
  intros Ha Hsz He Hsat. unfold xor_size in Hsz. unfold init_watch_xor.
  destruct (nth_error (xor_lits x) 0) as [x0|] eqn:H0;
    [|apply nth_error_None in H0; lia].
  destruct (nth_error (xor_lits x) 1) as [x1|] eqn:H1;
    [|apply nth_error_None in H1; lia].
  (* the watches are cleared *)
  assert (Hclear : exists s1, clear_watch_xor idx s = Ret tt s1 /\
                              m_allocator s1 = m_allocator s /\ same_assignment s s1).
  { unfold clear_watch_xor.
    rewrite (bind_eq _ _ _ _ _ (xor_at_run idx x 0 x0 s Ha H0)).
    erewrite bind_eq by reflexivity.
    erewrite bind_eq by (eapply xor_at_run; [exact Ha | exact H1]).
    erewrite bind_eq by reflexivity. erewrite bind_eq by reflexivity.
    eexists. split; [reflexivity|]. split; [reflexivity | split; reflexivity]. }
  destruct Hclear as (s1 & Hr1 & Ha1 & Hs1).
  rewrite (bind_eq _ _ _ _ _ Hr1).
  assert (Ha1' : m_allocator s1 idx = Some (Xor x)) by (now rewrite Ha1).
  rewrite (bind_eq _ _ _ _ _ (to_xor_run idx x s1 Ha1')).
  (* the constraint is oriented *)
  set (x2 := oriented_xor x is_true) in *.
  assert (Horient : exists s2,
            when (negb (is_null (c_lit (xor_hd x))) &&
                  Bool.eqb (sign (c_lit (xor_hd x))) is_true)
                 (put_constraint idx (Xor (xor_negate x))) s1 = Ret tt s2 /\
            m_solver s2 = m_solver s1 /\ m_allocator s2 idx = Some (Xor x2)).
  { unfold x2, oriented_xor.
    destruct (negb (is_null (c_lit (xor_hd x))) &&
              Bool.eqb (sign (c_lit (xor_hd x))) is_true); cbn [when].
    - eexists. split; [reflexivity|]. split; [reflexivity | apply with_constraint_at].
    - exists s1. repeat split; auto. }
  destruct Horient as (s2 & Hr2 & Hsol2 & Ha2).
  rewrite (bind_eq _ _ _ _ _ Hr2), (bind_eq _ _ _ _ _ (to_xor_run idx x2 s2 Ha2)).
  cbv zeta.
  assert (Hs2 : same_assignment s s2).
  { destruct Hs1 as [X1 X2]. unfold same_assignment, inconsistent in *.
    rewrite Hsol2. now split. }
  (* unassigned literals are moved to the head *)
  destruct (init_watch_xor_partition_run idx (length (xor_lits x2)) 0 0 s2 x2 Ha2)
    as (j & s3 & x3 & Hr3 & Hsol3 & Ha3 & _ & Hperm & Hj2 & Hjl & Hf);
    [lia | lia | lia | intros; lia |].
  unfold xor_size, range. rewrite !Nat.sub_0_r, (bind_eq _ _ _ _ _ Hr3).
  assert (Hs3 : same_assignment s s3).
  { destruct Hs2 as [X1 X2]. unfold same_assignment, inconsistent in *.
    rewrite Hsol3. now split. }
  pose proof (same_assignment_extends rho s s3 Hs3 He) as He3.
  assert (Hv3 : forall l, value s3 l = value s2 l)
    by (intros l; unfold value; now rewrite Hsol3).
  unfold sat_xor in Hsat. rewrite (parity_true_perm rho _ _ Hperm) in Hsat.
  destruct j as [|[|j]].
  - (* every literal is assigned: the parity is that of [rho] *)
    rewrite (bind_eq _ _ _ _ _ (parity_run rho idx x3 0 s3 Ha3 He3
                                  ltac:(intros m l Hm Hl; rewrite Hv3;
                                        apply (Hf ltac:(lia) m l Hm Hl)))).
    cbn [skipn]. rewrite Hsat. cbn [negb when].
    erewrite bind_eq by reflexivity.
    exists false, s3, x3. split; [reflexivity|]. split; [exact Ha3|].
    split; [exact Hperm|]. split; [exact He3|].
    intros Hinc. destruct Hs3 as [_ Hi3]. congruence.
  - (* one literal is unassigned: its value is determined *)
    destruct (nth_error (xor_lits x3) 0) as [y0|] eqn:Hy0;
      [|apply nth_error_None in Hy0; lia].
    rewrite (bind_eq _ _ _ _ _ (parity_run rho idx x3 1 s3 Ha3 He3
                                  ltac:(intros m l Hm Hl; rewrite Hv3;
                                        apply (Hf ltac:(lia) m l Hm Hl)))).
    rewrite (bind_eq _ _ _ _ _ (xor_at_run idx x3 0 y0 s3 Ha3 Hy0)).
    rewrite (parity_true_head rho _ y0 Hy0) in Hsat.
    destruct (assign_keeps_model rho idx
                (if parity_true rho (skipn 1 (xor_lits x3)) then neg y0 else y0) s3 He3)
      as (s4 & Hr4 & He4 & Ha4 & _ & _ & Hi4).
    { destruct (parity_true rho (skipn 1 (xor_lits x3))).
      - rewrite lit_holds_neg. now destruct (lit_holds rho y0).
      - now destruct (lit_holds rho y0). }
    rewrite (bind_eq _ _ _ _ _ Hr4).
    exists false, s4, x3. split; [reflexivity|]. split; [now rewrite Ha4|].
    split; [exact Hperm|]. split; [exact He4|].
    intros Hinc. destruct Hs3 as [_ Hi3]. rewrite <- Hi3 in Hinc. apply (Hi4 Hinc).
  - (* two literals are unassigned: they are watched *)
    assert (j = 0%nat) by lia. subst j.
    destruct (nth_error (xor_lits x3) 0) as [y0|] eqn:Hy0;
      [|apply nth_error_None in Hy0; lia].
    destruct (nth_error (xor_lits x3) 1) as [y1|] eqn:Hy1;
      [|apply nth_error_None in Hy1; lia].
    rewrite (bind_eq _ _ _ _ _ (xor_at_run idx x3 0 y0 s3 Ha3 Hy0)).
    erewrite bind_eq by reflexivity.
    erewrite bind_eq by (eapply xor_at_run; [exact Ha3 | exact Hy1]).
    erewrite bind_eq by reflexivity.
    erewrite bind_eq by (eapply xor_at_run; [exact Ha3 | exact Hy0]).
    erewrite bind_eq by reflexivity.
    erewrite bind_eq by (eapply xor_at_run; [exact Ha3 | exact Hy1]).
    erewrite bind_eq by reflexivity.
    eexists true, _, x3. split; [reflexivity|]. split; [exact Ha3|].
    split; [exact Hperm|]. split.
    + intros l Hl. apply He3. exact Hl.
    + intros Hinc. destruct Hs3 as [_ Hi3]. unfold inconsistent in *. cbn. congruence.
Qed.

(** The parity constraint [x1 + x2 + x3 = 1 (mod 2)]. *)
Definition xor_3 : xor := mk_xor (new_header 2 null_literal) [x_ 1; x_ 2; x_ 3].

(** The constraint at address [1] after the decisions [~x1] and [~x3]. *)
Definition x1_x3_false : ba_solver :=
  set_m_allocator (solver.upd (fun _ => None) 1 (Some (Xor xor_3)))
    (decide (neg (x_ 3)) (decide (neg (x_ 1)) empty_solver)).

Lemma extends_x1_x3_false : extends (fun v => v =? 2) x1_x3_false.
Proof.
  intros [v [|]] Hv; unfold lit_holds; cbn [var sign];
    unfold value, solver.value in Hv; cbn [var sign] in Hv;
    unfold x1_x3_false, decide in Hv; cbn in Hv; unfold solver.upd in Hv;
    destruct (Z.eqb_spec v 3), (Z.eqb_spec v 1); subst; try discriminate Hv;
    try reflexivity.
Qed.

Lemma init_watch_xor_keeps_models_witness :
  exists s',
    @init_watch_xor reference_externals 1 true x1_x3_false = Ret false s' /\
    extends (fun v => v =? 2) s' /\ value s' (x_ 2) = l_true.
Proof.
  destruct (@init_watch_xor_keeps_models reference_externals
              (fun v => v =? 2) 1 true xor_3 x1_x3_false)
    as (r & s' & x' & Hr & _ & _ & He & _).
  - reflexivity.
  - vm_compute. lia.
  - exact extends_x1_x3_false.
  - unfold sat_xor. vm_compute. reflexivity.
  - assert (Hc : match @init_watch_xor reference_externals 1 true x1_x3_false with
                 | Ret r s' => r = false /\ value s' (x_ 2) = l_true
                 | _ => False
                 end) by (vm_compute; split; reflexivity).
    rewrite Hr in Hc. destruct Hc as (-> & Hc).
    exists s'. split; [exact Hr|]. split; [exact He | exact Hc].
Defined.

Lemma value_same_var s l l' :
  var l = var l' -> value s l' <> l_undef -> value s l <> l_undef.
Proof.
  unfold value, solver.value. intros ->.
  destruct (sign l), (sign l'), (solver.m_assignment (m_solver s) (var l'));
    cbn; congruence.
Qed.

(** A state that keeps the true literals of another keeps its assigned
    literals assigned. *)
Lemma assigned_kept s s' l :
  (forall x, value s x = l_true -> value s' x = l_true) ->
  value s l <> l_undef -> value s' l <> l_undef.
Proof.
  intros Hk Hv. destruct (value s l) eqn:Hl; [|congruence|].
  - specialize (Hk (neg l)). rewrite !value_neg, Hl in Hk.
    specialize (Hk eq_refl). destruct (value s' l); cbn in Hk; congruence.
  - rewrite (Hk l Hl). discriminate.
Qed.

(** The search for the watched position of [alit]. *)
Lemma add_assign_xor_find_run idx alit x y0 y1 s :
  m_allocator s idx = Some (Xor x) ->
  nth_error (xor_lits x) 0 = Some y0 -> nth_error (xor_lits x) 1 = Some y1 ->
  var y0 = var alit \/ var y1 = var alit ->
  exists index y,
    add_assign_xor_find idx alit [0; 1; 2]%nat s = Ret index s /\
    (index < 2)%nat /\ nth_error (xor_lits x) index = Some y /\ var y = var alit.
Proof.
  intros Ha H0 H1 Hv. cbn [add_assign_xor_find].
  rewrite (bind_eq _ _ _ _ _ (xor_at_run idx x 0 y0 s Ha H0)).
  destruct (Z.eqb_spec (var y0) (var alit)) as [He0|Hn0].
  - exists 0%nat, y0. split; [reflexivity|]. split; [lia|]. now split.
  - rewrite (bind_eq _ _ _ _ _ (xor_at_run idx x 1 y1 s Ha H1)).
    destruct (Z.eqb_spec (var y1) (var alit)) as [He1|Hn1]; [|tauto].
    exists 1%nat, y1. split; [reflexivity|]. split; [lia|]. now split.
Qed.

(** The search for an unassigned literal to watch instead: either one is
    found and exchanged with the watched position, or every literal from
    position 2 on is assigned and nothing changes. *)
Lemma add_assign_xor_swap_run idx index n : forall i s x,
  m_allocator s idx = Some (Xor x) ->
  (i + n = length (xor_lits x))%nat -> (index < 2)%nat -> (2 <= i)%nat ->
  (forall m l, (2 <= m < i)%nat -> nth_error (xor_lits x) m = Some l ->
               value s l <> l_undef) ->
  exists b s',
    add_assign_xor_swap idx index (seq i n) s = Ret b s' /\
    if b then
      exists x', m_allocator s' idx = Some (Xor x') /\
                 Permutation (xor_lits x) (xor_lits x') /\ same_assignment s s'
    else
      s' = s /\
      forall m l, (2 <= m)%nat -> nth_error (xor_lits x) m = Some l ->
                  value s l <> l_undef.
Proof.
  induction n as [|n IH]; intros i s x Ha Hlen Hidx Hi Hf;
    cbn [seq add_assign_xor_swap].
  - exists false, s. split; [reflexivity|]. split; [reflexivity|].
    intros m l Hm Hl. apply (Hf m l); [|exact Hl].
    split; [lia|]. rewrite Nat.add_0_r in Hlen. rewrite Hlen.
    apply nth_error_Some. congruence.
  - destruct (nth_error (xor_lits x) i) as [l|] eqn:Hn;
      [|apply nth_error_None in Hn; lia].
    rewrite (bind_eq _ _ _ _ _ (xor_at_run idx x i l s Ha Hn)).
    erewrite bind_eq by reflexivity.
    destruct (lbool_eqb_spec (value s l) l_undef) as [Hu|Hnu].
    + destruct (swap_list_spec index i (xor_lits x)) as (ls & Hs & _ & _); [lia | lia |].
      rewrite (bind_eq _ _ _ _ _ (xor_swap_run idx x index i ls s Ha Hs)).
      erewrite bind_eq by reflexivity.
      eexists true, _. split; [reflexivity|].
      exists (mk_xor (xor_hd x) ls). split; [apply with_constraint_at|].
      split; [exact (swap_list_perm _ _ _ _ Hs)|]. split; reflexivity.
    + apply IH; auto; try lia.
      intros m y Hm Hy. destruct (Nat.eq_dec m i) as [->|Hne]; [congruence|].
      apply (Hf m y); [lia | exact Hy].
Qed.

(** X24: propagation by a parity constraint is sound.  When the variable
    of the assigned literal [alit] is at one of the two watched positions
    of a constraint with at least two literals, and a total assignment
    [rho] agrees with the core and satisfies the constraint, then
    [add_assign(x, alit)] returns, the literals are only permuted, [rho]
    still agrees with the core, a core that was not in conflict is not in
    conflict afterwards and the result is not [l_false]; after the result
    [l_true] every literal of the constraint is assigned. *)
Theorem add_assign_xor_keeps_models {E : externals} (rho : bool_var -> bool) (idx : Z)
  (alit : literal) (x : xor) (s : ba_solver) :
  m_allocator s idx = Some (Xor x) -> (2 <= xor_size x)%nat ->
  (exists i l, (i < 2)%nat /\ nth_error (xor_lits x) i = Some l /\ var l = var alit) ->
  value s alit <> l_undef ->
  extends rho s -> sat_xor rho x ->
  exists r s' x',
    add_assign_xor idx alit s = Ret r s' /\
    m_allocator s' idx = Some (Xor x') /\
    Permutation (xor_lits x) (xor_lits x') /\
    extends rho s' /\
    (inconsistent s = false -> inconsistent s' = false /\ r <> l_false) /\
    (r = l_true -> forall l, In l (xor_lits x') -> value s' l <> l_undef).
Proof.
  intros Ha Hsz (i0 & l0 & Hi0 & Hl0 & Hvar0) Halit He Hsat.
  unfold xor_size in Hsz. unfold add_assign_xor.
  destruct (nth_error (xor_lits x) 0) as [y0|] eqn:H0;
    [|apply nth_error_None in H0; lia].
  destruct (nth_error (xor_lits x) 1) as [y1|] eqn:H1;
    [|apply nth_error_None in H1; lia].
  rewrite (bind_eq _ _ _ _ _ (to_xor_run idx x s Ha)). cbv zeta.
  destruct (add_assign_xor_find_run idx alit x y0 y1 s Ha H0 H1)
    as (index & y & Hfind & Hidx & Hy & Hvy).
  { destruct i0 as [|[|i0]]; [left | right | lia]; congruence. }
  rewrite (bind_eq _ _ _ _ _ Hfind).
  destruct (Nat.eqb_spec index 2) as [|_]; [lia|].
  destruct (add_assign_xor_swap_run idx index (length (xor_lits x) - 2) 2 s x Ha)
    as (b & s1 & Hswap & Hb); [lia | exact Hidx | lia | intros; lia |].
  unfold xor_size, range. rewrite (bind_eq _ _ _ _ _ Hswap).
  destruct b.
  { (* another literal is watched *)
    destruct Hb as (x' & Ha' & Hperm & Hsame).
    exists l_undef, s1, x'. split; [reflexivity|]. split; [exact Ha'|].
    split; [exact Hperm|].
    split; [exact (same_assignment_extends rho s s1 Hsame He)|].
    split; [|discriminate].
    intros Hinc. destruct Hsame as [_ Hi]. split; [congruence | discriminate]. }
  destruct Hb as (-> & Htail).
  (* the literal of [alit] is brought to position 1 *)
  assert (Hpos : exists s2 x2 z0,
            when (Nat.eqb index 0) (xor_swap idx 0 1) s = Ret tt s2 /\
            m_solver s2 = m_solver s /\
            m_allocator s2 idx = Some (Xor x2) /\
            Permutation (xor_lits x) (xor_lits x2) /\
            nth_error (xor_lits x2) 0 = Some z0 /\
            (forall m l, (1 <= m)%nat -> nth_error (xor_lits x2) m = Some l ->
                         value s l <> l_undef)).
  { destruct index as [|[|index]]; [| |lia]; cbn [Nat.eqb when].
    - destruct (swap_list_spec 0 1 (xor_lits x)) as (ls & Hs & _ & Hnth); [lia | lia |].
      exists (with_constraint idx (Xor (mk_xor (xor_hd x) ls)) s),
             (mk_xor (xor_hd x) ls), y1.
      split; [exact (xor_swap_run idx x 0 1 ls s Ha Hs)|].
      split; [reflexivity|]. split; [apply with_constraint_at|].
      split; [exact (swap_list_perm _ _ _ _ Hs)|]. cbn [xor_lits].
      split; [rewrite Hnth; exact H1|].
      intros m l Hm Hl. rewrite Hnth in Hl.
      destruct m as [|[|m]]; [lia| |]; cbn [Nat.eqb] in Hl.
      + rewrite Hy in Hl. injection Hl as <-.
        exact (value_same_var s y alit Hvy Halit).
      + apply (Htail (S (S m)) l); [lia | exact Hl].
    - exists s, x, y0. split; [reflexivity|]. split; [reflexivity|].
      split; [exact Ha|]. split; [apply Permutation_refl|]. split; [exact H0|].
      intros m l Hm Hl. destruct m as [|[|m]]; [lia| |].
      + rewrite Hy in Hl. injection Hl as <-.
        exact (value_same_var s y alit Hvy Halit).
      + apply (Htail (S (S m)) l); [lia | exact Hl]. }
  destruct Hpos as (s2 & x2 & z0 & Hr2 & Hsol2 & Ha2 & Hperm & Hz0 & Hass).
  rewrite (bind_eq _ _ _ _ _ Hr2).
  rewrite (bind_eq _ _ _ _ _ (xor_at_run idx x2 0 z0 s2 Ha2 Hz0)).
  erewrite bind_eq by reflexivity.
  assert (Hs2 : same_assignment s s2).
  { unfold same_assignment, inconsistent. rewrite Hsol2. now split. }
  pose proof (same_assignment_extends rho s s2 Hs2 He) as He2.
  assert (Hv2 : forall l, value s2 l = value s l)
    by (intros l; unfold value; now rewrite Hsol2).
  unfold sat_xor in Hsat. rewrite (parity_true_perm rho _ _ Hperm) in Hsat.
  destruct (lbool_eqb_spec (value s2 z0) l_undef) as [Hu|Hnu].
  - (* the other watched literal is unassigned: its value is determined *)
    assert (Hstep : exists s3,
              (p <- parity idx 1 ;; x0 <- xor_at idx 0 ;;
               assign idx (if p then neg x0 else x0)) s2 = Ret tt s3 /\
              extends rho s3 /\ m_allocator s3 = m_allocator s2 /\
              (forall l, value s2 l = l_true -> value s3 l = l_true) /\
              (inconsistent s2 = true -> s3 = s2) /\
              (inconsistent s2 = false ->
               inconsistent s3 = false /\ value s3 z0 <> l_undef)).
    { rewrite (bind_eq _ _ _ _ _ (parity_run rho idx x2 1 s2 Ha2 He2
                                    ltac:(intros m l Hm Hl; rewrite Hv2;
                                          apply (Hass m l Hm Hl)))).
      rewrite (bind_eq _ _ _ _ _ (xor_at_run idx x2 0 z0 s2 Ha2 Hz0)).
      rewrite (parity_true_head rho _ z0 Hz0) in Hsat.
      destruct (assign_keeps_model rho idx
                  (if parity_true rho (skipn 1 (xor_lits x2)) then neg z0 else z0) s2 He2)
        as (s3 & Hr3 & He3 & Ha3 & Hk3 & Hi3 & Hn3).
      { destruct (parity_true rho (skipn 1 (xor_lits x2))).
        - rewrite lit_holds_neg. now destruct (lit_holds rho z0).
        - now destruct (lit_holds rho z0). }
      exists s3. split; [exact Hr3|]. split; [exact He3|]. split; [exact Ha3|].
      split; [exact Hk3|]. split; [exact Hi3|].
      intros Hinc. destruct (Hn3 Hinc) as [Hn3a Hn3b]. split; [exact Hn3a|].
      destruct (parity_true rho (skipn 1 (xor_lits x2))).
      + rewrite value_neg in Hn3b. destruct (value s3 z0); cbn in Hn3b; congruence.
      + congruence. }
    destruct Hstep as (s3 & Hr3 & He3 & Ha3 & Hk3 & Hi3 & Hn3).
    rewrite (bind_eq _ _ _ _ _ Hr3). cbv [bind gets ret].
    exists (if inconsistent s3 then l_false else l_true), s3, x2.
    split; [reflexivity|]. split; [now rewrite Ha3|]. split; [exact Hperm|].
    split; [exact He3|]. destruct Hs2 as [_ Hi2]. split.
    + intros Hinc. rewrite <- Hi2 in Hinc. destruct (Hn3 Hinc) as [Hn3a _].
      rewrite Hn3a. split; [reflexivity | discriminate].
    + intros Hr l Hl. destruct (inconsistent s3) eqn:Hinc3; [discriminate Hr|].
      assert (Hinc2 : inconsistent s2 = false).
      { destruct (inconsistent s2) eqn:Hinc2; [|reflexivity].
        rewrite (Hi3 eq_refl) in Hinc3. congruence. }
      apply In_nth_error in Hl. destruct Hl as ([|m] & Hm).
      * rewrite Hz0 in Hm. injection Hm as <-. apply (Hn3 Hinc2).
      * apply (assigned_kept s2 s3 l Hk3). rewrite Hv2.
        apply (Hass (S m) l); [lia | exact Hm].
  - (* every literal is assigned: the parity is that of [rho] *)
    assert (Hall : forall m l, (0 <= m)%nat -> nth_error (xor_lits x2) m = Some l ->
                               value s2 l <> l_undef).
    { intros [|m] l _ Hl.
      - rewrite Hz0 in Hl. injection Hl as <-. exact Hnu.
      - rewrite Hv2. apply (Hass (S m) l); [lia | exact Hl]. }
    assert (Hstep : (p <- parity idx 0 ;;
                     when (negb p) (x1 <- xor_at idx 1 ;; set_conflict idx (neg x1))) s2 =
                    Ret tt s2).
    { rewrite (bind_eq _ _ _ _ _ (parity_run rho idx x2 0 s2 Ha2 He2 Hall)).
      cbn [skipn]. rewrite Hsat. reflexivity. }
    rewrite (bind_eq _ _ _ _ _ Hstep). cbv [bind gets ret].
    exists (if inconsistent s2 then l_false else l_true), s2, x2.
    split; [reflexivity|]. split; [exact Ha2|]. split; [exact Hperm|].
    split; [exact He2|]. destruct Hs2 as [_ Hi2]. split.
    + intros Hinc. rewrite <- Hi2 in Hinc. rewrite Hinc.
      split; [reflexivity | discriminate].
    + intros _ l Hl. apply In_nth_error in Hl. destruct Hl as (m & Hm).
      apply (Hall m l); [lia | exact Hm].
Qed.

Lemma add_assign_xor_keeps_models_witness :
  exists s',
    @add_assign_xor reference_externals 1 (x_ 1) x1_x3_false = Ret l_true s' /\
    extends (fun v => v =? 2) s' /\ value s' (x_ 2) = l_true.
Proof.
  destruct (@add_assign_xor_keeps_models reference_externals
              (fun v => v =? 2) 1 (x_ 1) xor_3 x1_x3_false)
    as (r & s' & x' & Hr & _ & _ & He & _).
  - reflexivity.
  - vm_compute. lia.
  - exists 0%nat, (x_ 1). split; [lia|]. split; reflexivity.
  - vm_compute. discriminate.
  - exact extends_x1_x3_false.
  - unfold sat_xor. vm_compute. reflexivity.
  - assert (Hc : match @add_assign_xor reference_externals 1 (x_ 1) x1_x3_false with
                 | Ret r s' => r = l_true /\ value s' (x_ 2) = l_true
                 | _ => False
                 end) by (vm_compute; split; reflexivity).
    rewrite Hr in Hc. destruct Hc as (-> & Hc).
    exists s'. split; [exact Hr|]. split; [exact He | exact Hc].
Defined.

(** ** Propagation by a pseudo-boolean constraint *)

Lemma weight_le_total ws wl :
  Forall (fun wl : wliteral => 0 <= fst wl) ws -> In wl ws -> fst wl <= total_weight ws.
Proof.
  induction 1 as [|h t Hh Ht IH]; intros Hin; [contradiction|].
  rewrite total_weight_cons. pose proof (total_weight_nonneg t Ht).
  destruct Hin as [->|Hin]; [lia|]. specialize (IH Hin). lia.
Qed.

Lemma weight_true_cons rho wl ws :
  weight_true rho (wl :: ws) =
  (if lit_holds rho (snd wl) then fst wl else 0) + weight_true rho ws.
Proof. reflexivity. Qed.

(** A term whose literal is false in [rho] does not count. *)
Lemma weight_true_one_false rho ws : forall a wa,
  Forall (fun wl : wliteral => 0 <= fst wl) ws ->
  nth_error ws a = Some wa -> lit_holds rho (snd wa) = false ->
  weight_true rho ws <= total_weight ws - fst wa.
Proof.
  induction ws as [|h t IH]; intros [|a] wa Hw Ha Hl; cbn [nth_error] in Ha;
    try discriminate; rewrite weight_true_cons, total_weight_cons;
    inversion Hw as [|? ? Hh Ht]; subst.
  - injection Ha as ->. rewrite Hl.
    pose proof (weight_true_le_total rho t Ht). lia.
  - specialize (IH a wa Ht Ha Hl). destruct (lit_holds rho (snd h)); lia.
Qed.

Lemma weight_true_two_false rho ws : forall a b wa wb,
  Forall (fun wl : wliteral => 0 <= fst wl) ws -> a <> b ->
  nth_error ws a = Some wa -> nth_error ws b = Some wb ->
  lit_holds rho (snd wa) = false -> lit_holds rho (snd wb) = false ->
  weight_true rho ws <= total_weight ws - fst wa - fst wb.
Proof.
  induction ws as [|h t IH]; intros [|a] [|b] wa wb Hw Hab Ha Hb Hla Hlb;
    cbn [nth_error] in Ha, Hb; try discriminate; try congruence;
    rewrite weight_true_cons, total_weight_cons;
    inversion Hw as [|? ? Hh Ht]; subst.
  - injection Ha as ->. rewrite Hla.
    pose proof (weight_true_one_false rho t b wb Ht Hb Hlb). lia.
  - injection Hb as ->. rewrite Hlb.
    pose proof (weight_true_one_false rho t a wa Ht Ha Hla). lia.
  - assert (Hab' : a <> b) by congruence.
    specialize (IH a b wa wb Ht Hab' Ha Hb Hla Hlb).
    destruct (lit_holds rho (snd h)); lia.
Qed.

(** Exchanging two positions of a prefix permutes the prefix. *)
Lemma swap_list_firstn {A} i j n (l l' : list A) :
  swap_list i j l = Some l' -> (i < n)%nat -> (j < n)%nat -> (n <= length l)%nat ->
  Permutation (firstn n l) (firstn n l').
Proof.
  intros Hs Hi Hj Hn.
  destruct (swap_list_spec i j l) as (l2 & Hs2 & _ & Hnth); [lia | lia |].
  rewrite Hs in Hs2. injection Hs2 as <-.
  assert (Hlen : length (firstn n l) = n) by (rewrite length_firstn; lia).
  destruct (swap_list_spec i j (firstn n l)) as (l1 & Hs1 & _ & Hnth1); [lia | lia |].
  apply (Permutation_trans (swap_list_perm _ _ _ _ Hs1)).
  replace (firstn n l') with l1; [apply Permutation_refl|].
  apply nth_error_ext. intros m. rewrite Hnth1, !nth_error_firstn, Hnth.
  destruct (Nat.ltb_spec i n); [|lia]. destruct (Nat.ltb_spec j n); [|lia].
  destruct (Nat.eqb_spec m j) as [->|Hmj].
  - destruct (Nat.ltb_spec j n); [reflexivity | lia].
  - destruct (Nat.eqb_spec m i) as [->|Hmi].
    + destruct (Nat.ltb_spec i n); [reflexivity | lia].
    + reflexivity.
Qed.

Lemma same_assignment_trans s1 s2 s3 :
  same_assignment s1 s2 -> same_assignment s2 s3 -> same_assignment s1 s3.
Proof. intros [H1 H2] [H3 H4]. split; congruence. Qed.

(** [add_index] only records the position and the largest weight of the
    unassigned literals seen. *)
Lemma add_index_run idx p index wl l s :
  m_allocator s idx = Some (Pb p) -> nth_error (pb_wlits p) index = Some wl ->
  exists s',
    add_index idx index l s = Ret tt s' /\
    m_solver s' = m_solver s /\ m_allocator s' = m_allocator s /\
    (m_a_max s' = m_a_max s \/ m_a_max s' = fst wl) /\
    (m_pb_undef s' = m_pb_undef s \/ m_pb_undef s' = m_pb_undef s ++ [index]).
Proof.
  intros Ha Hn. unfold add_index. erewrite bind_eq by reflexivity.
  destruct (lbool_eqb (value s l) l_undef).
  - erewrite bind_eq by reflexivity.
    erewrite bind_eq by (eapply pb_at_run; [exact Ha | exact Hn]).
    erewrite bind_eq by reflexivity. cbn [m_a_max set_m_pb_undef].
    destruct (m_a_max s <? fst wl); eexists; (split; [reflexivity|]); cbn; auto.
  - exists s. split; [reflexivity|]. auto.
Qed.

(** The first loop of [add_assign(pb&)] stops at the first watched
    position that holds [alit]. *)
Lemma add_assign_pb_find_run idx alit p W nw n : forall i s,
  m_allocator s idx = Some (Pb p) ->
  Forall (fun wl : wliteral => 0 <= fst wl <= W) (pb_wlits p) ->
  (i + n = nw)%nat -> (nw <= length (pb_wlits p))%nat ->
  (exists m wl, (i <= m < nw)%nat /\ nth_error (pb_wlits p) m = Some wl /\ snd wl = alit) ->
  0 <= m_a_max s <= W -> Forall (fun m => (m < i)%nat) (m_pb_undef s) ->
  exists index val s',
    add_assign_pb_find idx alit nw (seq i n) s = Ret index s' /\
    (index < nw)%nat /\ nth_error (pb_wlits p) index = Some (val, alit) /\
    m_solver s' = m_solver s /\ m_allocator s' = m_allocator s /\
    0 <= m_a_max s' <= W /\ Forall (fun m => (m < index)%nat) (m_pb_undef s').
Proof.
  induction n as [|n IH]; intros i s Ha Hw Hlen Hnw (m & wm & Hm & Hnm & Hsm) Hmax Hun;
    cbn [seq add_assign_pb_find]; [lia|].
  destruct (nth_error (pb_wlits p) i) as [wl|] eqn:Hn;
    [|apply nth_error_None in Hn; lia].
  rewrite (bind_eq _ _ _ _ _ (pb_at_run idx p i wl s Ha Hn)).
  destruct (literal_eqb_spec (snd wl) alit) as [Heq|Hne].
  - exists i, (fst wl), s. split; [reflexivity|]. split; [lia|].
    split; [destruct wl; cbn in *; now subst|]. auto.
  - destruct (add_index_run idx p i wl (snd wl) s Ha Hn)
      as (s1 & Hr1 & Hs1 & Ha1 & Hm1 & Hu1).
    rewrite (bind_eq _ _ _ _ _ Hr1).
    destruct (IH (S i) s1) as (index & val & s' & Hr & Hi & Hv & Hs' & Ha' & Hm' & Hu').
    + now rewrite Ha1.
    + exact Hw.
    + lia.
    + exact Hnw.
    + exists m, wm. split; [|now split].
      destruct (Nat.eq_dec m i) as [->|]; [congruence | lia].
    + pose proof (proj1 (Forall_forall _ _) Hw wl (nth_error_In _ _ Hn)) as Hwl.
      cbv beta in Hwl. destruct Hm1 as [->| ->]; lia.
    + destruct Hu1 as [->| ->].
      * eapply Forall_impl; [|exact Hun]. cbn. intros; lia.
      * apply Forall_app. split; [|repeat constructor].
        eapply Forall_impl; [|exact Hun]. cbn. intros; lia.
    + exists index, val, s'. split; [exact Hr|]. split; [exact Hi|]. split; [exact Hv|].
      split; [congruence|]. split; [congruence|]. split; assumption.
Qed.

(** The second loop records watched positions after [alit] until an
    unassigned literal is seen. *)
Lemma add_assign_pb_amax_run idx p W index nw n : forall i s,
  m_allocator s idx = Some (Pb p) ->
  Forall (fun wl : wliteral => 0 <= fst wl <= W) (pb_wlits p) ->
  (i + n = nw)%nat -> (nw <= length (pb_wlits p))%nat -> (index < i)%nat ->
  0 <= m_a_max s <= W ->
  Forall (fun m => (m < i)%nat /\ m <> index) (m_pb_undef s) ->
  exists s',
    add_assign_pb_amax idx (seq i n) s = Ret tt s' /\
    m_solver s' = m_solver s /\ m_allocator s' = m_allocator s /\
    0 <= m_a_max s' <= W /\
    Forall (fun m => (m < nw)%nat /\ m <> index) (m_pb_undef s').
Proof.
  induction n as [|n IH]; intros i s Ha Hw Hlen Hnw Hidx Hmax Hun;
    cbn [seq add_assign_pb_amax].
  - exists s. split; [reflexivity|]. repeat split; try lia.
    eapply Forall_impl; [|exact Hun]. cbn. intros; lia.
  - erewrite bind_eq by reflexivity.
    destruct (m_a_max s =? 0).
    2:{ exists s. split; [reflexivity|]. repeat split; try lia.
        eapply Forall_impl; [|exact Hun]. cbn. intros; lia. }
    destruct (nth_error (pb_wlits p) i) as [wl|] eqn:Hn;
      [|apply nth_error_None in Hn; lia].
    rewrite (bind_eq _ _ _ _ _ (pb_at_run idx p i wl s Ha Hn)).
    destruct (add_index_run idx p i wl (snd wl) s Ha Hn)
      as (s1 & Hr1 & Hs1 & Ha1 & Hm1 & Hu1).
    rewrite (bind_eq _ _ _ _ _ Hr1).
    destruct (IH (S i) s1) as (s' & Hr & Hs' & Ha' & Hm' & Hu').
    + now rewrite Ha1.
    + exact Hw.
    + lia.
    + exact Hnw.
    + lia.
    + pose proof (proj1 (Forall_forall _ _) Hw wl (nth_error_In _ _ Hn)) as Hwl.
      cbv beta in Hwl. destruct Hm1 as [->| ->]; lia.
    + destruct Hu1 as [->| ->].
      * eapply Forall_impl; [|exact Hun]. cbn. intros; lia.
      * apply Forall_app. split; [|repeat constructor; lia].
        eapply Forall_impl; [|exact Hun]. cbn. intros; lia.
    + exists s'. split; [exact Hr|]. split; [congruence|]. split; [congruence|].
      split; assumption.
Qed.

(** The third loop of [add_assign(pb&)]: terms that are not false are
    pulled into the watched prefix.  The slack stays the weight of the
    watched prefix less the weight of [alit]; when the loop ends with
    [slack < bound + m_a_max], every unwatched literal is false. *)
Lemma add_assign_pb_pull_run idx hd k sl nw0 ms alit val index W len n :
  0 <= k -> k + W <= UINT_MAX ->
  forall j nwc slack s ws,
  m_allocator s idx = Some (Pb (mk_pb hd k sl nw0 ms ws)) ->
  Forall (fun wl : wliteral => 0 <= fst wl) ws -> total_weight ws = W ->
  length ws = len -> (j + n = len)%nat -> (index < nwc)%nat -> (nwc <= j)%nat ->
  nth_error ws index = Some (val, alit) ->
  slack = total_weight (firstn nwc ws) - val ->
  (forall m wl, (nwc <= m < j)%nat -> nth_error ws m = Some wl ->
                value s (snd wl) = l_false) ->
  0 <= m_a_max s <= W ->
  Forall (fun m => (m < nwc)%nat /\ m <> index) (m_pb_undef s) ->
  exists slack' nw' s' ws',
    add_assign_pb_pull idx k (seq j n) slack nwc s = Ret (slack', nw') s' /\
    same_assignment s s' /\
    m_allocator s' idx = Some (Pb (mk_pb hd k sl nw0 ms ws')) /\
    Permutation ws ws' /\
    (index < nw' <= len)%nat /\
    nth_error ws' index = Some (val, alit) /\
    slack' = total_weight (firstn nw' ws') - val /\
    0 <= m_a_max s' <= W /\
    Forall (fun m => (m < nw')%nat /\ m <> index) (m_pb_undef s') /\
    (slack' < k + m_a_max s' ->
     forall m wl, (nw' <= m)%nat -> nth_error ws' m = Some wl ->
                  value s (snd wl) = l_false).
Proof.
  intros Hk HkW.
  induction n as [|n IH];
    intros j nwc slack s ws Ha Hw HW Hlen Hjn Hidx Hnwc Hval Hslack Hfalse Hmax Hun;
    cbn [seq add_assign_pb_pull].
  - exists slack, nwc, s, ws. split; [reflexivity|]. split; [split; reflexivity|].
    split; [exact Ha|]. split; [apply Permutation_refl|]. split; [lia|].
    split; [exact Hval|]. split; [exact Hslack|]. split; [exact Hmax|].
    split; [exact Hun|].
    intros _ m wl Hm Hn. apply (Hfalse m wl); [|exact Hn].
    split; [lia|]. replace j with (length ws) by lia. apply nth_error_Some. congruence.
  - erewrite bind_eq by reflexivity.
    rewrite (u32_id (k + m_a_max s)) by (unfold is_u32; lia).
    destruct (Z.ltb_spec slack (k + m_a_max s)) as [Hlt|Hge].
    2:{ exists slack, nwc, s, ws. split; [reflexivity|]. split; [split; reflexivity|].
        split; [exact Ha|]. split; [apply Permutation_refl|]. split; [lia|].
        split; [exact Hval|]. split; [exact Hslack|]. split; [exact Hmax|].
        split; [exact Hun|]. intros; lia. }
    destruct (nth_error ws j) as [wl|] eqn:Hn; [|apply nth_error_None in Hn; lia].
    rewrite (bind_eq _ _ _ _ _ (pb_at_run idx _ j wl s Ha Hn)).
    erewrite bind_eq by reflexivity.
    destruct (lbool_eqb_spec (value s (snd wl)) l_false) as [Hf|Hnf]; cbn [negb].
    + (* a false literal stays unwatched *)
      apply (IH (S j) nwc slack s ws); auto; try lia.
      intros m x Hm Hx. destruct (Nat.eq_dec m j) as [->|Hne].
      * rewrite Hn in Hx. injection Hx as <-. exact Hf.
      * apply (Hfalse m x); [lia | exact Hx].
    + (* the term is exchanged with the first unwatched one *)
      erewrite bind_eq by reflexivity.
      destruct (swap_list_spec nwc j ws) as (ws1 & Hs & Hlen1 & Hnth); [lia | lia |].
      erewrite bind_eq by (eapply pb_swap_run; [exact Ha | exact Hs]).
      set (s2 := with_constraint idx _ _).
      assert (Ha2 : m_allocator s2 idx = Some (Pb (mk_pb hd k sl nw0 ms ws1)))
        by apply with_constraint_at.
      assert (Hs2 : same_assignment s s2) by (split; reflexivity).
      assert (Hn1 : nth_error ws1 nwc = Some wl).
      { rewrite Hnth. destruct (Nat.eqb_spec nwc j) as [->|_]; [exact Hn|].
        rewrite Nat.eqb_refl. exact Hn. }
      destruct (add_index_run idx _ nwc wl (snd wl) s2 Ha2 Hn1)
        as (s3 & Hr3 & Hsol3 & Ha3 & Hm3 & Hu3).
      rewrite (bind_eq _ _ _ _ _ Hr3).
      assert (Hs3 : same_assignment s s3).
      { apply (same_assignment_trans s s2 s3 Hs2).
        unfold same_assignment, inconsistent. rewrite Hsol3. now split. }
      assert (Hperm1 : Permutation ws ws1) by exact (swap_list_perm _ _ _ _ Hs).
      pose proof (Forall_perm _ _ _ Hperm1 Hw) as Hw1.
      assert (Hfirst : firstn (S nwc) ws1 = firstn nwc ws ++ [wl]).
      { rewrite (firstn_snoc ws1 nwc wl Hn1). f_equal. apply firstn_agree.
        intros m Hm. rewrite Hnth.
        destruct (Nat.eqb_spec m j); [lia|]. destruct (Nat.eqb_spec m nwc); [lia|].
        reflexivity. }
      assert (Hwl : 0 <= fst wl)
        by exact (proj1 (Forall_forall _ _) Hw wl (nth_error_In _ _ Hn)).
      assert (Hin : In (val, alit) (firstn nwc ws)).
      { apply (nth_error_In _ index). rewrite nth_error_firstn.
        destruct (Nat.ltb_spec index nwc); [exact Hval | lia]. }
      pose proof (weight_le_total _ _ (Forall_firstn _ nwc ws Hw) Hin) as Hvle.
      cbn [fst] in Hvle.
      assert (Hv0 : 0 <= val)
        by exact (proj1 (Forall_forall _ _) Hw _ (nth_error_In _ _ Hval)).
      pose proof (total_weight_firstn_le (S nwc) ws1 Hw1) as Hle1.
      rewrite <- (total_weight_perm _ _ Hperm1), HW in Hle1.
      assert (Htot : total_weight (firstn (S nwc) ws1) =
                     total_weight (firstn nwc ws) + fst wl).
      { rewrite Hfirst, total_weight_app, total_weight_cons. cbn. lia. }
      rewrite (u32_id (slack + fst wl)) by (unfold is_u32; lia).
      destruct (IH (S j) (S nwc) (slack + fst wl) s3 ws1)
        as (slack' & nw' & s' & ws' & Hr & Hs' & Ha' & Hperm' & Hnw' & Hval' &
            Hslack' & Hmax' & Hun' & Htail').
      * now rewrite Ha3.
      * exact Hw1.
      * now rewrite <- (total_weight_perm _ _ Hperm1).
      * lia.
      * lia.
      * lia.
      * lia.
      * rewrite Hnth. destruct (Nat.eqb_spec index j); [lia|].
        destruct (Nat.eqb_spec index nwc); [lia | exact Hval].
      * lia.
      * intros m x Hm Hx. rewrite (same_assignment_value s s3 _ Hs3).
        rewrite Hnth in Hx. destruct (Nat.eqb_spec m j) as [->|Hmj].
        -- apply (Hfalse nwc x); [lia | exact Hx].
        -- destruct (Nat.eqb_spec m nwc); [lia|]. apply (Hfalse m x); [lia | exact Hx].
      * pose proof (weight_le_total _ _ Hw (nth_error_In _ _ Hn)).
        change (m_a_max s2) with (m_a_max s) in Hm3.
        destruct Hm3 as [->| ->]; lia.
      * change (m_pb_undef s2) with (m_pb_undef s) in Hu3.
        destruct Hu3 as [->| ->].
        -- eapply Forall_impl; [|exact Hun]. cbn. intros; lia.
        -- apply Forall_app. split; [|repeat constructor; lia].
           eapply Forall_impl; [|exact Hun]. cbn. intros; lia.
      * exists slack', nw', s', ws'. split; [exact Hr|].
        split; [exact (same_assignment_trans s s3 s' Hs3 Hs')|].
        split; [exact Ha'|]. split; [exact (Permutation_trans Hperm1 Hperm')|].
        split; [lia|]. split; [exact Hval'|]. split; [exact Hslack'|].
        split; [exact Hmax'|]. split; [exact Hun'|].
        intros Hlt' m x Hm Hx. rewrite <- (same_assignment_value s s3 _ Hs3).
        apply (Htail' Hlt' m x Hm Hx).
Qed.

(** The last loop of [add_assign(pb&)]: the recorded literals whose
    weight exceeds the margin are assigned. *)
Lemma add_assign_pb_assign_run rho idx p slack bound nw index : forall undef s,
  m_allocator s idx = Some (Pb p) -> extends rho s ->
  Forall (fun index1 : nat =>
            exists wl,
              nth_error (pb_wlits p) (if Nat.eqb index1 nw then index else index1) =
                Some wl /\
              ((slack <? u32 (bound + fst wl)) = true -> lit_holds rho (snd wl) = true))
         undef ->
  exists s',
    for_each undef
      (fun index1 =>
         let index1 := if Nat.eqb index1 nw then index else index1 in
         wl <- pb_at idx index1 ;;
         when (slack <? u32 (bound + fst wl)) (assign idx (snd wl))) s = Ret tt s' /\
    extends rho s' /\ m_allocator s' = m_allocator s /\
    (inconsistent s = false -> inconsistent s' = false).
Proof.
  induction undef as [|i undef IH]; intros s Ha He Hall; cbn [for_each].
  - exists s. repeat split; auto.
  - inversion Hall as [|? ? (wl & Hn & Hl) Hrest]; subst.
    assert (Hstep : exists s1,
              (let index1 := if Nat.eqb i nw then index else i in
               wl <- pb_at idx index1 ;;
               when (slack <? u32 (bound + fst wl)) (assign idx (snd wl))) s = Ret tt s1 /\
              extends rho s1 /\ m_allocator s1 = m_allocator s /\
              (inconsistent s = false -> inconsistent s1 = false)).
    { cbv zeta. rewrite (bind_eq _ _ _ _ _ (pb_at_run idx p _ wl s Ha Hn)).
      destruct (slack <? u32 (bound + fst wl)); cbn [when].
      - destruct (assign_keeps_model rho idx (snd wl) s He (Hl eq_refl))
          as (s1 & Hr1 & He1 & Ha1 & _ & _ & Hi1).
        exists s1. split; [exact Hr1|]. split; [exact He1|]. split; [exact Ha1|].
        intros Hinc. apply (Hi1 Hinc).
      - exists s. repeat split; auto. }
    destruct Hstep as (s1 & Hr1 & He1 & Ha1 & Hi1).
    rewrite (bind_eq _ _ _ _ _ Hr1).
    destruct (IH s1) as (s' & Hr & He' & Ha' & Hi'); [now rewrite Ha1 | exact He1 | exact Hrest |].
    exists s'. split; [exact Hr|]. split; [exact He'|]. split; [congruence|].
    intros Hinc. apply Hi', Hi1, Hinc.
Qed.

(** X25: propagation by a pseudo-boolean constraint is sound.  Let the
    slack of the constraint be the weight of its watched prefix, let
    [alit] be a watched literal that is now false, and let [rho] be a total
    assignment that agrees with the core and satisfies the constraint
    (weights unsigned, bound plus total weight within 32 bits).  Then
    [add_assign(p, alit)] returns [l_undef]: it reports no conflict, the
    terms are only permuted, the slack is again the weight of the watched
    prefix and at least the bound, every literal it assigns holds in
    [rho], and a core that was not in conflict is not in conflict
    afterwards. *)
Theorem add_assign_pb_keeps_models {E : externals} (rho : bool_var -> bool) (idx : Z)
  (alit : literal) (p : pb) (s : ba_solver) :
  m_allocator s idx = Some (Pb p) ->
  Forall (fun wl : wliteral => 0 <= fst wl) (pb_wlits p) ->
  0 <= pb_k p -> pb_k p + total_weight (pb_wlits p) <= UINT_MAX ->
  (pb_num_watch p <= pb_size p)%nat ->
  pb_slack p = total_weight (firstn (pb_num_watch p) (pb_wlits p)) ->
  In alit (map snd (firstn (pb_num_watch p) (pb_wlits p))) ->
  value s alit = l_false ->
  extends rho s -> sat_pb rho p ->
  exists s' p',
    add_assign_pb idx alit s = Ret l_undef s' /\
    m_allocator s' idx = Some (Pb p') /\
    pb_k p' = pb_k p /\ Permutation (pb_wlits p) (pb_wlits p') /\
    (pb_num_watch p' <= pb_size p')%nat /\
    pb_slack p' = total_weight (firstn (pb_num_watch p') (pb_wlits p')) /\
    pb_k p' <= pb_slack p' /\
    extends rho s' /\
    (inconsistent s = false -> inconsistent s' = false).
Proof.
  intros Ha Hw Hk HkW Hnw Hsl Hin Hval He Hsat.
  destruct p as [hd k sl nw ms ws]. unfold pb_size, sat_pb in *.
  cbn [pb_wlits pb_k pb_num_watch pb_slack] in *.
  set (W := total_weight ws) in *.
  assert (HwW : Forall (fun wl : wliteral => 0 <= fst wl <= W) ws).
  { apply Forall_forall. intros wl Hwl. split.
    - exact (proj1 (Forall_forall _ _) Hw wl Hwl).
    - exact (weight_le_total ws wl Hw Hwl). }
  pose proof (total_weight_nonneg ws Hw) as HW0. fold W in HW0.
  assert (Hfalse : lit_holds rho alit = false) by exact (extends_false rho s alit He Hval).
  unfold add_assign_pb. rewrite (bind_eq _ _ _ _ _ (to_pb_run idx _ s Ha)).
  cbv zeta. cbn [pb_wlits pb_k pb_num_watch pb_slack]. unfold pb_size. cbn [pb_wlits].
  erewrite bind_eq by reflexivity. erewrite bind_eq by reflexivity.
  set (sA := set_m_pb_undef [] (set_m_a_max 0 s)).
  assert (HaA : m_allocator sA idx = Some (Pb (mk_pb hd k sl nw ms ws))) by exact Ha.
  (* the position of [alit] *)
  destruct (add_assign_pb_find_run idx alit (mk_pb hd k sl nw ms ws) W nw nw 0 sA HaA HwW)
    as (index & val & s1 & Hr1 & Hidx & Hnth & Hsol1 & Ha1 & Hm1 & Hu1).
  { lia. }
  { exact Hnw. }
  { apply in_map_iff in Hin. destruct Hin as (wl & Hs & Hin).
    apply In_nth_error in Hin. destruct Hin as (m & Hm).
    rewrite nth_error_firstn in Hm. destruct (Nat.ltb_spec m nw); [|discriminate].
    exists m, wl. split; [lia|]. now split. }
  { cbn. lia. }
  { constructor. }
  cbn [pb_wlits] in Hnth.
  unfold range. rewrite Nat.sub_0_r, (bind_eq _ _ _ _ _ Hr1).
  destruct (Nat.eqb_spec index nw) as [|_]; [lia|].
  destruct (Nat.eqb_spec nw 0) as [|_]; [lia|]. cbn [orb].
  assert (Ha1' : m_allocator s1 idx = Some (Pb (mk_pb hd k sl nw ms ws)))
    by (now rewrite Ha1).
  destruct (add_assign_pb_amax_run idx (mk_pb hd k sl nw ms ws) W index nw
              (nw - S index) (S index) s1 Ha1' HwW)
    as (s2 & Hr2 & Hsol2 & Ha2 & Hm2 & Hu2).
  { lia. }
  { exact Hnw. }
  { lia. }
  { exact Hm1. }
  { eapply Forall_impl; [|exact Hu1]. cbn. intros; lia. }
  rewrite (bind_eq _ _ _ _ _ Hr2).
  assert (Ha2' : m_allocator s2 idx = Some (Pb (mk_pb hd k sl nw ms ws)))
    by (now rewrite Ha2).
  rewrite (bind_eq _ _ _ _ _ (pb_at_run idx _ index (val, alit) s2 Ha2' Hnth)).
  cbn [fst].
  assert (Hs2 : same_assignment s s2).
  { unfold same_assignment, inconsistent. rewrite Hsol2, Hsol1. now split. }
  assert (Hin' : In (val, alit) (firstn nw ws)).
  { apply (nth_error_In _ index). rewrite nth_error_firstn.
    destruct (Nat.ltb_spec index nw); [exact Hnth | lia]. }
  pose proof (weight_le_total _ _ (Forall_firstn _ nw ws Hw) Hin') as Hvle.
  cbn [fst] in Hvle.
  assert (Hv0 : 0 <= val)
    by exact (proj1 (Forall_forall _ _) Hw _ (nth_error_In _ _ Hnth)).
  pose proof (total_weight_firstn_le nw ws Hw) as Hle. fold W in Hle.
  rewrite (u32_id (sl - val)) by (unfold is_u32; lia).
  (* unwatched terms are pulled in *)
  destruct (add_assign_pb_pull_run idx hd k sl nw ms alit val index W (length ws)
              (length ws - nw) Hk HkW nw nw (sl - val) s2 ws Ha2' Hw eq_refl eq_refl)
    as (slackF & nwF & s3 & wsF & Hr3 & Hs3 & Ha3 & Hperm & HnwF & HnthF & HslF &
        Hm3 & Hu3 & Htail).
  { lia. }
  { exact Hidx. }
  { lia. }
  { exact Hnth. }
  { lia. }
  { intros; lia. }
  { exact Hm2. }
  { exact Hu2. }
  rewrite (bind_eq _ _ _ _ _ Hr3). cbn [fst snd].
  pose proof (same_assignment_trans s s2 s3 Hs2 Hs3) as Hs03.
  pose proof (Forall_perm _ _ _ Hperm Hw) as HwF.
  assert (HnthF' : nth_error (firstn nwF wsF) index = Some (val, alit)).
  { rewrite nth_error_firstn. destruct (Nat.ltb_spec index nwF); [exact HnthF | lia]. }
  (* with the margin exceeded, [rho] lives on the watched prefix *)
  assert (Hprefix : slackF < k + m_a_max s3 ->
                    weight_true rho wsF = weight_true rho (firstn nwF wsF)).
  { intros Hlt. apply weight_true_tail_false; [exact HwF|].
    intros m wl Hm Hwl. apply (extends_false rho s _ He).
    rewrite <- (same_assignment_value s s2 _ Hs2). apply (Htail Hlt m wl Hm Hwl). }
  rewrite (weight_true_perm rho _ _ Hperm) in Hsat.
  destruct (Z.ltb_spec slackF k) as [Hconf|Hok].
  { (* a conflict would contradict [rho] *)
    exfalso. rewrite (Hprefix ltac:(lia)) in Hsat.
    pose proof (weight_true_one_false rho (firstn nwF wsF) index (val, alit)
                  (Forall_firstn _ nwF wsF HwF) HnthF' Hfalse) as Hb.
    cbn [fst] in Hb. lia. }
  (* [alit] leaves the watched prefix *)
  rewrite (bind_eq _ _ _ _ _ (set_slack_run idx _ slackF s3 Ha3)).
  cbn [pb_hd pb_k pb_num_watch pb_max_sum pb_wlits].
  set (s4 := with_constraint idx _ s3).
  assert (Ha4 : m_allocator s4 idx = Some (Pb (mk_pb hd k slackF nw ms wsF)))
    by apply with_constraint_at.
  rewrite (bind_eq _ _ _ _ _ (set_num_watch_run idx _ (Nat.pred nwF) s4 Ha4)).
  cbn [pb_hd pb_k pb_slack pb_max_sum pb_wlits].
  set (s5 := with_constraint idx _ s4).
  assert (Ha5 : m_allocator s5 idx = Some (Pb (mk_pb hd k slackF (Nat.pred nwF) ms wsF)))
    by apply with_constraint_at.
  assert (HlenF : length wsF = length ws) by (symmetry; apply Permutation_length, Hperm).
  destruct (swap_list_spec (Nat.pred nwF) index wsF) as (wsG & HsG & HlenG & HnthG);
    [lia | lia |].
  rewrite (bind_eq _ _ _ _ _ (pb_swap_run idx _ (Nat.pred nwF) index wsG s5 Ha5 HsG)).
  unfold pb_with_wlits. cbn [pb_hd pb_k pb_slack pb_num_watch pb_max_sum].
  set (s6 := with_constraint idx _ s5).
  assert (Ha6 : m_allocator s6 idx = Some (Pb (mk_pb hd k slackF (Nat.pred nwF) ms wsG)))
    by apply with_constraint_at.
  assert (Hs6 : same_assignment s s6).
  { destruct Hs03 as [X1 X2]. split; [exact X1 | exact X2]. }
  pose proof (same_assignment_extends rho s s6 Hs6 He) as He6.
  erewrite bind_eq by reflexivity.
  change (m_a_max s6) with (m_a_max s3).
  rewrite (u32_id (k + m_a_max s3)) by (unfold is_u32; lia).
  (* the slack is the weight of the remaining watched prefix *)
  assert (HpermG : Permutation (firstn nwF wsF) (firstn nwF wsG))
    by (apply (swap_list_firstn (Nat.pred nwF) index nwF wsF wsG HsG); lia).
  assert (HlastG : nth_error wsG (Nat.pred nwF) = Some (val, alit)).
  { rewrite HnthG. destruct (Nat.eqb_spec (Nat.pred nwF) index) as [->|_]; [exact HnthF|].
    rewrite Nat.eqb_refl. exact HnthF. }
  assert (HslG : slackF = total_weight (firstn (Nat.pred nwF) wsG)).
  { pose proof (firstn_snoc wsG (Nat.pred nwF) (val, alit) HlastG) as Hsn.
    replace (S (Nat.pred nwF)) with nwF in Hsn by lia.
    rewrite HslF, (total_weight_perm _ _ HpermG), Hsn, total_weight_app, total_weight_cons.
    cbn. lia. }
  assert (Hfinal : exists s7,
            when (slackF <? k + m_a_max s3)
                 (undef <- gets m_pb_undef ;;
                  for_each undef
                    (fun index1 =>
                       let index1 := if Nat.eqb index1 (Nat.pred nwF) then index
                                     else index1 in
                       wl <- pb_at idx index1 ;;
                       when (slackF <? u32 (k + fst wl)) (assign idx (snd wl)))) s6 =
            Ret tt s7 /\
            extends rho s7 /\ m_allocator s7 = m_allocator s6 /\
            (inconsistent s6 = false -> inconsistent s7 = false)).
  { destruct (Z.ltb_spec slackF (k + m_a_max s3)) as [Hlt|Hge]; cbn [when].
    2:{ exists s6. repeat split; auto. }
    erewrite bind_eq by reflexivity. change (m_pb_undef s6) with (m_pb_undef s3).
    apply (add_assign_pb_assign_run rho idx (mk_pb hd k slackF (Nat.pred nwF) ms wsG));
      [exact Ha6 | exact He6 |].
    eapply Forall_impl; [|exact Hu3]. cbn [pb_wlits]. intros i (Hi & Hne).
    destruct (nth_error wsF i) as [wl|] eqn:Hwl; [|apply nth_error_None in Hwl; lia].
    exists wl. split.
    - rewrite HnthG. destruct (Nat.eqb_spec i (Nat.pred nwF)) as [->|Hnp].
      + rewrite Nat.eqb_refl. exact Hwl.
      + destruct (Nat.eqb_spec i index); [lia|].
        destruct (Nat.eqb_spec i (Nat.pred nwF)); [lia | exact Hwl].
    - intros Hguard.
      pose proof (proj1 (Forall_forall _ _) HwF wl (nth_error_In _ _ Hwl)) as Hwl0.
      cbv beta in Hwl0.
      pose proof (weight_le_total wsF wl HwF (nth_error_In _ _ Hwl)) as HwlW.
      rewrite <- (total_weight_perm _ _ Hperm) in HwlW. fold W in HwlW.
      rewrite (u32_id (k + fst wl)) in Hguard by (unfold is_u32; lia).
      apply Z.ltb_lt in Hguard.
      destruct (lit_holds rho (snd wl)) eqn:Hh; [reflexivity | exfalso].
      rewrite (Hprefix Hlt) in Hsat.
      assert (Hwl' : nth_error (firstn nwF wsF) i = Some wl).
      { rewrite nth_error_firstn. destruct (Nat.ltb_spec i nwF); [exact Hwl | lia]. }
      pose proof (weight_true_two_false rho (firstn nwF wsF) i index wl (val, alit)
                    (Forall_firstn _ nwF wsF HwF) Hne Hwl' HnthF' Hh Hfalse) as Hb.
      cbn [fst] in Hb. lia. }
  destruct Hfinal as (s7 & Hr7 & He7 & Ha7 & Hi7).
  rewrite (bind_eq _ _ _ _ _ Hr7).
  exists s7, (mk_pb hd k slackF (Nat.pred nwF) ms wsG).
  split; [reflexivity|]. split; [now rewrite Ha7|]. cbn [pb_k pb_wlits pb_num_watch pb_slack].
  split; [reflexivity|].
  split; [exact (Permutation_trans Hperm (swap_list_perm _ _ _ _ HsG))|].
  split; [lia|]. split; [exact HslG|]. split; [exact Hok|]. split; [exact He7|].
  intros Hinc. apply Hi7. destruct Hs6 as [_ X]. congruence.
Qed.

(** The pb [2 x1 + x2 + x3 >= 2] watching its first two terms. *)
Definition pb_watching_two : pb :=
  mk_pb (new_header 3 null_literal) 2 3 2 4 [(2, x_ 1); (1, x_ 2); (1, x_ 3)].

(** The constraint at address [1] after the decision [~x1]. *)
Definition x1_false : ba_solver :=
  set_m_allocator (solver.upd (fun _ => None) 1 (Some (Pb pb_watching_two)))
    (decide (neg (x_ 1)) empty_solver).

Lemma extends_x1_false : extends (fun v => negb (v =? 1)) x1_false.
Proof.
  intros [v [|]] Hv; unfold lit_holds; cbn [var sign];
    unfold value, solver.value in Hv; cbn [var sign] in Hv;
    unfold x1_false, decide in Hv; cbn in Hv; unfold solver.upd in Hv;
    destruct (Z.eqb_spec v 1); subst; try discriminate Hv; try reflexivity.
Qed.

Lemma add_assign_pb_keeps_models_witness :
  exists s',
    @add_assign_pb reference_externals 1 (x_ 1) x1_false = Ret l_undef s' /\
    extends (fun v => negb (v =? 1)) s' /\
    value s' (x_ 2) = l_true /\ value s' (x_ 3) = l_true.
Proof.
  destruct (@add_assign_pb_keeps_models reference_externals
              (fun v => negb (v =? 1)) 1 (x_ 1) pb_watching_two x1_false)
    as (s' & p' & Hr & _ & _ & _ & _ & _ & _ & He & _).
  - reflexivity.
  - repeat constructor; cbn; lia.
  - cbn. lia.
  - vm_compute. discriminate.
  - vm_compute. lia.
  - reflexivity.
  - cbn. now left.
  - reflexivity.
  - exact extends_x1_false.
  - unfold sat_pb. vm_compute. discriminate.
  - assert (Hc : match @add_assign_pb reference_externals 1 (x_ 1) x1_false with
                 | Ret _ s' => value s' (x_ 2) = l_true /\ value s' (x_ 3) = l_true
                 | _ => False
                 end) by (vm_compute; split; reflexivity).
    rewrite Hr in Hc. exists s'. split; [exact Hr|]. split; [exact He | exact Hc].
Defined.

(** ** Explanation of a propagation by a parity constraint *)

(** [value(y) == l_true ? y : ~y]. *)
Definition true_polarity (s : ba_solver) (y : literal) : literal :=
  if lbool_eqb (value s y) l_true then y else neg y.

(** [ba_solver::get_antecedents(literal, xor const&, literal_vector&)]: the
    literals appended to [r]; [None] where the source reads past the end of
    the constraint. *)
Definition get_antecedents_xor (s : ba_solver) (l : literal) (x : xor)
  : option (list literal) :=
  let r := if negb (is_null (c_lit (xor_hd x))) then [c_lit (xor_hd x)] else [] in
  match nth_error (xor_lits x) 0 with
  | None => None
  | Some x0 =>
      let rest := map (true_polarity s) (skipn 2 (xor_lits x)) in
      if var x0 =? var l then
        match nth_error (xor_lits x) 1 with
        | None => None
        | Some x1 => Some (r ++ true_polarity s x1 :: rest)
        end
      else Some (r ++ true_polarity s x0 :: rest)
  end.

(** The total assignment that makes exactly the true variables of the
    core true. *)
Definition current (s : ba_solver) : bool_var -> bool :=
  fun v => lbool_eqb (solver.m_assignment (m_solver s) v) l_true.

Lemma extends_current s : extends (current s) s.
Proof.
  intros l. unfold value, solver.value, lit_holds, current.
  destruct (sign l), (solver.m_assignment (m_solver s) (var l)); cbn; congruence.
Qed.

Lemma true_polarity_true s y : value s y <> l_undef -> value s (true_polarity s y) = l_true.
Proof.
  unfold true_polarity. intros Hy. destruct (value s y) eqn:Hv; cbn [lbool_eqb].
  - now rewrite value_neg, Hv.
  - congruence.
  - exact Hv.
Qed.

(** An assignment that makes the true polarity of an assigned literal true
    gives the literal the value it has in the core. *)
Lemma true_polarity_agrees rho s y :
  value s y <> l_undef -> lit_holds rho (true_polarity s y) = true ->
  lit_holds rho y = lit_holds (current s) y.
Proof.
  unfold true_polarity. intros Hy Hh. destruct (value s y) eqn:Hv; cbn [lbool_eqb] in Hh.
  - rewrite (extends_false _ s y (extends_current s) Hv).
    rewrite lit_holds_neg in Hh. now destruct (lit_holds rho y).
  - congruence.
  - now rewrite (extends_current s y Hv).
Qed.

Lemma parity_true_agree rho rho' ls :
  (forall y, In y ls -> lit_holds rho y = lit_holds rho' y) ->
  parity_true rho ls = parity_true rho' ls.
Proof.
  unfold parity_true. induction ls as [|y ls IH]; intros H; cbn [fold_right]; [reflexivity|].
  rewrite (H y (or_introl eq_refl)), IH; [reflexivity|].
  intros z Hz. apply H. now right.
Qed.

Lemma lit_holds_same_var rho rho' l y :
  var y = var l -> lit_holds rho y = lit_holds rho' y -> lit_holds rho l = lit_holds rho' l.
Proof.
  unfold lit_holds. intros ->.
  destruct (sign l), (sign y), (rho (var l)), (rho' (var l)); cbn; congruence.
Qed.

(** X26: the explanation of a propagation by a parity constraint is a
    valid reason.  Let the current assignment give every literal of the
    constraint a value and satisfy it, let the reifying literal (if any) be
    true, and let [l] be a true literal whose variable is at one of the two
    watched positions.  Then [get_antecedents(l, x, r)] appends only
    literals that are true, and every total assignment that makes them true
    and satisfies the constraint makes [l] true. *)
Theorem xor_explanation_valid (s : ba_solver) (l : literal) (x : xor) (r : list literal) :
  get_antecedents_xor s l x = Some r ->
  (is_null (c_lit (xor_hd x)) = false -> value s (c_lit (xor_hd x)) = l_true) ->
  (exists i y, (i < 2)%nat /\ nth_error (xor_lits x) i = Some y /\ var y = var l) ->
  value s l = l_true -> eval_xor s x = l_true ->
  (forall a, In a r -> value s a = l_true) /\
  (forall rho, (forall a, In a r -> lit_holds rho a = true) -> sat_xor rho x ->
               lit_holds rho l = true).
Proof.
  intros Hr Hlit (i & y & Hi & Hy & Hvy) Hl Hev.
  assert (Hassigned : forall z, In z (xor_lits x) -> value s z <> l_undef).
  { intros z Hz Hu.
    destruct (eval_xor_loop_spec s (xor_lits x) false) as (H1 & _).
    unfold eval_xor in Hev. rewrite (proj2 H1) in Hev; [discriminate|].
    exists z. now split. }
  assert (Hodd : parity_true (current s) (xor_lits x) = true).
  { destruct (eval_xor_loop_spec s (xor_lits x) false) as (_ & H2).
    unfold eval_xor in Hev.
    rewrite (H2 (current s) (extends_current s)), xorb_false_l in Hev by congruence.
    now destruct (parity_true (current s) (xor_lits x)). }
  pose proof (extends_current s l Hl) as Hcl.
  unfold get_antecedents_xor in Hr. unfold sat_xor.
  set (hd := if negb (is_null (c_lit (xor_hd x))) then [c_lit (xor_hd x)] else []) in Hr.
  assert (Hhd : forall a, In a hd -> value s a = l_true).
  { unfold hd. intros a Ha. destruct (is_null (c_lit (xor_hd x))) eqn:Hn; cbn in Ha.
    - contradiction.
    - destruct Ha as [<-|[]]. now apply Hlit. }
  destruct (xor_lits x) as [|x0 [|x1 rest]] eqn:Hls; cbn [nth_error skipn map] in Hr.
  - discriminate Hr.
  - exfalso. destruct (Z.eqb_spec (var x0) (var l)) as [_|Hne]; [discriminate Hr|].
    destruct i as [|[|i]]; cbn in Hy; [|discriminate | lia].
    injection Hy as <-. contradiction.
  - destruct (Z.eqb_spec (var x0) (var l)) as [Hv0|Hne]; injection Hr as <-.
    + (* [l] is at position 0 *)
      split.
      * intros a Ha. apply in_app_or in Ha. destruct Ha as [Ha|[<-|Ha]].
        -- now apply Hhd.
        -- apply true_polarity_true, Hassigned. cbn; auto.
        -- apply in_map_iff in Ha. destruct Ha as (z & <- & Hz).
           apply true_polarity_true, Hassigned. cbn; auto.
      * intros rho Hall Hsat.
        assert (Hag : forall z, In z (x1 :: rest) ->
                                lit_holds rho z = lit_holds (current s) z).
        { intros z Hz. apply true_polarity_agrees.
          - apply Hassigned. now right.
          - apply Hall, in_or_app. right. destruct Hz as [<-|Hz]; [now left|].
            right. now apply in_map. }
        change (parity_true rho (x0 :: x1 :: rest))
          with (xorb (lit_holds rho x0) (parity_true rho (x1 :: rest))) in Hsat.
        change (parity_true (current s) (x0 :: x1 :: rest))
          with (xorb (lit_holds (current s) x0) (parity_true (current s) (x1 :: rest)))
          in Hodd.
        rewrite (parity_true_agree rho (current s) _ Hag) in Hsat.
        rewrite <- Hcl. apply (lit_holds_same_var rho (current s) l x0 Hv0).
        destruct (lit_holds rho x0), (lit_holds (current s) x0),
          (parity_true (current s) (x1 :: rest)); cbn in *; congruence.
    + (* [l] is at position 1 *)
      assert (Hv1 : var x1 = var l).
      { destruct i as [|[|i]]; cbn in Hy; [| |lia]; injection Hy as <-;
          [contradiction | exact Hvy]. }
      split.
      * intros a Ha. apply in_app_or in Ha. destruct Ha as [Ha|[<-|Ha]].
        -- now apply Hhd.
        -- apply true_polarity_true, Hassigned. cbn; auto.
        -- apply in_map_iff in Ha. destruct Ha as (z & <- & Hz).
           apply true_polarity_true, Hassigned. cbn; auto.
      * intros rho Hall Hsat.
        assert (Hag0 : lit_holds rho x0 = lit_holds (current s) x0).
        { apply true_polarity_agrees.
          - apply Hassigned. now left.
          - apply Hall, in_or_app. right. now left. }
        assert (Hag : forall z, In z rest -> lit_holds rho z = lit_holds (current s) z).
        { intros z Hz. apply true_polarity_agrees.
          - apply Hassigned. now right; right.
          - apply Hall, in_or_app. right. right. now apply in_map. }
        change (parity_true rho (x0 :: x1 :: rest))
          with (xorb (lit_holds rho x0)
                     (xorb (lit_holds rho x1) (parity_true rho rest))) in Hsat.
        change (parity_true (current s) (x0 :: x1 :: rest))
          with (xorb (lit_holds (current s) x0)
                     (xorb (lit_holds (current s) x1) (parity_true (current s) rest)))
          in Hodd.
        rewrite (parity_true_agree rho (current s) _ Hag), Hag0 in Hsat.
        rewrite <- Hcl. apply (lit_holds_same_var rho (current s) l x1 Hv1).
        destruct (lit_holds rho x1), (lit_holds (current s) x0),
          (lit_holds (current s) x1), (parity_true (current s) rest);
          cbn in *; congruence.
Qed.

(** The constraint [xor_3] after the decisions [~x1], [~x3] and [x2]. *)
Definition x2_true : ba_solver := decide (x_ 2) x1_x3_false.

Lemma xor_explanation_valid_witness :
  get_antecedents_xor x2_true (x_ 2) xor_3 = Some [neg (x_ 1); neg (x_ 3)] /\
  forall rho,
    (forall a, In a [neg (x_ 1); neg (x_ 3)] -> lit_holds rho a = true) ->
    sat_xor rho xor_3 -> lit_holds rho (x_ 2) = true.
Proof.
  split; [reflexivity|].
  apply (xor_explanation_valid x2_true (x_ 2) xor_3 [neg (x_ 1); neg (x_ 3)]).
  - reflexivity.
  - intros H. discriminate H.
  - exists 1%nat, (x_ 2). split; [lia|]. split; reflexivity.
  - reflexivity.
  - reflexivity.
Defined.

(** ** The resolver keeps track of its coefficients *)

(** Every variable with a non-zero coefficient is recorded as active. *)
Definition tracked (s : ba_solver) : Prop :=
  forall v, m_coeffs s v <> 0 -> In v (m_active_vars s).

(** [tracked], with the variables [vs] known to be active. *)
Definition tracking (vs : list bool_var) (s : ba_solver) : Prop :=
  tracked s /\ incl vs (m_active_vars s).

Lemma tracking_nil s : tracked s <-> tracking [] s.
Proof. unfold tracking. split; [intros H; split; [exact H | intros ? []] | tauto]. Qed.

Lemma tracking_active s : tracked s -> tracking (m_active_vars s) s.
Proof. intros H. split; [exact H | apply incl_refl]. Qed.

Section Tracking.
Variable vs0 : list bool_var.
Let I := tracking vs0.

(** A step that leaves the coefficients and the active variables alone. *)
Lemma tracked_steady f :
  (forall s, m_coeffs (f s) = m_coeffs s /\ m_active_vars (f s) = m_active_vars s) ->
  inv I (modify f).
Proof.
  intros H. apply inv_modify. intros s (Ht & Hi). destruct (H s) as (Hc & Ha).
  unfold I, tracking, tracked. rewrite Hc, Ha. now split.
Qed.

Ltac tracked_leaf := apply tracked_steady; intros; split; reflexivity.

Lemma tracked_latch_overflow : inv I latch_overflow.
Proof. unfold latch_overflow. tracked_leaf. Qed.

Lemma tracked_s_modify g : inv I (s_modify g).
Proof. unfold s_modify. tracked_leaf. Qed.

Lemma tracked_set_coeff v c : In v vs0 -> inv I (set_coeff v c).
Proof.
  intros Hv. apply inv_modify. intros s (Ht & Hi). split; [|exact Hi].
  unfold tracked. intros w Hw. cbn in Hw |- *. unfold solver.upd in Hw.
  destruct (Z.eqb_spec w v) as [Heq|_]; [rewrite Heq; apply Hi, Hv | apply Ht, Hw].
Qed.

Hint Resolve tracked_latch_overflow tracked_s_modify : inv.
Hint Extern 2 (inv _ (modify _)) => tracked_leaf : inv.

Lemma tracked_inc_bound i : inv I (inc_bound i).
Proof. unfold inc_bound. inv_auto. Qed.

Lemma tracked_get_abs_coeff v : inv I (get_abs_coeff v).
Proof. unfold get_abs_coeff. inv_auto. Qed.

Hint Resolve tracked_inc_bound tracked_get_abs_coeff : inv.

Lemma tracked_cut_has_unit vs : inv I (cut_has_unit vs).
Proof. induction vs as [|v vs IH]; cbn [cut_has_unit]; inv_auto. Qed.

Lemma tracked_cut_gcd vs : forall g, incl vs vs0 -> inv I (cut_gcd vs g).
Proof.
  induction vs as [|v vs IH]; intros g Hin; cbn [cut_gcd]; [inv_auto|].
  assert (Hv : In v vs0) by (apply Hin; now left).
  assert (Hvs : incl vs vs0) by (intros w Hw; apply Hin; now right).
  pose proof (fun c => tracked_set_coeff v c Hv) as Hset.
  destruct (g =? 1); [inv_auto|].
  apply inv_bind; [inv_auto|]. intros coeff.
  destruct (coeff =? 0); [now apply IH|].
  apply inv_bind; [inv_auto|]. intros b.
  apply inv_bind; [|intros; now apply IH].
  destruct (b <? coeff); inv_auto.
Qed.

(** A loop whose body is safe for the elements of the list. *)
Lemma tracked_for_each {A} (l : list A) (f : A -> M unit) :
  (forall x, In x l -> inv I (f x)) -> inv I (for_each l f).
Proof.
  induction l as [|x l IH]; intros H; cbn [for_each]; [inv_auto|].
  apply inv_bind; [apply H; now left|]. intros _. apply IH.
  intros y Hy. apply H. now right.
Qed.

End Tracking.

Lemma tracked_inc_coeff l offset : inv tracked (inc_coeff l offset).
Proof.
  unfold inc_coeff. apply spec_bind_gets. intros s0 Hs0.
  apply (spec_bind _ _ _ (fun _ => tracking [var l])).
  - intros s ->. destruct (Z.eqb_spec (m_coeffs s0 (var l)) 0) as [Hz|Hnz]; cbn [when].
    + split.
      * intros v Hv. cbn in Hv |- *. apply in_or_app. left. apply Hs0, Hv.
      * intros v [<-|[]]. cbn. apply in_or_app. right. now left.
    + split; [exact Hs0|]. intros v [<-|[]]. apply Hs0, Hnz.
  - intros _. apply (spec_weaken _ (tracking [var l]) _ _ (fun _ => tracking [var l]));
      [|auto | intros _ s Hs; exact (proj1 Hs)].
    pose proof (fun c => tracked_set_coeff [var l] (var l) c (or_introl eq_refl)) as Hset.
    pose proof (tracked_inc_bound [var l]) as Hib.
    pose proof (tracked_latch_overflow [var l]) as Hlo.
    match goal with |- spec ?P ?m _ => change (inv P m) end.
    inv_auto.
Qed.

Lemma tracked_process_antecedent l offset : inv tracked (process_antecedent l offset).
Proof.
  unfold process_antecedent. apply inv_bind; [inv_auto|]. intros s0.
  apply inv_bind; [|intros _; apply tracked_inc_coeff].
  apply inv_when.
  apply (spec_weaken _ (tracking []) _ _ (fun _ => tracking []));
    [|intros s Hs; now apply tracking_nil | intros _ s Hs; now apply tracking_nil].
  match goal with |- spec ?P ?m _ => change (inv P m) end.
  apply inv_bind; [apply tracked_s_modify|]. intros _.
  apply tracked_steady. intros; split; reflexivity.
Qed.

Lemma tracked_process_card idx offset : inv tracked (process_card idx offset).
Proof.
  pose proof tracked_process_antecedent as Hpa.
  pose proof tracked_inc_coeff as Hic.
  assert (Hlo : inv tracked latch_overflow).
  { apply inv_modify. intros s Hs. exact Hs. }
  unfold process_card, to_card, card_at, to_card, index2constraint. inv_auto.
Qed.

Lemma tracked_normalize_active_coeffs : inv tracked normalize_active_coeffs.
Proof.
  apply inv_modify. intros s Hs v Hv. cbn in Hv |- *.
  apply normalize_loop_In. split; [apply Hs, Hv|]. split; [intros []|exact Hv].
Qed.

Lemma tracked_cut : inv tracked cut.
Proof.
  unfold cut. apply spec_bind_gets. intros s0 Hs0.
  apply (spec_weaken _ (tracking (m_active_vars s0)) _ _ (fun _ => tracked));
    [|intros s ->; now apply tracking_active | auto].
  apply (spec_bind _ _ _ (fun _ => tracking (m_active_vars s0)));
    [apply tracked_cut_has_unit|]. intros unit.
  destruct unit; [apply spec_ret; intros s Hs; exact (proj1 Hs)|].
  apply (spec_bind _ _ _ (fun _ => tracking (m_active_vars s0)));
    [apply tracked_cut_gcd, incl_refl|]. intros g.
  destruct (2 <=? g); [|apply spec_ret; intros s Hs; exact (proj1 Hs)].
  apply (spec_bind _ _ _ (fun _ => tracked)).
  { apply (spec_weaken _ tracked _ _ (fun _ => tracked));
      [apply tracked_normalize_active_coeffs | intros s Hs; exact (proj1 Hs) | auto]. }
  intros _. apply spec_bind_gets. intros s1 Hs1.
  apply (spec_weaken _ (tracking (m_active_vars s1)) _ _
                     (fun _ => tracking (m_active_vars s1)));
    [|intros s ->; now apply tracking_active | intros _ s Hs; exact (proj1 Hs)].
  match goal with |- spec ?P ?m _ => change (inv P m) end.
  apply inv_bind.
  - apply tracked_for_each. intros v Hv.
    apply inv_bind; [inv_auto|]. intros c. now apply tracked_set_coeff.
  - intros _. apply tracked_steady. intros; split; reflexivity.
Qed.

(** The loop of [reset_coeffs] clears the coefficients of the listed
    variables and no other. *)
Lemma reset_coeffs_loop vs : forall s,
  exists s',
    for_each vs (fun v => set_coeff v 0) s = Ret tt s' /\
    m_active_vars s' = m_active_vars s /\ m_bound s' = m_bound s /\
    (forall w, In w vs -> m_coeffs s' w = 0) /\
    (forall w, ~ In w vs -> m_coeffs s' w = m_coeffs s w).
Proof.
  induction vs as [|v vs IH]; intros s; cbn [for_each].
  - exists s. repeat split; auto. intros w [].
  - erewrite bind_eq by reflexivity.
    destruct (IH (set_m_coeffs (solver.upd (m_coeffs s) v 0) s))
      as (s' & Hr & Ha & Hb & Hin & Hout).
    exists s'. split; [exact Hr|]. split; [exact Ha|]. split; [exact Hb|]. split.
    + intros w Hw. destruct (in_dec Z.eq_dec w vs) as [Hi|Hni]; [now apply Hin|].
      rewrite (Hout w Hni). cbn. unfold solver.upd.
      destruct Hw as [->|Hw]; [now rewrite Z.eqb_refl | contradiction].
    + intros w Hw. rewrite Hout by (intros H; apply Hw; now right).
      cbn. unfold solver.upd. destruct (Z.eqb_spec w v) as [->|_]; [|reflexivity].
      exfalso. apply Hw. now left.
Qed.

(** X27: the resolver keeps track of its coefficients.  The property that
    every variable with a non-zero coefficient is in the list of active
    variables is preserved by [inc_coeff], [process_antecedent],
    [process_card], [normalize_active_coeffs] and [cut]; none of them
    raises an exception.  From a state with the property [reset_coeffs]
    returns with every coefficient zero and no active variable. *)
Theorem resolvent_coefficients_tracked :
  (forall l offset, inv tracked (inc_coeff l offset)) /\
  (forall l offset, inv tracked (process_antecedent l offset)) /\
  (forall idx offset, inv tracked (process_card idx offset)) /\
  inv tracked normalize_active_coeffs /\
  inv tracked cut /\
  (forall s, tracked s ->
     exists s', reset_coeffs s = Ret tt s' /\
                (forall v, m_coeffs s' v = 0) /\ m_active_vars s' = [] /\
                m_bound s' = m_bound s).
Proof.
  split; [exact tracked_inc_coeff|]. split; [exact tracked_process_antecedent|].
  split; [exact tracked_process_card|]. split; [exact tracked_normalize_active_coeffs|].
  split; [exact tracked_cut|].
  intros s Hs. unfold reset_coeffs. erewrite bind_eq by reflexivity.
  destruct (reset_coeffs_loop (m_active_vars s) s) as (s1 & Hr & Ha & Hb & Hin & Hout).
  rewrite (bind_eq _ _ _ _ _ Hr).
  eexists. split; [reflexivity|]. cbn [m_coeffs m_active_vars m_bound set_m_active_vars].
  split; [|split; [reflexivity|]].
  - intros v. destruct (in_dec Z.eq_dec v (m_active_vars s)) as [Hi|Hni];
      [now apply Hin|].
    rewrite (Hout v Hni). destruct (Z.eq_dec (m_coeffs s v) 0) as [Hz|Hnz]; [exact Hz|].
    contradiction (Hni (Hs v Hnz)).
  - exact Hb.
Qed.

Lemma resolvent_coefficients_tracked_witness :
  exists s1 s2,
    inc_coeff (x_ 1) 2 (set_m_bound 5 empty_solver) = Ret tt s1 /\ m_coeffs s1 1 = 2 /\
    reset_coeffs s1 = Ret tt s2 /\ forall v, m_coeffs s2 v = 0.
Proof.
  destruct resolvent_coefficients_tracked as (Hinc & _ & _ & _ & _ & Hreset).
  assert (H0 : tracked (set_m_bound 5 empty_solver))
    by (intros v Hv; now contradiction Hv).
  pose proof (Hinc (x_ 1) 2 _ H0) as H1.
  destruct (inc_coeff (x_ 1) 2 (set_m_bound 5 empty_solver)) as [[] s1| | | |] eqn:Hr;
    try discriminate Hr.
  destruct (Hreset s1 H1) as (s2 & Hr2 & Hz & _).
  exists s1, s2. split; [reflexivity|].
  split; [injection Hr as <-; reflexivity|]. split; [exact Hr2 | exact Hz].
Defined.
